(** * bbc-frontend: the cover downloader, embedded and verified

    A shallow embedding of [src/lib/svelte/downloader.svelte.ts] (class
    [Downloader]) and of [src/apis/bbc.ts] (class [BBC_API]).

    Conventions of the embedding.
    - A JavaScript string is a Rocq [string], read as the UTF-8 encoding
      of the text.  All characters the code singles out are either ASCII
      or named explicitly, and UTF-8 is self-synchronising, so searching
      and replacing byte sequences agrees with the code-unit operations
      of the source.
    - Pixel sizes, scores, page numbers and counters are integers ([Z]).
      Where the source goes through floating point ([Math.floor],
      [Math.round], a quotient) the same expression is written over the
      rationals [Q]; [Math.sqrt] followed by [Math.floor] is the integer
      square root.
    - An optional field ([x?: T]) is an [option]; a truthiness test is
      written out with the helpers of module [JS].
    - [Record<string, T>] objects used as dictionaries are [gmap string T],
      the map of the object's own entries.  Where such an object is
      read or written under a name that is rendered from book data
      (module [Packaging]) the names every object inherits from
      [Object.prototype] ([constructor], [toString], [__proto__], ...)
      are modelled as well.
    - Helpers that live outside the embedded files (the image proxy's URL
      builder, the filename sanitiser, the template substitution, the
      network) are parameters of the sections that use them. *)

From Stdlib Require Import ZArith QArith Qround Lia List String Ascii Bool
  Sorted.
From stdpp Require Import gmap strings list pretty.

Local Open Scope string_scope.
Local Open Scope list_scope.
Local Open Scope Z_scope.

(** ** JavaScript primitives used by the embedded code *)

Module JS.

(** [x || d] on an optional number: [undefined] and [0] give [d]. *)
Definition num_or (x : option Z) (d : Z) : Z :=
  match x with
  | Some v => if v =? 0 then d else v
  | None => d
  end.

(** Truthiness of an optional number, string and boolean. *)
Definition truthy_num (x : option Z) : bool :=
  match x with Some v => negb (v =? 0) | None => false end.

Definition truthy_str (x : option string) : bool :=
  match x with Some "" => false | Some _ => true | None => false end.

Definition truthy_bool (x : option bool) : bool :=
  match x with Some b => b | None => false end.

(** [x ?? d]. *)
Definition nullish {A} (x : option A) (d : A) : A :=
  match x with Some v => v | None => d end.

(** [Array.prototype.slice(start, end)] for [0 <= start <= end]. *)
Definition slice {T} (array : list T) (start stop : nat) : list T :=
  take (stop - start) (drop start array).

(** [Math.floor] and [Math.round] (halves go up) on exact quotients. *)
Definition Math_floor (q : Q) : Z := Qfloor q.
Definition Math_round (q : Q) : Z := Qfloor (q + (1 # 2)).

(** [Math.floor(Math.sqrt(n) / d)] for a non-negative integer [n]:
    the floor of a quotient by a positive integer only depends on the
    integer part of the dividend. *)
Definition floor_sqrt_div (n d : Z) : Z := Z.sqrt n / d.

(** [String.prototype.toLowerCase] on the ASCII letters.  (No character
    outside ASCII lower-cases to one of the letters of the keys this
    development looks up.) *)
Definition lower_ascii (c : ascii) : ascii :=
  let n := nat_of_ascii c in
  if ((65 <=? n) && (n <=? 90))%nat then ascii_of_nat (n + 32) else c.

Fixpoint toLowerCase (s : string) : string :=
  match s with
  | EmptyString => EmptyString
  | String c t => String (lower_ascii c) (toLowerCase t)
  end.

End JS.

(** ** [BBC_API.chopArray] *)

Module BBC_API.

Definition bookPagesMaxCount : nat := 12.
Definition zipMaxCount : nat := 6.

(** The [for (let i = 0; i < array.length; i += chunkSize)] loop.  With
    [chunkSize = 0] the source never leaves the loop; here the loop runs
    out of [fuel] and yields [None]. *)
Fixpoint chop_loop {T} (fuel : nat) (array : list T) (chunkSize i : nat)
    (result : list (list T)) : option (list (list T)) :=
  if (i <? length array)%nat then
    match fuel with
    | O => None
    | S fuel' =>
        chop_loop fuel' array chunkSize (i + chunkSize)
          (result ++ [JS.slice array i (i + chunkSize)])
    end
  else Some result.

Definition chopArray {T} (array : list T) (chunkSize : nat)
    : option (list (list T)) :=
  chop_loop (length array) array chunkSize 0 [].

End BBC_API.

(** ** Data model of the downloader *)

(** [Provider] (from [apis/providers.ts]; the fields the downloader reads). *)
Record Provider := mkProvider {
  provider_id : string;
  provider_name : string;
  provider_locale : string;
  supportsBookPages : bool;
  ignoreErrors : bool;
  volumePrefix : option string;
}.

(** [interface Book extends BBCBook]. *)
Record Book := mkBook {
  id : string;
  title : string;
  cover : string;
  seriesId : option string;
  thumbnail : string;
  provider : Provider;
  volumeName : string;
  volumeNumber : string;
  displayText : string;
  coverFormat : option string;
  coverHeight : option Z;
  coverWidth : option Z;
  coverIsCropped : option bool;
  originalCover : option string;
  originalThumbnail : option string;
  originalWidth : option Z;
  chromaSubsampling : option string;
  coverQualityScore : option Z;
  selectedPage : option Z;
}.

(** ** Crop geometry and quality score *)

Module Cover.

(** [Math.floor((width / height) * 100) / 100]. *)
Definition aspect (width height : Z) : Q :=
  inject_Z (JS.Math_floor ((inject_Z width / inject_Z height) * 100)) / 100.

(** [calculateCropAmount]; [None] is the [undefined] of falling off the
    end of the function. *)
Definition calculateCropAmount (width height : Z) : option Z :=
  let aspect := aspect width height in
  if (880 <=? width) && (width <=? 964) && (height =? 1200) then Some 120
  else if (220 <=? width) && (width <=? 241) && (height =? 300) then Some 30
  else if (4000 <? height) && Qle_bool (73 # 100) aspect
          && negb (Qle_bool (8 # 10) aspect) then Some (-355)
  else if (2000 <? width) && (2000 <? height) && Qle_bool (73 # 100) aspect
          && negb (Qle_bool (8 # 10) aspect) then Some (-211)
  else if (width <? 2000) && (2000 <? height) && Qle_bool (73 # 100) aspect
          && negb (Qle_bool (8 # 10) aspect) then Some (-224)
  else None.

Definition formatScores : gmap string Z :=
  {[ "png" := 9; "jpeg" := 6; "jpg" := 6; "webp" := 3 ]}.

Definition chromaScores : gmap string Z :=
  {[ "4:4:4" := 8; "4:2:2" := 6; "4:2:0" := 4 ]}.

(** [getCoverQualityScore]. *)
Definition getCoverQualityScore (book : Book) : Z :=
  let resolution :=
    JS.num_or (coverWidth book) 0 * JS.num_or (coverHeight book) 0 in
  let resScore := JS.floor_sqrt_div resolution 20 in
  let formatKey := JS.toLowerCase <$> coverFormat book in
  let formatScore :=
    match formatKey with
    | Some key =>
        if JS.truthy_str formatKey then JS.num_or (formatScores !! key) 0
        else 0
    | None => 0
    end in
  let isJpeg :=
    bool_decide (formatKey = Some "jpeg")
    || bool_decide (formatKey = Some "jpg") in
  let chromaScore :=
    if isJpeg && JS.truthy_str (chromaSubsampling book) then
      match chromaSubsampling book with
      | Some chroma => JS.num_or (chromaScores !! chroma) 4
      | None => 8
      end
    else 8 in
  let totalScore := resScore + formatScore + chromaScore in
  JS.Math_round (inject_Z totalScore / 2).

(** *** The same two functions as the specification words them *)

(** One row of the crop decision table. *)
Record crop_row := mkRow {
  row_applies : Z → Z → bool;
  row_amount : Z;
}.

(** [aspect] lies in [[0.73, 0.80)], with [aspect] the ratio
    [width / height] cut to two decimals: in integers,
    [73 <= floor (100 * width / height) < 80]. *)
Definition aspect_in_band (width height : Z) : bool :=
  (73 <=? (100 * width) / height) && ((100 * width) / height <? 80).

Definition crop_decision_table : list crop_row :=
  [ mkRow (λ w h, (880 <=? w) && (w <=? 964) && (h =? 1200)) 120;
    mkRow (λ w h, (220 <=? w) && (w <=? 241) && (h =? 300)) 30;
    mkRow (λ w h, (4000 <? h) && aspect_in_band w h) (-355);
    mkRow (λ w h, (2000 <? w) && (2000 <? h) && aspect_in_band w h) (-211);
    mkRow (λ w h, (w <? 2000) && (2000 <? h) && aspect_in_band w h) (-224) ].

(** Rows are tried in order, the first that applies wins. *)
Fixpoint first_match (table : list crop_row) (w h : Z) : option Z :=
  match table with
  | [] => None
  | row :: rest =>
      if row_applies row w h then Some (row_amount row)
      else first_match rest w h
  end.

(** The quality score of the specification: the format table keyed by
    the format name, and for jpeg/jpg the chroma table, in which a
    chroma value that is not listed (or not there at all) scores 4. *)
Definition spec_formatScore (format : option string) : Z :=
  match format with
  | Some f =>
      if String.eqb f "png" then 9
      else if String.eqb f "jpeg" || String.eqb f "jpg" then 6
      else if String.eqb f "webp" then 3
      else 0
  | None => 0
  end.

Definition is_jpeg (format : option string) : bool :=
  match format with
  | Some f => String.eqb f "jpeg" || String.eqb f "jpg"
  | None => false
  end.

Definition spec_chromaTable (chroma : option string) : Z :=
  match chroma with
  | Some c =>
      if String.eqb c "4:4:4" then 8
      else if String.eqb c "4:2:2" then 6
      else if String.eqb c "4:2:0" then 4
      else 4
  | None => 4
  end.

Definition spec_chromaScore (format chroma : option string) : Z :=
  if is_jpeg format then spec_chromaTable chroma else 8.

Definition spec_resolutionScore (width height : Z) : Z :=
  Z.sqrt (width * height) / 20.

Definition spec_score (book : Book) : Z :=
  let total :=
    spec_resolutionScore (JS.nullish (coverWidth book) 0)
                         (JS.nullish (coverHeight book) 0)
    + spec_formatScore (coverFormat book)
    + spec_chromaScore (coverFormat book) (chromaSubsampling book) in
  JS.Math_round (inject_Z total / 2).

End Cover.

(** ** Cropping and un-cropping a cover, [toggleCropCovers] *)

(** The options object passed to the image proxy's URL builder
    ([WsrvOptions] of [apis/wsrv.ts]); an absent key is [None]. *)
Record WsrvOptions := mkWsrv {
  wsrv_output : option string;
  wsrv_quality : option Z;
  wsrv_width : option Z;
  wsrv_height : option Z;
  wsrv_cw : option Z;
  wsrv_cx : option Z;
}.

Module Crop.

(** [THUMBNAIL_DATA]. *)
Definition THUMBNAIL_width : Z := 336.
Definition THUMBNAIL_output : string := "jpg".
Definition THUMBNAIL_quality : Z := 60.

Definition THUMBNAIL_DATA : WsrvOptions :=
  mkWsrv (Some THUMBNAIL_output) (Some THUMBNAIL_quality)
         (Some THUMBNAIL_width) None None None.

Definition coverCanBeCropped (b : Book) : bool :=
  JS.truthy_bool (coverIsCropped b)
  || match coverWidth b, coverHeight b with
     | Some w, Some h =>
         negb (w =? 0) && negb (h =? 0)
         && bool_decide (Cover.calculateCropAmount w h ≠ None)
     | _, _ => false
     end.

Definition coverShouldBeCropped (b : Book) : bool :=
  match coverWidth b, coverHeight b with
  | Some w, Some h =>
      negb (w =? 0) && negb (h =? 0)
      && bool_decide (Cover.calculateCropAmount w h ≠ None)
      && negb (JS.truthy_bool (coverIsCropped b))
  | _, _ => false
  end.

Section WithImageProxy.
(** [imageApi.getUrl(url, options).href], and the two crop settings. *)
Variable getUrl : string → WsrvOptions → string.
Variable cropFormatSetting : string.
Variable cropQualitySetting : Z.

(** The body of the loop for [crop = false]. *)
Definition uncropCover (book : Book) : Book :=
  let restored :=
    mkBook (id book) (title book)
      (JS.nullish (originalCover book) (cover book))
      (seriesId book)
      (JS.nullish (originalThumbnail book) (thumbnail book))
      (provider book) (volumeName book) (volumeNumber book)
      (displayText book) (coverFormat book) (coverHeight book)
      (match originalWidth book with
       | Some w => Some w
       | None => coverWidth book
       end)
      (Some false) None None None
      (chromaSubsampling book) (coverQualityScore book)
      (selectedPage book) in
  mkBook (id restored) (title restored) (cover restored)
    (seriesId restored) (thumbnail restored) (provider restored)
    (volumeName restored) (volumeNumber restored) (displayText restored)
    (coverFormat restored) (coverHeight restored) (coverWidth restored)
    (coverIsCropped restored) (originalCover restored)
    (originalThumbnail restored) (originalWidth restored)
    (chromaSubsampling restored)
    (Some (Cover.getCoverQualityScore restored))
    (selectedPage restored).

(** The second half of the loop body for [crop = true], from
    [const absoluteCropAmount] on: the crop is applied. *)
Definition applyCrop (book : Book) (width height cropAmount : Z) : Book :=
  let absoluteCropAmount := Z.abs cropAmount in
  let croppedWidth := width - absoluteCropAmount in
  let cropUrl :=
    getUrl (cover book)
      (mkWsrv (Some cropFormatSetting) (Some cropQualitySetting)
         (Some width) (Some height)
         (if 0 <? cropAmount then Some croppedWidth else None)
         (if cropAmount <? 0 then Some absoluteCropAmount else None)) in
  let thumbnailAbsoluteCropAmount :=
    JS.Math_round
      (inject_Z absoluteCropAmount
       * (inject_Z THUMBNAIL_width / inject_Z width)) in
  let thumbnailCroppedWidth :=
    THUMBNAIL_width - thumbnailAbsoluteCropAmount in
  let thumbnailCropUrl :=
    getUrl (cover book)
      (mkWsrv (Some THUMBNAIL_output) (Some THUMBNAIL_quality)
         (Some THUMBNAIL_width) None
         (if 0 <? cropAmount then Some thumbnailCroppedWidth else None)
         (if cropAmount <? 0 then Some thumbnailAbsoluteCropAmount
          else None)) in
  let cropped :=
    mkBook (id book) (title book) cropUrl (seriesId book)
      thumbnailCropUrl (provider book) (volumeName book)
      (volumeNumber book) (displayText book) (coverFormat book)
      (coverHeight book) (Some croppedWidth) (Some true)
      (Some (cover book)) (Some (thumbnail book)) (Some width)
      (chromaSubsampling book) (coverQualityScore book)
      (selectedPage book) in
  mkBook (id cropped) (title cropped) (cover cropped) (seriesId cropped)
    (thumbnail cropped) (provider cropped) (volumeName cropped)
    (volumeNumber cropped) (displayText cropped) (coverFormat cropped)
    (coverHeight cropped) (coverWidth cropped) (coverIsCropped cropped)
    (originalCover cropped) (originalThumbnail cropped)
    (originalWidth cropped) (chromaSubsampling cropped)
    (Some (Cover.getCoverQualityScore cropped)) (selectedPage cropped).

(** The loop body for [crop = true]; every [continue] leaves the book
    as it is. *)
Definition cropCover (book : Book) : Book :=
  if JS.truthy_bool (coverIsCropped book) then book
  else
    match coverHeight book, coverWidth book with
    | Some height, Some width =>
        if (height =? 0) || (width =? 0) then book
        else
          match Cover.calculateCropAmount width height with
          | None => book
          | Some cropAmount =>
              if cropAmount =? 0 then book
              else applyCrop book width height cropAmount
          end
    | _, _ => book
    end.

Definition toggleCropCover (crop : bool) (book : Book) : Book :=
  if crop then cropCover book else uncropCover book.

(** [toggleCropCovers(books, crop)] updates every book of the array in
    place.  Both loop bodies are idempotent (see
    [toggleCropCover_idempotent]), so a book object that occurs twice
    in the array ends up as if visited once. *)
Definition toggleCropCovers (books : list Book) (crop : bool)
    : list Book :=
  toggleCropCover crop <$> books.

End WithImageProxy.

End Crop.

(** ** The automatic quality pick, [automaticallyPickCovers] *)

(** A [Book] object of the heap: the code keeps books in a [Set] and
    compares them by identity, so an object carries its address. *)
Record BookObj := mkObj {
  addr : nat;
  obj : Book;
}.

Module Picker.

(** [Array.prototype.findIndex]: the first position that satisfies the
    test, [-1] when there is none. *)
Fixpoint findIndex {A} (test : A → bool) (l : list A) : Z :=
  match l with
  | [] => -1
  | x :: rest =>
      if test x then 0
      else
        let i := findIndex test rest in
        if i =? -1 then -1 else i + 1
  end.

(** [Array.prototype.sort(compare)] is a stable sort; against a
    consistent comparator every stable sort returns the same array.
    Insertion from the right, each element placed before the first one
    it does not have to follow. *)
Fixpoint sort_insert {A} (compare : A → A → Z) (x : A) (l : list A)
    : list A :=
  match l with
  | [] => [x]
  | y :: rest =>
      if compare x y <=? 0 then x :: y :: rest
      else y :: sort_insert compare x rest
  end.

Definition sort {A} (compare : A → A → Z) (l : list A) : list A :=
  foldr (sort_insert compare) [] l.

(** The first element of the sorted array, computed directly: going
    from the right, an element takes the lead unless it has to follow
    the current leader ([sort_head] below). *)
Fixpoint leader {A} (compare : A → A → Z) (l : list A) : option A :=
  match l with
  | [] => None
  | x :: rest =>
      match leader compare rest with
      | None => Some x
      | Some h => if compare x h <=? 0 then Some x else Some h
      end
  end.

(** The [Map<string, Book[]>], in insertion order: [has]/[set]/[get]
    then [push]. *)
Fixpoint group_push (groups : list (string * list BookObj)) (key : string)
    (book : BookObj) : list (string * list BookObj) :=
  match groups with
  | [] => [(key, [book])]
  | (k, volumeBooks) :: rest =>
      if String.eqb k key then (k, volumeBooks ++ [book]) :: rest
      else (k, volumeBooks) :: group_push rest key book
  end.

Definition booksByVolume (books : list BookObj)
    : list (string * list BookObj) :=
  foldl (λ groups book, group_push groups (volumeName (obj book)) book)
        [] books.

(** The books of one volume name, in array order. *)
Definition group_of (v : string) (books : list BookObj) : list BookObj :=
  filter (λ b, volumeName (obj b) = v) books.


(** The comparator only looks at three numbers of each book. *)
Definition compare_keys (pa qa ia pb qb ib : Z) : Z :=
  if pa <? pb then -1
  else if pb <? pa then 1
  else if negb (qa =? qb) then qb - qa
  else ia - ib.


Section WithState.
(** [this.providers] and [this.selectedBookPage]. *)
Variable providers : list Provider.
Variable selectedBookPage : Z.

(** The comparator handed to [volumeBooks.sort]. *)
Definition compare (a b : BookObj) : Z :=
  let a := obj a in
  let b := obj b in
  let byQuality :=
    let qualityA := JS.num_or (coverQualityScore a) 0 in
    let qualityB := JS.num_or (coverQualityScore b) 0 in
    if negb (qualityA =? qualityB) then qualityB - qualityA
    else
      let providerIndexA :=
        findIndex (λ p, String.eqb (provider_id p)
                                   (provider_id (provider a)))
                  providers in
      let providerIndexB :=
        findIndex (λ p, String.eqb (provider_id p)
                                   (provider_id (provider b)))
                  providers in
      providerIndexA - providerIndexB in
  if 0 <? selectedBookPage then
    if supportsBookPages (provider a)
       && negb (supportsBookPages (provider b)) then -1
    else if negb (supportsBookPages (provider a))
            && supportsBookPages (provider b) then 1
    else byQuality
  else byQuality.

(** The second loop: one address per group goes into [booksToKeep]. *)
Definition keep_step (booksToKeep : gset nat)
    (group : string * list BookObj) : gset nat :=
  match snd group with
  | [only] => booksToKeep ∪ {[ addr only ]}
  | volumeBooks =>
      match sort compare volumeBooks with
      | first :: _ => booksToKeep ∪ {[ addr first ]}
      | [] => booksToKeep
      end
  end.

Definition booksToKeep (books : list BookObj) : gset nat :=
  foldl keep_step ∅ (booksByVolume books).

Definition automaticallyPickCovers (books : list BookObj)
    : list BookObj :=
  filter (λ book, addr book ∈ booksToKeep books) books.

(** *** The sort order as the specification words it

    (a) with a page-index preference active, a provider with per-book
    pages goes first; (b) then the higher quality score; (c) then the
    earlier position of the provider in the provider list. *)
Definition pagesRank (b : BookObj) : Z :=
  if 0 <? selectedBookPage then
    if supportsBookPages (provider (obj b)) then 0 else 1
  else 0.

Definition quality (b : BookObj) : Z :=
  JS.num_or (coverQualityScore (obj b)) 0.

Definition providerIndex (b : BookObj) : Z :=
  findIndex (λ p, String.eqb (provider_id p)
                             (provider_id (provider (obj b))))
            providers.

(** [a] sorts strictly ahead of [b]. *)
Definition ahead (a b : BookObj) : Prop :=
  pagesRank a < pagesRank b
  ∨ (pagesRank a = pagesRank b
     ∧ (quality b < quality a
        ∨ (quality a = quality b ∧ providerIndex a < providerIndex b))).

(** [a] and [b] tie on all three criteria. *)
Definition tied (a b : BookObj) : Prop :=
  pagesRank a = pagesRank b ∧ quality a = quality b
  ∧ providerIndex a = providerIndex b.

End WithState.

End Picker.

(** ** Regular expressions, as the engine of the source runs them *)

Module Regex.

(** The fragment the title parser uses.  [Chr] tests one byte; the
    operators are greedy and backtrack in the order of ECMAScript:
    the left alternative first, one more iteration before stopping.
    [Group] is capture group 1. *)
Inductive regex :=
| Eps
| Chr (test : ascii → bool)
| Seq (r1 r2 : regex)
| Alt (r1 r2 : regex)
| Plus (r : regex)
| Opt (r : regex)
| Group (r : regex).

Definition byte_is (c : ascii) : regex := Chr (Ascii.eqb c).

(** A literal, and a literal under the [i] flag (which folds the ASCII
    letters only: no other character canonicalises to one of them). *)
Fixpoint lit (s : string) : regex :=
  match s with
  | EmptyString => Eps
  | String c t => Seq (byte_is c) (lit t)
  end.

Fixpoint lit_i (s : string) : regex :=
  match s with
  | EmptyString => Eps
  | String c t =>
      Seq (Chr (λ x, Ascii.eqb (JS.lower_ascii x) (JS.lower_ascii c)))
          (lit_i t)
  end.

(** A character class given by its members, each in UTF-8. *)
Fixpoint any_of (members : list string) : regex :=
  match members with
  | [] => Chr (λ _, false)
  | [m] => lit m
  | m :: rest => Alt (lit m) (any_of rest)
  end.

Definition is_digit (c : ascii) : bool :=
  let n := nat_of_ascii c in ((48 <=? n) && (n <=? 57))%nat.

(** [\d] *)
Definition digit : regex := Chr is_digit.

Definition bytes (codes : list Z) : string :=
  string_of_list_ascii ((λ n, ascii_of_nat (Z.to_nat n)) <$> codes).

(** [\s]: the white space and line terminators of ECMAScript. *)
Definition white_space : list string :=
  [ bytes [9]; bytes [10]; bytes [11]; bytes [12]; bytes [13]; bytes [32];
    bytes [194; 160]; bytes [225; 154; 128];
    bytes [226; 128; 128]; bytes [226; 128; 129]; bytes [226; 128; 130];
    bytes [226; 128; 131]; bytes [226; 128; 132]; bytes [226; 128; 133];
    bytes [226; 128; 134]; bytes [226; 128; 135]; bytes [226; 128; 136];
    bytes [226; 128; 137]; bytes [226; 128; 138];
    bytes [226; 128; 168]; bytes [226; 128; 169]; bytes [226; 128; 175];
    bytes [226; 129; 159]; bytes [227; 128; 128]; bytes [239; 187; 191] ].

Definition space : regex := any_of white_space.

(** The loop of [r+]: one pass of [body], then as many more as match
    (each has to consume something), then the rest [k].  [fuel] bounds
    the number of further passes; the length of the subject is enough. *)
Definition plus_loop {R}
    (body : string → option string
            → (string → option string → option R) → option R)
    (k : string → option string → option R)
    : nat → string → option string → option R :=
  fix iterate (fuel : nat) (s : string) (cap : option string) : option R :=
    body s cap
      (λ s' cap',
         match fuel with
         | O => k s' cap'
         | S fuel' =>
             if (String.length s' <? String.length s)%nat then
               match iterate fuel' s' cap' with
               | Some x => Some x
               | None => k s' cap'
               end
             else k s' cap'
         end).

(** The backtracking matcher, in continuation-passing style: [k] is
    what has to match after [r]; [cap] is the text of group 1 so far.
    The result is that of the first path that succeeds. *)
Fixpoint rmatch {R} (r : regex) (s : string) (cap : option string)
    (k : string → option string → option R) : option R :=
  match r with
  | Eps => k s cap
  | Chr test =>
      match s with
      | String c rest => if test c then k rest cap else None
      | EmptyString => None
      end
  | Seq r1 r2 => rmatch r1 s cap (λ s' cap', rmatch r2 s' cap' k)
  | Alt r1 r2 =>
      match rmatch r1 s cap k with
      | Some x => Some x
      | None => rmatch r2 s cap k
      end
  | Opt r1 =>
      match rmatch r1 s cap k with
      | Some x => Some x
      | None => k s cap
      end
  | Plus r1 => plus_loop (rmatch r1) k (String.length s) s cap
  | Group r1 =>
      rmatch r1 s cap
        (λ s' _,
           k s' (Some (substring 0 (String.length s - String.length s') s)))
  end.

(** Whether [r] can match the empty string. *)
Fixpoint nullable (r : regex) : bool :=
  match r with
  | Eps => true
  | Chr _ => false
  | Seq r1 r2 => nullable r1 && nullable r2
  | Alt r1 r2 => nullable r1 || nullable r2
  | Plus r1 => nullable r1
  | Opt _ => true
  | Group r1 => nullable r1
  end.

(** The paths of [c+] for a class [c], in the order the matcher tries
    them: the longest run first, then one character less at a time. *)
Fixpoint plus_chr {R} (test : ascii → bool) (s : string)
    (k : string → option R) : option R :=
  match s with
  | String c rest =>
      if test c then
        match plus_chr test rest k with
        | Some x => Some x
        | None => k rest
        end
      else None
  | EmptyString => None
  end.

(** What a successful match consumed: the continuation was run on a
    suffix of the subject, and not on the whole of it when the pattern
    cannot match the empty string. *)
Definition consumes (R : Type) (r : regex) : Prop :=
  ∀ s cap (k : string → option string → option R) x,
    rmatch r s cap k = Some x →
    ∃ p s' cap',
      s = p +:+ s' ∧ k s' cap' = Some x ∧ (nullable r = false → p ≠ "").

(** One match: where it starts, its text, group 1, and what follows. *)
Record found := mkFound {
  found_index : nat;
  found_text : string;
  found_group : option string;
  found_rest : string;
}.

Definition match_here (r : regex) (s : string) (i : nat) : option found :=
  rmatch r s None
    (λ s' cap,
       Some (mkFound i (substring 0 (String.length s - String.length s') s)
                     cap s')).

(** The leftmost match at or after the start of [s]. *)
Fixpoint search (r : regex) (s : string) (i : nat) : option found :=
  match match_here r s i with
  | Some m => Some m
  | None =>
      match s with
      | EmptyString => None
      | String _ rest => search r rest (S i)
      end
  end.

(** [RegExp.prototype.exec] on a fresh regex, and [String.prototype.match]
    without the [g] flag: the array [[text, group1]]. *)
Definition exec (r : regex) (s : string) : option (list (option string)) :=
  match search r s 0 with
  | Some m => Some [Some (found_text m); found_group m]
  | None => None
  end.

(** The successive matches of a [g] regex: the search resumes where the
    last match ended (one character further after an empty match). *)
Fixpoint matches_from (fuel : nat) (r : regex) (s : string) : list string :=
  match fuel with
  | O => []
  | S fuel' =>
      match search r s 0 with
      | None => []
      | Some m =>
          found_text m
          :: (if (String.length (found_text m) =? 0)%nat then
                match found_rest m with
                | EmptyString => []
                | String _ rest => matches_from fuel' r rest
                end
              else matches_from fuel' r (found_rest m))
      end
  end.

(** [String.prototype.match] with the [g] flag: every match, or [null]. *)
Definition match_g (r : regex) (s : string) : option (list (option string)) :=
  match matches_from (S (String.length s)) r s with
  | [] => None
  | texts => Some (Some <$> texts)
  end.

(** [String.prototype.replace] with a [g] regex, and [replaceAll] with a
    string pattern; the replacement is a plain string. *)
Fixpoint replace_from (fuel : nat) (r : regex) (by_ : string) (s : string)
    : string :=
  match fuel with
  | O => s
  | S fuel' =>
      match rmatch r s None (λ s' _, Some s') with
      | Some s' =>
          if (String.length s' <? String.length s)%nat
          then by_ +:+ replace_from fuel' r by_ s'
          else
            match s with
            | EmptyString => by_
            | String c rest => by_ +:+ String c (replace_from fuel' r by_ rest)
            end
      | None =>
          match s with
          | EmptyString => EmptyString
          | String c rest => String c (replace_from fuel' r by_ rest)
          end
      end
  end.

Definition replace_g (r : regex) (by_ : string) (s : string) : string :=
  replace_from (S (String.length s)) r by_ s.

Definition replaceAll (pattern by_ : string) (s : string) : string :=
  replace_g (lit pattern) by_ s.

(** [Array.prototype.pop]: the last element, [undefined] on an empty
    array or when that element is [undefined]. *)
Definition pop (array : list (option string)) : option string :=
  mjoin (last array).

End Regex.

(** ** The title parser *)

Module Title.
Import Regex.

(** [\d+(?:(?:\.\d+)+)?] *)
Definition number : regex :=
  Seq (Plus digit) (Opt (Plus (Seq (byte_is ".") (Plus digit)))).

(** [/[．,#/／・年月]/g] *)
Definition separators : regex :=
  any_of ["．"; ","; "#"; "/"; "／"; "・"; "年"; "月"].

Definition japaneseCharacters : list string :=
  ["０"; "１"; "２"; "３"; "４"; "５"; "６"; "７"; "８"; "９"].

(** [/(?:Volume\s+|Chapter\s+|vol\.|No\.)(\d+(?:(?:\.\d+)+)?)/i] *)
Definition explicit_marker : regex :=
  Seq (Alt (Seq (lit_i "Volume") (Plus space))
         (Alt (Seq (lit_i "Chapter") (Plus space))
            (Alt (lit_i "vol.") (lit_i "No."))))
      (Group number).

(** [/\((\d+(?:(?:\.\d+)+)?)\)/g] *)
Definition parenthesized : regex :=
  Seq (byte_is "(") (Seq (Group number) (byte_is ")")).

(** [/ (\d+(?:(?:\.\d+)+)?) /g] *)
Definition space_delimited : regex :=
  Seq (byte_is " ") (Seq (Group number) (byte_is " ")).

(** [/(\d+(?:(?:\.\d+)+)?)/g] *)
Definition any_number : regex := Group number.

(** [/(?:0+)?(\d+(?:(?:\.\d+)+)?)/g] *)
Definition without_leading_zeros : regex :=
  Seq (Opt (Plus (byte_is "0"))) (Group number).

(** [/Chapter|#\d+/i] *)
Definition chapter_marker : regex :=
  Alt (lit_i "Chapter") (Seq (byte_is "#") (Plus digit)).

Definition getVolumePrefix (title : string) : string :=
  match search chapter_marker title 0 with
  | Some _ => "Chapter"
  | None => "Volume"
  end.

(** [a || b] on two optional arrays. *)
Definition or_else {A} (a b : option A) : option A :=
  match a with Some _ => a | None => b end.

Definition normalize (title : string) : string :=
  let volumeString := replace_g separators "." title in
  foldl (λ volumeString '(i, character),
           replaceAll character (pretty (Z.of_nat i)) volumeString)
        volumeString (imap (λ i character, (i, character)) japaneseCharacters).

Definition getVolumeNumber (title : string) : option string :=
  let volumeString := normalize title in
  let spaceMatch :=
    or_else (exec explicit_marker volumeString)
      (or_else (match_g parenthesized volumeString)
         (or_else (match_g space_delimited volumeString)
            (match_g any_number volumeString))) in
  let spaceMatchN := spaceMatch ≫= pop in
  let volumeString :=
    if JS.truthy_str spaceMatchN then JS.nullish spaceMatchN volumeString
    else volumeString in
  match exec without_leading_zeros volumeString with
  | Some volumeNumbers =>
      let volumeNumberString := pop volumeNumbers in
      if JS.truthy_str volumeNumberString then volumeNumberString else None
  | None => None
  end.

(** *** The same extraction as the specification words it *)

(** The text after the prefix [p] of [s], when [s] starts with [p]. *)
Fixpoint strip_prefix (p s : string) : option string :=
  match p with
  | EmptyString => Some s
  | String a p' =>
      match s with
      | String b s' => if Ascii.eqb a b then strip_prefix p' s' else None
      | EmptyString => None
      end
  end.

(** The first entry of a glyph table whose glyph starts [s]. *)
Fixpoint glyph_at (table : list (string * string)) (s : string)
    : option (string * string) :=
  match table with
  | [] => None
  | (glyph, by_) :: rest =>
      match strip_prefix glyph s with
      | Some _ => Some (glyph, by_)
      | None => glyph_at rest s
      end
  end.

(** One pass from left to right: a glyph of the table is replaced, any
    other character is kept ([skip] characters of a replaced glyph are
    still to be dropped). *)
Fixpoint translate (table : list (string * string)) (skip : nat)
    (s : string) : string :=
  match s with
  | EmptyString => EmptyString
  | String c rest =>
      match skip with
      | S skip' => translate table skip' rest
      | O =>
          match glyph_at table s with
          | Some (glyph, by_) =>
              by_ +:+ translate table (String.length glyph - 1) rest
          | None => String c (translate table 0 rest)
          end
      end
  end.

(** Locale punctuation becomes a period, full-width digits their ASCII
    digit. *)
Definition glyphs : list (string * string) :=
  [ ("．", "."); (",", "."); ("#", "."); ("/", "."); ("／", ".");
    ("・", "."); ("年", "."); ("月", ".");
    ("０", "0"); ("１", "1"); ("２", "2"); ("３", "3"); ("４", "4");
    ("５", "5"); ("６", "6"); ("７", "7"); ("８", "8"); ("９", "9") ].

Definition normalize_glyphs (title : string) : string :=
  translate glyphs 0 title.

(** A glyph that can join a table: every entry of the table replaces a
    non-empty glyph by one character; that character does not start the
    new glyph; and no later byte of the new glyph starts a glyph of the
    table or is such a replacement. *)
Definition joins (table : list (string * string)) (glyph : string) : bool :=
  match glyph with
  | String c tail =>
      forallb (λ '(glyph', by_),
                 match glyph', by_ with
                 | String a _, String x EmptyString =>
                     negb (Ascii.eqb x c)
                     && forallb (λ d, negb (Ascii.eqb a d)
                                      && negb (Ascii.eqb x d))
                          (list_ascii_of_string tail)
                 | _, _ => false
                 end) table
  | EmptyString => false
  end.

(** The successive matches of a [g] pattern. *)
Definition matches (r : regex) (s : string) : list string :=
  matches_from (S (String.length s)) r s.

(** What the four patterns select, in priority order: the number of the
    first explicit marker; else the last parenthesized number; else the
    last space-delimited number; else the last number. *)
Definition selected (s : string) : option string :=
  match search explicit_marker s 0 with
  | Some m => found_group m
  | None =>
      match last (matches parenthesized s) with
      | Some text => Some text
      | None =>
          match last (matches space_delimited s) with
          | Some text => Some text
          | None => last (matches any_number s)
          end
      end
  end.

(** The longest run of characters that pass [test], and what follows. *)
Fixpoint span (test : ascii → bool) (s : string) : string * string :=
  match s with
  | String c rest =>
      if test c then (String c (span test rest).1, (span test rest).2)
      else (EmptyString, s)
  | EmptyString => (EmptyString, EmptyString)
  end.

(** The dotted sub-parts [.digits] that follow, as many as there are. *)
Fixpoint dotted (fuel : nat) (s : string) : string * string :=
  match fuel with
  | O => (EmptyString, s)
  | S fuel' =>
      match s with
      | String c rest =>
          if Ascii.eqb "." c then
            match span is_digit rest with
            | (EmptyString, _) => (EmptyString, s)
            | (digits, r) =>
                (String c digits +:+ (dotted fuel' r).1, (dotted fuel' r).2)
            end
          else (EmptyString, s)
      | EmptyString => (EmptyString, s)
      end
  end.

(** A number at the start of [s]: digits with optional dotted
    sub-parts, as long as possible. *)
Definition scan_number (s : string) : option (string * string) :=
  match span is_digit s with
  | (EmptyString, _) => None
  | (digits, r) =>
      Some (digits +:+ (dotted (String.length r) r).1,
            (dotted (String.length r) r).2)
  end.

(** The first number in [s]. *)
Fixpoint first_number (s : string) : option string :=
  match scan_number s with
  | Some (n, _) => Some n
  | None =>
      match s with
      | String _ rest => first_number rest
      | EmptyString => None
      end
  end.

(** A number without its run of leading zeros (the last digit of an
    all-zero integer part stays). *)
Fixpoint strip_zeros (n : string) : string :=
  match n with
  | String c rest =>
      if Ascii.eqb "0" c then
        match rest with
        | String d _ => if is_digit d then strip_zeros rest else n
        | EmptyString => n
        end
      else n
  | EmptyString => n
  end.

(** What [(?:0+)?(number)] finds at the start of [s]: the number after
    the longest run of zeros that still leaves one. *)
Definition stripped (s : string) : option (string * string) :=
  match plus_chr (Ascii.eqb "0") s scan_number with
  | Some x => Some x
  | None => scan_number s
  end.

(** The extraction of the specification: normalize, select, take the
    number, strip the zeros. *)
Definition extractOrderingNumber (title : string) : option string :=
  strip_zeros <$> (selected (normalize_glyphs title) ≫= first_number).

(** The specification's wording with the last match for every pattern,
    the explicit marker included. *)
Definition selected_last (s : string) : option string :=
  match last (matches explicit_marker s) with
  | Some text => Some text
  | None =>
      match last (matches parenthesized s) with
      | Some text => Some text
      | None =>
          match last (matches space_delimited s) with
          | Some text => Some text
          | None => last (matches any_number s)
          end
      end
  end.

Definition extractOrderingNumber_last (title : string) : option string :=
  strip_zeros <$> (selected_last (normalize_glyphs title) ≫= first_number).

(** [String.prototype.trim], on the white space of [\s]. *)
Fixpoint trim_start (fuel : nat) (s : string) : string :=
  match fuel with
  | O => s
  | S fuel' =>
      match rmatch space s None (λ s' _, Some s') with
      | Some s' => trim_start fuel' s'
      | None => s
      end
  end.

Fixpoint ends_with_space (s : string) : bool :=
  match s with
  | EmptyString => false
  | String _ rest =>
      match rmatch space s None (λ s' _, Some s') with
      | Some EmptyString => true
      | _ => ends_with_space rest
      end
  end.

Fixpoint drop_last_space (s : string) : string :=
  match s with
  | EmptyString => EmptyString
  | String c rest =>
      match rmatch space s None (λ s' _, Some s') with
      | Some EmptyString => EmptyString
      | _ => String c (drop_last_space rest)
      end
  end.

Fixpoint trim_end (fuel : nat) (s : string) : string :=
  match fuel with
  | O => s
  | S fuel' =>
      if ends_with_space s then trim_end fuel' (drop_last_space s) else s
  end.

Definition trim (s : string) : string :=
  trim_end (String.length s) (trim_start (String.length s) s).

(** [parseVolumeName(title, { forcePrefix })]. *)
Definition parseVolumeName (title : string) (forcePrefix : option string)
    : string :=
  let volumePrefix :=
    if JS.truthy_str forcePrefix then JS.nullish forcePrefix ""
    else getVolumePrefix title in
  let volumeNumber := getVolumeNumber title in
  if JS.truthy_str volumeNumber
  then volumePrefix +:+ " " +:+ JS.nullish volumeNumber ""
  else trim title.

End Title.

(** ** The download packaging pipeline, [downloadSelectedCovers] *)

Module Packaging.

(** A [Uint8Array]. *)
Definition buffer := list Z.

(** The result of [fileTypeFromBuffer] (package [file-type]). *)
Record FileType := mkFileType {
  ext : string;
  mime : string;
}.

(** What [fileSaver.saveAs] is handed: the bytes of one image, or the
    archive [zipSync(imagesToZip, { level })] of an object, given by
    its own entries; [SavedArchiveOver] is the archive of an object
    whose prototype has been replaced by an image (see [assign]). *)
Inductive Saved :=
| SavedFile (content : buffer) (filename : string)
| SavedArchive (entries : gmap string buffer) (level : Z) (filename : string)
| SavedArchiveOver (prototype : buffer) (entries : gmap string buffer)
    (level : Z) (filename : string).

(** The names an object literal inherits from [Object.prototype]. *)
Definition inherited_names : list string :=
  ["constructor"; "__defineGetter__"; "__defineSetter__"; "hasOwnProperty";
   "__lookupGetter__"; "__lookupSetter__"; "isPrototypeOf";
   "propertyIsEnumerable"; "toString"; "valueOf"; "__proto__";
   "toLocaleString"].

Definition inherited (name : string) : bool :=
  existsb (String.eqb name) inherited_names.

(** [String.prototype.lastIndexOf] of one character: the position of
    its last occurrence, [-1] without one. *)
Fixpoint lastIndexOf (c : ascii) (s : string) : Z :=
  match s with
  | EmptyString => -1
  | String x rest =>
      let i := lastIndexOf c rest in
      if 0 <=? i then i + 1
      else if Ascii.eqb x c then 0 else -1
  end.

(** [s.substring(0, i)] and [s.substring(i)]. *)
Definition substring_to (i : Z) (s : string) : string :=
  substring 0 (Z.to_nat i) s.
Definition substring_from (i : Z) (s : string) : string :=
  substring (Z.to_nat i) (String.length s - Z.to_nat i) s.

(** [key.split('/').pop()]: what follows the last slash. *)
Definition leaf (key : string) : string :=
  let i := lastIndexOf "/" key in
  if 0 <=? i then substring_from (i + 1) key else key.

(** [text || fallback] on strings. *)
Definition str_or (text fallback : string) : string :=
  match text with EmptyString => fallback | _ => text end.

(** The state the loop over the selected books works on:
    [knownFilenames] holds the counters (the own entries of
    [this.knownFilenames] that are numbers), [imagesToZip] the own
    entries of the object of that name and [prototype] the image that
    has replaced its prototype, if one has. *)
Record Loop := mkLoop {
  knownFilenames : gmap string Z;
  imagesToZip : gmap string buffer;
  prototype : option buffer;
  errors : list string;
}.

(** A turn of the loop goes on to the next book with a new state, or
    throws, which ends the loop; the errors reported until then
    stay. *)
Inductive Turn :=
| Next (st : Loop)
| Thrown (reported : list string).

(** What an assignment [object[name] = value] does when [name] is not
    an own property of [object] and the prototype of [object] is a
    [Uint8Array]. *)
Inductive Assignment := Stores | Ignores | Throws.

(** Lines 851-855.  A name without a counter gets counter 0 and a name
    with a counter has it incremented, unless the name is inherited
    from [Object.prototype] and has no counter: reading it gives the
    inherited value, which is not [undefined], and incrementing that
    gives no number (the write stores [NaN] in a plain object and is
    dropped by the proxy that wraps a [$state] object).  Either way
    every later read is neither [undefined] nor above 0, so the name
    has no counter. *)
Definition count_use (imageFileName : string) (known : gmap string Z)
    : gmap string Z :=
  match known !! imageFileName with
  | Some n => <[imageFileName := n + 1]> known
  | None =>
      if inherited imageFileName then known
      else <[imageFileName := 0]> known
  end.

Section WithHelpers.
(** [filterFilename(name, { isPath: true })] of [utils.ts], the type
    sniffer, [parseTextVariables(text, { book, extension })] and the
    three template settings. *)
Variable filterFilename : string → string.
Variable fileTypeFromBuffer : buffer → option FileType.
Variable parseTextVariables :
  string → option Book → option string → string.
Variable coverPathSetting : string.
Variable coverFilenameSetting : string.
Variable zipFilenameSetting : string.
(** The engine's [[Set]] through a [Uint8Array] prototype, by the
    prototype and the name assigned: it creates the own property,
    does nothing (a numeric name that is no index of the array) or
    throws a [TypeError] (a name the typed arrays only have a getter
    for, such as [length]). *)
Variable assignUnder : buffer → string → Assignment.

(** The file type of an image that goes into the output; [None] when
    the book is skipped (no bytes, or not an image). *)
Definition eligible (imageBuffer : option buffer) : option FileType :=
  match imageBuffer with
  | None => None
  | Some bytes =>
      match fileTypeFromBuffer bytes with
      | Some type =>
          if String.prefix "image/" (mime type) then Some type else None
      | None => None
      end
  end.

(** The file name rendered for a book, before collisions are looked
    at. *)
Definition renderedFileName (book : Book) (type : FileType) : string :=
  let imagePath := parseTextVariables coverPathSetting (Some book) None in
  filterFilename
    ((match imagePath with
      | EmptyString => EmptyString
      | _ => imagePath +:+ "/"
      end)
     +:+ parseTextVariables coverFilenameSetting (Some book)
           (Some (ext type))).

(** [name (N).ext], or [name (N)] without an extension. *)
Definition numbered (imageFileName : string) (count : Z) : string :=
  let lastDotIndex := lastIndexOf "." imageFileName in
  if 0 <? lastDotIndex then
    let nameWithoutExt := substring_to lastDotIndex imageFileName in
    let ext := substring_from lastDotIndex imageFileName in
    filterFilename (nameWithoutExt +:+ " (" +:+ pretty count +:+ ")" +:+ ext)
  else
    filterFilename (imageFileName +:+ " (" +:+ pretty count +:+ ")").

(** Line 879, [imagesToZip[imageFileName] = imageBuffer].  The name
    [__proto__] is the setter of [Object.prototype]: the image becomes
    the prototype of [imagesToZip] and no entry is made.  Any other
    name is stored as an own entry, except that once the prototype is
    an image a name that is not yet an own entry goes through the
    prototype first ([assignUnder]). *)
Definition assign (st : Loop) (imageFileName : string) (bytes : buffer)
    : Turn :=
  if String.eqb imageFileName "__proto__" then
    Next (mkLoop (knownFilenames st) (imagesToZip st) (Some bytes)
            (errors st))
  else
    let stored :=
      Next (mkLoop (knownFilenames st)
              (<[imageFileName := bytes]> (imagesToZip st))
              (prototype st) (errors st)) in
    match prototype st, imagesToZip st !! imageFileName with
    | Some image, None =>
        match assignUnder image imageFileName with
        | Stores => stored
        | Ignores => Next st
        | Throws => Thrown (errors st)
        end
    | _, _ => stored
    end.

(** One turn of [for (const [index, book] of this.selectedBooks.entries())]. *)
Definition step (st : Loop) (book : Book) (imageBuffer : option buffer)
    : Turn :=
  match imageBuffer with
  | None =>
      Next
        (mkLoop (knownFilenames st) (imagesToZip st) (prototype st)
           (if ignoreErrors (provider book) then errors st
            else errors st
                 ++ ["Failed to download cover for "
                     +:+ provider_name (provider book) +:+ " - "
                     +:+ title book]))
  | Some bytes =>
      let imageFileType := fileTypeFromBuffer bytes in
      match eligible imageBuffer with
      | None =>
          Next
            (mkLoop (knownFilenames st) (imagesToZip st) (prototype st)
               (if ignoreErrors (provider book) then errors st
                else errors st
                     ++ ["Cover for " +:+ provider_name (provider book)
                         +:+ " - " +:+ title book +:+ " is not an image: "
                         +:+ match imageFileType with
                             | Some type => str_or (mime type) "unknown"
                             | None => "unknown"
                             end]))
      | Some type =>
          let imageFileName := renderedFileName book type in
          let known := count_use imageFileName (knownFilenames st) in
          let count := default 0 (known !! imageFileName) in
          let isKnownName := 0 <? count in
          let imageFileName :=
            if isKnownName then numbered imageFileName count
            else imageFileName in
          assign (mkLoop known (imagesToZip st) (prototype st) (errors st))
            imageFileName bytes
      end
  end.

(** [for (const [index, book] of this.selectedBooks.entries())] with
    [const imageBuffer = images[index]], which is [undefined] past the
    end of [images]. *)
Definition entries (books : list Book) (images : list (option buffer))
    : list (Book * option buffer) :=
  imap (λ index book, (book, mjoin (images !! index))) books.

Fixpoint run (st : Loop) (items : list (Book * option buffer)) : Turn :=
  match items with
  | [] => Next st
  | item :: rest =>
      match step st (fst item) (snd item) with
      | Next st' => run st' rest
      | Thrown reported => Thrown reported
      end
  end.

Definition loop (st : Loop) (books : list Book)
    (images : list (option buffer)) : Turn :=
  run st (entries books images).

(** The name an entry renders, when it is eligible; how many entries
    of a list render a given name. *)
Definition rendered (item : Book * option buffer) : option string :=
  renderedFileName (fst item) <$> eligible (snd item).

Definition occurrences (name : string)
    (items : list (Book * option buffer)) : Z :=
  Z.of_nat (length (filter (λ item, rendered item = Some name) items)).

(** The [if]/[else if]/[else] on [imagesToZipTotal], the number of
    own entries of [imagesToZip]. *)
Definition save (toZip : gmap string buffer) (replaced : option buffer)
    : list Saved :=
  match map_to_list toZip with
  | [] => []
  | [(imageKey, image)] =>
      [SavedFile image (str_or (leaf imageKey) "cover.jpg")]
  | _ =>
      let filename :=
        str_or (parseTextVariables zipFilenameSetting None (Some "zip"))
               "covers.zip" in
      match replaced with
      | None => [SavedArchive toZip 0 filename]
      | Some image => [SavedArchiveOver image toZip 0 filename]
      end
  end.

(** The fields of the downloader this operation reads and writes. *)
Record State := mkState {
  selectedBooks : list Book;
  st_knownFilenames : gmap string Z;
  downloadProgress : option Z;
}.

(** [downloadSelectedCovers].  [covers] is what [api.getCovers] answers
    for the URLs of the selected books: the array of images, or [None]
    when the request throws.  Whatever is thrown inside [try] is
    caught and reported as one more error, and nothing is saved then.
    Returns the new state, what was saved and the errors reported. *)
Definition downloadSelectedCovers (st : State)
    (covers : option (list (option buffer)))
    : State * list Saved * list string :=
  match downloadProgress st with
  | Some _ => (st, [], [])
  | None =>
      let '(saved, reported) :=
        match covers with
        | Some images =>
            match
              loop (mkLoop (st_knownFilenames st) ∅ None [])
                (selectedBooks st) images
            with
            | Next done =>
                (save (imagesToZip done) (prototype done), errors done)
            | Thrown reported =>
                ([], reported ++ ["Failed to download covers"])
            end
        | None => ([], ["Failed to download covers"])
        end in
      (mkState (selectedBooks st) ∅ None, saved, reported)
  end.

End WithHelpers.

End Packaging.

(** ** The aggregation orchestrator: [initialize], [fetchSeries],
    [fetchBooks], [resetAll], [changePage], [incrementPage],
    [toggleSortOrder] *)

(** The wire types of [apis/bbc.ts]. *)
Inductive BBCSort := asc | desc.

Record BBCSeries := mkBBCSeries {
  series_id : string;
  series_type : string;
  series_title : string;
  series_thumbnail : string;
  series_bookType : option string;
  series_publicationType : option string;
}.

Record BBCBook := mkBBCBook {
  bbc_id : string;
  bbc_title : string;
  bbc_cover : string;
  bbc_seriesId : option string;
}.

Record BBCBookPage := mkBBCBookPage {
  bbc_number : Z;
  bbc_url : string;
  bbc_type : string;
  bbc_height : Z;
  bbc_width : Z;
  bbc_bookId : string;
}.

(** [BBCResult<T>]; [data] keeps the order in which the keys were added. *)
Record BBCResult (T : Type) := mkResult {
  result_data : list (string * list T);
  result_count : Z;
  result_pages : Z;
  result_errors : list string;
}.
Arguments mkResult {T}.
Arguments result_data {T}.
Arguments result_count {T}.
Arguments result_pages {T}.
Arguments result_errors {T}.

(** [interface Series extends BBCSeries], [interface BookPage extends
    BBCBookPage]. *)
Record Series := mkSeries {
  series_data : BBCSeries;
  series_provider : Provider;
}.

Record BookPage := mkBookPage {
  page_data : BBCBookPage;
  page_provider : Provider;
}.

(** What [imageApi.getInfo] answers. *)
Record ImageInfo := mkInfo {
  info_format : option string;
  info_height : option Z;
  info_width : option Z;
  info_chromaSubsampling : option string;
}.

(** A call that goes out to the network. *)
Inductive Request :=
| GetSeries (ids : list (string * list string))
| GetBooks (seriesIds bookIds : list (string * list string))
           (sort : BBCSort) (page : Z)
| GetBookPages (providerId : string) (bookIds : list string)
| GetInfo (url : string).

Module Orchestrator.

Definition MAX_SELECTED_SERIES : Z := 10.

(** The names of [textVariables] ([settings.svelte.ts]). *)
Module textVariables.
Definition coverUrl := "COVER_URL".
Definition volumeName := "VOLUME_NAME".
Definition volumeNumber := "VOLUME_NUMBER".
Definition bookPageName := "BOOK_PAGE_NAME".
Definition bookPageNumber := "BOOK_PAGE_NUMBER".
Definition bookTitle := "BOOK_TITLE".
Definition bookId := "BOOK_ID".
Definition seriesTitle := "SERIES_TITLE".
Definition seriesThumbnailUrl := "SERIES_THUMBNAIL_URL".
Definition seriesPublicationType := "SERIES_PUBLICATION_TYPE".
Definition seriesBookType := "SERIES_BOOK_TYPE".
Definition seriesType := "SERIES_TYPE".
Definition seriesId := "SERIES_ID".
Definition providerName := "PROVIDER_NAME".
Definition providerId := "PROVIDER_ID".
Definition providerLanguageName := "PROVIDER_LANGUAGE_NAME".
Definition providerLanguageCode := "PROVIDER_LANGUAGE_CODE".
Definition coverQualityScore := "COVER_QUALITY_SCORE".
Definition coverWidth := "COVER_WIDTH".
Definition coverHeight := "COVER_HEIGHT".
Definition coverCropStatus := "COVER_CROP_STATUS".
Definition fileExtension := "FILE_EXTENSION".
End textVariables.

(** The fields of the downloader the orchestration reads and writes,
    with the requests sent so far, the errors handed to [addAppError]
    and [appState.loading]. *)
Record State := mkState {
  isFetching : bool;
  allSeriesIds : list (string * list string);
  allBookIds : list (string * list string);
  sortOrder : BBCSort;
  automaticCoverQualityEnabled : bool;
  page : Z;
  maxPage : Z;
  incrementPages : bool;
  fetchedPages : list Z;
  allBooks : list Book;
  allSeries : list Series;
  selectedBooks : list Book;
  providers : list Provider;
  selectedProviders : list Provider;
  allBookPages : list BookPage;
  selectedBookPage : Z;
  requests : list Request;
  appErrors : list string;
  loading : bool;
}.

(** Assignment to one field, [this.field = v]. *)
Definition set_isFetching (v : bool) (st : State) : State :=
  mkState v (allSeriesIds st) (allBookIds st) (sortOrder st)
    (automaticCoverQualityEnabled st) (page st) (maxPage st)
    (incrementPages st) (fetchedPages st) (allBooks st) (allSeries st)
    (selectedBooks st) (providers st) (selectedProviders st)
    (allBookPages st) (selectedBookPage st) (requests st) (appErrors st)
    (loading st).

Definition set_allSeriesIds (v : list (string * list string)) (st : State)
    : State :=
  mkState (isFetching st) v (allBookIds st) (sortOrder st)
    (automaticCoverQualityEnabled st) (page st) (maxPage st)
    (incrementPages st) (fetchedPages st) (allBooks st) (allSeries st)
    (selectedBooks st) (providers st) (selectedProviders st)
    (allBookPages st) (selectedBookPage st) (requests st) (appErrors st)
    (loading st).

Definition set_allBookIds (v : list (string * list string)) (st : State)
    : State :=
  mkState (isFetching st) (allSeriesIds st) v (sortOrder st)
    (automaticCoverQualityEnabled st) (page st) (maxPage st)
    (incrementPages st) (fetchedPages st) (allBooks st) (allSeries st)
    (selectedBooks st) (providers st) (selectedProviders st)
    (allBookPages st) (selectedBookPage st) (requests st) (appErrors st)
    (loading st).

Definition set_sortOrder (v : BBCSort) (st : State) : State :=
  mkState (isFetching st) (allSeriesIds st) (allBookIds st) v
    (automaticCoverQualityEnabled st) (page st) (maxPage st)
    (incrementPages st) (fetchedPages st) (allBooks st) (allSeries st)
    (selectedBooks st) (providers st) (selectedProviders st)
    (allBookPages st) (selectedBookPage st) (requests st) (appErrors st)
    (loading st).

Definition set_page (v : Z) (st : State) : State :=
  mkState (isFetching st) (allSeriesIds st) (allBookIds st)
    (sortOrder st) (automaticCoverQualityEnabled st) v (maxPage st)
    (incrementPages st) (fetchedPages st) (allBooks st) (allSeries st)
    (selectedBooks st) (providers st) (selectedProviders st)
    (allBookPages st) (selectedBookPage st) (requests st) (appErrors st)
    (loading st).

Definition set_maxPage (v : Z) (st : State) : State :=
  mkState (isFetching st) (allSeriesIds st) (allBookIds st)
    (sortOrder st) (automaticCoverQualityEnabled st) (page st) v
    (incrementPages st) (fetchedPages st) (allBooks st) (allSeries st)
    (selectedBooks st) (providers st) (selectedProviders st)
    (allBookPages st) (selectedBookPage st) (requests st) (appErrors st)
    (loading st).

Definition set_incrementPages (v : bool) (st : State) : State :=
  mkState (isFetching st) (allSeriesIds st) (allBookIds st)
    (sortOrder st) (automaticCoverQualityEnabled st) (page st)
    (maxPage st) v (fetchedPages st) (allBooks st) (allSeries st)
    (selectedBooks st) (providers st) (selectedProviders st)
    (allBookPages st) (selectedBookPage st) (requests st) (appErrors st)
    (loading st).

Definition set_fetchedPages (v : list Z) (st : State) : State :=
  mkState (isFetching st) (allSeriesIds st) (allBookIds st)
    (sortOrder st) (automaticCoverQualityEnabled st) (page st)
    (maxPage st) (incrementPages st) v (allBooks st) (allSeries st)
    (selectedBooks st) (providers st) (selectedProviders st)
    (allBookPages st) (selectedBookPage st) (requests st) (appErrors st)
    (loading st).

Definition set_allBooks (v : list Book) (st : State) : State :=
  mkState (isFetching st) (allSeriesIds st) (allBookIds st)
    (sortOrder st) (automaticCoverQualityEnabled st) (page st)
    (maxPage st) (incrementPages st) (fetchedPages st) v (allSeries st)
    (selectedBooks st) (providers st) (selectedProviders st)
    (allBookPages st) (selectedBookPage st) (requests st) (appErrors st)
    (loading st).

Definition set_allSeries (v : list Series) (st : State) : State :=
  mkState (isFetching st) (allSeriesIds st) (allBookIds st)
    (sortOrder st) (automaticCoverQualityEnabled st) (page st)
    (maxPage st) (incrementPages st) (fetchedPages st) (allBooks st) v
    (selectedBooks st) (providers st) (selectedProviders st)
    (allBookPages st) (selectedBookPage st) (requests st) (appErrors st)
    (loading st).

Definition set_selectedBooks (v : list Book) (st : State) : State :=
  mkState (isFetching st) (allSeriesIds st) (allBookIds st)
    (sortOrder st) (automaticCoverQualityEnabled st) (page st)
    (maxPage st) (incrementPages st) (fetchedPages st) (allBooks st)
    (allSeries st) v (providers st) (selectedProviders st)
    (allBookPages st) (selectedBookPage st) (requests st) (appErrors st)
    (loading st).

Definition set_providers (v : list Provider) (st : State) : State :=
  mkState (isFetching st) (allSeriesIds st) (allBookIds st)
    (sortOrder st) (automaticCoverQualityEnabled st) (page st)
    (maxPage st) (incrementPages st) (fetchedPages st) (allBooks st)
    (allSeries st) (selectedBooks st) v (selectedProviders st)
    (allBookPages st) (selectedBookPage st) (requests st) (appErrors st)
    (loading st).

Definition set_selectedProviders (v : list Provider) (st : State) : State :=
  mkState (isFetching st) (allSeriesIds st) (allBookIds st)
    (sortOrder st) (automaticCoverQualityEnabled st) (page st)
    (maxPage st) (incrementPages st) (fetchedPages st) (allBooks st)
    (allSeries st) (selectedBooks st) (providers st) v (allBookPages st)
    (selectedBookPage st) (requests st) (appErrors st) (loading st).

Definition set_allBookPages (v : list BookPage) (st : State) : State :=
  mkState (isFetching st) (allSeriesIds st) (allBookIds st)
    (sortOrder st) (automaticCoverQualityEnabled st) (page st)
    (maxPage st) (incrementPages st) (fetchedPages st) (allBooks st)
    (allSeries st) (selectedBooks st) (providers st)
    (selectedProviders st) v (selectedBookPage st) (requests st)
    (appErrors st) (loading st).

Definition set_requests (v : list Request) (st : State) : State :=
  mkState (isFetching st) (allSeriesIds st) (allBookIds st)
    (sortOrder st) (automaticCoverQualityEnabled st) (page st)
    (maxPage st) (incrementPages st) (fetchedPages st) (allBooks st)
    (allSeries st) (selectedBooks st) (providers st)
    (selectedProviders st) (allBookPages st) (selectedBookPage st) v
    (appErrors st) (loading st).

Definition set_appErrors (v : list string) (st : State) : State :=
  mkState (isFetching st) (allSeriesIds st) (allBookIds st)
    (sortOrder st) (automaticCoverQualityEnabled st) (page st)
    (maxPage st) (incrementPages st) (fetchedPages st) (allBooks st)
    (allSeries st) (selectedBooks st) (providers st)
    (selectedProviders st) (allBookPages st) (selectedBookPage st)
    (requests st) v (loading st).

Definition set_loading (v : bool) (st : State) : State :=
  mkState (isFetching st) (allSeriesIds st) (allBookIds st)
    (sortOrder st) (automaticCoverQualityEnabled st) (page st)
    (maxPage st) (incrementPages st) (fetchedPages st) (allBooks st)
    (allSeries st) (selectedBooks st) (providers st)
    (selectedProviders st) (allBookPages st) (selectedBookPage st)
    (requests st) (appErrors st) v.
(** [record[key]] on a keyed list: the first entry of that key. *)
Fixpoint assoc {T} (key : string) (data : list (string * T)) : option T :=
  match data with
  | [] => None
  | (k, v) :: rest => if String.eqb k key then Some v else assoc key rest
  end.

(** [record[key] = value]: in place when the key is there, at the end
    otherwise. *)
Fixpoint assoc_set {T} (key : string) (value : T)
    (data : list (string * T)) : list (string * T) :=
  match data with
  | [] => [(key, value)]
  | (k, v) :: rest =>
      if String.eqb k key then (k, value) :: rest
      else (k, v) :: assoc_set key value rest
  end.

(** [{ ...a, ...b }]: the keys of [a] in their order, with the values of
    [b] where it has them, then the new keys of [b]. *)
Definition spread {T} (a b : list (string * T)) : list (string * T) :=
  foldl (λ acc entry, assoc_set (fst entry) (snd entry) acc) a b.

(** [new Array(n).fill(0).map((_, i) => i + 1)]: the pages [1 .. n];
    [None] is the [RangeError] of an invalid length. *)
Definition pages_up_to (n : Z) : option (list Z) :=
  if (n <? 0) || (2 ^ 32 <=? n) then None
  else Some ((λ i, Z.of_nat i + 1) <$> seq 0 (Z.to_nat n)).

Definition includes (pages : list Z) (p : Z) : bool :=
  bool_decide (p ∈ pages).

(** [Math.max(0, ...this.allBookPages.map((p) => p.number))] *)
Definition maxBookPage (st : State) : Z :=
  foldr Z.max 0 ((λ p, bbc_number (page_data p)) <$> allBookPages st).

Definition canChangeBookPage (st : State) : bool :=
  existsb supportsBookPages (selectedProviders st) && (0 <? maxBookPage st).

Definition isNextPage (st : State) : bool := page st <? maxPage st.

Definition addAppError (message : string) (st : State) : State :=
  set_appErrors (appErrors st ++ [message]) st.

Definition addAppErrors (messages : list string) (st : State) : State :=
  foldl (λ st message, addAppError message st) st messages.

Definition send (request : Request) (st : State) : State :=
  set_requests (requests st ++ [request]) st.

(** The fields that decide which pages are fetched, and the tracker. *)
Definition paging (st : State) :=
  (fetchedPages st, page st, incrementPages st, isFetching st,
   allSeriesIds st, allBookIds st).

(** The tracker and the two fields that steer it. *)
Definition tracker (st : State) :=
  (fetchedPages st, page st, incrementPages st).

Section WithEnvironment.
(** The network.  An answer may depend on what was sent before (the
    list of earlier requests); [None] is a request that throws. *)
Variable getSeries :
  list Request → list (string * list string) → option (BBCResult BBCSeries).
Variable getBooks :
  list Request → list (string * list string) → list (string * list string)
  → BBCSort → Z → BBCResult BBCBook.
Variable getBookPages :
  list Request → string → list string → option (BBCResult BBCBookPage).
Variable getInfo : list Request → string → option ImageInfo.

(** Helpers from outside the embedded files: the image proxy's URL
    builder, [replaceTextVariables] and [getLocaleName] of [utils.ts],
    the settings, the provider list and the URL parameters. *)
Variable getUrl : string → WsrvOptions → string.
Variable replaceTextVariables : string → list (string * string) → string.
Variable getLocaleName : string → string.
Variable bookDisplayTextSetting : string.
Variable automaticCropSetting : bool.
Variable cropFormatSetting : string.
Variable cropQualitySetting : Z.
Variable allProviders : list Provider.
Variable getAllSvelteSearchParams : string → list string.

(** [parseTextVariables(text, { book, extension })]. *)
Definition parseTextVariables (series : list Series) (text : string)
    (book : option Book) (extension : option string) : string :=
  let bookVars :=
    match book with
    | None => []
    | Some book =>
        [ (textVariables.coverUrl, cover book);
          (textVariables.volumeName, volumeName book);
          (textVariables.volumeNumber, volumeNumber book);
          (textVariables.bookTitle, title book);
          (textVariables.bookId, id book);
          (textVariables.providerName, provider_name (provider book));
          (textVariables.providerId, provider_id (provider book));
          (textVariables.providerLanguageName,
           getLocaleName (provider_locale (provider book)));
          (textVariables.providerLanguageCode,
           provider_locale (provider book));
          (textVariables.bookPageNumber,
           pretty (JS.num_or (selectedPage book) 0));
          (textVariables.bookPageName,
           if JS.truthy_num (selectedPage book)
           then "Page " +:+ pretty (JS.num_or (selectedPage book) 0)
           else "") ]
        ++ match
             find (λ s, bool_decide
                          (Some (series_id (series_data s)) = seriesId book)
                        && String.eqb (provider_id (series_provider s))
                                      (provider_id (provider book)))
                  series
           with
           | Some bookSeries =>
               let s := series_data bookSeries in
               [ (textVariables.seriesTitle, series_title s);
                 (textVariables.seriesThumbnailUrl, series_thumbnail s);
                 (textVariables.seriesPublicationType,
                  if JS.truthy_str (series_publicationType s)
                  then JS.nullish (series_publicationType s) ""
                  else "digital");
                 (textVariables.seriesBookType,
                  if JS.truthy_str (series_bookType s)
                  then JS.nullish (series_bookType s) ""
                  else "");
                 (textVariables.seriesType, series_type s);
                 (textVariables.seriesId, series_id s) ]
           | None =>
               [ (textVariables.seriesId,
                  if JS.truthy_str (seriesId book)
                  then JS.nullish (seriesId book) ""
                  else "0") ]
           end
        ++ [ (textVariables.coverQualityScore,
              match coverQualityScore book with
              | Some score => pretty score
              | None => "0"
              end);
             (textVariables.coverWidth,
              match coverWidth book with
              | Some width => pretty width
              | None => "0"
              end);
             (textVariables.coverHeight,
              match coverHeight book with
              | Some height => pretty height
              | None => "0"
              end);
             (textVariables.coverCropStatus,
              if JS.truthy_bool (coverIsCropped book) then "cropped"
              else "uncropped") ]
    end in
  let extensionVars :=
    if JS.truthy_str extension
    then [(textVariables.fileExtension, JS.nullish extension "")]
    else [] in
  replaceTextVariables text (bookVars ++ extensionVars).

(** The object built for one book of the response. *)
Definition decorate (series : list Series) (prov : Provider)
    (book : BBCBook) : Book :=
  let volume :=
    Title.parseVolumeName (bbc_title book) (volumePrefix prov) in
  let number := Title.getVolumeNumber (bbc_title book) in
  let data :=
    mkBook (bbc_id book) (bbc_title book) (bbc_cover book)
      (bbc_seriesId book)
      (getUrl (bbc_cover book) Crop.THUMBNAIL_DATA)
      prov volume
      (if JS.truthy_str number then JS.nullish number "" else "0")
      volume None None None None None None None None None None in
  mkBook (id data) (title data) (cover data) (seriesId data)
    (thumbnail data) (provider data) (volumeName data)
    (volumeNumber data)
    (parseTextVariables series bookDisplayTextSetting (Some data) None)
    (coverFormat data) (coverHeight data) (coverWidth data)
    (coverIsCropped data) (originalCover data) (originalThumbnail data)
    (originalWidth data) (chromaSubsampling data)
    (coverQualityScore data) (selectedPage data).

(** The turn of one provider in [for (const provider of
    this.selectedProviders)]: its books of the response are
    decorated and appended, then its book pages are fetched. *)
Definition fetch_provider (response : BBCResult BBCBook)
    (acc : State * list Book) (prov : Provider)
    : State * list Book :=
  let '(st, newBooks) := acc in
  let newBooks :=
    match assoc (provider_id prov) (result_data response) with
    | Some books =>
        newBooks ++ (decorate (allSeries st) prov <$> books)
    | None => newBooks
    end in
  if supportsBookPages prov then
    let newBookIds :=
      id <$> filter (λ b, provider_id (provider b)
                          = provider_id prov) newBooks in
    let answer :=
      getBookPages (requests st) (provider_id prov) newBookIds in
    let st := send (GetBookPages (provider_id prov) newBookIds) st in
    let failed st :=
      if ignoreErrors prov then st
      else addAppError "Failed to change book preview page" st in
    match answer with
    | None => (failed st, newBooks)
    | Some bookPages =>
        let st :=
          if negb (ignoreErrors prov)
             && (0 <? Z.of_nat (length (result_errors bookPages)))
          then addAppErrors (result_errors bookPages) st
          else st in
        match assoc (provider_id prov) (result_data bookPages) with
        | None => (failed st, newBooks)
        | Some pages =>
            (set_allBookPages
               (allBookPages st ++ ((λ p, mkBookPage p prov) <$> pages))
               st,
             newBooks)
        end
    end
  else (st, newBooks).

(** [newBooks.map] under [if (this.canChangeBookPage)]: a book with
    pages shows the selected page, or its last one. *)
Definition select_page (st : State) (b : Book) : Book :=
  let bookPages :=
    filter (λ p, bbc_bookId (page_data p) = id b
                 ∧ provider_id (page_provider p)
                   = provider_id (provider b))
           (allBookPages st) in
  match
    match find (λ p, bbc_number (page_data p) =? selectedBookPage st)
               bookPages with
    | Some p => Some p
    | None => last bookPages
    end
  with
  | Some selected =>
      let url := bbc_url (page_data selected) in
      mkBook (id b) (title b) url (seriesId b)
        (getUrl url Crop.THUMBNAIL_DATA) (provider b)
        (volumeName b) (volumeNumber b) (displayText b) (coverFormat b)
        (coverHeight b) (coverWidth b) (coverIsCropped b)
        (originalCover b) (originalThumbnail b) (originalWidth b)
        (chromaSubsampling b) (coverQualityScore b)
        (Some (bbc_number (page_data selected)))
  | None => b
  end.

(** The metadata of one cover: on an answer the four fields and the
    score are set, on a failure the book stays as it is and the
    error is reported unless the provider asks not to. *)
Definition fetch_info (acc : State * list Book) (book : Book)
    : State * list Book :=
  let '(st, done) := acc in
  let answer := getInfo (requests st) (cover book) in
  let st := send (GetInfo (cover book)) st in
  match answer with
  | Some response =>
      let measured :=
        mkBook (id book) (title book) (cover book) (seriesId book)
          (thumbnail book) (provider book) (volumeName book)
          (volumeNumber book) (displayText book) (info_format response)
          (info_height response) (info_width response)
          (coverIsCropped book) (originalCover book)
          (originalThumbnail book) (originalWidth book)
          (info_chromaSubsampling response) (coverQualityScore book)
          (selectedPage book) in
      (st,
       done
       ++ [mkBook (id measured) (title measured) (cover measured)
             (seriesId measured) (thumbnail measured)
             (provider measured) (volumeName measured)
             (volumeNumber measured) (displayText measured)
             (coverFormat measured) (coverHeight measured)
             (coverWidth measured) (coverIsCropped measured)
             (originalCover measured) (originalThumbnail measured)
             (originalWidth measured) (chromaSubsampling measured)
             (Some (Cover.getCoverQualityScore measured))
             (selectedPage measured)])
  | None =>
      (if ignoreErrors (provider book) then st
       else addAppError
              ("Failed to get cover details for "
               +:+ provider_name (provider book) +:+ " - "
               +:+ title book) st,
       done ++ [book])
  end.

(** The [newBooks.filter] that drops covers without a real size for
    providers that ask for it. *)
Definition has_valid_size (book : Book) : bool :=
  negb (ignoreErrors (provider book))
  || (match coverHeight book, coverWidth book with
      | Some h, Some w => (1 <? h) && (1 <? w)
      | _, _ => false
      end).

(** The body of [if (response.count > 0)]. *)
Definition merge_response (response : BBCResult BBCBook) (st : State)
    : State :=
  let '(st, newBooks) :=
    foldl (fetch_provider response) (st, []) (selectedProviders st) in
  let newBooks :=
    if canChangeBookPage st then select_page st <$> newBooks
    else newBooks in
  let '(st, newBooks) := foldl fetch_info (st, []) newBooks in
  let newBooks := List.filter has_valid_size newBooks in
  let newBooks :=
    if automaticCropSetting
    then Crop.toggleCropCovers getUrl cropFormatSetting
           cropQualitySetting newBooks true
    else newBooks in
  set_allBooks (allBooks st ++ newBooks) st.

(** The body of [for (const currentPage of pagesToFetch)]. *)
Definition fetch_page (st : State) (currentPage : Z) : State :=
  let st := set_fetchedPages (fetchedPages st ++ [currentPage]) st in
  let response :=
    getBooks (requests st) (allSeriesIds st) (allBookIds st)
             (sortOrder st) currentPage in
  let st :=
    send (GetBooks (allSeriesIds st) (allBookIds st) (sortOrder st)
                   currentPage) st in
  let st := set_maxPage (Z.max (maxPage st) (result_pages response)) st in
  let st := addAppErrors (result_errors response) st in
  if 0 <? result_count response then merge_response response st
  else st.

(** [pagesToFetch]; [None] when building it throws. *)
Definition pagesToFetch (st : State) : option (list Z) :=
  if incrementPages st then
    List.filter (λ p, negb (includes (fetchedPages st) p))
      <$> pages_up_to (page st)
  else Some [page st].

(** The pages one call of [fetchBooks] adds to the tracker. *)
Definition added (st : State) : list Z :=
  if isFetching st then []
  else if (length (allSeriesIds st) =? 0)%nat
          && (length (allBookIds st) =? 0)%nat then []
  else default [] (pagesToFetch st).

(** [fetchBooks]. *)
Definition fetchBooks (st : State) : State :=
  if isFetching st then st
  else
    let st := set_isFetching true st in
    if (length (allSeriesIds st) =? 0)%nat
       && (length (allBookIds st) =? 0)%nat
    then set_isFetching false st
    else
      let st :=
        match pagesToFetch st with
        | Some pages => foldl fetch_page st pages
        | None => addAppError "Failed to fetch books" st
        end in
      set_isFetching false st.

(** [fetchSeries]. *)
Definition fetchSeries (st : State) : State :=
  if isFetching st then st
  else
    let st := set_isFetching true st in
    let allIds := spread (allBookIds st) (allSeriesIds st) in
    let answer := getSeries (requests st) allIds in
    let st := send (GetSeries allIds) st in
    let st :=
      match answer with
      | Some response =>
          let st := addAppErrors (result_errors response) st in
          foldl (λ st entry,
                   match
                     find (λ p, String.eqb (provider_id p) (fst entry))
                          (providers st)
                   with
                   | Some prov =>
                       set_allSeries
                         (allSeries st
                          ++ ((λ s, mkSeries s prov) <$> snd entry))
                         st
                   | None => st
                   end)
                st (result_data response)
      | None => addAppError "Failed to fetch series" st
      end in
    set_isFetching false st.

(** [resetAll]. *)
Definition resetAll (st : State) : State :=
  let st := set_loading true st in
  let st := set_fetchedPages [] st in
  let st := set_allBooks [] st in
  let st := set_selectedBooks [] st in
  let st := set_allBookPages [] st in
  let st := fetchBooks st in
  set_loading false st.

(** [changePage]. *)
Definition changePage (p : Z) (st : State) : State :=
  if p =? page st then st
  else resetAll (set_incrementPages false (set_page p st)).

(** [incrementPage]. *)
Definition incrementPage (st : State) : State :=
  if negb (isNextPage st) then st
  else fetchBooks (set_incrementPages true (set_page (page st + 1) st)).

(** [toggleSortOrder]. *)
Definition toggleSortOrder (st : State) : State :=
  resetAll
    (set_sortOrder (match sortOrder st with asc => desc | desc => asc end)
       st).

(** The loop of [initialize] over [allProviders]. *)
Definition register_provider (st : State) (prov : Provider) : State :=
  let series :=
    getAllSvelteSearchParams ("series(" +:+ provider_id prov +:+ ")") in
  let books :=
    getAllSvelteSearchParams ("book(" +:+ provider_id prov +:+ ")") in
  if (length series =? 0)%nat && (length books =? 0)%nat then st
  else
    let st := set_providers (providers st ++ [prov]) st in
    let st :=
      set_selectedProviders (selectedProviders st ++ [prov]) st in
    let st :=
      if (0 <? length series)%nat
      then set_allSeriesIds
             (assoc_set (provider_id prov) series (allSeriesIds st)) st
      else st in
    if (0 <? length books)%nat
    then set_allBookIds
           (assoc_set (provider_id prov) books (allBookIds st)) st
    else st.

Definition countIds (store : list (string * list string)) : Z :=
  foldl (λ sum entry, sum + Z.of_nat (length (snd entry))) 0 store.

(** [initialize]. *)
Definition initialize (st : State) : State :=
  let st := set_providers [] st in
  let st := set_selectedProviders [] st in
  let st := set_allSeriesIds [] st in
  let st := set_allBookIds [] st in
  let st := foldl register_provider st allProviders in
  let totalIds := countIds (allSeriesIds st) + countIds (allBookIds st) in
  if MAX_SELECTED_SERIES <? totalIds then
    addAppError
      ("Too many series selected. Please select up to "
       +:+ pretty MAX_SELECTED_SERIES +:+ " series at a time.") st
  else if (0 <? length (providers st))%nat then
    fetchBooks (fetchSeries st)
  else st.

(** The public operations, as the page invokes them. *)
Inductive Operation :=
| Initialize
| FetchBooks
| ChangePage (p : Z)
| IncrementPage
| ToggleSortOrder
| ResetAll.

Definition perform (op : Operation) (st : State) : State :=
  match op with
  | Initialize => initialize st
  | FetchBooks => fetchBooks st
  | ChangePage p => changePage p st
  | IncrementPage => incrementPage st
  | ToggleSortOrder => toggleSortOrder st
  | ResetAll => resetAll st
  end.

(** When a public operation may be called without tracking a page
    twice: [fetchBooks], alone or at the end of [initialize], in
    increment mode or for a page that is not tracked yet. *)
Definition tracks_once (op : Operation) (st : State) : Prop :=
  match op with
  | Initialize | FetchBooks =>
      incrementPages st = true ∨ page st ∉ fetchedPages st
  | _ => True
  end.

(** The operations that empty the tracker before they fetch. *)
Definition resets (op : Operation) : bool :=
  match op with
  | ChangePage _ | ToggleSortOrder | ResetAll => true
  | _ => false
  end.

Inductive reachable (st0 : State) : State → Prop :=
| reachable_start : reachable st0 st0
| reachable_step st op :
    reachable st0 st → tracks_once op st → reachable st0 (perform op st).

End WithEnvironment.

End Orchestrator.

(** ** The page window, [getPages] *)

Module Pages.

(** [SvelteSet.add]: the set keeps insertion order and ignores a value
    it already holds. *)
Definition add (p : Z) (pages : list Z) : list Z :=
  if bool_decide (p ∈ pages) then pages else pages ++ [p].

Definition maxLength : nat := 5.

(** The [while (pages.size < maxLength)] loop; [None] when the fuel
    runs out before the loop ends. *)
Fixpoint grow (fuel : nat) (currentPage maxPage offset : Z)
    (pages : list Z) : option (list Z) :=
  match fuel with
  | O => None
  | S fuel' =>
      if (length pages <? maxLength)%nat then
        let '(pages, added) :=
          if (1 <=? currentPage - offset) && (length pages <? maxLength)%nat
          then (add (currentPage - offset) pages, true)
          else (pages, false) in
        let '(pages, added) :=
          if (currentPage + offset <=? maxPage)
             && (length pages <? maxLength)%nat
          then (add (currentPage + offset) pages, true)
          else (pages, added) in
        if negb added then Some pages
        else grow fuel' currentPage maxPage (offset + 1) pages
      else Some pages
  end.

(** The current page, brought into [1 .. maxPage]. *)
Definition clamp (currentPage maxPage : Z) : Z :=
  let currentPage := if currentPage <? 1 then 1 else currentPage in
  if maxPage <? currentPage then maxPage else currentPage.

(** [getPages(currentPage, maxPage)]. *)
Definition getPages (currentPage maxPage : Z) : option (list Z) :=
  if maxPage <=? 0 then Some []
  else
    let currentPage := clamp currentPage maxPage in
    let pages := add maxPage (add currentPage (add 1 [])) in
    Picker.sort (λ a b, a - b)
      <$> grow (S (Z.to_nat maxPage)) currentPage maxPage 1 pages.

(** What the loop keeps, before the turn of [offset]. *)
Record window (currentPage maxPage offset : Z) (pages : list Z) : Prop := {
  window_NoDup : NoDup pages;
  window_range : ∀ p, p ∈ pages → 1 ≤ p ≤ maxPage;
  window_first : 1 ∈ pages;
  window_current : currentPage ∈ pages;
  window_last : maxPage ∈ pages;
  window_length : (length pages ≤ maxLength)%nat;
  window_start : offset = 1 → (length pages ≤ 3)%nat;
  window_near :
    (length pages < maxLength)%nat →
    ∀ p, 1 ≤ p ≤ maxPage → Z.abs (p - currentPage) < offset → p ∈ pages;
  window_next :
    1 < offset →
    (1 ≤ currentPage - 1 → currentPage - 1 ∈ pages)
    ∧ (currentPage + 1 ≤ maxPage → currentPage + 1 ∈ pages);
}.

End Pages.

(** ** The selection: [toggleBook], [toggleAllBooks], [shiftSelect] *)

Module Selection.

(** The fields of the downloader the selection reads and writes. *)
Record State := mkState {
  selectedBooks : list Book;
  lastToggledBook : option Book;
}.

(** [b.id === book.id && b.provider.id === book.provider.id] *)
Definition same_book (b book : Book) : bool :=
  String.eqb (id b) (id book)
  && String.eqb (provider_id (provider b)) (provider_id (provider book)).

(** [this.selectedBooks.some(...)] for a book. *)
Definition isBookSelected (book : Book) (st : State) : bool :=
  existsb (λ b, same_book b book) (selectedBooks st).

(** [toggleBook(book, force)]; [force] is [None] when the argument is
    left out. *)
Definition toggleBook (book : Book) (force : option bool) (st : State)
    : State :=
  let bookIndex :=
    Picker.findIndex (λ b, same_book b book) (selectedBooks st) in
  let selected :=
    if ((bookIndex =? -1) && bool_decide (force = None))
       || ((bookIndex =? -1) && JS.truthy_bool force)
    then selectedBooks st ++ [book]
    else if bool_decide (force = None)
            || ((-1 <? bookIndex) && negb (JS.truthy_bool force))
    then delete (Z.to_nat bookIndex) (selectedBooks st)
    else selectedBooks st in
  mkState selected (Some book).

(** [toggleAllBooks]; [filteredBooks] is the derived list of the books
    on display. *)
Definition toggleAllBooks (filteredBooks : list Book) (st : State)
    : State :=
  if (length filteredBooks =? length (selectedBooks st))%nat
  then mkState [] (lastToggledBook st)
  else mkState filteredBooks (lastToggledBook st).

(** [shiftSelect(event, book)] over the derived [sortedFilteredBooks].
    [None]: the clicked book is not in that list while the last toggled
    one is, the downward loop then reaches [sortedFilteredBooks[-1]]
    and the call fails on the [id] of [undefined]. *)
Definition shiftSelect (sortedFilteredBooks : list Book) (shiftKey : bool)
    (book : Book) (st : State) : option State :=
  if shiftKey then
    let lastSelectedBookIndex :=
      Picker.findIndex
        (λ b, match lastToggledBook st with
              | Some last => same_book b last
              | None => false
              end)
        sortedFilteredBooks in
    let bookIndex :=
      Picker.findIndex (λ b, same_book b book) sortedFilteredBooks in
    let force := Some (negb (isBookSelected book st)) in
    if lastSelectedBookIndex =? -1 then Some (toggleBook book None st)
    else if lastSelectedBookIndex <? bookIndex then
      Some (foldl (λ st b, toggleBook b force st) st
              (JS.slice sortedFilteredBooks (Z.to_nat lastSelectedBookIndex)
                 (S (Z.to_nat bookIndex))))
    else if bookIndex <? lastSelectedBookIndex then
      if bookIndex =? -1 then None
      else
        Some (foldl (λ st b, toggleBook b force st) st
                (reverse
                   (JS.slice sortedFilteredBooks (Z.to_nat bookIndex)
                      (S (Z.to_nat lastSelectedBookIndex)))))
    else Some st
  else Some (toggleBook book None st).

(** The key two book objects are compared by. *)
Definition key (b : Book) : string * string :=
  (id b, provider_id (provider b)).

End Selection.

(** ** The shape of a volume number *)

Module Numeral.
Import Regex.

(** A decimal numeral with dotted sub-parts, [digits(.digits)*]:
    [after_digit] tells whether the character before was a digit. *)
Fixpoint dotted_digits (after_digit : bool) (s : string) : bool :=
  match s with
  | EmptyString => after_digit
  | String c rest =>
      if is_digit c then dotted_digits true rest
      else if Ascii.eqb "." c && after_digit then dotted_digits false rest
      else false
  end.

Definition is_numeral (s : string) : bool := dotted_digits false s.

(** No zero in front of another digit of the integer part. *)
Definition no_leading_zero (s : string) : bool :=
  match s with
  | String c (String d _) => negb (Ascii.eqb "0" c && is_digit d)
  | _ => true
  end.

(** Whether a string holds an ASCII digit. *)
Fixpoint has_digit (s : string) : bool :=
  match s with
  | EmptyString => false
  | String c rest => is_digit c || has_digit rest
  end.

(** A pattern every match of which holds a digit. *)
Fixpoint needs_digit (r : regex) : Prop :=
  match r with
  | Eps => False
  | Chr test => ∀ c, test c = true → is_digit c = true
  | Seq r1 r2 => needs_digit r1 ∨ needs_digit r2
  | Alt r1 r2 => needs_digit r1 ∧ needs_digit r2
  | Plus r1 => needs_digit r1
  | Opt _ => False
  | Group r1 => needs_digit r1
  end.

End Numeral.

(** ** What a packaging run stores and reports *)

Module Archive.
Import Packaging.

Section WithHelpers.
Variable filterFilename : string → string.
Variable fileTypeFromBuffer : buffer → option FileType.
Variable parseTextVariables :
  string → option Book → option string → string.
Variable coverPathSetting : string.
Variable coverFilenameSetting : string.

(** The rendered name and the bytes of an entry that goes into the
    output. *)
Definition stored (item : Book * option buffer) : option (string * buffer) :=
  match
    rendered filterFilename fileTypeFromBuffer parseTextVariables
      coverPathSetting coverFilenameSetting item,
    snd item
  with
  | Some name, Some bytes => Some (name, bytes)
  | _, _ => None
  end.

(** An entry that is skipped with an error message. *)
Definition reported (item : Book * option buffer) : bool :=
  negb (ignoreErrors (provider (fst item)))
  && bool_decide (eligible fileTypeFromBuffer (snd item) = None).

(** The name an image is assigned under in a run that starts without
    counters, when [N] earlier entries rendered the same [name]. *)
Definition resolved (name : string) (N : Z) : string :=
  if (N =? 0) || inherited name then name
  else numbered filterFilename name N.

(** The assignments a run without counters makes, in order: the
    resolved name and the bytes of every entry that goes into the
    output, [before] being the entries already dealt with. *)
Fixpoint placements_after (before items : list (Book * option buffer))
    : list (string * buffer) :=
  match items with
  | [] => []
  | item :: rest =>
      match stored item with
      | Some (name, bytes) =>
          [(resolved name
              (occurrences filterFilename fileTypeFromBuffer
                 parseTextVariables coverPathSetting coverFilenameSetting
                 name before),
            bytes)]
      | None => []
      end
      ++ placements_after (before ++ [item]) rest
  end.

Definition placements (items : list (Book * option buffer))
    : list (string * buffer) :=
  placements_after [] items.

(** No entry renders a name of [Object.prototype] and no image is
    assigned under [__proto__]. *)
Definition ordinary (items : list (Book * option buffer)) : bool :=
  forallb (λ name, negb (inherited name)) (omap stored items).*1
  && forallb (λ name, negb (String.eqb name "__proto__"))
       (placements items).*1.

End WithHelpers.

End Archive.

(** ** Views of the downloader and what a fetch leaves alone *)


Module Frame.
Import Orchestrator.

(** A view of the state that the traffic of a fetch does not touch:
    neither the request log, nor the reported errors, nor the book
    pages. *)
Definition quiet {X} (view : State → X) : Prop :=
  ∀ st,
    (∀ v, view (set_requests v st) = view st)
    ∧ (∀ v, view (set_appErrors v st) = view st)
    ∧ (∀ v, view (set_allBookPages v st) = view st).

(** A view that the whole of [fetchBooks] does not touch either: the
    aggregate, the tracker, the page count and the lock apart. *)
Definition settled {X} (view : State → X) : Prop :=
  quiet view
  ∧ ∀ st,
      (∀ v, view (set_allBooks v st) = view st)
      ∧ (∀ v, view (set_fetchedPages v st) = view st)
      ∧ (∀ v, view (set_maxPage v st) = view st)
      ∧ (∀ v, view (set_isFetching v st) = view st).

(** The stored score is that of the book as it is, if there is one. *)
Definition score_current (b : Book) : Prop :=
  coverQualityScore b = None
  ∨ coverQualityScore b = Some (Cover.getCoverQualityScore b).

(** What holds of a book of the answer once it is decorated. *)
Record decorated (selected : list Provider) (b : Book) : Prop := {
  decorated_provider : provider b ∈ selected;
  decorated_number : Numeral.is_numeral (volumeNumber b) = true;
  decorated_zero : Numeral.no_leading_zero (volumeNumber b) = true;
  decorated_score : score_current b;
}.

(** What holds of a book that [fetchBooks] adds. *)
Record fetched (selected : list Provider) (automaticCrop : bool)
    (b : Book) : Prop := {
  fetched_provider : provider b ∈ selected;
  fetched_number : Numeral.is_numeral (volumeNumber b) = true;
  fetched_zero : Numeral.no_leading_zero (volumeNumber b) = true;
  fetched_size : has_valid_size b = true;
  fetched_score : score_current b;
  fetched_crop :
    automaticCrop = true → Crop.coverShouldBeCropped b = false;
}.

(** The [getBooks] calls among some requests: ids, sort order, page. *)
Definition getBooks_calls (sent : list Request)
    : list (list (string * list string) * list (string * list string)
            * BBCSort * Z) :=
  omap (λ request,
          match request with
          | GetBooks seriesIds bookIds sort page =>
              Some (seriesIds, bookIds, sort, page)
          | _ => None
          end) sent.

(** Requests were appended, and no [getBooks] call is among them. *)
Definition side_traffic (st st' : State) : Prop :=
  ∃ extra, requests st' = requests st ++ extra ∧ getBooks_calls extra = [].

Section WithAnswers.
Variable getBooks :
  list Request → list (string * list string) → list (string * list string)
  → BBCSort → Z → BBCResult BBCBook.

(** The page count answered to the request at position [i] of a log,
    when that request is a [getBooks] call: the server had seen the
    requests before it. *)
Definition answered_pages (sent : list Request) (i : nat) : option Z :=
  match sent !! i with
  | Some (GetBooks seriesIds bookIds sort page) =>
      Some (result_pages (getBooks (take i sent) seriesIds bookIds sort page))
  | _ => None
  end.

(** From [st] to [st'] requests were appended, and [maxPage] became the
    largest of its old value and the page counts answered to the
    [getBooks] calls among them. *)
Definition raised (st st' : State) : Prop :=
  requests st `prefix_of` requests st'
  ∧ maxPage st ≤ maxPage st'
  ∧ (∀ i pages,
       (length (requests st) ≤ i)%nat →
       answered_pages (requests st') i = Some pages →
       pages ≤ maxPage st')
  ∧ (maxPage st' = maxPage st
     ∨ ∃ i, (length (requests st) ≤ i)%nat
            ∧ answered_pages (requests st') i = Some (maxPage st')).
End WithAnswers.

Section WithParams.
Variable getAllSvelteSearchParams : string → list string.

(** The ids the URL holds for a provider, and whether it has any. *)
Definition series_params (prov : Provider) : list string :=
  getAllSvelteSearchParams ("series(" +:+ provider_id prov +:+ ")").
Definition book_params (prov : Provider) : list string :=
  getAllSvelteSearchParams ("book(" +:+ provider_id prov +:+ ")").
Definition has_params (prov : Provider) : bool :=
  negb ((length (series_params prov) =? 0)%nat
        && (length (book_params prov) =? 0)%nat).
(** The entry [initialize] stores for a provider, if its list is not
    empty. *)
Definition entry_of (params : Provider → list string) (prov : Provider)
    : option (string * list string) :=
  if (0 <? length (params prov))%nat
  then Some (provider_id prov, params prov) else None.
(** What the record of [initialize] holds under a key: the ids of the
    provider of that id, if there are any. *)
Definition ids_of (params : Provider → list string)
    (provs : list Provider) (key : string) : option (list string) :=
  prov ← find (λ p, String.eqb (provider_id p) key) provs;
  snd <$> entry_of params prov.
Definition count_params (provs : list Provider) : Z :=
  foldr (λ prov sum,
           Z.of_nat (length (series_params prov))
           + Z.of_nat (length (book_params prov)) + sum) 0 provs.
End WithParams.

End Frame.

(** ** [BBC_API.getCovers] *)

Module Covers.
Import BBC_API.

#[local] Abbreviation buffer := Packaging.buffer.

(** [filename.split('.')[0]]: the name up to its first dot. *)
Fixpoint stem (filename : string) : string :=
  match filename with
  | EmptyString => EmptyString
  | String c rest =>
      if Ascii.eqb c "." then EmptyString else String c (stem rest)
  end.

(** [allImages[index] = image] on an array with holes ([None]): inside
    the array the slot is overwritten, beyond its end the array grows
    with holes up to the slot, and a key that is not an array index (a
    negative number, one of [2^32 - 1] or more, [NaN]) names a property
    that no index reads. *)
Definition store (allImages : list (option buffer)) (index : option Z)
    (image : buffer) : list (option buffer) :=
  match index with
  | Some i =>
      if (0 <=? i) && (i <? 4294967295) then
        if i <? Z.of_nat (length allImages)
        then <[Z.to_nat i := Some image]> allImages
        else allImages
             ++ replicate (Z.to_nat i - length allImages) None
             ++ [Some image]
      else allImages
  | None => allImages
  end.

Section WithServer.
(** [parseInt]; [None] when it answers [NaN] or [Infinity]. *)
Variable parseInt : string → option Z.
(** The archive the server answers for a chunk, unzipped: its files in
    the order of [for (const filename in unzipped)]; [None] when
    [fetch], [arrayBuffer] or [unzipSync] throws. *)
Variable respond : nat → list string → option (list (string * buffer)).

(** [urlRootIndex + (parseInt(filename.split('.')[0]) - 1)]. *)
Definition originalIndex (chunkIndex : nat) (filename : string)
    : option Z :=
  (λ number, Z.of_nat (chunkIndex * zipMaxCount) + (number - 1))
    <$> parseInt (stem filename).

(** The [for (const filename in unzipped)] loop. *)
Definition unpack (chunkIndex : nat) (files : list (string * buffer))
    (allImages : list (option buffer)) : list (option buffer) :=
  foldl (λ allImages file, store allImages (originalIndex chunkIndex file.1)
                             file.2)
    allImages files.

(** What one of the concurrent callbacks does once its download is
    there; the state is [allImages], [progress] and the values handed to
    [callback].  A callback that throws makes [Promise.all] reject. *)
Definition finish (chunks : list (list string))
    (state : option (list (option buffer) * Z * list Z))
    (chunkIndex : nat) : option (list (option buffer) * Z * list Z) :=
  '(allImages, progress, reported) ← state;
  chunk ← chunks !! chunkIndex;
  files ← respond chunkIndex chunk;
  let allImages := unpack chunkIndex files allImages in
  let progress := progress + Z.of_nat (length chunk) in
  Some (allImages, progress, reported ++ [progress]).

(** [getCovers(urls, callback)]: the images and the progress values
    reported; [order] lists the chunk indices in the order in which
    their downloads end. *)
Definition getCovers (order : list nat) (urls : list string)
    : option (list (option buffer) * list Z) :=
  chunks ← chopArray urls zipMaxCount;
  '(allImages, _, reported) ←
    foldl (finish chunks) (Some (replicate (length urls) None, 0, [])) order;
  Some (allImages, reported).

(** The number a file name stands for, and whether the files of an
    archive are numbered within the chunk they answer. *)
Definition number (file : string * buffer) : option Z :=
  parseInt (stem file.1).

Definition well_numbered (chunk : list string)
    (files : list (string * buffer)) : bool :=
  forallb (λ file,
             match number file with
             | Some n => (1 <=? n) && (n <=? Z.of_nat (length chunk))
             | None => false
             end) files.

(** The last file of an archive that has a given number. *)
Definition numbered (files : list (string * buffer)) (n : Z)
    : option buffer :=
  snd <$> last (List.filter (λ file, bool_decide (number file = Some n))
                  files).

(** The archive answered for the chunk of an index. *)
Definition answer (chunks : list (list string)) (chunkIndex : nat)
    : option (list (string * buffer)) :=
  chunk ← chunks !! chunkIndex; respond chunkIndex chunk.

(** What slot [i] holds once the downloads of [finished] are unpacked. *)
Definition cell (chunks : list (list string)) (finished : list nat)
    (i : nat) : option buffer :=
  if decide ((i / 6)%nat ∈ finished)
  then files ← answer chunks (i / 6)%nat;
       numbered files (Z.of_nat (i mod 6) + 1)
  else None.

(** The state of [getCovers] between two callbacks: the downloads of
    [finished] have ended. *)
Definition unpacked (chunks : list (list string)) (size : nat)
    (finished : list nat)
    (state : option (list (option buffer) * Z * list Z)) : Prop :=
  match state with
  | Some (allImages, progress, reported) =>
      length allImages = size
      ∧ (∀ k, k ∈ finished → is_Some (answer chunks k))
      ∧ (∀ i, (i < size)%nat →
              allImages !! i = Some (cell chunks finished i))
  | None =>
      ∃ k, k ∈ finished ∧ (k < length chunks)%nat ∧ answer chunks k = None
  end.

(** The progress values of the same state: as many as downloads have
    ended, each larger than the one before, the last one the number of
    URLs of the chunks of [finished]. *)
Definition counted (chunks : list (list string)) (finished : list nat)
    (state : option (list (option buffer) * Z * list Z)) : Prop :=
  match state with
  | Some (allImages, progress, reported) =>
      progress
      = Z.of_nat (sum_list_with
                    (λ k, length (default [] (chunks !! k))) finished)
      ∧ length reported = length finished
      ∧ last (0 :: reported) = Some progress
      ∧ (∀ i j p q, (i < j)%nat → (0 :: reported) !! i = Some p →
                    (0 :: reported) !! j = Some q → p < q)
  | None => True
  end.

End WithServer.

End Covers.

(** ** Sample data for the worked examples *)

Module Samples.

Definition provider_a : Provider :=
  mkProvider "a" "Provider A" "en" false false None.

Definition provider_b : Provider :=
  mkProvider "b" "Provider B" "ja" true false None.

(** A book as [fetchBooks] has it before the image metadata arrives. *)
Definition bare_book (p : Provider) (id title volume : string) : Book :=
  mkBook id title ("https://covers.example/" +:+ id) None
         ("https://thumbs.example/" +:+ id) p volume "0" volume
         None None None None None None None None None None.

(** The same book once the metadata of its cover is known. *)
Definition with_cover (b : Book) (format : string) (width height : Z)
    (chroma : option string) : Book :=
  mkBook (id b) (title b) (cover b) (seriesId b) (thumbnail b) (provider b)
         (volumeName b) (volumeNumber b) (displayText b)
         (Some format) (Some height) (Some width) (coverIsCropped b)
         (originalCover b) (originalThumbnail b) (originalWidth b)
         chroma (coverQualityScore b) (selectedPage b).

Definition png_1000 : Book :=
  with_cover (bare_book provider_a "1" "Volume 1" "Volume 1")
             "png" 1000 1000 None.

Definition jpeg_1000_no_chroma : Book :=
  with_cover (bare_book provider_a "2" "Volume 2" "Volume 2")
             "jpeg" 1000 1000 None.


(** A stand-in for the image proxy's URL builder. *)
Definition getUrl (url : string) (options : WsrvOptions) : string :=
  "https://wsrv.example/?url=" +:+ url
  +:+ match wsrv_cw options with
      | Some cw => "&cw=" +:+ pretty cw
      | None => ""
      end
  +:+ match wsrv_cx options with
      | Some cx => "&cx=" +:+ pretty cx
      | None => ""
      end.

Definition with_score (b : Book) (score : Z) : Book :=
  mkBook (id b) (title b) (cover b) (seriesId b) (thumbnail b) (provider b)
         (volumeName b) (volumeNumber b) (displayText b) (coverFormat b)
         (coverHeight b) (coverWidth b) (coverIsCropped b)
         (originalCover b) (originalThumbnail b) (originalWidth b)
         (chromaSubsampling b) (Some score) (selectedPage b).

(** A 900x1200 png with the white border the crop table knows, scored. *)
Definition png_900_1200 : Book :=
  with_score
    (with_cover (bare_book provider_a "3" "Volume 3" "Volume 3")
                "png" 900 1200 None)
    34.

(** A book whose metadata request failed: no size, no score. *)
Definition unmeasured : Book :=
  bare_book provider_a "4" "Volume 4" "Volume 4".

(** Three books of two volumes, from two providers. *)
Definition shelf : list BookObj :=
  [ mkObj 0 (with_score (bare_book provider_a "1" "Volume 1" "Volume 1") 30);
    mkObj 1 (with_score (bare_book provider_b "7" "Vol. 01" "Volume 1") 34);
    mkObj 2 (with_score (bare_book provider_a "2" "Volume 2" "Volume 2") 20) ].

(** Stand-ins for the helpers of the packaging pipeline: a sanitiser
    that leaves plain names alone, a sniffer that reads the first byte,
    the templates [BOOK_TITLE.FILE_EXTENSION] and, for the setting
    [title], [BOOK_TITLE], in an empty path, and an engine in which
    an object with a [Uint8Array] prototype stores every name but the
    ones typed arrays only have a getter for. *)
Definition filterFilename (name : string) : string := name.

Definition fileTypeFromBuffer (bytes : Packaging.buffer)
    : option Packaging.FileType :=
  match bytes with
  | 255 :: _ => Some (Packaging.mkFileType "jpg" "image/jpeg")
  | 137 :: _ => Some (Packaging.mkFileType "png" "image/png")
  | 37 :: _ => Some (Packaging.mkFileType "pdf" "application/pdf")
  | _ => None
  end.

Definition render (text : string) (book : option Book)
    (extension : option string) : string :=
  match book with
  | Some b =>
      if String.eqb text "path" then ""
      else if String.eqb text "title" then title b
      else title b +:+ "." +:+ default "" extension
  | None => "covers." +:+ default "" extension
  end.

Definition assignUnder (prototype : Packaging.buffer) (name : string)
    : Packaging.Assignment :=
  if existsb (String.eqb name)
       ["length"; "byteLength"; "byteOffset"; "buffer"]
  then Packaging.Throws else Packaging.Stores.

Definition named (name : string) : Book :=
  bare_book provider_a name name name.

(** Stand-ins for the network and the helpers of the orchestrator: one
    series of provider [a] is selected in the URL, every page of it
    holds one book, three pages exist. *)
Definition getSeries (sent : list Request)
    (ids : list (string * list string)) : option (BBCResult BBCSeries) :=
  Some (mkResult [("a", [mkBBCSeries "s1" "series" "Sample" "" None None])]
                 1 0 []).

Definition getBooks (sent : list Request)
    (seriesIds bookIds : list (string * list string)) (sort : BBCSort)
    (page : Z) : BBCResult BBCBook :=
  mkResult
    [("a", [mkBBCBook (pretty page) ("Volume " +:+ pretty page)
                      ("https://covers.example/" +:+ pretty page)
                      (Some "s1")])]
    1 3 [].

Definition getBookPages (sent : list Request) (providerId : string)
    (bookIds : list string) : option (BBCResult BBCBookPage) := None.

Definition getInfo (sent : list Request) (url : string)
    : option ImageInfo :=
  Some (mkInfo (Some "png") (Some 1200) (Some 900) None).

Definition replaceTextVariables (text : string)
    (vars : list (string * string)) : string :=
  foldl (λ text var,
           Regex.replaceAll ("{" +:+ fst var +:+ "}") (snd var) text)
        text vars.

Definition getLocaleName (locale : string) : string := locale.

Definition getAllSvelteSearchParams (key : string) : list string :=
  if String.eqb key "series(a)" then ["s1"] else [].

(** The downloader as the page leaves it before [initialize]: page 1,
    single-page mode. *)
Definition fresh : Orchestrator.State :=
  Orchestrator.mkState false [] [] asc true 1 1 false [] [] [] [] [] [] []
    0 [] [] false.

Definition initialize : Orchestrator.State → Orchestrator.State :=
  Orchestrator.initialize getSeries getBooks getBookPages getInfo getUrl
    replaceTextVariables getLocaleName "{VOLUME_NAME}" true "jpg" 98
    [provider_a; provider_b] getAllSvelteSearchParams.

Definition fetchBooks : Orchestrator.State → Orchestrator.State :=
  Orchestrator.fetchBooks getBooks getBookPages getInfo getUrl
    replaceTextVariables getLocaleName "{VOLUME_NAME}" true "jpg" 98.

Definition perform
    : Orchestrator.Operation → Orchestrator.State → Orchestrator.State :=
  Orchestrator.perform getSeries getBooks getBookPages getInfo getUrl
    replaceTextVariables getLocaleName "{VOLUME_NAME}" true "jpg" 98
    [provider_a; provider_b] getAllSvelteSearchParams.

End Samples.

(** * Theorems *)

(** ** Chunking *)

Section ChopArray.
Context {T : Type}.
Implicit Types (array : list T) (chunks : list (list T)).

Lemma slice_chunk array i n :
  JS.slice array i (i + n) = take n (drop i array).
Proof. unfold JS.slice. f_equal. lia. Qed.

(** Loop invariant: from index [i] on, the loop appends to [result] a
    chunking of what is left of the array. *)
Lemma chop_loop_spec array chunkSize :
  (1 ≤ chunkSize)%nat →
  ∀ fuel i result,
    (length array ≤ i + fuel)%nat →
    ∃ tail,
      BBC_API.chop_loop fuel array chunkSize i result = Some (result ++ tail)
      ∧ concat tail = drop i array
      ∧ Forall (λ c, c ≠ [] ∧ (length c ≤ chunkSize)%nat) tail
      ∧ (tail = [] ↔ (length array ≤ i)%nat)
      ∧ (∀ j c, tail !! j = Some c → (S j < length tail)%nat →
                length c = chunkSize).
Proof.
  intros Hcs. induction fuel as [|fuel IH]; intros i result Hfuel; simpl.
  - destruct (Nat.ltb_spec i (length array)) as [Hlt|Hge]; [lia|].
    exists []. rewrite app_nil_r, drop_ge by lia.
    repeat split; auto; try lia. intros j c Hj. by rewrite lookup_nil in Hj.
  - destruct (Nat.ltb_spec i (length array)) as [Hlt|Hge].
    + destruct (IH (i + chunkSize)%nat
                  (result ++ [JS.slice array i (i + chunkSize)]))
        as (tail & Heq & Hcat & Hall & Hnil & Hfull); [lia|].
      exists (JS.slice array i (i + chunkSize) :: tail).
      rewrite Heq, <- app_assoc. simpl.
      rewrite slice_chunk in *.
      assert (Hlen : length (take chunkSize (drop i array))
                     = Nat.min chunkSize (length array - i)).
      { by rewrite length_take, length_drop. }
      repeat split.
      * rewrite Hcat, <- drop_drop. apply take_drop.
      * constructor; [split|done].
        -- intros Hempty. rewrite Hempty in Hlen. simpl in Hlen. lia.
        -- lia.
      * discriminate.
      * lia.
      * intros [|j] c Hj Hlast; simpl in *.
        -- injection Hj as <-. rewrite Hlen.
           assert (tail ≠ []) by (destruct tail; simpl in *; [lia|done]).
           assert (¬ (length array ≤ i + chunkSize)%nat) by tauto. lia.
        -- apply (Hfull j); [done|lia].
    + exists []. rewrite app_nil_r, drop_ge by lia.
      repeat split; auto; try lia. intros j c Hj. by rewrite lookup_nil in Hj.
Qed.

(** C10.  For every array and every chunk size of at least 1,
    [chopArray] returns (the loop terminates), the chunks concatenated
    in order give back the array, every chunk is non-empty and no longer
    than the chunk size, and every chunk but the last has exactly the
    chunk size. *)
Theorem chopArray_chunks array chunkSize :
  (1 ≤ chunkSize)%nat →
  ∃ chunks,
    BBC_API.chopArray array chunkSize = Some chunks
    ∧ concat chunks = array
    ∧ Forall (λ c, c ≠ [] ∧ (length c ≤ chunkSize)%nat) chunks
    ∧ (∀ j c, chunks !! j = Some c → (S j < length chunks)%nat →
              length c = chunkSize).
Proof.
  intros Hcs. unfold BBC_API.chopArray.
  destruct (chop_loop_spec array chunkSize Hcs (length array) 0%nat [])
    as (tail & Heq & Hcat & Hall & _ & Hfull); [lia|].
  exists tail. simpl in Heq. by rewrite drop_0 in Hcat.
Qed.

End ChopArray.

Lemma chopArray_chunks_witness :
  ∃ chunks,
    BBC_API.chopArray [1; 2; 3; 4; 5; 6; 7] 3 = Some chunks
    ∧ concat chunks = [1; 2; 3; 4; 5; 6; 7]
    ∧ Forall (λ c, c ≠ [] ∧ (length c ≤ 3)%nat) chunks
    ∧ (∀ j c, chunks !! j = Some c → (S j < length chunks)%nat →
              length c = 3%nat).
Proof. apply (chopArray_chunks [1; 2; 3; 4; 5; 6; 7] 3). lia. Defined.

Example chopArray_seven_by_three :
  BBC_API.chopArray [1; 2; 3; 4; 5; 6; 7] 3 = Some [[1; 2; 3]; [4; 5; 6]; [7]].
Proof. reflexivity. Qed.

Example chopArray_zero_chunk_diverges :
  BBC_API.chopArray [1; 2] 0 = None.
Proof. reflexivity. Qed.

(** ** Crop decision table *)

Section CropTable.
Import Cover.

Lemma floor_ratio_percent (w : Z) (p : positive) :
  JS.Math_floor ((inject_Z w / inject_Z (Z.pos p)) * 100)
  = (100 * w) / Z.pos p.
Proof.
  unfold JS.Math_floor.
  assert (Heq : (inject_Z w / inject_Z (Z.pos p) * 100 == (100 * w) # p)%Q).
  { unfold Qeq, Qdiv, Qmult, Qinv, inject_Z. simpl. lia. }
  rewrite (Qfloor_comp _ _ Heq). reflexivity.
Qed.

Lemma Qle_bool_percent (n a : Z) :
  Qle_bool (n # 100) (inject_Z a / 100) = (n <=? a).
Proof.
  apply eq_true_iff_eq. rewrite Qle_bool_iff, Z.leb_le.
  unfold Qle, Qdiv, Qmult, Qinv, inject_Z. simpl. lia.
Qed.

Lemma Qle_bool_tenth (a : Z) :
  Qle_bool (8 # 10) (inject_Z a / 100) = (80 <=? a).
Proof.
  apply eq_true_iff_eq. rewrite Qle_bool_iff, Z.leb_le.
  unfold Qle, Qdiv, Qmult, Qinv, inject_Z. simpl. lia.
Qed.

(** The floating-point band test of the source is the integer test of
    the table, for every positive height. *)
Lemma aspect_band (w h : Z) :
  0 < h →
  Qle_bool (73 # 100) (aspect w h) && negb (Qle_bool (8 # 10) (aspect w h))
  = aspect_in_band w h.
Proof.
  intros Hh. destruct h as [|p|p]; try lia.
  unfold aspect, aspect_in_band.
  rewrite floor_ratio_percent, Qle_bool_percent, Qle_bool_tenth.
  f_equal. rewrite Z.ltb_antisym. reflexivity.
Qed.

(** The band, without any division: [73 h <= 100 w < 80 h]. *)
Lemma aspect_in_band_iff (w h : Z) :
  0 < h →
  aspect_in_band w h = true ↔ 73 * h ≤ 100 * w ∧ 100 * w < 80 * h.
Proof.
  intros Hh. unfold aspect_in_band.
  rewrite andb_true_iff, Z.leb_le, Z.ltb_lt.
  pose proof (Z.mul_div_le (100 * w) h Hh).
  pose proof (Z.mul_succ_div_gt (100 * w) h Hh).
  split; intros [H1 H2]; split.
  - nia.
  - nia.
  - apply Z.div_le_lower_bound; lia.
  - apply Z.div_lt_upper_bound; lia.
Qed.

(** C3.  For every width and height, [calculateCropAmount] is the
    decision table read top to bottom, first match wins, no match no
    crop; 900x1200 gives +120, 2500x3000 and 1800x2500 give no crop. *)
Theorem calculateCropAmount_decision_table :
  (∀ width height,
      calculateCropAmount width height
      = first_match crop_decision_table width height)
  ∧ calculateCropAmount 900 1200 = Some 120
  ∧ calculateCropAmount 2500 3000 = None
  ∧ calculateCropAmount 1800 2500 = None.
Proof.
  split; [|vm_compute; auto].
  intros w h. unfold calculateCropAmount, crop_decision_table, first_match.
  cbn [row_applies row_amount].
  destruct ((880 <=? w) && (w <=? 964) && (h =? 1200)); [done|].
  destruct ((220 <=? w) && (w <=? 241) && (h =? 300)); [done|].
  destruct (Z.ltb_spec 2000 h) as [Hh|Hh].
  - rewrite <- !andb_assoc, !aspect_band by lia. reflexivity.
  - assert ((4000 <? h) = false) as -> by (apply Z.ltb_ge; lia).
    rewrite !andb_false_r. reflexivity.
Qed.

End CropTable.

(** ** Quality score *)

Section QualityScore.
Import Cover.

Lemma Math_round_half (t : Z) : JS.Math_round (inject_Z t / 2) = (t + 1) / 2.
Proof.
  unfold JS.Math_round.
  assert (Heq : (inject_Z t / 2 + (1 # 2) == (t + 1) # 2)%Q).
  { unfold Qeq, Qdiv, Qmult, Qinv, Qplus, inject_Z. simpl. lia. }
  rewrite (Qfloor_comp _ _ Heq). reflexivity.
Qed.

Lemma formatScores_lookup (key : string) :
  JS.num_or (formatScores !! key) 0 = spec_formatScore (Some key).
Proof.
  unfold spec_formatScore, formatScores.
  destruct (String.eqb_spec key "png") as [->|Hpng]; [reflexivity|].
  destruct (String.eqb_spec key "jpeg") as [->|Hjpeg]; [reflexivity|].
  destruct (String.eqb_spec key "jpg") as [->|Hjpg]; [reflexivity|].
  destruct (String.eqb_spec key "webp") as [->|Hwebp]; [reflexivity|].
  simpl. rewrite !lookup_insert_ne, lookup_singleton_ne by done. reflexivity.
Qed.

Lemma chromaScores_lookup (chroma : string) :
  JS.num_or (chromaScores !! chroma) 4 = spec_chromaTable (Some chroma).
Proof.
  unfold spec_chromaTable, chromaScores.
  destruct (String.eqb_spec chroma "4:4:4") as [->|H444]; [reflexivity|].
  destruct (String.eqb_spec chroma "4:2:2") as [->|H422]; [reflexivity|].
  destruct (String.eqb_spec chroma "4:2:0") as [->|H420]; [reflexivity|].
  rewrite !lookup_insert_ne, lookup_singleton_ne by done. reflexivity.
Qed.

Lemma isJpeg_is_jpeg (formatKey : option string) :
  bool_decide (formatKey = Some "jpeg") || bool_decide (formatKey = Some "jpg")
  = is_jpeg formatKey.
Proof.
  destruct formatKey as [f|]; [|reflexivity]. simpl.
  f_equal.
  - destruct (String.eqb_spec f "jpeg") as [->|Hne]; [reflexivity|].
    apply bool_decide_eq_false. congruence.
  - destruct (String.eqb_spec f "jpg") as [->|Hne]; [reflexivity|].
    apply bool_decide_eq_false. congruence.
Qed.

(** C1, as the code has it.  For every book the score is
    [round((resolutionScore + formatScore + chromaScore) / 2)], a missing
    or zero dimension counting as 0 and the format name compared without
    regard to case; formatScore is 9, 6, 6, 3 for png, jpeg, jpg, webp
    and 0 otherwise; chromaScore is the chroma table's value (unlisted
    value 4) when the format is jpeg/jpg and the book has a non-empty
    chroma-subsampling value, and 8 in every other case.  A 1000x1000 png
    scores 34. *)
Theorem getCoverQualityScore_formula :
  (∀ book,
      let format := JS.toLowerCase <$> coverFormat book in
      let resolutionScore :=
        spec_resolutionScore (JS.num_or (coverWidth book) 0)
                             (JS.num_or (coverHeight book) 0) in
      let chromaScore :=
        if is_jpeg format && JS.truthy_str (chromaSubsampling book)
        then spec_chromaTable (chromaSubsampling book) else 8 in
      getCoverQualityScore book
      = (resolutionScore + spec_formatScore format + chromaScore + 1) / 2)
  ∧ getCoverQualityScore Samples.png_1000 = 34.
Proof.
  split; [|vm_compute; reflexivity].
  intros book. cbv zeta. unfold getCoverQualityScore.
  rewrite Math_round_half, isJpeg_is_jpeg.
  unfold JS.floor_sqrt_div, spec_resolutionScore.
  f_equal. f_equal. f_equal; [f_equal|].
  - destruct (coverFormat book) as [f|]; [|reflexivity]. simpl.
    destruct (JS.toLowerCase f) as [|c key] eqn:Hkey; [reflexivity|].
    apply formatScores_lookup.
  - destruct (is_jpeg _); [|reflexivity]. simpl.
    destruct (chromaSubsampling book) as [[|c chroma]|]; try reflexivity.
    apply chromaScores_lookup.
Qed.

(** C1 as stated fails on a jpeg whose chroma-subsampling is not known:
    the table of the claim gives chromaScore 4 and a score of 30, the
    code keeps the default 8 and returns 32. *)
Lemma getCoverQualityScore_jpeg_without_chroma :
  getCoverQualityScore Samples.jpeg_1000_no_chroma = 32
  ∧ spec_score Samples.jpeg_1000_no_chroma = 30
  ∧ getCoverQualityScore Samples.jpeg_1000_no_chroma
    ≠ spec_score Samples.jpeg_1000_no_chroma.
Proof. vm_compute. repeat split; discriminate. Qed.

End QualityScore.

(** ** Crop and un-crop *)

Section CropRoundTrip.
Import Cover Crop.

Variable getUrl : string → WsrvOptions → string.
Variable cropFormatSetting : string.
Variable cropQualitySetting : Z.

#[local] Abbreviation crop :=
  (cropCover getUrl cropFormatSetting cropQualitySetting).
#[local] Abbreviation uncrop := uncropCover.

Arguments getCoverQualityScore : simpl never.
Arguments calculateCropAmount : simpl never.

(** The score only reads the size, the format and the chroma value. *)
Lemma getCoverQualityScore_ext (b1 b2 : Book) :
  coverWidth b1 = coverWidth b2 →
  coverHeight b1 = coverHeight b2 →
  coverFormat b1 = coverFormat b2 →
  chromaSubsampling b1 = chromaSubsampling b2 →
  getCoverQualityScore b1 = getCoverQualityScore b2.
Proof.
  intros Hw Hh Hf Hc. unfold getCoverQualityScore.
  rewrite Hw, Hh, Hf, Hc. reflexivity.
Qed.

Lemma calculateCropAmount_nonzero (w h a : Z) :
  calculateCropAmount w h = Some a → a ≠ 0.
Proof.
  unfold calculateCropAmount.
  repeat match goal with
         | |- context [if ?c then _ else _] => destruct c
         end; intros [= <-]; lia.
Qed.

Lemma coverShouldBeCropped_inv (b : Book) :
  coverShouldBeCropped b = true →
  ∃ w h a,
    coverWidth b = Some w ∧ coverHeight b = Some h
    ∧ (w =? 0) = false ∧ (h =? 0) = false
    ∧ calculateCropAmount w h = Some a ∧ (a =? 0) = false
    ∧ JS.truthy_bool (coverIsCropped b) = false.
Proof.
  unfold coverShouldBeCropped.
  destruct (coverWidth b) as [w|]; [|done].
  destruct (coverHeight b) as [h|]; [|done].
  rewrite !andb_true_iff, !negb_true_iff, bool_decide_eq_true.
  intros [[[Hw Hh] Hcalc] Hflag].
  destruct (calculateCropAmount w h) as [a|] eqn:Ha; [|done].
  exists w, h, a. repeat split; auto.
  apply Z.eqb_neq. eapply calculateCropAmount_nonzero; eauto.
Qed.

Lemma cropCover_cropped (b : Book) :
  JS.truthy_bool (coverIsCropped b) = true → crop b = b.
Proof. intros Hflag. unfold cropCover. by rewrite Hflag. Qed.

Lemma cropCover_cases (b : Book) :
  crop b = b ∨ coverIsCropped (crop b) = Some true.
Proof.
  unfold cropCover.
  destruct (JS.truthy_bool (coverIsCropped b)); [by left|].
  destruct (coverHeight b) as [h|], (coverWidth b) as [w|]; try by left.
  destruct ((h =? 0) || (w =? 0)); [by left|].
  destruct (calculateCropAmount w h) as [a|]; [|by left].
  destruct (a =? 0); [by left|]. by right.
Qed.

(** Cropping a cropped book, and un-cropping twice, change nothing
    more: the in-place loop may meet the same object twice. *)
Lemma toggleCropCover_idempotent (flag : bool) (b : Book) :
  toggleCropCover getUrl cropFormatSetting cropQualitySetting flag
    (toggleCropCover getUrl cropFormatSetting cropQualitySetting flag b)
  = toggleCropCover getUrl cropFormatSetting cropQualitySetting flag b.
Proof.
  destruct flag; simpl; [|reflexivity].
  destruct (cropCover_cases b) as [Heq|Hflag].
  - by rewrite !Heq.
  - apply cropCover_cropped. by rewrite Hflag.
Qed.

(** What cropping and un-cropping do to a book that is in the other
    state: a cropped book is not cropped again; a book that is not
    cropped (it has no backups) keeps its cover URL, thumbnail URL, size
    and empty backups when un-cropped, its cropped flag becomes [false]
    and its score is recomputed, so it is left as it was exactly when
    the flag was [false] and the score current. *)
Lemma toggleCropCovers_other_state (b : Book) :
  (JS.truthy_bool (coverIsCropped b) = true → crop b = b)
  ∧ (originalCover b = None → originalThumbnail b = None →
     originalWidth b = None →
     cover (uncrop b) = cover b
     ∧ thumbnail (uncrop b) = thumbnail b
     ∧ coverWidth (uncrop b) = coverWidth b
     ∧ originalCover (uncrop b) = None
     ∧ originalThumbnail (uncrop b) = None
     ∧ originalWidth (uncrop b) = None
     ∧ coverIsCropped (uncrop b) = Some false
     ∧ coverQualityScore (uncrop b) = Some (getCoverQualityScore b)
     ∧ (uncrop b = b
        ↔ coverIsCropped b = Some false
          ∧ coverQualityScore b = Some (getCoverQualityScore b))).
Proof.
  split.
  - intros Hflag. unfold cropCover. by rewrite Hflag.
  - intros Hc Ht Hw. unfold uncropCover. simpl. rewrite Hc, Ht, Hw. simpl.
    assert (Hs : ∀ x y z s,
               getCoverQualityScore
                 (mkBook (id b) (title b) (cover b) (seriesId b)
                    (thumbnail b) (provider b) (volumeName b)
                    (volumeNumber b) (displayText b) (coverFormat b)
                    (coverHeight b) (coverWidth b) (Some false) x y z
                    (chromaSubsampling b) s (selectedPage b))
               = getCoverQualityScore b).
    { intros. by apply getCoverQualityScore_ext. }
    rewrite Hs. split_and!; try reflexivity. split.
    + intros Hsame. split.
      * by rewrite <- Hsame at 1.
      * by rewrite <- Hsame at 1.
    + intros [Hflag Hscore]. destruct b; simpl in *. congruence.
Qed.

(** C4, as the code has it.  For every book to which a crop applies:
    cropping stores the pre-crop cover URL, thumbnail URL and width in
    the backup fields and recomputes the score; un-cropping the cropped
    book restores the three values verbatim, clears the backups, marks
    the book as not cropped and recomputes the score, which is again the
    score of the book before the crop; cropping once more gives the
    cropped book back, so the score of crop(uncrop(c)) is the score of
    the cropped book c; and cropping the cropped book changes nothing.
    For every book [d]: cropping [d] when it is cropped changes
    nothing; un-cropping [d] when it is not cropped (it has no backups)
    keeps its cover URL, thumbnail URL, width and empty backups, sets
    its cropped flag to [false] and recomputes its score, so that it
    changes nothing exactly when the flag was [false] already and the
    stored score was current. *)
Theorem toggleCropCovers_reversible (b : Book) :
  coverShouldBeCropped b = true →
  let c := crop b in
  (originalCover c = Some (cover b)
   ∧ originalThumbnail c = Some (thumbnail b)
   ∧ originalWidth c = coverWidth b
   ∧ coverIsCropped c = Some true
   ∧ coverQualityScore c = Some (getCoverQualityScore c))
  ∧ (cover (uncrop c) = cover b
     ∧ thumbnail (uncrop c) = thumbnail b
     ∧ coverWidth (uncrop c) = coverWidth b
     ∧ coverHeight (uncrop c) = coverHeight b
     ∧ originalCover (uncrop c) = None
     ∧ originalThumbnail (uncrop c) = None
     ∧ originalWidth (uncrop c) = None
     ∧ coverIsCropped (uncrop c) = Some false
     ∧ coverQualityScore (uncrop c) = Some (getCoverQualityScore b))
  ∧ crop (uncrop c) = c
  ∧ coverQualityScore (crop (uncrop c)) = coverQualityScore c
  ∧ crop c = c
  ∧ (∀ d, JS.truthy_bool (coverIsCropped d) = true → crop d = d)
  ∧ (∀ d, originalCover d = None → originalThumbnail d = None →
          originalWidth d = None →
          cover (uncrop d) = cover d
          ∧ thumbnail (uncrop d) = thumbnail d
          ∧ coverWidth (uncrop d) = coverWidth d
          ∧ originalCover (uncrop d) = None
          ∧ originalThumbnail (uncrop d) = None
          ∧ originalWidth (uncrop d) = None
          ∧ coverIsCropped (uncrop d) = Some false
          ∧ coverQualityScore (uncrop d) = Some (getCoverQualityScore d)
          ∧ (uncrop d = d
             ↔ coverIsCropped d = Some false
               ∧ coverQualityScore d = Some (getCoverQualityScore d))).
Proof.
  intros Hshould.
  destruct (coverShouldBeCropped_inv b Hshould)
    as (w & h & a & Hw & Hh & Hw0 & Hh0 & Ha & Ha0 & Hflag).
  assert (Hcrop : crop b = applyCrop getUrl cropFormatSetting
                            cropQualitySetting b w h a).
  { unfold cropCover. by rewrite Hflag, Hh, Hw, Hh0, Hw0, Ha, Ha0. }
  assert (Hc : crop (uncrop (crop b)) = crop b).
  { rewrite Hcrop. unfold cropCover, applyCrop. simpl.
    rewrite Hh, Hh0, Hw0, Ha, Ha0. reflexivity. }
  cbv zeta. split; [|split; [|split; [|split; [|split; [|split]]]]].
  - rewrite Hcrop. unfold applyCrop. simpl.
    rewrite Hw. repeat split; reflexivity.
  - rewrite Hcrop. unfold applyCrop, uncropCover. simpl.
    rewrite Hw, Hh. repeat split; try reflexivity.
    f_equal. apply getCoverQualityScore_ext; simpl; congruence.
  - exact Hc.
  - by rewrite Hc.
  - apply (toggleCropCover_idempotent true).
  - intros d. apply (toggleCropCovers_other_state d).
  - intros d. apply (toggleCropCovers_other_state d).
Qed.

End CropRoundTrip.

(** ** Automatic quality pick *)

Section SortHead.
Context {A : Type} (cmp : A → A → Z).
Import Picker.

Lemma sort_head (l : list A) : head (sort cmp l) = leader cmp l.
Proof.
  induction l as [|x l IH]; [reflexivity|].
  simpl. rewrite <- IH. unfold sort. simpl.
  destruct (foldr (sort_insert cmp) [] l) as [|h t]; [reflexivity|].
  simpl. destruct (cmp x h <=? 0); reflexivity.
Qed.

Lemma leader_nonempty (l : list A) : l ≠ [] → is_Some (leader cmp l).
Proof.
  destruct l as [|x l]; [done|]. intros _. simpl.
  destruct (leader cmp l) as [h|]; [destruct (cmp x h <=? 0)|]; eauto.
Qed.

Hypothesis cmp_trans : ∀ a b c, cmp a b ≤ 0 → cmp b c ≤ 0 → cmp a c ≤ 0.
Hypothesis cmp_total : ∀ a b, 0 < cmp a b → cmp b a ≤ 0.

(** The leader splits the array: everything before it has to follow it
    strictly, everything after it may follow it. *)
Lemma leader_split (l : list A) (w : A) :
  leader cmp l = Some w →
  ∃ pre post,
    l = pre ++ w :: post
    ∧ (∀ y, y ∈ pre → 0 < cmp y w)
    ∧ (∀ y, y ∈ post → cmp w y ≤ 0).
Proof.
  revert w. induction l as [|x l IH]; intros w; [done|].
  simpl. destruct (leader cmp l) as [h|] eqn:Hl.
  - destruct (IH h eq_refl) as (pre & post & -> & Hpre & Hpost).
    destruct (Z.leb_spec (cmp x h) 0) as [Hle|Hgt]; intros [= <-].
    + exists [], (pre ++ h :: post). split; [done|]. split.
      * intros y Hy. by apply elem_of_nil in Hy.
      * intros y Hy. apply elem_of_app in Hy as [Hy|Hy].
        -- apply cmp_trans with h; [done|].
           apply cmp_total. by apply Hpre.
        -- apply elem_of_cons in Hy as [->|Hy]; [done|].
           apply cmp_trans with h; [done|]. by apply Hpost.
    + exists (x :: pre), post. split; [done|]. split; [|done].
      intros y Hy. apply elem_of_cons in Hy as [->|Hy]; [done|].
      by apply Hpre.
  - intros [= <-]. destruct l as [|y l]; [|simpl in Hl].
    + exists [], []. repeat split; intros y Hy; by apply elem_of_nil in Hy.
    + destruct (leader cmp l) as [h|]; [destruct (cmp y h <=? 0)|]; done.
Qed.

End SortHead.

Section Compare.
Import Picker.
Variable providers : list Provider.
Variable selectedBookPage : Z.

#[local] Abbreviation cmp := (compare providers selectedBookPage).
#[local] Abbreviation before := (ahead providers selectedBookPage).
#[local] Abbreviation same := (tied providers selectedBookPage).

Lemma compare_by_keys (a b : BookObj) :
  cmp a b
  = compare_keys (pagesRank selectedBookPage a) (quality a)
      (providerIndex providers a) (pagesRank selectedBookPage b)
      (quality b) (providerIndex providers b).
Proof.
  unfold compare, compare_keys, pagesRank, quality, providerIndex.
  destruct (0 <? selectedBookPage);
    destruct (supportsBookPages (provider (obj a)));
    destruct (supportsBookPages (provider (obj b))); reflexivity.
Qed.

(** The comparator is the three-criteria order of the specification. *)
Lemma compare_sign (a b : BookObj) :
  (cmp a b < 0 ↔ before a b)
  ∧ (cmp a b = 0 ↔ same a b)
  ∧ (0 < cmp a b ↔ before b a).
Proof.
  rewrite compare_by_keys. unfold ahead, tied, compare_keys.
  generalize (pagesRank selectedBookPage a) (quality a)
    (providerIndex providers a) (pagesRank selectedBookPage b)
    (quality b) (providerIndex providers b).
  intros pa qa ia pb qb ib.
  destruct (Z.ltb_spec pa pb); [lia|].
  destruct (Z.ltb_spec pb pa); [lia|].
  destruct (Z.eqb_spec qa qb); cbn [negb]; lia.
Qed.

Lemma compare_trans a b c : cmp a b ≤ 0 → cmp b c ≤ 0 → cmp a c ≤ 0.
Proof.
  rewrite !compare_by_keys. unfold compare_keys.
  generalize (pagesRank selectedBookPage a) (quality a)
    (providerIndex providers a) (pagesRank selectedBookPage b)
    (quality b) (providerIndex providers b)
    (pagesRank selectedBookPage c) (quality c)
    (providerIndex providers c).
  intros pa qa ia pb qb ib pc qc ic.
  destruct (Z.ltb_spec pa pb), (Z.ltb_spec pb pa), (Z.ltb_spec pb pc),
    (Z.ltb_spec pc pb), (Z.ltb_spec pa pc), (Z.ltb_spec pc pa);
    try lia;
    destruct (Z.eqb_spec qa qb), (Z.eqb_spec qb qc), (Z.eqb_spec qa qc);
    cbn [negb]; lia.
Qed.

Lemma compare_total a b : 0 < cmp a b → cmp b a ≤ 0.
Proof.
  pose proof (compare_sign a b) as (_ & _ & H).
  pose proof (compare_sign b a) as (H' & _ & _).
  intros Hgt. apply H, H' in Hgt. lia.
Qed.

End Compare.

Section Groups.
Import Picker.

Lemma group_push_keys groups key b :
  (group_push groups key b).*1
  = if bool_decide (key ∈ groups.*1) then groups.*1 else groups.*1 ++ [key].
Proof.
  induction groups as [|[k g] rest IH]; [done|]. cbn [group_push].
  destruct (String.eqb_spec k key) as [->|Hne]; rewrite !fmap_cons;
    cbn [fst].
  - rewrite bool_decide_eq_true_2; [done|]. apply elem_of_cons. by left.
  - rewrite IH. destruct (decide (key ∈ rest.*1)) as [Hin|Hnin].
    + rewrite !bool_decide_eq_true_2; [done| |done].
      apply elem_of_cons. by right.
    + rewrite !bool_decide_eq_false_2; [done| |done].
      rewrite elem_of_cons. intros [?|?]; done.
Qed.

Lemma group_push_elem groups key b k g :
  NoDup (groups.*1) →
  (k, g) ∈ group_push groups key b →
  (k ≠ key ∧ (k, g) ∈ groups)
  ∨ (k = key
     ∧ ((∃ g0, (key, g0) ∈ groups ∧ g = g0 ++ [b])
        ∨ ((key ∉ groups.*1) ∧ g = [b]))).
Proof.
  induction groups as [|[k0 g0] rest IH]; simpl; intros Hnd Hin.
  - apply list_elem_of_singleton in Hin as [= -> ->]. right. split; [done|].
    right. split; [apply not_elem_of_nil|done].
  - apply NoDup_cons in Hnd as [Hk0 Hnd].
    destruct (String.eqb_spec k0 key) as [->|Hne].
    + apply elem_of_cons in Hin as [[= -> ->]|Hin].
      * right. split; [done|]. left. exists g0.
        split; [apply elem_of_cons; by left|done].
      * left. split; [|apply elem_of_cons; by right]. intros ->. apply Hk0.
        apply list_elem_of_fmap. by exists (key, g).
    + apply elem_of_cons in Hin as [[= -> ->]|Hin].
      * left. split; [done|apply elem_of_cons; by left].
      * destruct (IH Hnd Hin) as [[Hk Hg]|[-> [(g1 & Hg1 & ->)|[Hnin ->]]]].
        -- left. split; [done|apply elem_of_cons; by right].
        -- right. split; [done|]. left. exists g1.
           split; [apply elem_of_cons; by right|done].
        -- right. split; [done|]. right. split; [|done].
           rewrite elem_of_cons. intros [?|?]; done.
Qed.

(** What the first loop builds: one entry per volume name, holding the
    books of that name in array order. *)
Lemma booksByVolume_spec (books : list BookObj) :
  NoDup (booksByVolume books).*1
  ∧ (∀ k g, (k, g) ∈ booksByVolume books → g = group_of k books ∧ g ≠ [])
  ∧ (∀ b, b ∈ books → volumeName (obj b) ∈ (booksByVolume books).*1).
Proof.
  induction books as [|b books IH] using rev_ind.
  - split; [constructor|split].
    + intros k g Hin. by apply elem_of_nil in Hin.
    + intros b Hin. by apply elem_of_nil in Hin.
  - destruct IH as (Hnd & Hgroups & Hkeys).
    unfold booksByVolume in *. rewrite foldl_snoc.
    set (G := foldl _ [] books) in *.
    set (key := volumeName (obj b)).
    assert (Hnd' : NoDup (group_push G key b).*1).
    { rewrite group_push_keys. case_bool_decide; [done|].
      apply NoDup_app. repeat split; [done| |apply NoDup_singleton].
      intros x Hx ->%list_elem_of_singleton. done. }
    split; [done|]. split.
    + intros k g Hin. unfold group_of. rewrite filter_app.
      destruct (group_push_elem G key b k g Hnd Hin)
        as [[Hk Hg]|[-> [(g1 & Hg1 & ->)|[Hnin ->]]]].
      * destruct (Hgroups k g Hg) as [-> Hne].
        rewrite filter_cons_False, filter_nil, app_nil_r by (subst key; done).
        done.
      * destruct (Hgroups key g1 Hg1) as [-> Hne].
        rewrite filter_cons_True by done. split; [done|].
        intros Heq. by apply app_eq_nil in Heq as [_ ?].
      * rewrite filter_cons_True by done. split; [|done].
        destruct (filter (λ b0, volumeName (obj b0) = key) books)
          as [|x rest] eqn:Hf; [done|].
        assert (Hx : x ∈ filter (λ b0, volumeName (obj b0) = key) books).
        { rewrite Hf. apply elem_of_cons. by left. }
        apply list_elem_of_filter in Hx as [Hvn Hx].
        exfalso. apply Hnin. rewrite <- Hvn. by apply Hkeys.
    + intros x Hx. rewrite group_push_keys.
      apply elem_of_app in Hx as [Hx|Hx%list_elem_of_singleton].
      * case_bool_decide; [by apply Hkeys|].
        apply elem_of_app. left. by apply Hkeys.
      * subst x. fold key. case_bool_decide; [done|].
        apply elem_of_app. right. by apply list_elem_of_singleton.
Qed.

End Groups.

Section Pick.
Import Picker.
Variable providers : list Provider.
Variable selectedBookPage : Z.

#[local] Abbreviation cmp := (compare providers selectedBookPage).
#[local] Abbreviation keep := (booksToKeep providers selectedBookPage).
#[local] Abbreviation pick :=
  (automaticallyPickCovers providers selectedBookPage).

Lemma leader_elem {A} (c : A → A → Z) (l : list A) (w : A) :
  leader c l = Some w → w ∈ l.
Proof.
  revert w. induction l as [|x l IH]; intros w; [done|]. simpl.
  destruct (leader c l) as [h|].
  - destruct (c x h <=? 0); intros [= <-]; apply elem_of_cons; auto.
  - intros [= <-]. apply elem_of_cons. by left.
Qed.

(** One pass of the second loop adds the address of the group's
    leader. *)
Lemma keep_step_leader (K : gset nat) (k : string) (g : list BookObj) :
  keep_step providers selectedBookPage K (k, g)
  = K ∪ match leader cmp g with Some w => {[ addr w ]} | None => ∅ end.
Proof.
  unfold keep_step. cbn [snd].
  destruct g as [|x [|y g]].
  - simpl. by rewrite union_empty_r_L.
  - reflexivity.
  - rewrite <- sort_head.
    destruct (sort cmp (x :: y :: g)) as [|h t]; simpl;
      [by rewrite union_empty_r_L|done].
Qed.

Lemma keep_fold (groups : list (string * list BookObj)) (K : gset nat)
    (a : nat) :
  a ∈ foldl (keep_step providers selectedBookPage) K groups
  ↔ a ∈ K ∨ ∃ k g w, (k, g) ∈ groups ∧ leader cmp g = Some w ∧ a = addr w.
Proof.
  revert K. induction groups as [|[k g] rest IH]; intros K; simpl.
  - split; [by left|]. intros [?|(k & g & w & Hin & _)]; [done|].
    by apply elem_of_nil in Hin.
  - rewrite IH, keep_step_leader. split.
    + intros [Hin|(k' & g' & w & Hin & Hw & ->)].
      * apply elem_of_union in Hin as [Hin|Hin]; [by left|].
        destruct (leader cmp g) as [w|] eqn:Hw;
          [|by apply elem_of_empty in Hin].
        apply elem_of_singleton in Hin as ->. right.
        exists k, g, w. split; [apply elem_of_cons; by left|done].
      * right. exists k', g', w. split; [apply elem_of_cons; by right|done].
    + intros [Hin|(k' & g' & w & Hin & Hw & ->)].
      * left. apply elem_of_union. by left.
      * apply elem_of_cons in Hin as [[= -> ->]|Hin].
        -- left. rewrite Hw. apply elem_of_union. right.
           by apply elem_of_singleton.
        -- right. by exists k', g', w.
Qed.

Lemma addr_inj (books : list BookObj) (x y : BookObj) :
  NoDup (addr <$> books) → x ∈ books → y ∈ books → addr x = addr y → x = y.
Proof.
  induction books as [|b books IH]; intros Hnd Hx Hy Heq.
  - by apply elem_of_nil in Hx.
  - rewrite fmap_cons in Hnd. apply NoDup_cons in Hnd as [Hb Hnd].
    apply elem_of_cons in Hx as [->|Hx], Hy as [->|Hy]; auto.
    + exfalso. apply Hb. rewrite Heq. by apply list_elem_of_fmap_2.
    + exfalso. apply Hb. rewrite <- Heq. by apply list_elem_of_fmap_2.
Qed.

Lemma filter_addr (books : list BookObj) (w : BookObj) :
  NoDup (addr <$> books) → w ∈ books →
  filter (λ b, addr b = addr w) books = [w].
Proof.
  induction books as [|b books IH]; intros Hnd Hw.
  - by apply elem_of_nil in Hw.
  - rewrite fmap_cons in Hnd. apply NoDup_cons in Hnd as [Hb Hnd].
    rewrite filter_cons. apply elem_of_cons in Hw as [->|Hw].
    + rewrite decide_True by done. f_equal.
      destruct (filter (λ b0, addr b0 = addr b) books) as [|x rest] eqn:Hf;
        [done|].
      assert (Hx : x ∈ filter (λ b0, addr b0 = addr b) books).
      { rewrite Hf. apply elem_of_cons. by left. }
      apply list_elem_of_filter in Hx as [Hax Hx].
      exfalso. apply Hb. rewrite <- Hax. by apply list_elem_of_fmap_2.
    + rewrite decide_False; [by apply IH|].
      intros Heq. apply Hb. rewrite Heq. by apply list_elem_of_fmap_2.
Qed.

Lemma filter_ext_elem {A} (P Q : A → Prop) `{!∀ x, Decision (P x)}
    `{!∀ x, Decision (Q x)} (l : list A) :
  (∀ x, x ∈ l → (P x ↔ Q x)) → filter P l = filter Q l.
Proof.
  induction l as [|x l IH]; intros Hext; [done|].
  rewrite !filter_cons.
  assert (Hx : P x ↔ Q x) by (apply Hext, elem_of_cons; by left).
  rewrite IH by (intros y Hy; apply Hext, elem_of_cons; by right).
  destruct (decide (P x)), (decide (Q x)); tauto.
Qed.

(** A book of the array is kept exactly when it leads its group. *)
Lemma kept_iff_leader (books : list BookObj) (b : BookObj) :
  NoDup (addr <$> books) → b ∈ books →
  addr b ∈ keep books
  ↔ leader cmp (group_of (volumeName (obj b)) books) = Some b.
Proof.
  intros Hnd Hb.
  destruct (booksByVolume_spec books) as (Hkeys & Hgroups & Hall).
  unfold booksToKeep. rewrite keep_fold. split.
  - intros [Hin|(k & g & w & Hin & Hw & Heq)];
      [by apply elem_of_empty in Hin|].
    destruct (Hgroups k g Hin) as [-> _].
    pose proof (leader_elem _ _ _ Hw) as Hwin.
    apply list_elem_of_filter in Hwin as [Hvn Hwin].
    assert (b = w) as -> by (eapply addr_inj; eauto).
    by rewrite Hvn.
  - intros Hw. right.
    pose proof (Hall b Hb) as Hk.
    apply list_elem_of_fmap in Hk as ([k g] & Hk & Hin). simpl in Hk.
    subst k. destruct (Hgroups _ _ Hin) as [-> _].
    by exists (volumeName (obj b)), (group_of (volumeName (obj b)) books), b.
Qed.

(** C2.  For every array of distinct book objects the automatic pick is
    a sub-array of it that holds, for each volume name that occurs,
    exactly one book of that name, the winner [w]: every book of the
    group that stands before [w] in the array sorts strictly behind it,
    every book after [w] sorts behind it or ties with it, where sorting
    is by (a) per-book-page support first when a page index is selected,
    (b) higher quality score, (c) earlier provider position.  A group of
    one book is kept as it is ([pre] and [post] are then empty). *)
Theorem automaticallyPickCovers_one_per_volume (books : list BookObj) :
  NoDup (addr <$> books) →
  pick books `sublist_of` books
  ∧ ∀ v, v ∈ (λ b, volumeName (obj b)) <$> books →
      ∃ w pre post,
        filter (λ b, volumeName (obj b) = v) (pick books) = [w]
        ∧ filter (λ b, volumeName (obj b) = v) books = pre ++ w :: post
        ∧ (∀ y, y ∈ pre → ahead providers selectedBookPage w y)
        ∧ (∀ y, y ∈ post →
                ahead providers selectedBookPage w y
                ∨ tied providers selectedBookPage w y).
Proof.
  intros Hnd. split; [apply sublist_filter|].
  intros v Hv. apply list_elem_of_fmap in Hv as (b0 & -> & Hb0).
  set (v := volumeName (obj b0)).
  assert (Hne : group_of v books ≠ []).
  { intros Hnil.
    assert (Hin : b0 ∈ group_of v books)
      by (apply list_elem_of_filter; done).
    rewrite Hnil in Hin. by apply elem_of_nil in Hin. }
  destruct (leader_nonempty cmp _ Hne) as [w Hw].
  destruct (leader_split cmp (compare_trans providers selectedBookPage)
              (compare_total providers selectedBookPage) _ _ Hw)
    as (pre & post & Hsplit & Hpre & Hpost).
  pose proof (leader_elem _ _ _ Hw) as Hwin.
  apply list_elem_of_filter in Hwin as [Hvn Hwin].
  exists w, pre, post. split; [|split; [exact Hsplit|split]].
  - unfold automaticallyPickCovers. rewrite list_filter_filter.
    rewrite <- (filter_addr books w Hnd Hwin).
    apply filter_ext_elem. intros b Hb. split.
    + intros [Hvb Hkeep]. apply kept_iff_leader in Hkeep; [|done|done].
      rewrite Hvb in Hkeep. fold v in Hkeep.
      rewrite Hw in Hkeep. by injection Hkeep as ->.
    + intros Heq. assert (b = w) as -> by (eapply addr_inj; eauto).
      split; [done|]. apply kept_iff_leader; [done|done|].
      by rewrite Hvn.
  - intros y Hy.
    by apply (compare_sign providers selectedBookPage y w), Hpre.
  - intros y Hy. pose proof (Hpost y Hy) as Hle.
    pose proof (compare_sign providers selectedBookPage w y)
      as (Hlt & Heq & _).
    destruct (Z.eq_dec (cmp w y) 0) as [H0|H0].
    + right. by apply Heq.
    + left. apply Hlt. lia.
Qed.

End Pick.

(** ** The regex matcher and the ordering number of a title *)

Section Matcher.
Import Regex.
Context {R : Type}.
Implicit Types (k : string → option string → option R) (s p : string).

Lemma length_append_string s1 s2 :
  String.length (s1 +:+ s2) = (String.length s1 + String.length s2)%nat.
Proof.
  induction s1 as [|c s1 IH]; [done|].
  change (S (String.length (s1 +:+ s2))
          = S (String.length s1 + String.length s2)).
  by rewrite IH.
Qed.

Lemma append_assoc_string s1 s2 s3 : (s1 +:+ s2) +:+ s3 = s1 +:+ (s2 +:+ s3).
Proof.
  induction s1 as [|c s1 IH]; [done|].
  change (String c ((s1 +:+ s2) +:+ s3) = String c (s1 +:+ (s2 +:+ s3))).
  by rewrite IH.
Qed.

Lemma substring_prefix p s :
  substring 0 (String.length (p +:+ s) - String.length s) (p +:+ s) = p.
Proof.
  rewrite length_append_string.
  replace (String.length p + String.length s - String.length s)%nat
    with (String.length p) by lia.
  induction p as [|c p IH]; [by destruct s|].
  change (String c (substring 0 (String.length p) (p +:+ s)) = String c p).
  by rewrite IH.
Qed.

(** The equations of the matcher. *)
Lemma rmatch_Chr_cons t c rest cap k :
  rmatch (Chr t) (String c rest) cap k = if t c then k rest cap else None.
Proof. reflexivity. Qed.

Lemma rmatch_Chr_nil t cap k : rmatch (Chr t) "" cap k = None.
Proof. reflexivity. Qed.

Lemma rmatch_Seq r1 r2 s cap k :
  rmatch (Seq r1 r2) s cap k
  = rmatch r1 s cap (λ s' cap', rmatch r2 s' cap' k).
Proof. reflexivity. Qed.

Lemma rmatch_Alt r1 r2 s cap k :
  rmatch (Alt r1 r2) s cap k
  = match rmatch r1 s cap k with
    | Some x => Some x
    | None => rmatch r2 s cap k
    end.
Proof. reflexivity. Qed.

Lemma rmatch_Opt r s cap k :
  rmatch (Opt r) s cap k
  = match rmatch r s cap k with Some x => Some x | None => k s cap end.
Proof. reflexivity. Qed.

Lemma rmatch_Plus r s cap k :
  rmatch (Plus r) s cap k = plus_loop (rmatch r) k (String.length s) s cap.
Proof. reflexivity. Qed.

Lemma rmatch_Group r s cap k :
  rmatch (Group r) s cap k
  = rmatch r s cap
      (λ s' _, k s' (Some (substring 0 (String.length s - String.length s') s))).
Proof. reflexivity. Qed.

Lemma plus_loop_S
    (body : string → option string
            → (string → option string → option R) → option R)
    k fuel s cap :
  plus_loop body k (S fuel) s cap
  = body s cap
      (λ s' cap',
         if (String.length s' <? String.length s)%nat then
           match plus_loop body k fuel s' cap' with
           | Some x => Some x
           | None => k s' cap'
           end
         else k s' cap').
Proof. reflexivity. Qed.

Lemma plus_loop_O
    (body : string → option string
            → (string → option string → option R) → option R)
    k s cap :
  plus_loop body k O s cap = body s cap k.
Proof. reflexivity. Qed.

Lemma plus_loop_consumes r :
  consumes R r →
  ∀ fuel s cap k x,
    plus_loop (rmatch r) k fuel s cap = Some x →
    ∃ p s' cap',
      s = p +:+ s' ∧ k s' cap' = Some x ∧ (nullable r = false → p ≠ "").
Proof.
  intros Hr. induction fuel as [|fuel IH]; intros s cap k x Hx.
  - apply Hr in Hx as (p & s' & cap' & -> & Hk & Hp). eauto 6.
  - cbn [plus_loop] in Hx.
    apply Hr in Hx as (p & s1 & cap1 & -> & Hk & Hp).
    destruct (String.length s1 <? String.length (p +:+ s1))%nat; [|eauto 6].
    destruct (plus_loop (rmatch r) k fuel s1 cap1) as [y|] eqn:Hy;
      [|eauto 6].
    injection Hk as ->.
    apply IH in Hy as (p2 & s2 & cap2 & -> & Hk2 & Hp2).
    exists (p +:+ p2), s2, cap2. rewrite append_assoc_string.
    repeat split; [done|]. intros Hnull. specialize (Hp Hnull).
    destruct p; [done|discriminate].
Qed.

Lemma rmatch_consumes r : consumes R r.
Proof.
  induction r as [|t|r1 IH1 r2 IH2|r1 IH1 r2 IH2|r1 IH1|r1 IH1|r1 IH1];
    intros s cap k x Hx; cbn [rmatch nullable] in *.
  - exists "", s, cap. repeat split; [done|discriminate].
  - destruct s as [|c rest]; [done|]. destruct (t c); [|done].
    exists (String c ""), rest, cap. repeat split; done.
  - apply IH1 in Hx as (p1 & s1 & cap1 & -> & Hx & Hp1).
    apply IH2 in Hx as (p2 & s2 & cap2 & -> & Hx & Hp2).
    exists (p1 +:+ p2), s2, cap2. rewrite append_assoc_string.
    repeat split; [done|]. intros Hnull%andb_false_iff.
    destruct Hnull as [Hn|Hn].
    + specialize (Hp1 Hn). destruct p1; [done|discriminate].
    + specialize (Hp2 Hn). destruct p1; [done|discriminate].
  - destruct (rmatch r1 s cap k) as [y|] eqn:Hy.
    + injection Hx as ->. apply IH1 in Hy as (p & s' & cap' & -> & Hk & Hp).
      exists p, s', cap'. repeat split; [done|].
      intros Hnull%orb_false_iff. tauto.
    + apply IH2 in Hx as (p & s' & cap' & -> & Hk & Hp).
      exists p, s', cap'. repeat split; [done|].
      intros Hnull%orb_false_iff. tauto.
  - apply (plus_loop_consumes r1 IH1) in Hx. exact Hx.
  - destruct (rmatch r1 s cap k) as [y|] eqn:Hy.
    + injection Hx as ->. apply IH1 in Hy as (p & s' & cap' & -> & Hk & _).
      exists p, s', cap'. repeat split; done.
    + exists "", s, cap. repeat split; done.
  - apply IH1 in Hx as (p & s' & cap' & -> & Hk & Hp). eauto 6.
Qed.

(** [c+] over a class runs through [plus_chr]. *)
Lemma plus_loop_chr t k cap :
  ∀ fuel s,
    (String.length s ≤ fuel)%nat →
    plus_loop (rmatch (Chr t)) k fuel s cap = plus_chr t s (λ s', k s' cap).
Proof.
  induction fuel as [|fuel IH]; intros s Hlen.
  - destruct s; [done|simpl in Hlen; lia].
  - destruct s as [|c rest]; [done|].
    rewrite plus_loop_S, rmatch_Chr_cons. cbn [plus_chr].
    destruct (t c); [|done].
    assert ((String.length rest <? String.length (String c rest))%nat = true)
      as -> by (apply Nat.ltb_lt; simpl; lia).
    rewrite IH by (simpl in Hlen; lia). done.
Qed.

Lemma rmatch_plus_chr t s cap k :
  rmatch (Plus (Chr t)) s cap k = plus_chr t s (λ s', k s' cap).
Proof. rewrite rmatch_Plus. by apply plus_loop_chr. Qed.

End Matcher.

Section Numbers.
Import Regex Title.
Context {R : Type}.
Implicit Types (k : string → option string → option R) (s : string).

Lemma span_append t s : s = (span t s).1 +:+ (span t s).2.
Proof.
  induction s as [|c rest IH]; [done|]. cbn [span].
  destruct (t c); [|done]. cbn [fst snd].
  change (String c rest = String c ((span t rest).1 +:+ (span t rest).2)).
  by rewrite <- IH.
Qed.

Lemma span_empty t s : (span t s).1 = "" → (span t s).2 = s.
Proof. destruct s as [|c rest]; [done|]. cbn [span]. by destruct (t c). Qed.

Lemma span_length t s : (String.length (span t s).2 ≤ String.length s)%nat.
Proof.
  rewrite (span_append t s) at 2. rewrite length_append_string. lia.
Qed.

Lemma dotted_append fuel s : s = (dotted fuel s).1 +:+ (dotted fuel s).2.
Proof.
  revert s. induction fuel as [|fuel IH]; intros s; [done|].
  destruct s as [|c rest]; [done|]. cbn [dotted].
  destruct (Ascii.eqb "." c); [|done].
  pose proof (span_append is_digit rest) as Hspan.
  destruct (span is_digit rest) as [[|d digits] r]; [done|].
  cbn [fst snd] in *. rewrite Hspan at 1.
  rewrite (IH r) at 1.
  change (String c (String d digits +:+ (dotted fuel r).1 +:+ (dotted fuel r).2)
          = String c ((String d digits +:+ (dotted fuel r).1)
                      +:+ (dotted fuel r).2)).
  by rewrite append_assoc_string.
Qed.

Lemma dotted_empty fuel s : (dotted fuel s).1 = "" → (dotted fuel s).2 = s.
Proof.
  destruct fuel as [|fuel]; [done|]. destruct s as [|c rest]; [done|].
  cbn [dotted]. destruct (Ascii.eqb "." c); [|done].
  by destruct (span is_digit rest) as [[|d digits] r].
Qed.

(** With a rest that always matches, [c+] takes the longest run. *)
Lemma plus_chr_total t s (f : string → option R) :
  (∀ s', is_Some (f s')) →
  plus_chr t s f
  = match (span t s).1 with
    | EmptyString => None
    | _ => f (span t s).2
    end.
Proof.
  intros Hf. induction s as [|c rest IH]; [done|].
  cbn [plus_chr span]. destruct (t c); [|done]. cbn [fst snd].
  rewrite IH. destruct (span t rest).1 eqn:Hrun.
  - by rewrite (span_empty t rest Hrun).
  - by destruct (Hf (span t rest).2) as [x ->].
Qed.

(** The dotted sub-parts, with a rest that always matches. *)
Lemma plus_loop_dotted k cap :
  (∀ s cap, is_Some (k s cap)) →
  ∀ fuel s,
    (String.length s ≤ fuel)%nat →
    plus_loop (rmatch (Seq (byte_is ".") (Plus digit))) k fuel s cap
    = match (dotted fuel s).1 with
      | EmptyString => None
      | _ => k (dotted fuel s).2 cap
      end.
Proof.
  intros Hk. induction fuel as [|fuel IH]; intros s Hlen.
  - destruct s; [done|simpl in Hlen; lia].
  - destruct s as [|c rest]; [done|].
    rewrite plus_loop_S, rmatch_Seq. unfold byte_is at 1.
    rewrite rmatch_Chr_cons. cbn [dotted].
    destruct (Ascii.eqb "." c); [|done].
    unfold digit at 1. rewrite rmatch_plus_chr, plus_chr_total.
    2: { intros s'.
         destruct (String.length s' <? String.length (String c rest))%nat;
           [|apply Hk].
         destruct (plus_loop _ k fuel s' cap); [eauto|apply Hk]. }
    pose proof (span_length is_digit rest) as Hr.
    destruct (span is_digit rest) as [[|d digits] r]; [done|].
    cbn [fst snd] in *.
    assert ((String.length r <? String.length (String c rest))%nat = true)
      as -> by (apply Nat.ltb_lt; simpl; lia).
    rewrite IH by (simpl in Hlen; lia).
    destruct (dotted fuel r).1 eqn:Hd.
    + by rewrite (dotted_empty fuel r Hd).
    + by destruct (Hk (dotted fuel r).2 cap) as [x ->].
Qed.

(** A number, with a rest that always matches: the longest one. *)
Lemma rmatch_number s cap k :
  (∀ s cap, is_Some (k s cap)) →
  rmatch number s cap k
  = match scan_number s with
    | Some (n, r) => k r cap
    | None => None
    end.
Proof.
  intros Hk. unfold number, scan_number.
  rewrite rmatch_Seq. unfold digit at 1. rewrite rmatch_plus_chr.
  rewrite plus_chr_total.
  2: { intros s'. rewrite rmatch_Opt.
       destruct (rmatch _ s' cap k); [eauto|apply Hk]. }
  destruct (span is_digit s) as [[|d digits] r]; [done|]. cbn [fst snd].
  rewrite rmatch_Opt, rmatch_Plus.
  rewrite (plus_loop_dotted k cap Hk) by done.
  destruct (dotted (String.length r) r).1 eqn:Hd.
  - by rewrite (dotted_empty _ r Hd).
  - by destruct (Hk (dotted (String.length r) r).2 cap) as [x ->].
Qed.

Lemma scan_number_append s n r : scan_number s = Some (n, r) → s = n +:+ r.
Proof.
  unfold scan_number. pose proof (span_append is_digit s) as Hs.
  destruct (span is_digit s) as [[|d digits] r0]; [done|].
  intros [= <- <-]. cbn [fst snd] in Hs. rewrite Hs at 1.
  rewrite (dotted_append (String.length r0) r0) at 1.
  by rewrite append_assoc_string.
Qed.

Lemma scan_number_nonempty s n r : scan_number s = Some (n, r) → n ≠ "".
Proof.
  unfold scan_number.
  destruct (span is_digit s) as [[|d digits] r0]; [done|].
  by intros [= <- <-].
Qed.

(** The capturing group around a number. *)
Lemma rmatch_group_number s cap k :
  (∀ s cap, is_Some (k s cap)) →
  rmatch (Group number) s cap k
  = match scan_number s with
    | Some (n, r) => k r (Some n)
    | None => None
    end.
Proof.
  intros Hk. rewrite rmatch_Group, rmatch_number by (intros; apply Hk).
  destruct (scan_number s) as [[n r]|] eqn:Hscan; [|done].
  apply scan_number_append in Hscan as ->. by rewrite substring_prefix.
Qed.

End Numbers.

Section Extraction.
Import Regex Title.

Lemma plus_chr_ext {R} t s (f g : string → option R) :
  (∀ s', f s' = g s') → plus_chr t s f = plus_chr t s g.
Proof.
  intros Hfg. induction s as [|c rest IH]; [done|]. cbn [plus_chr].
  by rewrite IH, Hfg.
Qed.

Lemma plus_chr_bind {R} t s (f : string → option (string * string))
    (g : string * string → option R) :
  (∀ x, is_Some (g x)) →
  plus_chr t s (λ s', f s' ≫= g) = plus_chr t s f ≫= g.
Proof.
  intros Hg. induction s as [|c rest IH]; [done|]. cbn [plus_chr].
  destruct (t c); [|done]. rewrite IH.
  destruct (plus_chr t rest f) as [x|]; [|done]. cbn.
  by destruct (Hg x) as [y ->].
Qed.

Lemma rmatch_without_leading_zeros {R} s cap
    (k : string → option string → option R) :
  (∀ s cap, is_Some (k s cap)) →
  rmatch without_leading_zeros s cap k
  = stripped s ≫= (λ nr, k nr.2 (Some nr.1)).
Proof.
  intros Hk. unfold without_leading_zeros, stripped.
  rewrite rmatch_Seq, rmatch_Opt. unfold byte_is. rewrite rmatch_plus_chr.
  assert (Hgroup : ∀ s', rmatch (Group number) s' cap k
                         = scan_number s' ≫= (λ nr, k nr.2 (Some nr.1))).
  { intros s'. rewrite rmatch_group_number by done.
    by destruct (scan_number s') as [[n r]|]. }
  rewrite (plus_chr_ext _ _ _ _ Hgroup), plus_chr_bind, Hgroup
    by (intros [n r]; apply Hk).
  destruct (plus_chr _ s scan_number) as [[n r]|]; [|done]. cbn.
  by destruct (Hk r (Some n)) as [y ->].
Qed.

Lemma span_head t s c run : (span t s).1 = String c run → t c = true.
Proof.
  destruct s as [|c0 rest]; [done|]. cbn [span].
  destruct (t c0) eqn:Hc; [|done]. by intros [= <- _].
Qed.

Lemma dotted_head fuel s c run :
  (dotted fuel s).1 = String c run → is_digit c = false.
Proof.
  destruct fuel as [|fuel]; [done|]. destruct s as [|c0 rest]; [done|].
  cbn [dotted]. destruct (Ascii.eqb_spec "." c0) as [<-|]; [|done].
  destruct (span is_digit rest) as [[|d digits] r]; [done|].
  by intros [= <- _].
Qed.

Lemma scan_number_cons c rest :
  is_digit c = true →
  scan_number (String c rest)
  = match scan_number rest with
    | Some (n, r) => Some (String c n, r)
    | None =>
        Some (String c (dotted (String.length rest) rest).1,
              (dotted (String.length rest) rest).2)
    end.
Proof.
  intros Hc. unfold scan_number. cbn [span]. rewrite Hc.
  pose proof (span_empty is_digit rest) as Hempty.
  destruct (span is_digit rest) as [[|d digits] r]; cbn [fst snd] in *.
  - by rewrite Hempty.
  - done.
Qed.

Lemma scan_number_head s c n r :
  scan_number s = Some (String c n, r) → is_digit c = true.
Proof.
  unfold scan_number. pose proof (span_head is_digit s) as Hhead.
  destruct (span is_digit s) as [[|d digits] r0]; [done|].
  intros [= <- _ _]. by eapply Hhead.
Qed.

Lemma scan_number_None c rest :
  is_digit c = false → scan_number (String c rest) = None.
Proof. intros Hc. unfold scan_number. cbn [span]. by rewrite Hc. Qed.

Lemma zero_is_digit c : Ascii.eqb "0" c = true → is_digit c = true.
Proof. by intros <-%Ascii.eqb_eq. Qed.

Lemma strip_zeros_zero_digit d n :
  is_digit d = true →
  strip_zeros (String "0" (String d n)) = strip_zeros (String d n).
Proof. intros Hd. cbn [strip_zeros]. by rewrite Hd. Qed.

Lemma strip_zeros_zero_last n :
  (∀ d run, n = String d run → is_digit d = false) →
  strip_zeros (String "0" n) = String "0" n.
Proof.
  intros Hn. destruct n as [|d run]; [done|]. cbn [strip_zeros].
  by rewrite (Hn d run eq_refl).
Qed.

Lemma strip_zeros_nonzero c n :
  Ascii.eqb "0" c = false → strip_zeros (String c n) = String c n.
Proof. intros Hc. cbn [strip_zeros]. by rewrite Hc. Qed.

(** The engine's choice is the number without its leading zeros. *)
Lemma stripped_strip_zeros s :
  stripped s = (λ nr, (strip_zeros nr.1, nr.2)) <$> scan_number s.
Proof.
  induction s as [|c rest IH]; [done|].
  unfold stripped in *. cbn [plus_chr].
  destruct (Ascii.eqb "0" c) eqn:Hzero.
  - rewrite IH. rewrite (scan_number_cons c rest (zero_is_digit c Hzero)).
    apply Ascii.eqb_eq in Hzero as <-.
    destruct (scan_number rest) as [[n r]|] eqn:Hrest;
      cbn [fmap option_fmap option_map fst snd].
    + destruct n as [|d n]; [by apply scan_number_nonempty in Hrest|].
      by rewrite (strip_zeros_zero_digit d n
                    (scan_number_head rest d n r Hrest)).
    + rewrite strip_zeros_zero_last; [done|].
      intros d run Hd. by eapply dotted_head.
  - destruct (is_digit c) eqn:Hc.
    + rewrite (scan_number_cons c rest Hc).
      destruct (scan_number rest) as [[n r]|];
        cbn [fmap option_fmap option_map fst snd];
        by rewrite (strip_zeros_nonzero c _ Hzero).
    + by rewrite (scan_number_None c rest Hc).
Qed.

Lemma strip_zeros_nonempty n : n ≠ "" → strip_zeros n ≠ "".
Proof.
  induction n as [|c rest IH]; [done|]. intros _. cbn [strip_zeros].
  destruct (Ascii.eqb "0" c); [|done].
  destruct rest as [|d rest']; [done|].
  destruct (is_digit d); [by apply IH|done].
Qed.

Lemma first_number_nonempty s n : first_number s = Some n → n ≠ "".
Proof.
  induction s as [|c rest IH]; cbn [first_number].
  - destruct (scan_number "") as [[n0 r]|] eqn:Hscan; [|done].
    intros [= <-]. by eapply scan_number_nonempty.
  - destruct (scan_number (String c rest)) as [[n0 r]|] eqn:Hscan; [|done].
    intros [= <-]. by eapply scan_number_nonempty.
Qed.

(** The last regex: the first number of the string, zeros stripped. *)
Lemma search_without_leading_zeros s i :
  search without_leading_zeros s i ≫= found_group
  = strip_zeros <$> first_number s.
Proof.
  revert i. induction s as [|c rest IH]; intros i;
    cbn [search first_number]; unfold match_here;
    rewrite rmatch_without_leading_zeros by eauto;
    rewrite stripped_strip_zeros.
  - by destruct (scan_number "") as [[n r]|].
  - destruct (scan_number (String c rest)) as [[n r]|]; [done|]. apply IH.
Qed.

Lemma search_any_number_None s i :
  search any_number s i = None → first_number s = None.
Proof.
  revert i. induction s as [|c rest IH]; intros i;
    cbn [search first_number]; unfold match_here, any_number;
    rewrite rmatch_group_number by eauto.
  - by destruct (scan_number "") as [[n r]|].
  - destruct (scan_number (String c rest)) as [[n r]|]; [done|]. apply IH.
Qed.

Lemma search_inv r s i m :
  search r s i = Some m → ∃ s0 j, match_here r s0 j = Some m.
Proof.
  revert i. induction s as [|c rest IH]; intros i; cbn [search].
  - destruct (match_here r "" i) eqn:Hhere; [|done]. intros [= <-]. eauto.
  - destruct (match_here r (String c rest) i) eqn:Hhere.
    + intros [= <-]. eauto.
    + apply IH.
Qed.

(** A match of a pattern that cannot match the empty string has a
    non-empty text. *)
Lemma search_text_nonempty r s i m :
  nullable r = false → search r s i = Some m → found_text m ≠ "".
Proof.
  intros Hnull (s0 & j & Hhere)%search_inv. unfold match_here in Hhere.
  apply rmatch_consumes in Hhere as (p & s' & cap' & -> & [= <-] & Hp).
  cbn [found_text]. rewrite substring_prefix. by apply Hp.
Qed.

Lemma matches_from_nonempty r fuel s text :
  nullable r = false → text ∈ matches_from fuel r s → text ≠ "".
Proof.
  intros Hnull. revert s. induction fuel as [|fuel IH]; intros s;
    cbn [matches_from]; [by intros ?%elem_of_nil|].
  destruct (search r s 0) as [m|] eqn:Hsearch; [|by intros ?%elem_of_nil].
  intros [->|Hin]%elem_of_cons; [by eapply search_text_nonempty|].
  destruct (String.length (found_text m) =? 0)%nat; [|by eapply IH].
  destruct (found_rest m); [by apply elem_of_nil in Hin|by eapply IH].
Qed.

(** The number an explicit marker captures is there and not empty. *)
Lemma search_explicit_marker_group s i m :
  search explicit_marker s i = Some m →
  ∃ n, found_group m = Some n ∧ n ≠ "".
Proof.
  intros (s0 & j & Hhere)%search_inv.
  unfold match_here, explicit_marker in Hhere. rewrite rmatch_Seq in Hhere.
  apply rmatch_consumes in Hhere as (p & s' & cap' & -> & Hgroup & _).
  rewrite rmatch_group_number in Hgroup by eauto.
  destruct (scan_number s') as [[n r]|] eqn:Hscan; [|done].
  injection Hgroup as <-. exists n. split; [done|].
  by eapply scan_number_nonempty.
Qed.

Lemma pop_fmap_Some (texts : list string) : pop (Some <$> texts) = last texts.
Proof.
  unfold pop. rewrite fmap_last. by destruct (last texts).
Qed.

Lemma truthy_nonempty (text : string) :
  text ≠ "" → JS.truthy_str (Some text) = true.
Proof. by destruct text. Qed.
End Extraction.

Section Normalize.
Import Regex Title.

Lemma strip_prefix_Some p s s' : strip_prefix p s = Some s' ↔ s = p +:+ s'.
Proof.
  revert s. induction p as [|a p IH]; intros s; cbn [strip_prefix].
  - change ("" +:+ s') with s'. split; [by intros [= ->]|by intros ->].
  - change (String a p +:+ s') with (String a (p +:+ s')).
    destruct s as [|b s]; [done|].
    destruct (Ascii.eqb_spec a b) as [<-|Hne].
    + rewrite IH. split; [by intros ->|by intros [= ->]].
    + split; [done|]. by intros [= ? _].
Qed.

Lemma strip_prefix_append p s : strip_prefix p (p +:+ s) = Some s.
Proof. by apply strip_prefix_Some. Qed.

Lemma rmatch_lit {R} p s cap (k : string → option string → option R) :
  rmatch (lit p) s cap k
  = match strip_prefix p s with Some s' => k s' cap | None => None end.
Proof.
  revert s. induction p as [|a p IH]; intros s; cbn [lit strip_prefix];
    [done|].
  rewrite rmatch_Seq. unfold byte_is.
  destruct s as [|b s]; [done|]. rewrite rmatch_Chr_cons.
  destruct (Ascii.eqb a b); [apply IH|done].
Qed.

(** A character class replaces its members as a table does. *)
Lemma rmatch_any_of {R} members by_ s cap
    (k : string → option string → option R) :
  (∀ s' cap', is_Some (k s' cap')) →
  rmatch (any_of members) s cap k
  = match glyph_at ((λ m, (m, by_)) <$> members) s with
    | Some (glyph, _) =>
        match strip_prefix glyph s with
        | Some s' => k s' cap
        | None => None
        end
    | None => None
    end.
Proof.
  intros Hk. induction members as [|m members IH].
  - by destruct s.
  - assert (Hcons : rmatch (any_of (m :: members)) s cap k
                    = match rmatch (lit m) s cap k with
                      | Some x => Some x
                      | None => rmatch (any_of members) s cap k
                      end).
    { destruct members as [|m' members']; [|done].
      cbn [any_of]. destruct (rmatch (lit m) s cap k); [done|].
      by destruct s. }
    rewrite Hcons, IH, rmatch_lit. cbn [fmap list_fmap glyph_at].
    destruct (strip_prefix m s) as [s'|] eqn:Hm; [|done].
    rewrite Hm. by destruct (Hk s' cap) as [x ->].
Qed.
End Normalize.

Section Translate.
Import Regex Title.
Implicit Types (table : list (string * string)) (s glyph : string).

Lemma translate_skip table p s :
  translate table (String.length p) (p +:+ s) = translate table 0 s.
Proof.
  induction p as [|a p IH]; [done|].
  change (String a p +:+ s) with (String a (p +:+ s)). apply IH.
Qed.

Lemma glyph_at_Some table s glyph by_ :
  glyph_at table s = Some (glyph, by_) →
  (glyph, by_) ∈ table ∧ ∃ s', s = glyph +:+ s'.
Proof.
  induction table as [|[g b] table IH]; cbn [glyph_at]; [done|].
  destruct (strip_prefix g s) as [s'|] eqn:Hg.
  - intros [= <- <-]. split; [apply elem_of_cons; by left|].
    exists s'. by apply strip_prefix_Some.
  - intros [Hin Hs]%IH. split; [apply elem_of_cons; by right|done].
Qed.

Lemma glyph_at_app table table' s :
  glyph_at (table ++ table') s
  = match glyph_at table s with
    | Some x => Some x
    | None => glyph_at table' s
    end.
Proof.
  induction table as [|[g b] table IH]; cbn [glyph_at app]; [done|].
  by destruct (strip_prefix g s).
Qed.

Lemma translate_Some table glyph by_ s' :
  glyph_at table (glyph +:+ s') = Some (glyph, by_) →
  glyph ≠ "" →
  translate table 0 (glyph +:+ s') = by_ +:+ translate table 0 s'.
Proof.
  intros Hat Hne. destruct glyph as [|a glyph]; [done|].
  change (String a glyph +:+ s') with (String a (glyph +:+ s')) in *.
  cbn [translate]. rewrite Hat. cbn [String.length].
  by rewrite Nat.sub_succ, Nat.sub_0_r, translate_skip.
Qed.

Lemma translate_None table c rest :
  glyph_at table (String c rest) = None →
  translate table 0 (String c rest) = String c (translate table 0 rest).
Proof. intros Hat. cbn [translate]. by rewrite Hat. Qed.

Lemma length_strip_prefix glyph s s' :
  glyph ≠ "" → strip_prefix glyph s = Some s' →
  (String.length s' < String.length s)%nat.
Proof.
  intros Hne ->%strip_prefix_Some. rewrite length_append_string.
  destruct glyph; [done|]. cbn [String.length]. lia.
Qed.

(** [replace] with a [g] character class is a pass of the table that
    sends each member to the replacement. *)
Lemma replace_from_any_of members by_ fuel s :
  (∀ m, m ∈ members → m ≠ "") →
  (String.length s ≤ fuel)%nat →
  replace_from fuel (any_of members) by_ s
  = translate ((λ m, (m, by_)) <$> members) 0 s.
Proof.
  intros Hmembers. revert s.
  induction fuel as [|fuel IH]; intros s Hfuel.
  { destruct s; [done|]. cbn [String.length] in Hfuel. lia. }
  cbn [replace_from]. rewrite (rmatch_any_of members by_) by eauto.
  destruct (glyph_at _ s) as [[glyph b]|] eqn:Hat.
  - destruct (glyph_at_Some _ _ _ _ Hat) as [Hin [s' ->]].
    apply list_elem_of_fmap in Hin as (m & [= -> ->] & Hm).
    rewrite strip_prefix_append.
    pose proof (length_strip_prefix m (m +:+ s') s' (Hmembers m Hm)
                  (strip_prefix_append m s')) as Hshorter.
    destruct (Nat.ltb_spec (String.length s') (String.length (m +:+ s')));
      [|lia].
    rewrite IH by lia. symmetry. by apply translate_Some, Hmembers.
  - destruct s as [|c rest]; [done|].
    rewrite (translate_None _ _ _ Hat), IH; [done|].
    cbn [String.length] in Hfuel. lia.
Qed.

Lemma replace_g_any_of members by_ s :
  (∀ m, m ∈ members → m ≠ "") →
  replace_g (any_of members) by_ s
  = translate ((λ m, (m, by_)) <$> members) 0 s.
Proof. intros Hm. apply replace_from_any_of; [done|lia]. Qed.

Lemma replaceAll_translate glyph by_ s :
  glyph ≠ "" → replaceAll glyph by_ s = translate [(glyph, by_)] 0 s.
Proof.
  intros Hne. apply (replace_g_any_of [glyph] by_ s).
  by intros m ->%list_elem_of_singleton.
Qed.
End Translate.

Section Join.
Import Regex Title.
Implicit Types (table : list (string * string)) (s glyph : string).

(** What [joins] gives for each entry of the table. *)
Lemma joins_entry table c tail glyph' by_ :
  joins table (String c tail) = true →
  (glyph', by_) ∈ table →
  ∃ a rest x,
    glyph' = String a rest ∧ by_ = String x "" ∧ x ≠ c
    ∧ ∀ d, d ∈ list_ascii_of_string tail → a ≠ d ∧ x ≠ d.
Proof.
  cbn [joins]. rewrite forallb_forall. intros Hall Hin.
  apply list_elem_of_In, Hall in Hin.
  destruct glyph' as [|a rest]; [done|].
  destruct by_ as [|x [|]]; [done| |done].
  apply andb_prop in Hin as [Hx Htail].
  exists a, rest, x. split; [done|]. split; [done|].
  split; [by intros ->; rewrite Ascii.eqb_refl in Hx|].
  intros d Hd. rewrite forallb_forall in Htail.
  apply list_elem_of_In, Htail, andb_prop in Hd as [Ha Hxd].
  split; intros ->; by rewrite Ascii.eqb_refl in *.
Qed.

Lemma strip_prefix_head_ne a p b s :
  a ≠ b → strip_prefix (String a p) (String b s) = None.
Proof. intros Hne. cbn [strip_prefix]. by destruct (Ascii.eqb_spec a b). Qed.

(** The later bytes of a joining glyph pass through the table
    unchanged, and nothing else produces them. *)
Lemma strip_prefix_translate table c tail s :
  joins table (String c tail) = true →
  ∀ tail', (∀ d, d ∈ list_ascii_of_string tail' →
                 d ∈ list_ascii_of_string tail) →
  strip_prefix tail' (translate table 0 s)
  = translate table 0 <$> strip_prefix tail' s.
Proof.
  intros Hjoins tail'. revert s.
  induction tail' as [|d tail' IH]; intros s Htail; [done|].
  assert (Hd : d ∈ list_ascii_of_string tail)
    by (apply Htail; cbn; apply elem_of_cons; by left).
  assert (Htail' : ∀ d', d' ∈ list_ascii_of_string tail' →
                         d' ∈ list_ascii_of_string tail)
    by (intros d' Hd'; apply Htail; cbn; apply elem_of_cons; by right).
  destruct s as [|b rest]; [done|].
  destruct (glyph_at table (String b rest)) as [[glyph' by_]|] eqn:Hat.
  - destruct (glyph_at_Some _ _ _ _ Hat) as [Hin [s' Hs]].
    destruct (joins_entry _ _ _ _ _ Hjoins Hin)
      as (a & g & x & -> & -> & _ & Hinert).
    destruct (Hinert d Hd) as [Had Hxd].
    rewrite Hs in *.
    rewrite (translate_Some table (String a g) (String x "") s' Hat)
      by done.
    change (String a g +:+ s') with (String a (g +:+ s')).
    change (String x "" +:+ translate table 0 s')
      with (String x (translate table 0 s')).
    rewrite !strip_prefix_head_ne by done. done.
  - rewrite (translate_None _ _ _ Hat). cbn [strip_prefix].
    destruct (Ascii.eqb d b); [by apply IH|done].
Qed.

(** A pass for one more glyph after a pass of the table is one pass of
    the longer table. *)
Lemma translate_join table glyph by_ s :
  joins table glyph = true →
  translate [(glyph, by_)] 0 (translate table 0 s)
  = translate (table ++ [(glyph, by_)]) 0 s.
Proof.
  intros Hjoins. destruct glyph as [|c tail] eqn:Hglyph; [done|].
  remember (String.length s) as n eqn:Hn. revert s Hn.
  induction n as [n IH] using lt_wf_ind. intros s ->.
  destruct s as [|b rest]; [done|].
  destruct (glyph_at table (String b rest)) as [[glyph' by_']|] eqn:Hat.
  - destruct (glyph_at_Some _ _ _ _ Hat) as [Hin [s' Hs]].
    destruct (joins_entry _ _ _ _ _ Hjoins Hin)
      as (a & g & x & -> & -> & Hxc & _).
    rewrite Hs in *.
    rewrite (translate_Some table (String a g) (String x "") s' Hat)
      by done.
    rewrite (translate_Some (table ++ [(String c tail, by_)])
               (String a g) (String x "") s')
      by (first [done | by rewrite glyph_at_app, Hat]).
    change (String x "" +:+ ?t) with (String x t).
    rewrite translate_None
      by (cbn [glyph_at]; by rewrite strip_prefix_head_ne).
    f_equal. apply (IH (String.length s')); [|done].
    rewrite ?length_append_string. cbn [String.length].
    rewrite ?length_append_string. lia.
  - rewrite (translate_None _ _ _ Hat).
    pose proof (strip_prefix_translate table c tail rest Hjoins tail
                  (λ d H, H)) as Htail.
    destruct (strip_prefix (String c tail) (String b rest)) as [s'|] eqn:Hhere.
    + pose proof Hhere as Hs. apply strip_prefix_Some in Hs.
      change (String c tail +:+ s') with (String c (tail +:+ s')) in Hs.
      injection Hs as -> ->.
      rewrite strip_prefix_append in Htail. cbn in Htail.
      apply strip_prefix_Some in Htail. rewrite Htail.
      change (String c (tail +:+ ?t)) with (String c tail +:+ t).
      rewrite (translate_Some [(String c tail, by_)] (String c tail) by_
                 (translate table 0 s')),
        (translate_Some (table ++ [(String c tail, by_)]) (String c tail)
           by_ s'); try done.
      * f_equal. apply (IH (String.length s')); [|done].
        rewrite ?length_append_string. cbn [String.length].
        rewrite ?length_append_string. lia.
      * rewrite glyph_at_app.
        change (String c tail +:+ s') with (String c (tail +:+ s')).
        rewrite Hat. cbn [glyph_at]. by rewrite Hhere.
      * cbn [glyph_at]. by rewrite strip_prefix_append.
    + rewrite !translate_None.
      * f_equal. apply (IH (String.length rest)); [|done].
        cbn [String.length]. lia.
      * rewrite glyph_at_app, Hat. cbn [glyph_at]. by rewrite Hhere.
      * cbn [glyph_at strip_prefix] in Hhere |- *.
        destruct (Ascii.eqb c b); [|done].
        rewrite Htail. by destruct (strip_prefix tail rest).
Qed.
End Join.

Section NormalizeGlyphs.
Import Regex Title.

Lemma pretty_digits :
  imap (λ i character, (character, pretty (Z.of_nat i))) japaneseCharacters
  = drop 8 glyphs.
Proof. vm_compute. reflexivity. Qed.

Lemma foldl_imap_pairs (f : nat → nat) (characters : list string) s :
  foldl (λ volumeString '(i, character),
           replaceAll character (pretty (Z.of_nat i)) volumeString)
    s (imap (λ i character, (f i, character)) characters)
  = foldl (λ s '(glyph, by_), replaceAll glyph by_ s)
      s (imap (λ i character, (character, pretty (Z.of_nat (f i))))
           characters).
Proof.
  revert f s. induction characters as [|c characters IH]; intros f s; [done|].
  cbn [imap foldl]. apply (IH (f ∘ S)).
Qed.

Lemma normalize_passes title :
  normalize title
  = foldl (λ s '(glyph, by_), replaceAll glyph by_ s)
      (replace_g separators "." title) (drop 8 glyphs).
Proof.
  rewrite <- pretty_digits. unfold normalize.
  apply (foldl_imap_pairs (λ i, i)).
Qed.
Lemma translate_passes table more s :
  (∀ done_ glyph by_ rest,
     more = done_ ++ (glyph, by_) :: rest →
     joins (table ++ done_) glyph = true) →
  foldl (λ s '(glyph, by_), replaceAll glyph by_ s)
    (translate table 0 s) more
  = translate (table ++ more) 0 s.
Proof.
  revert table. induction more as [|[glyph by_] more IH]; intros table Hjoins.
  - by rewrite app_nil_r.
  - cbn [foldl]. pose proof (Hjoins [] glyph by_ more eq_refl) as Hglyph.
    rewrite app_nil_r in Hglyph.
    rewrite replaceAll_translate by (by destruct glyph).
    rewrite translate_join by done.
    rewrite IH; [by rewrite <- app_assoc|].
    intros done_ glyph' by_' rest ->.
    rewrite <- app_assoc. by apply (Hjoins ((glyph, by_) :: done_) glyph' by_' rest).
Qed.

(** The normalization of the code, eleven passes over the title, is one
    pass of the glyph table. *)
Lemma normalize_translate title : normalize title = normalize_glyphs title.
Proof.
  rewrite normalize_passes. unfold separators, normalize_glyphs.
  rewrite (replace_g_any_of _ "." title).
  - apply (translate_passes (take 8 glyphs) (drop 8 glyphs) title).
    intros done_ glyph by_ rest Hmore.
    assert (Hlen : (length done_ < 10)%nat).
    { apply (f_equal length) in Hmore. rewrite length_app in Hmore.
      cbn in Hmore. lia. }
    do 10 (destruct done_ as [|? done_];
           [injection Hmore as <- <- <-; vm_compute; reflexivity|
            injection Hmore as <- Hmore]).
    cbn in Hlen. lia.
  - intros m Hm. repeat (apply elem_of_cons in Hm as [->|Hm]; [done|]).
    by apply elem_of_nil in Hm.
Qed.
End NormalizeGlyphs.

Section VolumeNumber.
Import Regex Title.

Lemma exec_without_leading_zeros x :
  match exec without_leading_zeros x with
  | Some volumeNumbers =>
      if JS.truthy_str (pop volumeNumbers) then pop volumeNumbers else None
  | None => None
  end = strip_zeros <$> first_number x.
Proof.
  unfold exec. pose proof (search_without_leading_zeros x 0) as Hsearch.
  destruct (search without_leading_zeros x 0) as [m|];
    cbn [mbind option_bind] in Hsearch; [|done].
  change (pop [Some (found_text m); found_group m]) with (found_group m).
  rewrite Hsearch. destruct (first_number x) as [n|] eqn:Hn; [|done].
  cbn [fmap option_fmap option_map]. rewrite truthy_nonempty; [done|].
  by eapply strip_zeros_nonempty, first_number_nonempty.
Qed.

Lemma matches_nonempty r s text :
  nullable r = false → last (matches r s) = Some text → text ≠ "".
Proof.
  intros Hnull Hlast. eapply matches_from_nonempty; [done|].
  eapply list_elem_of_lookup_2. rewrite <- last_lookup. apply Hlast.
Qed.

Lemma match_g_pop r s : match_g r s ≫= pop = last (matches r s).
Proof.
  unfold match_g, matches.
  destruct (matches_from (S (String.length s)) r s) as [|text texts];
    [done|].
  cbn [mbind option_bind]. apply pop_fmap_Some.
Qed.

Lemma match_g_None r s : match_g r s = None ↔ matches r s = [].
Proof.
  unfold match_g, matches.
  by destruct (matches_from (S (String.length s)) r s).
Qed.

Lemma matches_nil_search r s : matches r s = [] → search r s 0 = None.
Proof.
  unfold matches. cbn [matches_from]. by destruct (search r s 0).
Qed.

(** What the code feeds to its last regex: the text the patterns
    select, or the whole normalized title when no pattern matches (and
    then the title has no number at all). *)
Lemma selected_text vs :
  let spaceMatch :=
    or_else (exec explicit_marker vs)
      (or_else (match_g parenthesized vs)
         (or_else (match_g space_delimited vs) (match_g any_number vs))) in
  let spaceMatchN := spaceMatch ≫= pop in
  first_number
    (if JS.truthy_str spaceMatchN then JS.nullish spaceMatchN vs else vs)
  = selected vs ≫= first_number.
Proof.
  cbv zeta. unfold selected, exec.
  destruct (search explicit_marker vs 0) as [m|] eqn:Hmarker.
  { destruct (search_explicit_marker_group _ _ _ Hmarker) as (n & Hn & Hne).
    cbn [or_else mbind option_bind].
    change (pop [Some (found_text m); found_group m]) with (found_group m).
    rewrite Hn, (truthy_nonempty n Hne). done. }
  cbn [or_else].
  assert (Hstep : ∀ r (rest : option (list (option string))),
    nullable r = false →
    first_number
      (if JS.truthy_str (or_else (match_g r vs) rest ≫= pop)
       then JS.nullish (or_else (match_g r vs) rest ≫= pop) vs else vs)
    = match last (matches r vs) with
      | Some text => first_number text
      | None =>
          first_number
            (if JS.truthy_str (rest ≫= pop)
             then JS.nullish (rest ≫= pop) vs else vs)
      end).
  { intros r rest Hnull. pose proof (match_g_pop r vs) as Hpop.
    destruct (match_g r vs) as [texts|] eqn:Hg.
    - cbn [or_else]. rewrite Hpop.
      destruct (last (matches r vs)) as [text|] eqn:Hlast.
      + by rewrite (truthy_nonempty text (matches_nonempty r vs text Hnull Hlast)).
      + apply last_None in Hlast. apply match_g_None in Hlast. congruence.
    - cbn [or_else]. apply match_g_None in Hg. by rewrite Hg. }
  rewrite (Hstep parenthesized) by done.
  destruct (last (matches parenthesized vs)) as [text|]; [done|].
  rewrite (Hstep space_delimited) by done.
  destruct (last (matches space_delimited vs)) as [text|]; [done|].
  pose proof (match_g_pop any_number vs) as Hpop. rewrite Hpop.
  destruct (last (matches any_number vs)) as [text|] eqn:Hlast.
  - by rewrite (truthy_nonempty text
                  (matches_nonempty any_number vs text eq_refl Hlast)).
  - apply last_None, matches_nil_search in Hlast.
    cbn. by eapply search_any_number_None.
Qed.

(** C5 (as amended): for every title, [getVolumeNumber] normalizes the
    title (one pass of the glyph table: locale punctuation to a period,
    full-width digits to ASCII digits) and returns, without its run of
    leading zeros (the last digit of an all-zero integer part stays),
    the first number of the text selected in priority order: the
    number captured by the FIRST explicit Volume/Chapter/vol./No.
    marker; else the last parenthesized number; else the last
    space-delimited number; else the last number; the result is
    undefined when the title has no number.  In particular "Volume 12"
    gives "12" and "第５巻" gives "5". *)
Theorem getVolumeNumber_extraction :
  (∀ title, getVolumeNumber title = extractOrderingNumber title)
  ∧ getVolumeNumber "Volume 12" = Some "12"
  ∧ getVolumeNumber "第５巻" = Some "5".
Proof.
  split; [|by vm_compute]. intros title.
  unfold getVolumeNumber, extractOrderingNumber. cbv zeta.
  rewrite exec_without_leading_zeros. f_equal.
  rewrite <- normalize_translate. apply selected_text.
Qed.
End VolumeNumber.

(** ** File-name collisions in one packaging run *)

Section Collisions.
Import Packaging Archive.

Variable filterFilename : string → string.
Variable fileTypeFromBuffer : buffer → option FileType.
Variable parseTextVariables : string → option Book → option string → string.
Variable coverPathSetting : string.
Variable coverFilenameSetting : string.
Variable zipFilenameSetting : string.
Variable assignUnder : buffer → string → Assignment.

#[local] Abbreviation step' :=
  (step filterFilename fileTypeFromBuffer parseTextVariables
     coverPathSetting coverFilenameSetting assignUnder).
#[local] Abbreviation run' :=
  (run filterFilename fileTypeFromBuffer parseTextVariables
     coverPathSetting coverFilenameSetting assignUnder).
#[local] Abbreviation rendered' :=
  (rendered filterFilename fileTypeFromBuffer parseTextVariables
     coverPathSetting coverFilenameSetting).
#[local] Abbreviation occurrences' :=
  (occurrences filterFilename fileTypeFromBuffer parseTextVariables
     coverPathSetting coverFilenameSetting).
#[local] Abbreviation numbered' := (numbered filterFilename).
#[local] Abbreviation assign' := (assign assignUnder).
#[local] Abbreviation stored' :=
  (stored filterFilename fileTypeFromBuffer parseTextVariables
     coverPathSetting coverFilenameSetting).
#[local] Abbreviation resolved' := (resolved filterFilename).
#[local] Abbreviation placements_after' :=
  (placements_after filterFilename fileTypeFromBuffer parseTextVariables
     coverPathSetting coverFilenameSetting).
#[local] Abbreviation placements' :=
  (placements filterFilename fileTypeFromBuffer parseTextVariables
     coverPathSetting coverFilenameSetting).
#[local] Abbreviation ordinary' :=
  (ordinary filterFilename fileTypeFromBuffer parseTextVariables
     coverPathSetting coverFilenameSetting).

Lemma eligible_bytes (image : option buffer) (type : FileType) :
  eligible fileTypeFromBuffer image = Some type → ∃ bytes, image = Some bytes.
Proof. destruct image as [bytes|]; [eauto|done]. Qed.

(** A skipped entry leaves the counters and the images alone. *)
Lemma step_skipped st book image :
  eligible fileTypeFromBuffer image = None →
  ∃ reported,
    step' st book image
    = Next (mkLoop (knownFilenames st) (imagesToZip st) (prototype st)
              reported).
Proof.
  intros Hel. unfold step. destruct image as [bytes|]; [|eauto].
  rewrite Hel. eauto.
Qed.

(** An eligible entry bumps the counter of its rendered name and is
    assigned under the resolved name. *)
Lemma step_eligible st book bytes type :
  eligible fileTypeFromBuffer (Some bytes) = Some type →
  let name :=
    renderedFileName filterFilename parseTextVariables coverPathSetting
      coverFilenameSetting book type in
  let known := count_use name (knownFilenames st) in
  let count := default 0 (known !! name) in
  step' st book (Some bytes)
  = assign' (mkLoop known (imagesToZip st) (prototype st) (errors st))
      (if 0 <? count then numbered' name count else name) bytes.
Proof. intros Hel. cbv zeta. unfold step. by rewrite Hel. Qed.

(** While the prototype is the one of an object literal, every name
    but [__proto__] is stored. *)
Lemma assign_stored st name bytes :
  prototype st = None → name ≠ "__proto__" →
  assign' st name bytes
  = Next (mkLoop (knownFilenames st) (<[name := bytes]> (imagesToZip st))
            None (errors st)).
Proof.
  intros Hproto Hname. unfold assign. rewrite Hproto.
  by destruct (String.eqb_spec name "__proto__").
Qed.

(** An assignment touches neither the counters nor the errors. *)
Lemma assign_next st name bytes st' :
  assign' st name bytes = Next st' →
  knownFilenames st' = knownFilenames st ∧ errors st' = errors st.
Proof.
  unfold assign. destruct (String.eqb name "__proto__").
  { by intros [= <-]. }
  destruct (prototype st) as [image|], (imagesToZip st !! name) as [old|];
    try (by intros [= <-]).
  destruct (assignUnder image name); by intros [= <-].
Qed.

Lemma assign_thrown st name bytes reported :
  assign' st name bytes = Thrown reported → reported = errors st.
Proof.
  unfold assign. destruct (String.eqb name "__proto__"); [done|].
  destruct (prototype st) as [image|], (imagesToZip st !! name) as [old|];
    try done.
  destruct (assignUnder image name); try done. by intros [= <-].
Qed.

Lemma occurrences_nil name : occurrences' name [] = 0.
Proof. reflexivity. Qed.

Lemma occurrences_snoc name items item :
  occurrences' name (items ++ [item])
  = occurrences' name items
    + (if decide (rendered' item = Some name) then 1 else 0).
Proof.
  unfold occurrences. rewrite filter_app, length_app, filter_cons, filter_nil.
  destruct (decide _); simpl; lia.
Qed.

Lemma occurrences_nonneg name items : 0 ≤ occurrences' name items.
Proof. unfold occurrences. lia. Qed.

(** The loop, one turn at a time from the end. *)
Lemma run_snoc st items item :
  run' st (items ++ [item])
  = match run' st items with
    | Next st' => step' st' (fst item) (snd item)
    | Thrown reported => Thrown reported
    end.
Proof.
  revert st. induction items as [|first items IH]; intros st.
  - cbn [app run]. by destruct (step' st _ _).
  - cbn [app run]. destruct (step' st _ _); [apply IH|done].
Qed.

Lemma count_use_lookup (name other : string) (known : gmap string Z) :
  count_use name known !! other
  = if decide (other = name) then
      match known !! name with
      | Some n => Some (n + 1)
      | None => if inherited name then None else Some 0
      end
    else known !! other.
Proof.
  unfold count_use. destruct (decide (other = name)) as [->|Hne].
  - destruct (known !! name) as [n|] eqn:Hn.
    + by rewrite lookup_insert_eq.
    + destruct (inherited name); [done|by rewrite lookup_insert_eq].
  - destruct (known !! name) as [n|].
    + by rewrite lookup_insert_ne.
    + destruct (inherited name); [done|by rewrite lookup_insert_ne].
Qed.

Lemma step_counters st book image st' :
  step' st book image = Next st' →
  knownFilenames st'
  = match rendered' (book, image) with
    | Some name => count_use name (knownFilenames st)
    | None => knownFilenames st
    end.
Proof.
  intros Hstep. unfold rendered. cbn [fst snd].
  destruct (eligible fileTypeFromBuffer image) as [type|] eqn:Hel.
  - destruct (eligible_bytes _ _ Hel) as [bytes ->].
    rewrite (step_eligible st book bytes type Hel) in Hstep.
    by apply assign_next in Hstep as [-> _].
  - destruct (step_skipped st book image Hel) as [reported Hskip].
    rewrite Hskip in Hstep. by injection Hstep as <-.
Qed.

(** The counter of a name is the number of entries that rendered it so
    far, less one; a name nobody rendered has no counter, and neither
    has a name of [Object.prototype]. *)
Lemma run_counters (st0 st : Loop) (items : list (Book * option buffer))
    (name : string) :
  knownFilenames st0 = ∅ →
  run' st0 items = Next st →
  knownFilenames st !! name
  = if (occurrences' name items =? 0) || inherited name then None
    else Some (occurrences' name items - 1).
Proof.
  intros Hempty. revert st.
  induction items as [|[book image] items IH] using rev_ind; intros st Hrun.
  - cbn in Hrun. injection Hrun as <-. by rewrite Hempty, lookup_empty.
  - rewrite run_snoc in Hrun.
    destruct (run' st0 items) as [mid|] eqn:Hmid; [|done].
    cbn [fst snd] in Hrun. specialize (IH mid eq_refl).
    rewrite (step_counters _ _ _ _ Hrun), occurrences_snoc.
    pose proof (occurrences_nonneg name items) as Hnn.
    destruct (rendered' (book, image)) as [r|] eqn:Hr.
    + rewrite count_use_lookup. destruct (decide (name = r)) as [->|Hne].
      * rewrite decide_True by done. rewrite IH.
        destruct (inherited r).
        { by rewrite !orb_true_r. }
        rewrite !orb_false_r.
        destruct (Z.eqb_spec (occurrences' r items) 0) as [H0|H0].
        -- by rewrite H0.
        -- destruct (Z.eqb_spec (occurrences' r items + 1) 0); [lia|].
           f_equal. lia.
      * rewrite decide_False by congruence. by rewrite Z.add_0_r.
    + rewrite decide_False by done. by rewrite Z.add_0_r.
Qed.

Lemma substring_all (s : string) : substring 0 (String.length s) s = s.
Proof. induction s as [|c s IH]; [done|]. simpl. by rewrite IH. Qed.

Lemma substring_to_app (stem rest : string) :
  substring_to (Z.of_nat (String.length stem)) (stem +:+ rest) = stem.
Proof.
  unfold substring_to. rewrite Nat2Z.id.
  induction stem as [|c stem IH]; simpl; [by destruct rest|by rewrite IH].
Qed.

Lemma substring_from_app (stem rest : string) :
  substring_from (Z.of_nat (String.length stem)) (stem +:+ rest) = rest.
Proof.
  unfold substring_from. rewrite Nat2Z.id.
  induction stem as [|c stem IH]; simpl.
  - rewrite Nat.sub_0_r. apply substring_all.
  - exact IH.
Qed.

Lemma lastIndexOf_app (c : ascii) (stem e : string) :
  lastIndexOf c e = -1 →
  lastIndexOf c (stem +:+ String c e) = Z.of_nat (String.length stem).
Proof.
  intros He. induction stem as [|x stem IH].
  - simpl. rewrite He. simpl. by rewrite Ascii.eqb_refl.
  - change (lastIndexOf c (String x stem +:+ String c e))
      with (let i := lastIndexOf c (stem +:+ String c e) in
            if 0 <=? i then i + 1 else if Ascii.eqb x c then 0 else -1).
    rewrite IH. cbv zeta.
    destruct (Z.leb_spec 0 (Z.of_nat (String.length stem)));
      cbn [String.length]; lia.
Qed.

(** Where the number goes: in front of the last dot, unless the name
    has no dot or only starts with one. *)
Lemma numbered_before_extension (stem e : string) (count : Z) :
  stem ≠ "" → lastIndexOf "." e = -1 →
  numbered' (stem +:+ "." +:+ e) count
  = filterFilename (stem +:+ " (" +:+ pretty count +:+ ")" +:+ "." +:+ e).
Proof.
  intros Hstem He. unfold numbered.
  change ("." +:+ e) with (String "." e).
  rewrite (lastIndexOf_app "." stem e He).
  destruct stem as [|c stem]; [done|].
  assert ((0 <? Z.of_nat (String.length (String c stem))) = true) as ->.
  { apply Z.ltb_lt. simpl. lia. }
  by rewrite substring_to_app, substring_from_app.
Qed.

Lemma numbered_without_extension (name : string) (count : Z) :
  lastIndexOf "." name ≤ 0 →
  numbered' name count
  = filterFilename (name +:+ " (" +:+ pretty count +:+ ")").
Proof.
  intros Hdot. unfold numbered.
  by assert ((0 <? lastIndexOf "." name) = false) as ->
    by (apply Z.ltb_ge; lia).
Qed.

Lemma stored_Some item name bytes :
  stored' item = Some (name, bytes) ↔
  snd item = Some bytes ∧ rendered' item = Some name.
Proof.
  unfold stored. destruct (rendered' item) as [n|], (snd item) as [b|];
    split; try done; try (by intros [? ?]).
  - by intros [= -> ->].
  - by intros [[= ->] [= ->]].
Qed.

Lemma stored_None item :
  stored' item = None ↔ eligible fileTypeFromBuffer (snd item) = None.
Proof.
  unfold stored, rendered. destruct item as [book [bytes|]]; cbn [fst snd].
  - destruct (eligible fileTypeFromBuffer (Some bytes)); [done|done].
  - done.
Qed.

Lemma stored_eligible book bytes type :
  eligible fileTypeFromBuffer (Some bytes) = Some type →
  stored' (book, Some bytes)
  = Some (renderedFileName filterFilename parseTextVariables
            coverPathSetting coverFilenameSetting book type, bytes).
Proof.
  intros Hel. apply stored_Some. split; [done|].
  unfold rendered. cbn [fst snd]. by rewrite Hel.
Qed.

(** The assignments of a run, one entry at a time from the end. *)
Lemma placements_after_snoc before items item :
  placements_after' before (items ++ [item])
  = placements_after' before items
    ++ match stored' item with
       | Some (name, bytes) =>
           [(resolved' name (occurrences' name (before ++ items)), bytes)]
       | None => []
       end.
Proof.
  revert before. induction items as [|first items IH]; intros before.
  - cbn [app placements_after].
    destruct (stored' item) as [[name bytes]|]; by rewrite !app_nil_r.
  - cbn [app placements_after]. rewrite IH, <- !app_assoc. reflexivity.
Qed.

Lemma placements_snoc items item :
  placements' (items ++ [item])
  = placements' items
    ++ match stored' item with
       | Some (name, bytes) =>
           [(resolved' name (occurrences' name items), bytes)]
       | None => []
       end.
Proof. apply (placements_after_snoc [] items item). Qed.

(** In a run that started without counters an eligible entry is
    assigned under its resolved name. *)
Lemma step_resolved st0 items st book bytes type :
  knownFilenames st0 = ∅ →
  run' st0 items = Next st →
  eligible fileTypeFromBuffer (Some bytes) = Some type →
  let name :=
    renderedFileName filterFilename parseTextVariables coverPathSetting
      coverFilenameSetting book type in
  step' st book (Some bytes)
  = assign'
      (mkLoop (count_use name (knownFilenames st)) (imagesToZip st)
         (prototype st) (errors st))
      (resolved' name (occurrences' name items)) bytes.
Proof.
  intros Hempty Hrun Hel name. rewrite (step_eligible st book bytes type Hel).
  fold name. f_equal.
  rewrite count_use_lookup, decide_True by done.
  rewrite (run_counters st0 st items name Hempty Hrun).
  pose proof (occurrences_nonneg name items) as Hnn.
  unfold resolved. destruct (inherited name).
  { by rewrite !orb_true_r. }
  rewrite !orb_false_r.
  destruct (Z.eqb_spec (occurrences' name items) 0) as [H0|H0];
    cbn [from_option]; unfold Datatypes.id.
  - done.
  - replace (occurrences' name items - 1 + 1) with (occurrences' name items)
      by lia.
    by assert ((0 <? occurrences' name items) = true) as ->
      by (apply Z.ltb_lt; lia).
Qed.

(** A run that never assigns under [__proto__] goes through, keeps the
    prototype and holds the assignments it made, a later one over an
    earlier one of the same name. *)
Lemma run_placements (st0 : Loop) (items : list (Book * option buffer)) :
  knownFilenames st0 = ∅ → imagesToZip st0 = ∅ → prototype st0 = None →
  "__proto__" ∉ (placements' items).*1 →
  ∃ st, run' st0 items = Next st
        ∧ prototype st = None
        ∧ imagesToZip st = list_to_map (reverse (placements' items)).
Proof.
  intros Hknown Himages Hproto.
  induction items as [|[book image] items IH] using rev_ind; intros Hout.
  { exists st0. by rewrite Himages. }
  rewrite placements_snoc, fmap_app in Hout.
  apply not_elem_of_app in Hout as [Hout1 Hout2].
  destruct (IH Hout1) as (st & Hrun & Hp & Him).
  rewrite run_snoc, Hrun, placements_snoc. cbn [fst snd].
  destruct (eligible fileTypeFromBuffer image) as [type|] eqn:Hel.
  - destruct (eligible_bytes _ _ Hel) as [bytes ->].
    rewrite (stored_eligible book bytes type Hel) in Hout2 |- *.
    rewrite (step_resolved st0 items st book bytes type Hknown Hrun Hel).
    rewrite assign_stored; [|done|].
    + eexists. split; [done|]. split; [done|]. cbn [imagesToZip].
      by rewrite reverse_snoc, Him.
    + intros Heq. apply Hout2. rewrite <- Heq. cbn. apply elem_of_cons. by left.
  - destruct (step_skipped st book image Hel) as [reported ->].
    assert (stored' (book, image) = None) as -> by by apply stored_None.
    rewrite app_nil_r. eexists. by split_and!.
Qed.

Lemma placements_after_app before first rest :
  placements_after' before (first ++ rest)
  = placements_after' before first
    ++ placements_after' (before ++ first) rest.
Proof.
  revert before. induction first as [|item first IH]; intros before.
  - by rewrite app_nil_r.
  - cbn [app placements_after]. rewrite IH, <- !app_assoc. reflexivity.
Qed.

(** What [ordinary] decides. *)
Lemma ordinary_spec (items : list (Book * option buffer)) :
  ordinary' items = true ↔
  (∀ name, name ∈ (omap stored' items).*1 → inherited name = false)
  ∧ "__proto__" ∉ (placements' items).*1.
Proof.
  unfold ordinary. rewrite andb_true_iff, !forallb_forall.
  split; intros [Hnames Hproto]; split.
  - intros name Hin%list_elem_of_In. by apply negb_true_iff, Hnames.
  - intros Hin%list_elem_of_In. specialize (Hproto _ Hin). done.
  - intros name Hin%list_elem_of_In. by apply negb_true_iff, Hnames.
  - intros name Hin%list_elem_of_In. apply negb_true_iff, String.eqb_neq.
    by intros ->.
Qed.

#[local] Abbreviation save' := (save parseTextVariables zipFilenameSetting).
#[local] Abbreviation download :=
  (downloadSelectedCovers filterFilename fileTypeFromBuffer
     parseTextVariables coverPathSetting coverFilenameSetting
     zipFilenameSetting assignUnder).

(** C8, as the code has it.  Take a packaging run that starts with no
    download in progress and no counters, in which no eligible book
    renders a name of [Object.prototype] and no image is assigned under
    [__proto__].  An eligible book that renders a file name [name]
    after [N] earlier eligible books rendered the same name is reached
    by the loop, which sets the counter of [name] to [N] (0 on first
    use) and stores the image under [name] itself when [N = 0] and
    under the numbered name otherwise; this is one of the assignments
    of the run.  The numbered name has [ (N)] in front of the extension
    (the last dot of the rendered name, when a non-empty stem precedes
    it and no slash follows it) and at the end when the rendered name
    has no dot or only starts with one; the sanitiser [filterFilename]
    is run on the result.  What the run saves is what its assignments
    leave, a later one replacing an earlier one of the same name.
    Every run that starts, whatever its names, ends with the counters
    cleared. *)
Theorem knownFilenames_collisions (state : State)
    (images : list (option buffer)) :
  downloadProgress state = None →
  st_knownFilenames state = ∅ →
  let items := entries (selectedBooks state) images in
  ordinary' items = true →
  (∀ before book bytes after type,
     items = before ++ (book, Some bytes) :: after →
     eligible fileTypeFromBuffer (Some bytes) = Some type →
     let name :=
       renderedFileName filterFilename parseTextVariables coverPathSetting
         coverFilenameSetting book type in
     let N := occurrences' name before in
     let target := if N =? 0 then name else numbered' name N in
     ∃ st, run' (mkLoop ∅ ∅ None []) (before ++ [(book, Some bytes)])
           = Next st
           ∧ knownFilenames st !! name = Some N
           ∧ imagesToZip st !! target = Some bytes
           ∧ (target, bytes) ∈ placements' items)
  ∧ (∀ name N stem e,
       name = stem +:+ "." +:+ e → stem ≠ "" →
       lastIndexOf "." e = -1 → lastIndexOf "/" e = -1 →
       numbered' name N
       = filterFilename (stem +:+ " (" +:+ pretty N +:+ ")" +:+ "." +:+ e))
  ∧ (∀ name N,
       lastIndexOf "." name ≤ 0 →
       numbered' name N = filterFilename (name +:+ " (" +:+ pretty N +:+ ")"))
  ∧ (download state (Some images)).1.2
    = save' (list_to_map (reverse (placements' items))) None
  ∧ (∀ covers, st_knownFilenames (download state covers).1.1 = ∅).
Proof.
  intros Hidle Hknown items [Hnames Hproto]%ordinary_spec. split_and!.
  - intros before book bytes after type Hitems Hel name N target.
    pose proof (stored_eligible book bytes type Hel) as Hstored. fold name in Hstored.
    assert (Hinh : inherited name = false).
    { apply Hnames. apply list_elem_of_fmap. exists (name, bytes).
      split; [done|]. apply list_elem_of_omap. exists (book, Some bytes).
      split; [|done]. rewrite Hitems. apply elem_of_app. right.
      apply elem_of_cons. by left. }
    assert (Htarget : resolved' name N = target).
    { unfold resolved. by rewrite Hinh, orb_false_r. }
    assert (Hplaced : placements' items
                      = placements' (before ++ [(book, Some bytes)])
                        ++ placements_after' (before ++ [(book, Some bytes)])
                             after).
    { rewrite Hitems. unfold placements.
      change ((book, Some bytes) :: after)
        with ([(book, Some bytes)] ++ after).
      by rewrite app_assoc, placements_after_app. }
    assert (Hturn : placements' (before ++ [(book, Some bytes)])
                    = placements' before ++ [(target, bytes)]).
    { rewrite placements_snoc, Hstored. fold N. by rewrite Htarget. }
    destruct (run_placements (mkLoop ∅ ∅ None [])
                (before ++ [(book, Some bytes)]) eq_refl eq_refl eq_refl)
      as (st & Hrun & _ & Himages).
    { intros Hin. apply Hproto. rewrite Hplaced, fmap_app.
      apply elem_of_app. by left. }
    exists st. split_and!; [done| | |].
    + rewrite (run_counters (mkLoop ∅ ∅ None []) st _ name eq_refl Hrun).
      rewrite occurrences_snoc, Hinh, orb_false_r. fold N.
      assert (rendered' (book, Some bytes) = Some name) as ->.
      { unfold rendered. cbn [fst snd]. by rewrite Hel. }
      rewrite decide_True by done.
      pose proof (occurrences_nonneg name before) as Hnn. fold N in Hnn.
      destruct (Z.eqb_spec (N + 1) 0); [lia|]. f_equal. lia.
    + rewrite Himages, Hturn, reverse_snoc. cbn [list_to_map foldr].
      apply lookup_insert_eq.
    + rewrite Hplaced, Hturn. apply elem_of_app. left. apply elem_of_app.
      right. apply elem_of_cons. by left.
  - intros name N stem e -> Hstem He _. by apply numbered_before_extension.
  - intros name N. apply numbered_without_extension.
  - unfold downloadSelectedCovers, loop. rewrite Hidle, Hknown. fold items.
    match goal with
    | |- context [run' ?st0 items] =>
        destruct (run_placements st0 items eq_refl eq_refl eq_refl Hproto)
          as (st & -> & Hp & Himages)
    end.
    cbn [fst snd]. by rewrite Himages, Hp.
  - intros covers. unfold downloadSelectedCovers. rewrite Hidle.
    destruct covers as [covers|]; [|done].
    by destruct (loop _ _ _ _ _ _ _ _ _).
Qed.

(** The three outcomes of a run, by the number of distinct resolved
    names: nothing, one plain file under its leaf name, one archive
    without compression. *)
Lemma save_by_size (toZip : gmap string buffer) (replaced : option buffer) :
  (size toZip = 0%nat → save' toZip replaced = [])
  ∧ (∀ key image, toZip = {[ key := image ]} →
       save' toZip replaced
       = [SavedFile image (str_or (leaf key) "cover.jpg")])
  ∧ ((2 ≤ size toZip)%nat →
     save' toZip None
     = [SavedArchive toZip 0
          (str_or (parseTextVariables zipFilenameSetting None (Some "zip"))
                  "covers.zip")]).
Proof.
  unfold save. repeat split.
  - intros ->%map_size_empty_iff. by rewrite map_to_list_empty.
  - intros key image ->. by rewrite map_to_list_singleton.
  - intros Hsize. rewrite <- length_map_to_list in Hsize.
    destruct (map_to_list toZip) as [|[k1 v1] [|[k2 v2] rest]];
      simpl in Hsize; [lia|lia|done].
Qed.

(** C7, at the failing input.  Three selected books, all three with an
    image; the first two render [a.jpg], the third renders [a (1).jpg].
    The second is renamed to [a (1).jpg] and then overwritten by the
    third: the archive holds two of the three eligible images. *)
Theorem downloadSelectedCovers_overwrites_numbered_name
    (b1 b2 b3 : Book) (i1 i2 i3 : buffer) (t1 t2 t3 : FileType) :
  eligible fileTypeFromBuffer (Some i1) = Some t1 →
  eligible fileTypeFromBuffer (Some i2) = Some t2 →
  eligible fileTypeFromBuffer (Some i3) = Some t3 →
  renderedFileName filterFilename parseTextVariables coverPathSetting
    coverFilenameSetting b1 t1 = "a.jpg" →
  renderedFileName filterFilename parseTextVariables coverPathSetting
    coverFilenameSetting b2 t2 = "a.jpg" →
  renderedFileName filterFilename parseTextVariables coverPathSetting
    coverFilenameSetting b3 t3 = "a (1).jpg" →
  filterFilename "a (1).jpg" = "a (1).jpg" →
  download (mkState [b1; b2; b3] ∅ None) (Some [Some i1; Some i2; Some i3])
  = (mkState [b1; b2; b3] ∅ None,
     [SavedArchive {[ "a.jpg" := i1; "a (1).jpg" := i3 ]} 0
        (str_or (parseTextVariables zipFilenameSetting None (Some "zip"))
                "covers.zip")],
     []).
Proof.
  intros He1 He2 He3 Hr1 Hr2 Hr3 Hfix.
  assert (Hnum : numbered' "a.jpg" 1 = "a (1).jpg").
  { change "a.jpg" with ("a" +:+ "." +:+ "jpg").
    rewrite (numbered_before_extension "a" "jpg" 1) by done. exact Hfix. }
  assert (H1 : step' (mkLoop ∅ ∅ None []) b1 (Some i1)
               = Next (mkLoop (<["a.jpg" := 0]> ∅) (<["a.jpg" := i1]> ∅)
                         None [])).
  { rewrite (step_eligible _ b1 i1 t1 He1), Hr1.
    cbn [knownFilenames imagesToZip prototype errors].
    unfold count_use. rewrite lookup_empty.
    change (inherited "a.jpg") with false. cbv iota.
    rewrite lookup_insert_eq. cbn [from_option]. unfold Datatypes.id.
    change (0 <? 0) with false. cbv iota. by rewrite assign_stored. }
  assert (H2 : step' (mkLoop (<["a.jpg" := 0]> ∅) (<["a.jpg" := i1]> ∅)
                        None [])
                 b2 (Some i2)
               = Next (mkLoop (<["a.jpg" := 1]> (<["a.jpg" := 0]> ∅))
                         (<["a (1).jpg" := i2]> (<["a.jpg" := i1]> ∅))
                         None [])).
  { rewrite (step_eligible _ b2 i2 t2 He2), Hr2.
    cbn [knownFilenames imagesToZip prototype errors].
    unfold count_use. rewrite lookup_insert_eq. change (0 + 1) with 1.
    rewrite lookup_insert_eq. cbn [from_option]. unfold Datatypes.id.
    change (0 <? 1) with true. cbv iota. rewrite Hnum.
    by rewrite assign_stored. }
  assert (H3 : step' (mkLoop (<["a.jpg" := 1]> (<["a.jpg" := 0]> ∅))
                        (<["a (1).jpg" := i2]> (<["a.jpg" := i1]> ∅))
                        None [])
                 b3 (Some i3)
               = Next (mkLoop (<["a (1).jpg" := 0]>
                                 (<["a.jpg" := 1]> (<["a.jpg" := 0]> ∅)))
                         (<["a (1).jpg" := i3]> (<["a.jpg" := i1]> ∅))
                         None [])).
  { rewrite (step_eligible _ b3 i3 t3 He3), Hr3.
    cbn [knownFilenames imagesToZip prototype errors].
    unfold count_use. rewrite !lookup_insert_ne, lookup_empty by done.
    change (inherited "a (1).jpg") with false. cbv iota.
    rewrite lookup_insert_eq. cbn [from_option]. unfold Datatypes.id.
    change (0 <? 0) with false. cbv iota.
    rewrite assign_stored by done.
    cbn [knownFilenames imagesToZip prototype errors].
    by rewrite insert_insert_eq. }
  assert (Hentries : entries [b1; b2; b3] [Some i1; Some i2; Some i3]
                     = [(b1, Some i1); (b2, Some i2); (b3, Some i3)])
    by reflexivity.
  unfold downloadSelectedCovers, loop.
  cbn [downloadProgress st_knownFilenames selectedBooks].
  rewrite Hentries. cbn [run fst snd].
  rewrite H1, H2, H3. cbn [imagesToZip prototype errors].
  assert (Hmap : <["a (1).jpg" := i3]>
                   (<["a.jpg" := i1]> (∅ : gmap string buffer))
                 = {[ "a.jpg" := i1; "a (1).jpg" := i3 ]}).
  { rewrite insert_insert_ne by done. by rewrite insert_empty. }
  rewrite Hmap.
  destruct (save_by_size {[ "a.jpg" := i1; "a (1).jpg" := i3 ]} None)
    as (_ & _ & Harchive).
  rewrite Harchive; [done|].
  rewrite map_size_insert_None, map_size_singleton; [lia|].
  by rewrite lookup_singleton_ne.
Qed.

(** *** The contents of the download *)

Lemma occurrences_stored name items :
  name ∉ (omap stored' items).*1 → occurrences' name items = 0.
Proof.
  intros Hout. unfold occurrences.
  destruct (filter _ items) as [|item rest] eqn:Hfilter; [done|].
  exfalso. apply Hout.
  assert (Hin : item ∈ filter (λ item, rendered' item = Some name) items)
    by (rewrite Hfilter; apply elem_of_cons; by left).
  apply list_elem_of_filter in Hin as [Hname Hin].
  destruct (eligible_bytes (snd item)) with
    (type := default (mkFileType "" "")
               (eligible fileTypeFromBuffer (snd item))) as [bytes Hbytes].
  { unfold rendered in Hname.
    destruct (eligible fileTypeFromBuffer (snd item)); done. }
  apply list_elem_of_fmap. exists (name, bytes). split; [done|].
  apply list_elem_of_omap. exists item. split; [done|].
  by apply stored_Some.
Qed.

(** With names that do not repeat, every entry is assigned under its
    own name. *)
Lemma placements_distinct (items : list (Book * option buffer)) :
  NoDup (omap stored' items).*1 → placements' items = omap stored' items.
Proof.
  induction items as [|item items IH] using rev_ind; intros Hnd; [done|].
  rewrite omap_app, fmap_app in Hnd.
  apply NoDup_app in Hnd as (Hnd1 & Hdis & _).
  rewrite placements_snoc, omap_app, (IH Hnd1). f_equal.
  cbn [omap list_omap] in Hdis |- *.
  destruct (stored' item) as [[name bytes]|]; [|done].
  rewrite occurrences_stored; [done|].
  intros Hin. apply (Hdis _ Hin). apply elem_of_cons. by left.
Qed.

(** What an assignment that goes through does to the images. *)
Lemma assign_images st name bytes st' :
  assign' st name bytes = Next st' →
  (imagesToZip st' = imagesToZip st ∧ prototype st' = Some bytes)
  ∨ (imagesToZip st' = <[name := bytes]> (imagesToZip st)
     ∧ prototype st' = prototype st)
  ∨ (imagesToZip st' = imagesToZip st ∧ prototype st' = prototype st).
Proof.
  unfold assign. destruct (String.eqb name "__proto__").
  { intros [= <-]. by left. }
  destruct (prototype st) as [image|] eqn:Hproto,
    (imagesToZip st !! name) as [old|];
    try (intros [= <-]; right; left; by rewrite ?Hproto).
  destruct (assignUnder image name); [| |done].
  - intros [= <-]. right. left. by rewrite ?Hproto.
  - intros [= <-]. right. right. by rewrite ?Hproto.
Qed.

(** Whatever the names, only eligible images get into the output, and
    no more of them than there are. *)
Lemma run_only_stored (st0 st : Loop) (items : list (Book * option buffer)) :
  imagesToZip st0 = ∅ → prototype st0 = None →
  run' st0 items = Next st →
  (size (imagesToZip st) ≤ length (omap stored' items))%nat
  ∧ (∀ key bytes,
       imagesToZip st !! key = Some bytes →
       ∃ name, (name, bytes) ∈ omap stored' items)
  ∧ (∀ image,
       prototype st = Some image →
       ∃ name, (name, image) ∈ omap stored' items).
Proof.
  intros Himages Hproto. revert st.
  induction items as [|[book image] items IH] using rev_ind; intros st Hrun.
  { cbn in Hrun. injection Hrun as <-. rewrite Himages, Hproto.
    split_and!; [done| |done]. intros key bytes. by rewrite lookup_empty. }
  rewrite run_snoc in Hrun.
  destruct (run' st0 items) as [mid|] eqn:Hmid; [|done].
  cbn [fst snd] in Hrun. destruct (IH mid eq_refl) as (IHsize & IHin & IHp).
  rewrite omap_app, length_app. cbn [omap list_omap].
  destruct (eligible fileTypeFromBuffer image) as [type|] eqn:Hel.
  - destruct (eligible_bytes _ _ Hel) as [bytes ->].
    rewrite (stored_eligible book bytes type Hel). cbn [length].
    set (name := renderedFileName _ _ _ _ book type).
    assert (Hlast : ∀ items', (name, bytes) ∈ items' ++ [(name, bytes)]).
    { intros items'. apply elem_of_app. right. apply elem_of_cons. by left. }
    rewrite (step_eligible mid book bytes type Hel) in Hrun.
    apply assign_images in Hrun as [[Him Hp]|[[Him Hp]|[Him Hp]]];
      cbn [imagesToZip prototype] in Him, Hp; rewrite Him, Hp.
    + split_and!; [lia| |].
      * intros key content Hlook. destruct (IHin key content Hlook) as [n Hn].
        exists n. apply elem_of_app. by left.
      * intros ? [= <-]. by exists name.
    + split_and!.
      * rewrite map_size_insert. destruct (imagesToZip mid !! _); cbn; lia.
      * intros key content Hlook.
        match type of Hlook with
        | <[?target := _]> _ !! _ = _ =>
            destruct (decide (key = target)) as [->|Hne]
        end.
        -- rewrite lookup_insert_eq in Hlook. injection Hlook as <-.
           by exists name.
        -- rewrite lookup_insert_ne in Hlook by done.
           destruct (IHin key content Hlook) as [n Hn]. exists n.
           apply elem_of_app. by left.
      * intros p Hp'. destruct (IHp p Hp') as [n Hn]. exists n.
        apply elem_of_app. by left.
    + split_and!; [lia| |].
      * intros key content Hlook. destruct (IHin key content Hlook) as [n Hn].
        exists n. apply elem_of_app. by left.
      * intros p Hp'. destruct (IHp p Hp') as [n Hn]. exists n.
        apply elem_of_app. by left.
  - destruct (step_skipped mid book image Hel) as [messages Hskip].
    rewrite Hskip in Hrun. injection Hrun as <-.
    assert (stored' (book, image) = None) as -> by by apply stored_None.
    rewrite app_nil_r. cbn [imagesToZip prototype length].
    split_and!; [lia|done|done].
Qed.

(** A turn reports one message when it skips an entry whose provider
    does not ask to ignore errors, and none otherwise. *)
Lemma step_errors st book image :
  match step' st book image with
  | Next st' =>
      length (errors st')
      = (length (errors st)
         + if reported fileTypeFromBuffer (book, image) then 1 else 0)%nat
  | Thrown messages =>
      messages = errors st
      ∧ reported fileTypeFromBuffer (book, image) = false
  end.
Proof.
  unfold reported. cbn [fst snd].
  destruct (eligible fileTypeFromBuffer image) as [type|] eqn:Hel.
  - destruct (eligible_bytes _ _ Hel) as [bytes ->].
    rewrite bool_decide_eq_false_2, andb_false_r by done.
    rewrite (step_eligible st book bytes type Hel).
    match goal with
    | |- match assign' ?s ?n ?b with _ => _ end =>
        destruct (assign' s n b) as [st'|messages] eqn:Hassign
    end.
    + apply assign_next in Hassign as [_ ->]. cbn [errors]. lia.
    + apply assign_thrown in Hassign. by cbn [errors] in Hassign.
  - rewrite bool_decide_eq_true_2, andb_true_r by done.
    unfold step. destruct image as [bytes|].
    + rewrite Hel. cbn [errors].
      destruct (ignoreErrors (provider book)); cbn [negb];
        rewrite ?length_app; cbn [length]; lia.
    + cbn [errors].
      destruct (ignoreErrors (provider book)); cbn [negb];
        rewrite ?length_app; cbn [length]; lia.
Qed.

(** One message for every skipped entry of a provider that does not
    ask to ignore errors, up to the turn that throws, if one does. *)
Lemma run_errors (st0 : Loop) (items : list (Book * option buffer)) :
  let skipped :=
    length (filter (λ item, reported fileTypeFromBuffer item = true) items) in
  match run' st0 items with
  | Next st => length (errors st) = (length (errors st0) + skipped)%nat
  | Thrown messages => (length messages ≤ length (errors st0) + skipped)%nat
  end.
Proof.
  cbv zeta. induction items as [|[book image] items IH] using rev_ind.
  { cbn. lia. }
  rewrite run_snoc, filter_app, length_app, filter_cons, filter_nil.
  cbn [fst snd]. destruct (run' st0 items) as [mid|messages]; [|lia].
  pose proof (step_errors mid book image) as Hstep.
  destruct (step' mid book image) as [st'|messages].
  - rewrite Hstep, IH.
    destruct (reported fileTypeFromBuffer (book, image)).
    + rewrite decide_True by done. cbn [length]. lia.
    + rewrite decide_False by done. cbn [length]. lia.
  - destruct Hstep as [-> _]. lia.
Qed.

(** X12.  In a run that starts with
    no download in progress and no file-name counters, if the eligible
    images render file names that are all different and none of them
    is [__proto__], every one of them is in the output under its own
    rendered name: nothing is saved when there is none, the single
    image is saved as a plain file under the leaf of its name
    ([cover.jpg] when that is empty), and two or more go into one
    uncompressed archive that holds them all. *)
Theorem downloadSelectedCovers_distinct_names (st : State)
    (images : list (option buffer)) :
  downloadProgress st = None → st_knownFilenames st = ∅ →
  let kept := omap stored' (entries (selectedBooks st) images) in
  NoDup kept.*1 →
  "__proto__" ∉ kept.*1 →
  (download st (Some images)).1.2
  = match kept with
    | [] => []
    | [(name, bytes)] => [SavedFile bytes (str_or (leaf name) "cover.jpg")]
    | _ =>
        [SavedArchive (list_to_map kept) 0
           (str_or (parseTextVariables zipFilenameSetting None (Some "zip"))
                   "covers.zip")]
    end
  ∧ size (list_to_map kept : gmap string buffer) = length kept
  ∧ ∀ name bytes,
      (name, bytes) ∈ kept →
      (list_to_map kept : gmap string buffer) !! name = Some bytes.
Proof.
  intros Hidle Hknown kept Hnd Hproto. unfold downloadSelectedCovers.
  rewrite Hidle, Hknown. unfold loop.
  pose proof (placements_distinct _ Hnd) as Hplaced. fold kept in Hplaced.
  match goal with
  | |- context [run' ?st0 ?items] =>
      destruct (run_placements st0 items eq_refl eq_refl eq_refl)
        as (done & -> & -> & ->)
  end.
  { by rewrite Hplaced. }
  cbn [fst snd]. rewrite Hplaced.
  rewrite (list_to_map_proper (reverse kept) kept);
    [|by rewrite fmap_reverse, reverse_Permutation|apply reverse_Permutation].
  split; [|split].
  - unfold save.
    pose proof (map_to_list_to_map (M := gmap string) kept Hnd) as Hperm.
    destruct kept as [|[name bytes] [|second rest]].
    + by rewrite list_to_map_nil, map_to_list_empty.
    + cbn [list_to_map foldr uncurry]. rewrite insert_empty.
      cbn [curry fst snd]. by rewrite map_to_list_singleton.
    + apply Permutation_length in Hperm. cbn [length] in Hperm.
      destruct (map_to_list _) as [|[k1 v1] [|[k2 v2] more]];
        cbn [length] in Hperm; [lia|lia|done].
  - by apply map_size_list_to_map.
  - intros name bytes Hin. by apply elem_of_list_to_map_1.
Qed.

(** X13.  Whatever names are rendered,
    a run that starts with no download in progress saves at most one
    thing, and only eligible images with it: a plain file holds the
    bytes of an eligible image, an archive is uncompressed and each of
    its entries is an eligible image, never more entries than there are
    eligible images; when the archive is made of an object whose
    prototype an image has replaced, that image is an eligible one
    too.  At most one error is reported beyond those for the images
    that are skipped (one each, unless the provider asks to ignore
    errors), and none beyond them in a run that starts without
    counters and assigns no image under [__proto__]. *)
Theorem downloadSelectedCovers_only_eligible (st : State)
    (images : list (option buffer)) :
  downloadProgress st = None →
  let items := entries (selectedBooks st) images in
  let kept := omap stored' items in
  let skipped :=
    length (filter (λ item, reported fileTypeFromBuffer item = true) items) in
  let '(_, saved, reported_errors) := download st (Some images) in
  (length saved ≤ 1)%nat
  ∧ (∀ content filename,
        SavedFile content filename ∈ saved →
        ∃ name, (name, content) ∈ kept)
  ∧ (∀ archive level filename,
        SavedArchive archive level filename ∈ saved →
        level = 0 ∧ (2 ≤ size archive ≤ length kept)%nat
        ∧ ∀ key bytes, archive !! key = Some bytes →
                       ∃ name, (name, bytes) ∈ kept)
  ∧ (∀ image archive level filename,
        SavedArchiveOver image archive level filename ∈ saved →
        level = 0 ∧ (2 ≤ size archive ≤ length kept)%nat
        ∧ (∃ name, (name, image) ∈ kept)
        ∧ ∀ key bytes, archive !! key = Some bytes →
                       ∃ name, (name, bytes) ∈ kept)
  ∧ (length reported_errors ≤ skipped + 1)%nat
  ∧ (st_knownFilenames st = ∅ →
     "__proto__" ∉ (placements' items).*1 →
     length reported_errors = skipped).
Proof.
  intros Hidle items kept skipped. unfold downloadSelectedCovers.
  rewrite Hidle. unfold loop. fold items.
  set (st0 := mkLoop (st_knownFilenames st) ∅ None []).
  pose proof (run_only_stored st0) as Hstored.
  pose proof (run_errors st0 items) as Herrors.
  cbv zeta in Herrors. fold skipped in Herrors. cbn [errors st0 length] in Herrors.
  pose proof (run_placements st0 items) as Hplaced.
  destruct (run' st0 items) as [done|messages] eqn:Hrun.
  - destruct (Hstored done items eq_refl eq_refl Hrun)
      as (Hsize & Hin & Hp).
    fold kept in Hsize, Hin, Hp. clear Hstored.
    split_and!.
    + unfold save.
      destruct (map_to_list _) as [|[k1 v1] [|[k2 v2] more]];
        [cbn [length]; lia..|].
      destruct (prototype done); cbn [length]; lia.
    + intros content filename. unfold save.
      destruct (map_to_list (imagesToZip done))
        as [|[k1 v1] [|[k2 v2] more]] eqn:Hlist.
      * by intros ?%elem_of_nil.
      * intros [= <- _]%list_elem_of_singleton.
        apply (Hin k1). apply elem_of_map_to_list. rewrite Hlist.
        apply elem_of_cons. by left.
      * destruct (prototype done); by intros [=]%list_elem_of_singleton.
    + intros archive level filename. unfold save.
      destruct (map_to_list (imagesToZip done))
        as [|[k1 v1] [|[k2 v2] more]] eqn:Hlist.
      * by intros ?%elem_of_nil.
      * by intros [=]%list_elem_of_singleton.
      * destruct (prototype done); [by intros [=]%list_elem_of_singleton|].
        intros [= -> -> _]%list_elem_of_singleton. split; [done|]. split.
        -- pose proof (length_map_to_list (imagesToZip done)) as Hlen.
           rewrite Hlist in Hlen. cbn [length] in Hlen. lia.
        -- exact Hin.
    + intros image archive level filename. unfold save.
      destruct (map_to_list (imagesToZip done))
        as [|[k1 v1] [|[k2 v2] more]] eqn:Hlist.
      * by intros ?%elem_of_nil.
      * by intros [=]%list_elem_of_singleton.
      * destruct (prototype done) as [p|] eqn:Hproto;
          [|by intros [=]%list_elem_of_singleton].
        intros [= -> -> -> _]%list_elem_of_singleton. split; [done|].
        split_and!.
        -- pose proof (length_map_to_list (imagesToZip done)) as Hlen.
           rewrite Hlist in Hlen. cbn [length] in Hlen. lia.
        -- lia.
        -- by apply Hp.
        -- exact Hin.
    + lia.
    + intros _ _. exact Herrors.
  - split_and!.
    + cbn [length]. lia.
    + intros content filename. by intros ?%elem_of_nil.
    + intros archive level filename. by intros ?%elem_of_nil.
    + intros image archive level filename. by intros ?%elem_of_nil.
    + rewrite length_app. cbn [length]. lia.
    + intros Hknown Hout.
      destruct (Hplaced Hknown eq_refl eq_refl Hout) as (done & [=] & _).
Qed.

End Collisions.

(** ** The orchestrator: re-entrancy and the fetched-page tracker *)

Section Orchestration.
Import Orchestrator.

Variable getSeries :
  list Request → list (string * list string) → option (BBCResult BBCSeries).
Variable getBooks :
  list Request → list (string * list string) → list (string * list string)
  → BBCSort → Z → BBCResult BBCBook.
Variable getBookPages :
  list Request → string → list string → option (BBCResult BBCBookPage).
Variable getInfo : list Request → string → option ImageInfo.
Variable getUrl : string → WsrvOptions → string.
Variable replaceTextVariables : string → list (string * string) → string.
Variable getLocaleName : string → string.
Variable bookDisplayTextSetting : string.
Variable automaticCropSetting : bool.
Variable cropFormatSetting : string.
Variable cropQualitySetting : Z.
Variable allProviders : list Provider.
Variable getAllSvelteSearchParams : string → list string.

#[local] Abbreviation fetchBooks' :=
  (fetchBooks getBooks getBookPages getInfo getUrl replaceTextVariables
     getLocaleName bookDisplayTextSetting automaticCropSetting
     cropFormatSetting cropQualitySetting).
#[local] Abbreviation fetch_page' :=
  (fetch_page getBooks getBookPages getInfo getUrl replaceTextVariables
     getLocaleName bookDisplayTextSetting automaticCropSetting
     cropFormatSetting cropQualitySetting).
#[local] Abbreviation merge_response' :=
  (merge_response getBookPages getInfo getUrl replaceTextVariables
     getLocaleName bookDisplayTextSetting automaticCropSetting
     cropFormatSetting cropQualitySetting).
#[local] Abbreviation perform' :=
  (perform getSeries getBooks getBookPages getInfo getUrl
     replaceTextVariables getLocaleName bookDisplayTextSetting
     automaticCropSetting cropFormatSetting cropQualitySetting
     allProviders getAllSvelteSearchParams).
#[local] Abbreviation initialize' :=
  (initialize getSeries getBooks getBookPages getInfo getUrl
     replaceTextVariables getLocaleName bookDisplayTextSetting
     automaticCropSetting cropFormatSetting cropQualitySetting
     allProviders getAllSvelteSearchParams).
#[local] Abbreviation reachable' :=
  (reachable getSeries getBooks getBookPages getInfo getUrl
     replaceTextVariables getLocaleName bookDisplayTextSetting
     automaticCropSetting cropFormatSetting cropQualitySetting
     allProviders getAllSvelteSearchParams).
#[local] Abbreviation resetAll' :=
  (resetAll getBooks getBookPages getInfo getUrl replaceTextVariables
     getLocaleName bookDisplayTextSetting automaticCropSetting
     cropFormatSetting cropQualitySetting).

(** C6.  While a fetch cycle is in flight, [fetchBooks] returns at once:
    no request is sent, the aggregate, the tracker, the errors and
    every other field stay as they are. *)
Theorem fetchBooks_reentrant (st : State) :
  isFetching st = true → fetchBooks' st = st.
Proof. intros Hfetching. unfold fetchBooks. by rewrite Hfetching. Qed.

Lemma set_maxPage_paging v st : paging (set_maxPage v st) = paging st.
Proof. reflexivity. Qed.
Lemma set_allBooks_paging v st : paging (set_allBooks v st) = paging st.
Proof. reflexivity. Qed.
Lemma set_allBookPages_paging v st :
  paging (set_allBookPages v st) = paging st.
Proof. reflexivity. Qed.
Lemma set_allSeries_paging v st : paging (set_allSeries v st) = paging st.
Proof. reflexivity. Qed.
Lemma set_selectedBooks_paging v st :
  paging (set_selectedBooks v st) = paging st.
Proof. reflexivity. Qed.
Lemma set_sortOrder_paging v st : paging (set_sortOrder v st) = paging st.
Proof. reflexivity. Qed.
Lemma set_loading_paging v st : paging (set_loading v st) = paging st.
Proof. reflexivity. Qed.
Lemma send_paging request st : paging (send request st) = paging st.
Proof. reflexivity. Qed.
Lemma addAppError_paging message st :
  paging (addAppError message st) = paging st.
Proof. reflexivity. Qed.

Lemma addAppErrors_paging messages st :
  paging (addAppErrors messages st) = paging st.
Proof.
  revert st. induction messages as [|m ms IH]; intros st; [done|].
  unfold addAppErrors in *. cbn [foldl]. by rewrite IH.
Qed.

Ltac frame :=
  repeat first
    [ rewrite set_maxPage_paging | rewrite set_allBooks_paging
    | rewrite set_allBookPages_paging | rewrite set_allSeries_paging
    | rewrite set_selectedBooks_paging | rewrite set_sortOrder_paging
    | rewrite set_loading_paging | rewrite send_paging
    | rewrite addAppError_paging | rewrite addAppErrors_paging ].

Lemma fetch_provider_paging response acc prov :
  paging (fetch_provider getBookPages getUrl replaceTextVariables
            getLocaleName bookDisplayTextSetting response acc prov).1
  = paging acc.1.
Proof.
  destruct acc as [st newBooks]. unfold fetch_provider.
  repeat case_match; cbn [fst]; frame; reflexivity.
Qed.

Lemma fetch_info_paging acc book :
  paging (fetch_info getInfo acc book).1 = paging acc.1.
Proof.
  destruct acc as [st done]. unfold fetch_info.
  repeat case_match; cbn [fst]; frame; reflexivity.
Qed.

Lemma foldl_paging {A B} (f : State * B → A → State * B) (l : list A) acc :
  (∀ acc x, paging (f acc x).1 = paging acc.1) →
  paging (foldl f acc l).1 = paging acc.1.
Proof.
  intros Hf. revert acc. induction l as [|x l IH]; intros acc; [done|].
  cbn [foldl]. by rewrite IH, Hf.
Qed.

Lemma merge_response_paging response st :
  paging (merge_response' response st) = paging st.
Proof.
  unfold merge_response.
  pose proof (foldl_paging
                (fetch_provider getBookPages getUrl replaceTextVariables
                   getLocaleName bookDisplayTextSetting response)
                (selectedProviders st) (st, [])
                (fetch_provider_paging response)) as H1.
  destruct (foldl _ (st, []) (selectedProviders st)) as [st1 books1].
  cbn [fst] in H1.
  match goal with
  | |- context [foldl (fetch_info getInfo) (st1, []) ?l] =>
      pose proof (foldl_paging (fetch_info getInfo) l (st1, [])
                    fetch_info_paging) as H2;
      destruct (foldl (fetch_info getInfo) (st1, []) l) as [st2 books2]
  end.
  cbn [fst] in H2. frame. congruence.
Qed.

(** One pass of the loop tracks its page and nothing else. *)
Lemma fetch_page_paging st currentPage :
  paging (fetch_page' st currentPage)
  = (fetchedPages st ++ [currentPage], page st, incrementPages st,
     isFetching st, allSeriesIds st, allBookIds st).
Proof.
  unfold fetch_page. case_match;
    rewrite ?merge_response_paging; frame; reflexivity.
Qed.

Lemma foldl_fetch_page_paging pages st :
  paging (foldl fetch_page' st pages)
  = (fetchedPages st ++ pages, page st, incrementPages st, isFetching st,
     allSeriesIds st, allBookIds st).
Proof.
  revert st. induction pages as [|p pages IH]; intros st.
  - cbn [foldl]. by rewrite app_nil_r.
  - cbn [foldl]. rewrite IH.
    pose proof (fetch_page_paging st p) as Hp. unfold paging in Hp.
    injection Hp as -> -> -> -> -> ->. by rewrite <- app_assoc.
Qed.

Lemma fetchBooks_paging st :
  paging (fetchBooks' st)
  = (fetchedPages st ++ added st, page st, incrementPages st,
     isFetching st, allSeriesIds st, allBookIds st).
Proof.
  unfold fetchBooks, added.
  destruct (isFetching st) eqn:Hfetching.
  { unfold paging. by rewrite app_nil_r, Hfetching. }
  cbn [allSeriesIds allBookIds set_isFetching].
  destruct ((length (allSeriesIds st) =? 0)%nat
            && (length (allBookIds st) =? 0)%nat).
  { unfold paging. cbn. by rewrite app_nil_r. }
  unfold pagesToFetch. cbn [incrementPages page fetchedPages set_isFetching].
  set (pages := if incrementPages st then _ else _).
  destruct pages as [pages|]; cbn [default].
  - set (st1 := set_isFetching true st).
    pose proof (foldl_fetch_page_paging pages st1) as Hp.
    unfold paging in *. cbn in Hp |- *.
    injection Hp as -> -> -> _ -> ->. done.
  - unfold paging. cbn. by rewrite app_nil_r.
Qed.


Lemma fetchBooks_fetchedPages st :
  fetchedPages (fetchBooks' st) = fetchedPages st ++ added st.
Proof.
  pose proof (fetchBooks_paging st) as Hp. unfold paging in Hp.
  by injection Hp as -> _ _ _ _ _.
Qed.

Lemma NoDup_pages_up_to n pages : pages_up_to n = Some pages → NoDup pages.
Proof.
  unfold pages_up_to. destruct (_ || _); [done|]. intros [= <-].
  apply NoDup_fmap_2; [|apply NoDup_seq].
  intros i j Hij. lia.
Qed.

Lemma NoDup_filter_list {A} (f : A → bool) (l : list A) :
  NoDup l → NoDup (List.filter f l).
Proof.
  induction 1 as [|x l Hx Hnd IH]; simpl; [constructor|].
  destruct (f x); [|done]. constructor; [|done].
  intros Hin%list_elem_of_In%List.filter_In. destruct Hin as [Hin _].
  by apply Hx, list_elem_of_In.
Qed.

(** What a call adds is duplicate-free and, in increment mode, new. *)
Lemma added_NoDup st :
  NoDup (fetchedPages st) →
  incrementPages st = true ∨ page st ∉ fetchedPages st →
  NoDup (fetchedPages st ++ added st).
Proof.
  intros Hnd Hsafe. unfold added.
  destruct (isFetching st); [by rewrite app_nil_r|].
  destruct (_ && _); [by rewrite app_nil_r|].
  unfold pagesToFetch. destruct (incrementPages st) eqn:Hinc.
  - destruct (pages_up_to (page st)) as [pages|] eqn:Hpages;
      cbn [fmap option_fmap option_map default]; [|by rewrite app_nil_r].
    apply NoDup_app. split; [done|]. split.
    + intros p Hp Hin%list_elem_of_In%List.filter_In.
      destruct Hin as [_ Hnot]. unfold includes in Hnot.
      apply negb_true_iff, bool_decide_eq_false in Hnot. done.
    + apply NoDup_filter_list. by eapply NoDup_pages_up_to.
  - destruct Hsafe as [?|Hnew]; [done|]. cbn [default].
    apply NoDup_app. split; [done|]. split; [|apply NoDup_singleton].
    by intros p Hp ->%list_elem_of_singleton.
Qed.

Lemma paging_tracker st st' : paging st' = paging st → tracker st' = tracker st.
Proof. unfold paging, tracker. congruence. Qed.

Lemma foldl_tracker {A} (f : State → A → State) (l : list A) st :
  (∀ st x, tracker (f st x) = tracker st) →
  tracker (foldl f st l) = tracker st.
Proof.
  intros Hf. revert st. induction l as [|x l IH]; intros st; [done|].
  cbn [foldl]. by rewrite IH, Hf.
Qed.

Lemma fetchSeries_tracker st :
  tracker (fetchSeries getSeries st) = tracker st.
Proof.
  unfold fetchSeries. destruct (isFetching st); [done|].
  destruct (getSeries _ _) as [response|].
  - change (tracker (set_isFetching false ?s)) with (tracker s).
    rewrite foldl_tracker.
    + rewrite (paging_tracker _ _ (addAppErrors_paging _ _)). reflexivity.
    + intros s entry. by destruct (find _ _).
  - reflexivity.
Qed.

Lemma register_provider_tracker st prov :
  tracker (register_provider getAllSvelteSearchParams st prov) = tracker st.
Proof. unfold register_provider. by repeat case_match. Qed.

(** [initialize] adds what its [fetchBooks] adds, if it gets that far. *)
Lemma initialize_tracker st :
  ∃ st1,
    tracker st1 = tracker st
    ∧ (fetchedPages (initialize' st) = fetchedPages st
       ∨ fetchedPages (initialize' st) = fetchedPages st1 ++ added st1).
Proof.
  unfold initialize.
  set (st0 := set_allBookIds [] _).
  pose proof (foldl_tracker (register_provider getAllSvelteSearchParams)
                allProviders st0 register_provider_tracker) as Hreg.
  set (stR := foldl _ st0 allProviders) in *.
  change (tracker st0) with (tracker st) in Hreg.
  destruct (MAX_SELECTED_SERIES <? _).
  { exists st. split; [done|]. left.
    change (fetchedPages (addAppError ?m ?s)) with (fetchedPages s).
    unfold tracker in Hreg. congruence. }
  destruct (0 <? length (providers stR))%nat.
  - exists (fetchSeries getSeries stR). split.
    + by rewrite fetchSeries_tracker.
    + right. apply fetchBooks_fetchedPages.
  - exists st. split; [done|]. left. unfold tracker in Hreg. congruence.
Qed.

Lemma resetAll_tracker st :
  ∃ st1,
    tracker st1 = ([], page st, incrementPages st)
    ∧ fetchedPages (resetAll' st) = added st1.
Proof.
  unfold resetAll.
  set (st1 := set_allBookPages [] _). exists st1. split; [done|].
  change (fetchedPages (set_loading false ?s)) with (fetchedPages s).
  by rewrite fetchBooks_fetchedPages.
Qed.

Lemma perform_NoDup op st :
  NoDup (fetchedPages st) → tracks_once op st →
  NoDup (fetchedPages (perform' op st)).
Proof.
  intros Hnd Hsafe.
  assert (Hreset : ∀ s, NoDup (fetchedPages (resetAll' s))).
  { intros s. destruct (resetAll_tracker s) as (s1 & Ht & ->).
    injection Ht as Hf _ _.
    pose proof (added_NoDup s1) as Ha. rewrite Hf in Ha.
    apply Ha; [constructor|]. right. apply not_elem_of_nil. }
  destruct op; cbn [perform].
  - destruct (initialize_tracker st) as (s1 & Ht & [->| ->]); [done|].
    injection Ht as Hf Hp Hi.
    apply added_NoDup; [by rewrite Hf|]. by rewrite Hf, Hp, Hi.
  - rewrite fetchBooks_fetchedPages. by apply added_NoDup.
  - unfold changePage. destruct (p =? page st); [done|apply Hreset].
  - unfold incrementPage. destruct (negb (isNextPage st)); [done|].
    rewrite fetchBooks_fetchedPages. apply added_NoDup; [done|by left].
  - apply Hreset.
  - apply Hreset.
Qed.

Lemma perform_grows op st :
  resets op = false →
  fetchedPages st `prefix_of` fetchedPages (perform' op st).
Proof.
  destruct op; cbn [perform resets]; intros Hop; try done.
  - destruct (initialize_tracker st) as (s1 & Ht & [->| ->]); [done|].
    injection Ht as -> _ _. by apply prefix_app_r.
  - rewrite fetchBooks_fetchedPages. by apply prefix_app_r.
  - unfold incrementPage. destruct (negb (isNextPage st)); [done|].
    rewrite fetchBooks_fetchedPages. by apply prefix_app_r.
Qed.

(** C9, as the code has it.  Starting from a tracker without
    duplicates, every state reached through the public operations has a
    tracker without duplicates, provided [fetchBooks] (called directly
    or by [initialize]) runs in increment mode or for a page that is not
    tracked yet; [initialize], [fetchBooks] and [incrementPage] only
    append to the tracker, what [fetchBooks] appends being the pages it
    fetches; entries go away only in [resetAll], also when called by
    [changePage] and [toggleSortOrder]. *)
Theorem fetchedPages_tracker :
  (∀ st0 st,
      NoDup (fetchedPages st0) → reachable' st0 st →
      NoDup (fetchedPages st))
  ∧ (∀ op st,
       resets op = false →
       fetchedPages st `prefix_of` fetchedPages (perform' op st))
  ∧ (∀ st, fetchedPages (fetchBooks' st) = fetchedPages st ++ added st).
Proof.
  split; [|split].
  - intros st0 st Hnd Hreach. induction Hreach as [|st op Hreach IH Hsafe].
    + done.
    + by apply perform_NoDup.
  - apply perform_grows.
  - apply fetchBooks_fetchedPages.
Qed.

End Orchestration.

(** ** Worked instances *)

(** C4 at a 900x1200 png: the crop applies, and cropping the un-cropped
    cropped book gives the cropped book back. *)
Lemma toggleCropCovers_reversible_witness :
  Crop.coverShouldBeCropped Samples.png_900_1200 = true
  ∧ Crop.cropCover Samples.getUrl "jpg" 98
      (Crop.uncropCover
         (Crop.cropCover Samples.getUrl "jpg" 98 Samples.png_900_1200))
    = Crop.cropCover Samples.getUrl "jpg" 98 Samples.png_900_1200.
Proof.
  split; [reflexivity|].
  exact (proj1 (proj2 (proj2
           (toggleCropCovers_reversible Samples.getUrl "jpg" 98
              Samples.png_900_1200 eq_refl)))).
Defined.

(** C4 as stated fails twice.  For the 900x1200 png, a book with an
    applicable crop whose stored score 34 is current, crop(uncrop(b)) has
    score 33.  And un-cropping a book that was never cropped and never
    measured is not a no-op: its score goes from undefined to 4 and its
    cropped flag from undefined to false. *)
Lemma toggleCropCovers_score_changes :
  Crop.coverShouldBeCropped Samples.png_900_1200 = true
  ∧ coverQualityScore Samples.png_900_1200
    = Some (Cover.getCoverQualityScore Samples.png_900_1200)
  ∧ coverQualityScore Samples.png_900_1200 = Some 34
  ∧ coverQualityScore
      (Crop.cropCover Samples.getUrl "jpg" 98
         (Crop.uncropCover Samples.png_900_1200)) = Some 33
  ∧ JS.truthy_bool (coverIsCropped Samples.unmeasured) = false
  ∧ coverQualityScore Samples.unmeasured = None
  ∧ coverQualityScore (Crop.uncropCover Samples.unmeasured) = Some 4
  ∧ Crop.uncropCover Samples.unmeasured ≠ Samples.unmeasured.
Proof. vm_compute. repeat split; discriminate. Qed.

(** C2 on a shelf of three books: of the two books of "Volume 1" the one
    with the higher score is kept, the only book of "Volume 2" stays. *)
Lemma automaticallyPickCovers_one_per_volume_witness :
  NoDup (addr <$> Samples.shelf)
  ∧ Picker.automaticallyPickCovers
      [Samples.provider_a; Samples.provider_b] 0 Samples.shelf
    `sublist_of` Samples.shelf.
Proof.
  assert (Hnd : NoDup (addr <$> Samples.shelf)).
  { change (NoDup [0; 1; 2]%nat).
    repeat (apply NoDup_cons_2;
            [rewrite ?elem_of_cons, elem_of_nil; lia|]).
    apply NoDup_nil_2. }
  split; [exact Hnd|].
  exact (proj1 (automaticallyPickCovers_one_per_volume
                  [Samples.provider_a; Samples.provider_b] 0
                  Samples.shelf Hnd)).
Defined.

Example automaticallyPickCovers_shelf :
  addr <$> Picker.automaticallyPickCovers
             [Samples.provider_a; Samples.provider_b] 0 Samples.shelf
  = [1; 2]%nat.
Proof. vm_compute. reflexivity. Qed.

(** C6 at a downloader caught in the middle of a fetch. *)
Lemma fetchBooks_reentrant_witness :
  Orchestrator.isFetching (Orchestrator.set_isFetching true Samples.fresh)
  = true
  ∧ Samples.fetchBooks (Orchestrator.set_isFetching true Samples.fresh)
    = Orchestrator.set_isFetching true Samples.fresh.
Proof.
  split; [reflexivity|].
  exact (fetchBooks_reentrant Samples.getBooks Samples.getBookPages
           Samples.getInfo Samples.getUrl Samples.replaceTextVariables
           Samples.getLocaleName "{VOLUME_NAME}" true "jpg" 98
           (Orchestrator.set_isFetching true Samples.fresh) eq_refl).
Defined.

(** C8 for the second of two books that render [name.jpg]: the counter
    goes to 1. *)
Lemma knownFilenames_collisions_witness :
  ∃ st,
    Packaging.run Samples.filterFilename Samples.fileTypeFromBuffer
      Samples.render "path" "file" Samples.assignUnder
      (Packaging.mkLoop ∅ ∅ None [])
      [(Samples.named "name", Some [255; 216; 1]);
       (Samples.named "name", Some [255; 216; 2])]
    = Packaging.Next st
    ∧ Packaging.knownFilenames st !! "name.jpg" = Some 1
    ∧ Packaging.imagesToZip st !! "name (1).jpg" = Some [255; 216; 2]
    ∧ ("name (1).jpg", [255; 216; 2])
      ∈ Archive.placements Samples.filterFilename
          Samples.fileTypeFromBuffer Samples.render "path" "file"
          [(Samples.named "name", Some [255; 216; 1]);
           (Samples.named "name", Some [255; 216; 2])].
Proof.
  exact (proj1 (knownFilenames_collisions Samples.filterFilename
                  Samples.fileTypeFromBuffer Samples.render "path" "file"
                  "zip" Samples.assignUnder
                  (Packaging.mkState
                     [Samples.named "name"; Samples.named "name"] ∅ None)
                  [Some [255; 216; 1]; Some [255; 216; 2]]
                  eq_refl eq_refl eq_refl)
           [(Samples.named "name", Some [255; 216; 1])]
           (Samples.named "name") [255; 216; 2] []
           (Packaging.mkFileType "jpg" "image/jpeg") eq_refl eq_refl).
Defined.

(** C8 as stated fails where the last dot of the rendered name is not
    the dot of an extension.  Two books that render [.jpg] (an empty
    title in front of the extension) are stored as [.jpg] and
    [.jpg (1)]: the number goes behind the extension.  Two books that
    render [dir.v2/x], a name without an extension in a folder with a
    dot, are stored as [dir.v2/x] and [dir (1).v2/x]: the number goes
    into the folder name, not at the end. *)
Lemma collision_number_at_last_dot :
  (Packaging.downloadSelectedCovers Samples.filterFilename
     Samples.fileTypeFromBuffer Samples.render "path" "file" "zip"
     Samples.assignUnder
     (Packaging.mkState [Samples.named ""; Samples.named ""] ∅ None)
     (Some [Some [255; 1]; Some [255; 2]])).1.2
  = [Packaging.SavedArchive
       {[ ".jpg" := [255; 1]; ".jpg (1)" := [255; 2] ]} 0 "covers.zip"]
  ∧ (Packaging.downloadSelectedCovers Samples.filterFilename
       Samples.fileTypeFromBuffer Samples.render "path" "title" "zip"
       Samples.assignUnder
       (Packaging.mkState
          [Samples.named "dir.v2/x"; Samples.named "dir.v2/x"] ∅ None)
       (Some [Some [255; 1]; Some [255; 2]])).1.2
    = [Packaging.SavedArchive
         {[ "dir.v2/x" := [255; 1]; "dir (1).v2/x" := [255; 2] ]} 0
         "covers.zip"].
Proof. split; vm_compute; reflexivity. Qed.

(** Names of [Object.prototype].  Two books that render [toString] are
    never told apart: the name gets no counter, the second image
    replaces the first and one plain file is saved.  An image rendered
    as [__proto__] becomes the prototype of [imagesToZip] and is in no
    entry; the assignment of the next image, under [length], throws,
    so that nothing is saved and the one error reported is the one of
    the [catch] block. *)
Example downloadSelectedCovers_inherited_names :
  Packaging.downloadSelectedCovers Samples.filterFilename
    Samples.fileTypeFromBuffer Samples.render "path" "title" "zip"
    Samples.assignUnder
    (Packaging.mkState
       [Samples.named "toString"; Samples.named "toString"] ∅ None)
    (Some [Some [255; 1]; Some [255; 2]])
  = (Packaging.mkState
       [Samples.named "toString"; Samples.named "toString"] ∅ None,
     [Packaging.SavedFile [255; 2] "toString"], [])
  ∧ Packaging.downloadSelectedCovers Samples.filterFilename
      Samples.fileTypeFromBuffer Samples.render "path" "title" "zip"
      Samples.assignUnder
      (Packaging.mkState
         [Samples.named "__proto__"; Samples.named "length"] ∅ None)
      (Some [Some [255; 1]; Some [255; 2]])
    = (Packaging.mkState
         [Samples.named "__proto__"; Samples.named "length"] ∅ None,
       [], ["Failed to download covers"]).
Proof. split; vm_compute; reflexivity. Qed.

(** The same template for two different books: [name.jpg], then
    [name (1).jpg]. *)
Example downloadSelectedCovers_two_books_one_name :
  (Packaging.downloadSelectedCovers Samples.filterFilename
     Samples.fileTypeFromBuffer Samples.render "path" "file" "zip"
     Samples.assignUnder
     (Packaging.mkState [Samples.named "name"; Samples.named "name"] ∅ None)
     (Some [Some [255; 216; 1]; Some [255; 216; 2]])).1.2
  = [Packaging.SavedArchive
       {[ "name.jpg" := [255; 216; 1]; "name (1).jpg" := [255; 216; 2] ]}
       0 "covers.zip"].
Proof. vm_compute. reflexivity. Qed.

(** C7 at three books titled [a], [a] and [a (1)], each with a jpeg. *)
Lemma downloadSelectedCovers_overwrites_numbered_name_witness :
  Packaging.downloadSelectedCovers Samples.filterFilename
    Samples.fileTypeFromBuffer Samples.render "path" "file" "zip"
    Samples.assignUnder
    (Packaging.mkState
       [Samples.named "a"; Samples.named "a"; Samples.named "a (1)"] ∅ None)
    (Some [Some [255; 1]; Some [255; 2]; Some [255; 3]])
  = (Packaging.mkState
       [Samples.named "a"; Samples.named "a"; Samples.named "a (1)"] ∅ None,
     [Packaging.SavedArchive
        {[ "a.jpg" := [255; 1]; "a (1).jpg" := [255; 3] ]} 0 "covers.zip"],
     []).
Proof.
  exact (downloadSelectedCovers_overwrites_numbered_name
           Samples.filterFilename Samples.fileTypeFromBuffer Samples.render
           "path" "file" "zip" Samples.assignUnder
           (Samples.named "a") (Samples.named "a") (Samples.named "a (1)")
           [255; 1] [255; 2] [255; 3]
           (Packaging.mkFileType "jpg" "image/jpeg")
           (Packaging.mkFileType "jpg" "image/jpeg")
           (Packaging.mkFileType "jpg" "image/jpeg")
           eq_refl eq_refl eq_refl eq_refl eq_refl eq_refl eq_refl).
Defined.

(** C9 after [initialize] on a fresh downloader: page 1 is tracked once. *)
Lemma fetchedPages_tracker_witness :
  NoDup (Orchestrator.fetchedPages Samples.fresh)
  ∧ NoDup (Orchestrator.fetchedPages
             (Samples.perform Orchestrator.Initialize Samples.fresh)).
Proof.
  assert (Hnd : NoDup (Orchestrator.fetchedPages Samples.fresh))
    by constructor.
  split; [exact Hnd|].
  unfold Samples.perform.
  refine (proj1 (fetchedPages_tracker Samples.getSeries Samples.getBooks
                   Samples.getBookPages Samples.getInfo Samples.getUrl
                   Samples.replaceTextVariables Samples.getLocaleName
                   "{VOLUME_NAME}" true "jpg" 98
                   [Samples.provider_a; Samples.provider_b]
                   Samples.getAllSvelteSearchParams)
            Samples.fresh _ Hnd _).
  refine (Orchestrator.reachable_step Samples.getSeries Samples.getBooks
            Samples.getBookPages Samples.getInfo Samples.getUrl
            Samples.replaceTextVariables Samples.getLocaleName
            "{VOLUME_NAME}" true "jpg" 98
            [Samples.provider_a; Samples.provider_b]
            Samples.getAllSvelteSearchParams
            Samples.fresh Samples.fresh Orchestrator.Initialize _ _).
  - apply Orchestrator.reachable_start.
  - right. apply not_elem_of_nil.
Defined.

(** C9 as stated fails: [initialize] then [fetchBooks], both public, in
    single-page mode track page 1 twice. *)
Lemma fetchedPages_tracked_twice :
  Orchestrator.fetchedPages (Samples.initialize Samples.fresh) = [1]
  ∧ Orchestrator.fetchedPages
      (Samples.fetchBooks (Samples.initialize Samples.fresh)) = [1; 1]
  ∧ ¬ NoDup (Orchestrator.fetchedPages
               (Samples.fetchBooks (Samples.initialize Samples.fresh))).
Proof.
  assert (H2 : Orchestrator.fetchedPages
                 (Samples.fetchBooks (Samples.initialize Samples.fresh))
               = [1; 1]) by (vm_compute; reflexivity).
  split; [vm_compute; reflexivity|]. split; [exact H2|].
  rewrite H2. intros Hnd. apply NoDup_cons in Hnd as [Hin _].
  apply Hin. apply elem_of_cons. by left.
Qed.

(** C5 as stated fails: with two explicit markers the code returns the
    number of the first one, where the last match would give the number
    of the second. *)
Lemma getVolumeNumber_first_marker :
  Title.getVolumeNumber "Volume 1 Chapter 2" = Some "1"
  ∧ Title.extractOrderingNumber_last "Volume 1 Chapter 2" = Some "2"
  ∧ Title.getVolumeNumber "Volume 1 Chapter 2"
    ≠ Title.extractOrderingNumber_last "Volume 1 Chapter 2".
Proof.
  assert (Hcode : Title.getVolumeNumber "Volume 1 Chapter 2" = Some "1")
    by (vm_compute; reflexivity).
  assert (Hspec : Title.extractOrderingNumber_last "Volume 1 Chapter 2"
                  = Some "2") by (vm_compute; reflexivity).
  split; [exact Hcode|]. split; [exact Hspec|].
  rewrite Hcode, Hspec. discriminate.
Qed.

(** * Further properties of the code *)

(** ** The page window *)

Section Sorting.
Import Picker.

Lemma sort_insert_Permutation {A} (cmp : A → A → Z) x (l : list A) :
  sort_insert cmp x l ≡ₚ x :: l.
Proof.
  induction l as [|y l IH]; cbn [sort_insert]; [done|].
  destruct (cmp x y <=? 0); [done|]. rewrite IH. apply Permutation_swap.
Qed.

Lemma sort_Permutation {A} (cmp : A → A → Z) (l : list A) :
  sort cmp l ≡ₚ l.
Proof.
  induction l as [|x l IH]; [done|]. unfold sort in *. cbn [foldr].
  by rewrite sort_insert_Permutation, IH.
Qed.

Lemma sort_insert_ascending x (l : list Z) :
  StronglySorted Z.le l →
  StronglySorted Z.le (sort_insert (λ a b, a - b) x l).
Proof.
  induction 1 as [|y l Hl IH Hy]; cbn [sort_insert].
  - repeat constructor.
  - destruct (Z.leb_spec (x - y) 0).
    + constructor; [by constructor|].
      constructor; [lia|]. eapply Forall_impl; [exact Hy|]. intros; lia.
    + constructor; [done|].
      rewrite sort_insert_Permutation. constructor; [lia|done].
Qed.

Lemma sort_ascending (l : list Z) :
  StronglySorted Z.le (sort (λ a b, a - b) l).
Proof.
  induction l as [|x l IH]; [constructor|].
  unfold sort in *. cbn [foldr]. by apply sort_insert_ascending.
Qed.

Lemma ascending_NoDup (l : list Z) :
  StronglySorted Z.le l → NoDup l → StronglySorted Z.lt l.
Proof.
  induction 1 as [|x l Hl IH Hx]; intros Hnd; [constructor|].
  apply NoDup_cons in Hnd as [Hin Hnd]. constructor; [by apply IH|].
  rewrite Forall_forall in *. intros y Hy.
  assert (x ≠ y) by (by intros ->). specialize (Hx y Hy). lia.
Qed.
End Sorting.

Section GetPages.
Import Pages.

Lemma elem_of_add q p pages : q ∈ add p pages ↔ q = p ∨ q ∈ pages.
Proof.
  unfold add. case_bool_decide as Hp.
  - split; [by right|]. by intros [->|].
  - rewrite elem_of_app, list_elem_of_singleton. tauto.
Qed.

Lemma NoDup_add p pages : NoDup pages → NoDup (add p pages).
Proof.
  intros Hnd. unfold add. case_bool_decide as Hp; [done|].
  apply NoDup_app. split; [done|]. split; [|apply NoDup_singleton].
  by intros x Hx ->%list_elem_of_singleton.
Qed.

Lemma length_add p pages :
  (length pages ≤ length (add p pages) ≤ S (length pages))%nat.
Proof.
  unfold add. case_bool_decide; [lia|]. rewrite length_app. cbn. lia.
Qed.

(** A set of pages of [1 .. maxPage] without repeats has at most
    [maxPage] members, and exactly that many when it holds them all. *)
Lemma length_range (maxPage : Z) (pages : list Z) :
  NoDup pages → (∀ p, p ∈ pages → 1 ≤ p ≤ maxPage) →
  (Z.of_nat (length pages) ≤ Z.max 0 maxPage)
  ∧ ((∀ p, 1 ≤ p ≤ maxPage → p ∈ pages) →
     Z.of_nat (length pages) = Z.max 0 maxPage).
Proof.
  intros Hnd Hrange.
  assert (Hsub : pages ⊆+ seqZ 1 maxPage).
  { apply NoDup_submseteq; [done|]. intros p Hp%Hrange.
    apply elem_of_seqZ. lia. }
  apply submseteq_length in Hsub. rewrite length_seqZ in Hsub.
  split; [lia|]. intros Hall.
  assert (Hsup : seqZ 1 maxPage ⊆+ pages).
  { apply NoDup_submseteq; [apply NoDup_seqZ|].
    intros p Hp%elem_of_seqZ. apply Hall. lia. }
  apply submseteq_length in Hsup. rewrite length_seqZ in Hsup. lia.
Qed.

Lemma window_add currentPage maxPage offset p pages :
  window currentPage maxPage offset pages →
  1 ≤ p ≤ maxPage → (length pages < maxLength)%nat →
  NoDup (add p pages)
  ∧ (∀ q, q ∈ add p pages → 1 ≤ q ≤ maxPage)
  ∧ (length (add p pages) ≤ maxLength)%nat.
Proof.
  intros [] Hp Hlen. split; [by apply NoDup_add|]. split.
  - intros q [->|Hq]%elem_of_add; auto.
  - pose proof (length_add p pages). unfold maxLength in *. lia.
Qed.

(** One turn of the loop keeps the window, and the loop ends. *)
Lemma grow_window fuel currentPage maxPage offset pages :
  1 ≤ currentPage ≤ maxPage → 1 ≤ offset ≤ maxPage + 1 →
  maxPage + 2 ≤ Z.of_nat fuel + offset →
  window currentPage maxPage offset pages →
  ∃ out offset',
    grow fuel currentPage maxPage offset pages = Some out
    ∧ window currentPage maxPage offset' out
    ∧ ((length out = maxLength)
       ∨ ∀ p, 1 ≤ p ≤ maxPage → p ∈ out)
    ∧ ((1 ≤ currentPage - 1 → currentPage - 1 ∈ out)
       ∧ (currentPage + 1 ≤ maxPage → currentPage + 1 ∈ out)).
Proof.
  intros Hcur. revert offset pages.
  induction fuel as [|fuel IH]; intros offset pages Hoff Hfuel Hwin.
  { exfalso. lia. }
  cbn [grow]. destruct (Nat.ltb_spec (length pages) maxLength) as [Hlt|Hge].
  2:{ exists pages, offset. split; [done|]. split; [done|].
      pose proof (window_length _ _ _ _ Hwin). split; [left; lia|].
      apply (window_next _ _ _ _ Hwin).
      destruct (decide (offset = 1)) as [->|]; [|lia].
      pose proof (window_start _ _ _ _ Hwin eq_refl).
      unfold maxLength in *. lia. }
  cbn [andb].
  (* the page before *)
  set (before := if 1 <=? currentPage - offset
                 then (add (currentPage - offset) pages, true)
                 else (pages, false)).
  rewrite andb_true_r. fold before.
  assert (Hbefore :
    NoDup before.1 ∧ (∀ q, q ∈ before.1 → 1 ≤ q ≤ maxPage)
    ∧ (length pages ≤ length before.1 ≤ S (length pages))%nat
    ∧ (length before.1 ≤ maxLength)%nat
    ∧ (∀ q, q ∈ pages → q ∈ before.1)
    ∧ (1 ≤ currentPage - offset → currentPage - offset ∈ before.1)
    ∧ (before.2 = false → currentPage - offset < 1)
    ∧ (before.2 = true → 1 ≤ currentPage - offset)).
  { unfold before. destruct (Z.leb_spec 1 (currentPage - offset));
      cbn [fst snd].
    - destruct (window_add _ _ _ (currentPage - offset) _ Hwin)
        as (? & ? & ?); [lia|done|].
      pose proof (length_add (currentPage - offset) pages).
      split_and!; [done|done|lia|lia|done| | | |done].
      + intros q Hq. apply elem_of_add. by right.
      + intros _. apply elem_of_add. by left.
      + done.
    - destruct Hwin. split_and!; [done|done|lia|lia|done|auto|lia|done|done]. }
  destruct before as [pages1 added1]. cbn [fst snd] in Hbefore.
  destruct Hbefore
    as (Hnd1 & Hr1 & Hl1 & Hm1 & Hsub1 & Hin1 & Hadd1 & Hyes1).
  set (after := if (currentPage + offset <=? maxPage)
                   && (length pages1 <? maxLength)%nat
                then (add (currentPage + offset) pages1, true)
                else (pages1, added1)).
  assert (Hafter :
    NoDup after.1 ∧ (∀ q, q ∈ after.1 → 1 ≤ q ≤ maxPage)
    ∧ (length pages1 ≤ length after.1 ≤ S (length pages1))%nat
    ∧ (length after.1 ≤ maxLength)%nat
    ∧ (∀ q, q ∈ pages1 → q ∈ after.1)
    ∧ (currentPage + offset ≤ maxPage → (length pages1 < maxLength)%nat →
       currentPage + offset ∈ after.1)
    ∧ (after.2 = false →
       added1 = false
       ∧ (maxPage < currentPage + offset
          ∨ (length pages1 = maxLength)))
    ∧ (after.2 = true →
       added1 = true ∨ currentPage + offset ≤ maxPage)).
  { unfold after. destruct (Z.leb_spec (currentPage + offset) maxPage);
      destruct (Nat.ltb_spec (length pages1) maxLength); cbn [andb fst snd].
    - pose proof (length_add (currentPage + offset) pages1).
      split_and!; [by apply NoDup_add| |lia|lia|lia| | |done|by right].
      + intros q [->|Hq]%elem_of_add; [lia|auto].
      + intros q Hq. apply elem_of_add. by right.
      + intros _ _. apply elem_of_add. by left.
    - split_and!; [done|done|lia|lia|done|auto|lia| |by left].
      intros ->. split; [done|]. right. lia.
    - split_and!; [done|done|lia|lia|done|auto|lia| |by left].
      intros ->. split; [done|]. left. lia.
    - split_and!; [done|done|lia|lia|done|auto|lia| |by left].
      intros ->. split; [done|]. left. lia. }
  destruct after as [pages2 added2]. cbn [fst snd] in Hafter.
  destruct Hafter
    as (Hnd2 & Hr2 & Hl2 & Hm2 & Hsub2 & Hin2 & Hadd2 & Hyes2).
  assert (Hnext : window currentPage maxPage (offset + 1) pages2).
  { destruct Hwin. constructor; try done.
    - auto.
    - auto.
    - auto.
    - lia.
    - intros Hlen p Hp Hnear.
      destruct (decide (Z.abs (p - currentPage) < offset)) as [Hin|Hout].
      + apply Hsub2, Hsub1, window_near0; [lia|done|done].
      + destruct (decide (p = currentPage - offset)) as [->|Hne].
        * apply Hsub2, Hin1. lia.
        * assert (p = currentPage + offset) as -> by lia.
          apply Hin2; lia.
    - intros _.
      destruct (decide (offset = 1)) as [->|Hne].
      + pose proof (window_start0 eq_refl). unfold maxLength in *. split.
        * intros H1. apply Hsub2, Hin1. lia.
        * intros H1. apply Hin2; lia.
      + destruct window_next0 as [Hb Ha]; [lia|]. split; auto. }
  destruct added2; cbn [negb].
  - assert (offset + 1 ≤ maxPage).
    { destruct (Hyes2 eq_refl) as [->|]; [|lia].
      specialize (Hyes1 eq_refl). lia. }
    apply (IH (offset + 1) pages2); [lia|lia|done].
  - destruct (Hadd2 eq_refl) as [-> Hstop]. specialize (Hadd1 eq_refl).
    exists pages2, (offset + 1). split; [done|]. split; [done|].
    assert (Hsame : length pages1 = length pages ∨ True) by (by right).
    split.
    + destruct Hstop as [Hstop|Hstop].
      * destruct (decide (length pages2 = maxLength)) as [|Hshort];
          [by left|right].
        intros p Hp.
        apply (window_near _ _ _ _ Hnext); [lia|done|lia].
      * left. lia.
    + apply (window_next _ _ _ _ Hnext). lia.
Qed.
End GetPages.

Section GetPagesResult.
Import Pages.

Lemma clamp_range currentPage maxPage :
  0 < maxPage → 1 ≤ clamp currentPage maxPage ≤ maxPage.
Proof.
  intros Hmax. unfold clamp.
  destruct (Z.ltb_spec currentPage 1);
    repeat match goal with
           | |- context [if ?a <? ?b then _ else _] =>
               destruct (Z.ltb_spec a b)
           end; lia.
Qed.

Lemma window_initial c maxPage :
  1 ≤ c ≤ maxPage →
  window c maxPage 1 (add maxPage (add c (add 1 []))).
Proof.
  intros Hc. set (pages := add maxPage (add c (add 1 []))).
  assert (Hin : ∀ q, q ∈ pages ↔ q = maxPage ∨ q = c ∨ q = 1).
  { intros q. unfold pages. rewrite !elem_of_add, elem_of_nil. tauto. }
  assert (Hlen : (length pages ≤ 3)%nat).
  { unfold pages.
    pose proof (length_add maxPage (add c (add 1 []))).
    pose proof (length_add c (add 1 [])).
    pose proof (length_add 1 []). cbn [length] in *. lia. }
  constructor.
  - unfold pages. repeat apply NoDup_add. constructor.
  - intros p [->| [->| ->]]%Hin; lia.
  - apply Hin. auto.
  - apply Hin. auto.
  - apply Hin. auto.
  - unfold maxLength. lia.
  - done.
  - intros _ p Hp Hnear. apply Hin. right. left. lia.
  - lia.
Qed.

(** What the loop hands to the final sort. *)
Lemma getPages_grown currentPage maxPage :
  0 < maxPage →
  ∃ out offset,
    getPages currentPage maxPage = Some (Picker.sort (λ a b, a - b) out)
    ∧ window (clamp currentPage maxPage) maxPage offset out
    ∧ ((length out = maxLength) ∨ ∀ p, 1 ≤ p ≤ maxPage → p ∈ out)
    ∧ ((1 ≤ clamp currentPage maxPage - 1 →
        clamp currentPage maxPage - 1 ∈ out)
       ∧ (clamp currentPage maxPage + 1 ≤ maxPage →
          clamp currentPage maxPage + 1 ∈ out)).
Proof.
  intros Hmax. pose proof (clamp_range currentPage maxPage Hmax) as Hc.
  unfold getPages. destruct (Z.leb_spec maxPage 0); [lia|]. cbv zeta.
  destruct (grow_window (S (Z.to_nat maxPage)) (clamp currentPage maxPage)
              maxPage 1
              (add maxPage (add (clamp currentPage maxPage) (add 1 [])))
              Hc)
    as (out & offset & -> & Hwin & Hsize & Hnext);
    [lia|lia|by apply window_initial|].
  by exists out, offset.
Qed.

(** X1.  [getPages] returns, for a positive [maxPage], the page numbers
    to show in ascending order without repeats; all of them lie in
    [1 .. maxPage], and the first page, the last page and the current
    page (brought into that range) are among them.  For a [maxPage] of
    zero or less it returns the empty array. *)
Theorem getPages_window (currentPage maxPage : Z) :
  (maxPage ≤ 0 → getPages currentPage maxPage = Some [])
  ∧ (0 < maxPage →
     ∃ pages,
       getPages currentPage maxPage = Some pages
       ∧ StronglySorted Z.lt pages
       ∧ (∀ p, p ∈ pages → 1 ≤ p ≤ maxPage)
       ∧ 1 ∈ pages ∧ maxPage ∈ pages
       ∧ clamp currentPage maxPage ∈ pages).
Proof.
  split.
  { intros Hmax. unfold getPages. by destruct (Z.leb_spec maxPage 0); [|lia]. }
  intros Hmax.
  destruct (getPages_grown currentPage maxPage Hmax)
    as (out & offset & -> & Hwin & _ & _).
  eexists. split; [done|]. destruct Hwin.
  pose proof (sort_Permutation (λ a b, a - b) out) as Hperm.
  split_and!.
  - apply ascending_NoDup; [apply sort_ascending|]. by rewrite Hperm.
  - intros p. rewrite Hperm. auto.
  - by rewrite Hperm.
  - by rewrite Hperm.
  - by rewrite Hperm.
Qed.

(** X2.  The window of [getPages] has exactly [min(5, maxPage)] page
    numbers, and the pages next to the current one are always in it
    when they exist. *)
Theorem getPages_size (currentPage maxPage : Z) :
  0 < maxPage →
  ∃ pages,
    getPages currentPage maxPage = Some pages
    ∧ Z.of_nat (length pages) = Z.min 5 maxPage
    ∧ (1 ≤ clamp currentPage maxPage - 1 →
       clamp currentPage maxPage - 1 ∈ pages)
    ∧ (clamp currentPage maxPage + 1 ≤ maxPage →
       clamp currentPage maxPage + 1 ∈ pages).
Proof.
  intros Hmax.
  destruct (getPages_grown currentPage maxPage Hmax)
    as (out & offset & -> & Hwin & Hsize & Hbefore & Hafter).
  eexists. split; [done|].
  pose proof (sort_Permutation (λ a b, a - b) out) as Hperm.
  rewrite Hperm. split; [|done].
  destruct Hwin.
  destruct (length_range maxPage out window_NoDup0 window_range0)
    as [Hle Hall].
  unfold maxLength in *. destruct Hsize as [Hfive|Hfull]; [lia|].
  specialize (Hall Hfull). lia.
Qed.
End GetPagesResult.

Lemma getPages_window_witness :
  ∃ pages,
    Pages.getPages 7 10 = Some pages
    ∧ StronglySorted Z.lt pages
    ∧ (∀ p, p ∈ pages → 1 ≤ p ≤ 10)
    ∧ 1 ∈ pages ∧ 10 ∈ pages ∧ Pages.clamp 7 10 ∈ pages.
Proof. apply (proj2 (getPages_window 7 10)). lia. Defined.

Lemma getPages_size_witness :
  ∃ pages,
    Pages.getPages 2 3 = Some pages
    ∧ Z.of_nat (length pages) = Z.min 5 3
    ∧ (1 ≤ Pages.clamp 2 3 - 1 → Pages.clamp 2 3 - 1 ∈ pages)
    ∧ (Pages.clamp 2 3 + 1 ≤ 3 → Pages.clamp 2 3 + 1 ∈ pages).
Proof. apply (getPages_size 2 3). lia. Defined.

(** ** The selection *)

Section FindIndex.
Import Picker.
Context {A : Type} (test : A → bool).

Lemma findIndex_range (l : list A) :
  -1 ≤ findIndex test l < Z.of_nat (length l).
Proof.
  induction l as [|x l IH]; cbn [findIndex length]; [lia|].
  destruct (test x); [lia|].
  destruct (Z.eqb_spec (findIndex test l) (-1)); lia.
Qed.

Lemma findIndex_none (l : list A) :
  findIndex test l = -1 ↔ existsb test l = false.
Proof.
  induction l as [|x l IH]; cbn [findIndex existsb]; [done|].
  pose proof (findIndex_range l).
  destruct (test x); cbn [orb]; [done|].
  destruct (Z.eqb_spec (findIndex test l) (-1)) as [Heq|Hne].
  - by rewrite <- IH.
  - rewrite <- IH. split; [lia|done].
Qed.

Lemma findIndex_found (l : list A) :
  findIndex test l ≠ -1 →
  ∃ x, l !! Z.to_nat (findIndex test l) = Some x ∧ test x = true
       ∧ existsb test (take (Z.to_nat (findIndex test l)) l) = false.
Proof.
  induction l as [|x l IH]; cbn [findIndex]; [done|].
  pose proof (findIndex_range l).
  destruct (test x) eqn:Hx; [by exists x|].
  destruct (Z.eqb_spec (findIndex test l) (-1)) as [Heq|Hne]; [done|].
  intros _. destruct (IH Hne) as (y & Hy & Hty & Hbefore). exists y.
  replace (Z.to_nat (findIndex test l + 1))
    with (S (Z.to_nat (findIndex test l))) by lia.
  cbn [take existsb]. by rewrite Hx.
Qed.
End FindIndex.

Section SelectionFacts.
Import Selection.

Lemma same_book_key (a b : Book) : same_book a b = true ↔ key a = key b.
Proof.
  unfold same_book, key. rewrite andb_true_iff, !String.eqb_eq.
  split; [by intros [-> ->]|by intros [= -> ->]].
Qed.

Lemma existsb_key (book : Book) (l : list Book) :
  existsb (λ b, same_book b book) l = true ↔ key book ∈ key <$> l.
Proof.
  rewrite existsb_exists, list_elem_of_fmap. split.
  - intros (b & Hb%list_elem_of_In & Hsame%same_book_key). by exists b.
  - intros (b & Hkey & Hb). exists b. split; [by apply list_elem_of_In|].
    by apply same_book_key.
Qed.

Lemma isBookSelected_key (book : Book) (st : State) :
  isBookSelected book st = true ↔ key book ∈ key <$> selectedBooks st.
Proof. apply existsb_key. Qed.

(** What [toggleBook] does to the keys of the selection. *)
Lemma toggleBook_keys (book : Book) (force : option bool) (st : State) :
  NoDup (key <$> selectedBooks st) →
  let st' := toggleBook book force st in
  NoDup (key <$> selectedBooks st')
  ∧ (∀ k, k ∈ key <$> selectedBooks st' ↔
          if decide (k = key book)
          then match force with
               | None => k ∉ key <$> selectedBooks st
               | Some f => f = true
               end
          else k ∈ key <$> selectedBooks st).
Proof.
  intros Hnd. cbv zeta. unfold toggleBook. cbn [selectedBooks].
  set (l := selectedBooks st) in *.
  set (test := λ b, same_book b book).
  pose proof (findIndex_range test l) as Hrange.
  pose proof (findIndex_none test l) as Hnone.
  pose proof (existsb_key book l) as Hkey. fold test in Hkey.
  destruct (Z.eqb_spec (Picker.findIndex test l) (-1)) as [Hidx|Hidx].
  - (* the book is not selected *)
    assert (Hout : key book ∉ key <$> l).
    { rewrite <- Hkey. apply Hnone in Hidx. by rewrite Hidx. }
    assert ((-1 <? Picker.findIndex test l) = false) as ->
      by (apply Z.ltb_ge; lia).
    cbn [andb]. rewrite orb_false_r.
    destruct force as [[|]|]; cbn.
    + rewrite fmap_app. cbn. split.
      * apply NoDup_app. split; [done|]. split; [|apply NoDup_singleton].
        by intros k Hk ->%list_elem_of_singleton.
      * intros k. rewrite elem_of_app, list_elem_of_singleton.
        destruct (decide (k = key book)); [tauto|tauto].
    + split; [done|]. intros k.
      destruct (decide (k = key book)) as [->|]; [|done]. split; done.
    + rewrite fmap_app. cbn. split.
      * apply NoDup_app. split; [done|]. split; [|apply NoDup_singleton].
        by intros k Hk ->%list_elem_of_singleton.
      * intros k. rewrite elem_of_app, list_elem_of_singleton.
        destruct (decide (k = key book)) as [->|]; [tauto|tauto].
  - (* the book is selected, at the index found *)
    destruct (findIndex_found test l Hidx) as (x & Hx & Htx & Hbefore).
    set (i := Z.to_nat (Picker.findIndex test l)) in *.
    assert (Hin : key book ∈ key <$> l).
    { apply Hkey. apply not_false_iff_true. intros Hf.
      by apply Hnone in Hf. }
    assert (Hkx : key x = key book) by (by apply same_book_key).
    assert (Hsplit : l = take i l ++ x :: drop (S i) l)
      by (by rewrite take_drop_middle).
    assert (Hdel : delete i l = take i l ++ drop (S i) l)
      by apply delete_take_drop.
    assert (Hnd' : NoDup (key <$> take i l ++ x :: drop (S i) l))
      by (by rewrite <- Hsplit).
    rewrite fmap_app, fmap_cons in Hnd'.
    apply NoDup_app in Hnd' as (Hnd1 & Hdis & Hnd2).
    apply NoDup_cons in Hnd2 as [Hx2 Hnd2].
    assert (Hx1 : key x ∉ key <$> take i l).
    { intros Hk. apply (Hdis _ Hk). apply elem_of_cons. by left. }
    assert (Hndd : NoDup (key <$> delete i l)).
    { rewrite Hdel, fmap_app. apply NoDup_app. split; [done|].
      split; [|done]. intros k Hk Hk2. apply (Hdis _ Hk).
      apply elem_of_cons. by right. }
    assert (Hmem : ∀ k, k ∈ key <$> delete i l ↔
                        k ≠ key book ∧ k ∈ key <$> l).
    { intros k. rewrite Hdel. rewrite Hsplit at 3.
      rewrite !fmap_app, fmap_cons, !elem_of_app, elem_of_cons, <- Hkx.
      split.
      - intros [Hk|Hk]; (split; [by intros ->|auto]).
      - intros [Hne [Hk|[Hk|Hk]]]; auto. done. }
    assert ((-1 <? Picker.findIndex test l) = true) as ->
      by (apply Z.ltb_lt; lia).
    cbn [andb orb].
    destruct force as [[|]|]; cbn.
    + split; [done|]. intros k.
      destruct (decide (k = key book)) as [->|]; [|done]. done.
    + split; [done|]. intros k. rewrite Hmem.
      destruct (decide (k = key book)) as [->|]; [|tauto].
      split; [by intros [? _]|done].
    + split; [done|]. intros k. rewrite Hmem.
      destruct (decide (k = key book)) as [->|]; [|tauto].
      split; [by intros [? _]|done].
Qed.
End SelectionFacts.

Section SelectionTheorems.
Import Selection.

Lemma toggleBooks_keys (books : list Book) (f : bool) (st : State) :
  NoDup (key <$> selectedBooks st) →
  let st' := foldl (λ st b, toggleBook b (Some f) st) st books in
  NoDup (key <$> selectedBooks st')
  ∧ (∀ k, k ∈ key <$> selectedBooks st' ↔
          if decide (k ∈ key <$> books) then f = true
          else k ∈ key <$> selectedBooks st).
Proof.
  revert st. induction books as [|b books IH]; intros st Hnd; cbn [foldl].
  { split; [done|]. intros k. cbn. by destruct (decide (k ∈ [])) as [?%elem_of_nil|]. }
  destruct (toggleBook_keys b (Some f) st Hnd) as [Hnd1 Hmem1].
  destruct (IH _ Hnd1) as [Hnd2 Hmem2]. split; [done|].
  intros k. rewrite Hmem2, fmap_cons.
  destruct (decide (k ∈ key <$> books)) as [Hin|Hout].
  - rewrite decide_True by (apply elem_of_cons; by right). done.
  - rewrite Hmem1. destruct (decide (k = key b)) as [->|Hne].
    + rewrite decide_True by (apply elem_of_cons; by left). done.
    + rewrite decide_False; [done|].
      intros [?|?]%elem_of_cons; done.
Qed.

(** X3.  On a selection in which no two books share the pair (book id,
    provider id), [toggleBook] keeps it so; afterwards the book is
    selected exactly when [force] says so, or, without [force], when it
    was not selected before; the selection status of every other book
    is unchanged; and the book is recorded as the last one toggled. *)
Theorem toggleBook_selection (book : Book) (force : option bool)
    (st : State) :
  NoDup (key <$> selectedBooks st) →
  let st' := toggleBook book force st in
  NoDup (key <$> selectedBooks st')
  ∧ isBookSelected book st'
    = match force with
      | None => negb (isBookSelected book st)
      | Some f => f
      end
  ∧ (∀ other, key other ≠ key book →
              isBookSelected other st' = isBookSelected other st)
  ∧ lastToggledBook st' = Some book.
Proof.
  intros Hnd. cbv zeta.
  destruct (toggleBook_keys book force st Hnd) as [Hnd' Hmem].
  split; [done|]. split; [|split; [|done]].
  - apply eq_true_iff_eq. rewrite isBookSelected_key, Hmem.
    rewrite decide_True by done. destruct force as [f|]; [done|].
    rewrite negb_true_iff, <- not_true_iff_false, isBookSelected_key. done.
  - intros other Hother. apply eq_true_iff_eq.
    rewrite !isBookSelected_key, Hmem. by rewrite decide_False.
Qed.

(** X4.  On a selection in which no two books share the pair (book id,
    provider id), a shift-click on a book of the displayed list, when
    the last toggled book is in that list too, keeps the selection so,
    sets every book displayed between the two (both included) to the
    opposite of the clicked book's selection status and leaves every
    other book as it was; a shift-click on the last toggled book itself
    changes nothing. *)
Theorem shiftSelect_range (sortedFilteredBooks : list Book) (book last : Book)
    (st : State) :
  NoDup (key <$> selectedBooks st) →
  lastToggledBook st = Some last →
  let l := Picker.findIndex (λ b, same_book b last) sortedFilteredBooks in
  let k := Picker.findIndex (λ b, same_book b book) sortedFilteredBooks in
  let between :=
    JS.slice sortedFilteredBooks (Z.to_nat (Z.min l k))
      (S (Z.to_nat (Z.max l k))) in
  l ≠ -1 → k ≠ -1 →
  ∃ st',
    shiftSelect sortedFilteredBooks true book st = Some st'
    ∧ NoDup (key <$> selectedBooks st')
    ∧ (l = k → st' = st)
    ∧ (l ≠ k →
       ∀ other,
         isBookSelected other st'
         = if decide (key other ∈ key <$> between)
           then negb (isBookSelected book st)
           else isBookSelected other st).
Proof.
  intros Hnd Hlast l k between Hl Hk. unfold shiftSelect. cbn [negb].
  rewrite Hlast. fold l k.
  pose proof (findIndex_range (λ b, same_book b last) sortedFilteredBooks)
    as Hlr.
  pose proof (findIndex_range (λ b, same_book b book) sortedFilteredBooks)
    as Hkr.
  fold l in Hlr. fold k in Hkr.
  destruct (Z.eqb_spec l (-1)); [done|].
  set (f := negb (isBookSelected book st)).
  assert (Hfold : ∀ books,
    (∀ b, b ∈ books ↔ b ∈ between) →
    let st' := foldl (λ st b, toggleBook b (Some f) st) st books in
    NoDup (key <$> selectedBooks st')
    ∧ ∀ other,
        isBookSelected other st'
        = if decide (key other ∈ key <$> between)
          then f else isBookSelected other st).
  { intros books Hbooks.
    destruct (toggleBooks_keys books f st Hnd) as [Hnd' Hmem].
    split; [done|]. intros other. apply eq_true_iff_eq.
    rewrite isBookSelected_key, Hmem.
    assert (Hrange : key other ∈ key <$> books ↔
                     key other ∈ key <$> between).
    { rewrite !list_elem_of_fmap. by setoid_rewrite Hbooks. }
    destruct (decide (key other ∈ key <$> books)) as [Hin|Hout].
    - rewrite decide_True by (by apply Hrange). done.
    - rewrite decide_False by (by rewrite <- Hrange).
      by rewrite isBookSelected_key. }
  destruct (Z.ltb_spec l k) as [Hup|Hnup].
  - destruct (Hfold (JS.slice sortedFilteredBooks (Z.to_nat l)
                       (S (Z.to_nat k))))
      as [Hnd' Hsel].
    { intros b. unfold between. by rewrite Z.min_l, Z.max_r by lia. }
    eexists. split; [done|]. split; [done|]. split; [lia|]. intros _. done.
  - destruct (Z.ltb_spec k l) as [Hdown|Hsame].
    + destruct (Z.eqb_spec k (-1)); [done|].
      destruct (Hfold (reverse (JS.slice sortedFilteredBooks (Z.to_nat k)
                                  (S (Z.to_nat l)))))
        as [Hnd' Hsel].
      { intros b. unfold between.
        by rewrite elem_of_reverse, Z.min_r, Z.max_l by lia. }
      eexists. split; [done|]. split; [done|]. split; [lia|]. intros _. done.
    + exists st. split; [done|]. split; [done|]. split; [done|]. lia.
Qed.
End SelectionTheorems.

(** ** The quality score and the crop, further *)

Section ScoreOrder.
Import Cover.

(** The score as a sum of three integers, halved and rounded. *)
Lemma getCoverQualityScore_sum (book : Book) :
  let format := JS.toLowerCase <$> coverFormat book in
  getCoverQualityScore book
  = (Z.sqrt (JS.num_or (coverWidth book) 0 * JS.num_or (coverHeight book) 0)
       / 20
     + spec_formatScore format
     + (if is_jpeg format && JS.truthy_str (chromaSubsampling book)
        then spec_chromaTable (chromaSubsampling book) else 8)
     + 1) / 2.
Proof.
  cbv zeta. unfold getCoverQualityScore.
  rewrite Math_round_half, isJpeg_is_jpeg. unfold JS.floor_sqrt_div.
  f_equal. f_equal. f_equal; [f_equal|].
  - destruct (coverFormat book) as [f|]; [|reflexivity]. simpl.
    destruct (JS.toLowerCase f) as [|c key] eqn:Hkey; [reflexivity|].
    apply formatScores_lookup.
  - destruct (is_jpeg _); [|reflexivity]. simpl.
    destruct (chromaSubsampling book) as [[|c chroma]|]; try reflexivity.
    apply chromaScores_lookup.
Qed.

Lemma spec_formatScore_range (format : option string) :
  0 ≤ spec_formatScore format ≤ 9.
Proof.
  unfold spec_formatScore. destruct format as [f|]; [|lia].
  repeat match goal with
         | |- context [if ?c then _ else _] => destruct c
         end; lia.
Qed.

Lemma spec_chromaTable_range (chroma : option string) :
  4 ≤ spec_chromaTable chroma ≤ 8.
Proof.
  unfold spec_chromaTable. destruct chroma as [c|]; [|lia].
  repeat match goal with
         | |- context [if ?c then _ else _] => destruct c
         end; lia.
Qed.

(** Format and chroma together give between 8 and 17 points. *)
Lemma format_chroma_range (format chroma : option string) :
  8 ≤ spec_formatScore (JS.toLowerCase <$> format)
      + (if is_jpeg (JS.toLowerCase <$> format) && JS.truthy_str chroma
         then spec_chromaTable chroma else 8)
    ≤ 17.
Proof.
  pose proof (spec_formatScore_range (JS.toLowerCase <$> format)).
  pose proof (spec_chromaTable_range chroma).
  destruct (is_jpeg _ && _) eqn:Hj; [|lia].
  apply andb_prop in Hj as [Hj _]. unfold is_jpeg, spec_formatScore in *.
  destruct (JS.toLowerCase <$> format) as [f|]; [|done].
  destruct (String.eqb f "png"); [lia|]. rewrite Hj. lia.
Qed.

(** X5.  Between two covers of the same
    format and chroma subsampling, the one that is at least as wide and
    at least as high never scores lower. *)
Theorem getCoverQualityScore_monotone (small large : Book) (w1 h1 w2 h2 : Z) :
  coverFormat small = coverFormat large →
  chromaSubsampling small = chromaSubsampling large →
  coverWidth small = Some w1 → coverHeight small = Some h1 →
  coverWidth large = Some w2 → coverHeight large = Some h2 →
  0 ≤ w1 ≤ w2 → 0 ≤ h1 ≤ h2 →
  getCoverQualityScore small ≤ getCoverQualityScore large.
Proof.
  intros Hf Hc Hw1 Hh1 Hw2 Hh2 Hw Hh.
  rewrite !getCoverQualityScore_sum. cbv zeta.
  rewrite Hf, Hc, Hw1, Hh1, Hw2, Hh2.
  assert (Hnum : ∀ x, 0 ≤ x → JS.num_or (Some x) 0 = x).
  { intros x Hx. unfold JS.num_or. by destruct (Z.eqb_spec x 0). }
  rewrite !Hnum by lia.
  apply Z.div_le_mono; [lia|].
  assert (Z.sqrt (w1 * h1) / 20 ≤ Z.sqrt (w2 * h2) / 20); [|lia].
  apply Z.div_le_mono; [lia|]. apply Z.sqrt_le_mono. nia.
Qed.

(** X6.  At equal pixel size no cover scores
    higher than a PNG and none lower than 4; a JPEG with 4:2:0 chroma
    subsampling scores no higher than a WebP, and a JPEG without chroma
    information scores as one with 4:4:4. *)
Theorem getCoverQualityScore_formats (a b : Book) :
  JS.num_or (coverWidth a) 0 = JS.num_or (coverWidth b) 0 →
  JS.num_or (coverHeight a) 0 = JS.num_or (coverHeight b) 0 →
  0 ≤ JS.num_or (coverWidth a) 0 * JS.num_or (coverHeight a) 0 →
  4 ≤ getCoverQualityScore a
  ∧ (coverFormat b = Some "png" →
     getCoverQualityScore a ≤ getCoverQualityScore b)
  ∧ (coverFormat a = Some "jpeg" → chromaSubsampling a = Some "4:2:0" →
     coverFormat b = Some "webp" →
     getCoverQualityScore a ≤ getCoverQualityScore b)
  ∧ (coverFormat a = Some "jpeg" → chromaSubsampling a = None →
     coverFormat b = Some "jpeg" → chromaSubsampling b = Some "4:4:4" →
     getCoverQualityScore a = getCoverQualityScore b).
Proof.
  intros Hw Hh Hpos. rewrite !getCoverQualityScore_sum. cbv zeta.
  rewrite <- Hw, <- Hh.
  set (res := Z.sqrt _ / 20).
  assert (Hres : 0 ≤ res).
  { apply Z.div_pos; [apply Z.sqrt_nonneg|lia]. }
  pose proof (format_chroma_range (coverFormat a) (chromaSubsampling a))
    as Ha.
  split_and!.
  - apply Z.div_le_lower_bound; lia.
  - intros ->. apply Z.div_le_mono; [lia|].
    change (spec_formatScore (JS.toLowerCase <$> Some "png")) with 9.
    change (is_jpeg (JS.toLowerCase <$> Some "png")) with false.
    cbn [andb]. lia.
  - intros -> -> ->. apply Z.div_le_mono; [lia|].
    assert (spec_formatScore (JS.toLowerCase <$> Some "jpeg")
            + (if is_jpeg (JS.toLowerCase <$> Some "jpeg")
                  && JS.truthy_str (Some "4:2:0")
               then spec_chromaTable (Some "4:2:0") else 8) = 10)
      by reflexivity.
    assert (spec_formatScore (JS.toLowerCase <$> Some "webp")
            + (if is_jpeg (JS.toLowerCase <$> Some "webp")
                  && JS.truthy_str (chromaSubsampling b)
               then spec_chromaTable (chromaSubsampling b) else 8) = 11)
      by reflexivity.
    lia.
  - intros -> -> -> ->. reflexivity.
Qed.
End ScoreOrder.

Section CropBounds.
Import Cover Crop.

Variable getUrl : string → WsrvOptions → string.
Variable cropFormatSetting : string.
Variable cropQualitySetting : Z.

#[local] Abbreviation crop' :=
  (cropCover getUrl cropFormatSetting cropQualitySetting).

Arguments getCoverQualityScore : simpl never.

(** Every row of the crop table takes less than a sixth of the width. *)
Lemma calculateCropAmount_sixth (w h a : Z) :
  calculateCropAmount w h = Some a → 0 < h ∧ 0 < 6 * Z.abs a < w.
Proof.
  unfold calculateCropAmount.
  destruct ((880 <=? w) && (w <=? 964) && (h =? 1200)) eqn:H1.
  { intros [= <-]. apply andb_prop in H1 as [[?%Z.leb_le ?%Z.leb_le]%andb_prop
                                               ?%Z.eqb_eq]. lia. }
  destruct ((220 <=? w) && (w <=? 241) && (h =? 300)) eqn:H2.
  { intros [= <-]. apply andb_prop in H2 as [[?%Z.leb_le ?%Z.leb_le]%andb_prop
                                               ?%Z.eqb_eq]. lia. }
  destruct (4000 <? h) eqn:H3; cbn [andb].
  - apply Z.ltb_lt in H3.
    rewrite <- !andb_assoc, !(aspect_band w h) by lia.
    destruct (aspect_in_band w h) eqn:Hband.
    + apply aspect_in_band_iff in Hband; [|lia]. intros [= <-]. lia.
    + rewrite !andb_false_r. done.
  - destruct (2000 <? h) eqn:H4.
    + apply Z.ltb_lt in H4.
      rewrite <- !andb_assoc, !(aspect_band w h) by lia.
      destruct (aspect_in_band w h) eqn:Hband.
      * apply aspect_in_band_iff in Hband; [|lia].
        destruct (2000 <? w) eqn:H5; cbn [andb].
        -- apply Z.ltb_lt in H5. intros [= <-]. lia.
        -- destruct (w <? 2000) eqn:H6; cbn [andb]; [|done].
           intros [= <-]. lia.
      * rewrite !andb_false_r. done.
    + rewrite !andb_false_r. cbn [andb]. done.
Qed.

(** The crop of the thumbnail, scaled from the crop of the cover. *)
Lemma thumbnail_amount_range (w a : Z) :
  0 < 6 * Z.abs a < w →
  0 ≤ JS.Math_round
        (inject_Z (Z.abs a) * (inject_Z THUMBNAIL_width / inject_Z w))
    ≤ 56.
Proof.
  intros Ha. unfold JS.Math_round, THUMBNAIL_width.
  destruct w as [|p|p]; try lia.
  set (q := (inject_Z (Z.abs a) * (inject_Z 336 / inject_Z (Z.pos p))
             + (1 # 2))%Q).
  assert (Hlow : (inject_Z 0 <= q)%Q).
  { unfold q, Qle, Qdiv, Qmult, Qinv, Qplus, inject_Z. simpl. nia. }
  assert (Hhigh : (q <= 113 # 2)%Q).
  { unfold q, Qle, Qdiv, Qmult, Qinv, Qplus, inject_Z. simpl. nia. }
  apply Qfloor_resp_le in Hlow, Hhigh. rewrite Qfloor_Z in Hlow.
  change (Qfloor (113 # 2)) with 56 in Hhigh. lia.
Qed.

(** The thumbnail amount is the cover amount times [336 / width],
    rounded to the nearest integer (a half goes up): in integers,
    [t <= |a| * 336 / w + 1/2 < t + 1]. *)
Lemma thumbnail_amount_scaled (w a : Z) :
  0 < w →
  let t := JS.Math_round
             (inject_Z (Z.abs a) * (inject_Z THUMBNAIL_width / inject_Z w)) in
  2 * w * t ≤ 2 * THUMBNAIL_width * Z.abs a + w < 2 * w * (t + 1).
Proof.
  intros Hw t. unfold JS.Math_round, THUMBNAIL_width in *.
  destruct w as [|p|p]; try lia.
  set (q := (inject_Z (Z.abs a) * (inject_Z 336 / inject_Z (Z.pos p))
             + (1 # 2))%Q) in *.
  pose proof (Qfloor_le q) as Hlow. pose proof (Qlt_floor q) as Hhigh.
  fold t in Hlow, Hhigh.
  assert (Hq : (q == (2 * 336 * Z.abs a + Z.pos p) # (2 * p))%Q).
  { unfold q, Qeq, Qdiv, Qmult, Qinv, Qplus, inject_Z. simpl. nia. }
  rewrite Hq in Hlow, Hhigh.
  unfold Qle, Qlt, inject_Z in *. cbn [Qnum Qden] in *.
  rewrite ?Pos2Z.inj_mul in *. nia.
Qed.

(** What [cropCover] does, by [coverShouldBeCropped]. *)
Lemma cropCover_decision (b : Book) :
  (coverShouldBeCropped b = false → crop' b = b)
  ∧ (coverShouldBeCropped b = true →
     ∃ w h a,
       coverWidth b = Some w ∧ coverHeight b = Some h
       ∧ calculateCropAmount w h = Some a
       ∧ crop' b
         = applyCrop getUrl cropFormatSetting cropQualitySetting b w h a).
Proof.
  split.
  - intros Hshould. unfold cropCover, coverShouldBeCropped in *.
    destruct (JS.truthy_bool (coverIsCropped b)); [done|].
    destruct (coverHeight b) as [h|], (coverWidth b) as [w|]; try done.
    destruct (Z.eqb_spec h 0), (Z.eqb_spec w 0); cbn in *; try done.
    destruct (calculateCropAmount w h) as [a|] eqn:Ha; [|done].
    rewrite bool_decide_eq_true_2 in Hshould by done. done.
  - intros Hshould.
    destruct (coverShouldBeCropped_inv b Hshould)
      as (w & h & a & Hw & Hh & Hw0 & Hh0 & Ha & Ha0 & Hflag).
    exists w, h, a. split_and!; try done.
    unfold cropCover. by rewrite Hflag, Hh, Hw, Hh0, Hw0, Ha, Ha0.
Qed.

(** X7.  When a crop applies to a book, it takes a
    positive amount of less than a sixth of the cover width: the new
    width is positive and smaller than the old one, which goes to the
    backup, and the height stays.  The image proxy gets exactly one of
    [cw] (the new width, for a positive amount) and [cx] (the offset,
    for a negative amount), for the cover and for the thumbnail; the
    thumbnail amount is the cover amount times [336 / width] rounded to
    the nearest integer (a half goes up), which is at most 56 pixels. *)
Theorem cropCover_narrows (b : Book) :
  coverShouldBeCropped b = true →
  ∃ w h a options thumbnailOptions thumbnailAmount,
    coverWidth b = Some w ∧ coverHeight b = Some h
    ∧ calculateCropAmount w h = Some a
    ∧ 0 < 6 * Z.abs a < w
    ∧ coverWidth (crop' b) = Some (w - Z.abs a)
    ∧ originalWidth (crop' b) = Some w
    ∧ coverHeight (crop' b) = Some h
    ∧ cover (crop' b) = getUrl (cover b) options
    ∧ thumbnail (crop' b) = getUrl (cover b) thumbnailOptions
    ∧ 0 ≤ thumbnailAmount ≤ 56
    ∧ 2 * w * thumbnailAmount ≤ 2 * THUMBNAIL_width * Z.abs a + w
      < 2 * w * (thumbnailAmount + 1)
    ∧ (0 < a →
       wsrv_cw options = Some (w - a) ∧ wsrv_cx options = None
       ∧ wsrv_cw thumbnailOptions = Some (THUMBNAIL_width - thumbnailAmount)
       ∧ wsrv_cx thumbnailOptions = None)
    ∧ (a < 0 →
       wsrv_cw options = None ∧ wsrv_cx options = Some (- a)
       ∧ wsrv_cw thumbnailOptions = None
       ∧ wsrv_cx thumbnailOptions = Some thumbnailAmount).
Proof.
  intros Hshould.
  destruct (coverShouldBeCropped_inv b Hshould)
    as (w & h & a & Hw & Hh & Hw0 & Hh0 & Ha & Ha0 & Hflag).
  destruct (calculateCropAmount_sixth w h a Ha) as [Hhpos Hsixth].
  pose proof (thumbnail_amount_range w a Hsixth) as Hthumb.
  assert (Hcrop : crop' b
                  = applyCrop getUrl cropFormatSetting cropQualitySetting
                      b w h a).
  { unfold cropCover. rewrite Hflag, Hh, Hw, Hh0, Hw0, Ha, Ha0. done. }
  rewrite Hcrop. unfold applyCrop. cbn [coverWidth originalWidth coverHeight
                                         cover thumbnail].
  eexists w, h, a, _, _,
    (JS.Math_round
       (inject_Z (Z.abs a) * (inject_Z THUMBNAIL_width / inject_Z w))).
  split_and!; try done; try reflexivity; try lia.
  - apply (thumbnail_amount_scaled w a). lia.
  - apply (thumbnail_amount_scaled w a). lia.
  - intros Hpos. cbn [wsrv_cw wsrv_cx].
    destruct (Z.ltb_spec 0 a); [|lia]. destruct (Z.ltb_spec a 0); [lia|].
    split_and!; try done. f_equal. lia.
  - intros Hneg. cbn [wsrv_cw wsrv_cx].
    destruct (Z.ltb_spec 0 a); [lia|]. destruct (Z.ltb_spec a 0); [|lia].
    split_and!; try done. f_equal. lia.
Qed.

(** X8.  [toggleCropCovers(books, true)] crops
    exactly the books for which [coverShouldBeCropped] holds and leaves
    the others untouched; afterwards no book of the array should be
    cropped any more, and whether a book can be cropped is as before.
    [toggleCropCovers(books, false)] leaves every book marked as not
    cropped. *)
Theorem toggleCropCovers_all (books : list Book) :
  let cropped :=
    toggleCropCovers getUrl cropFormatSetting cropQualitySetting books true in
  let restored :=
    toggleCropCovers getUrl cropFormatSetting cropQualitySetting books false in
  length cropped = length books
  ∧ (∀ i b, books !! i = Some b →
       ∃ c, cropped !! i = Some c
            ∧ (coverShouldBeCropped b = false → c = b)
            ∧ (coverShouldBeCropped b = true →
               coverIsCropped c = Some true ∧ originalCover c = Some (cover b))
            ∧ coverShouldBeCropped c = false
            ∧ coverCanBeCropped c = coverCanBeCropped b)
  ∧ (∀ r, r ∈ restored →
          coverIsCropped r = Some false ∧ coverShouldBeCropped r
                                          = coverCanBeCropped r).
Proof.
  cbv zeta. unfold toggleCropCovers. split; [by rewrite length_fmap|]. split.
  - intros i b Hb. rewrite list_lookup_fmap, Hb. cbn [fmap option_fmap option_map].
    eexists. split; [done|]. cbn [toggleCropCover].
    destruct (coverShouldBeCropped b) eqn:Hshould.
    + destruct (coverShouldBeCropped_inv b Hshould)
        as (w & h & a & Hw & Hh & Hw0 & Hh0 & Ha & Ha0 & Hflag).
      assert (Hcrop : crop' b
                      = applyCrop getUrl cropFormatSetting cropQualitySetting
                          b w h a).
      { unfold cropCover. rewrite Hflag, Hh, Hw, Hh0, Hw0, Ha, Ha0. done. }
      rewrite Hcrop. split; [done|]. split; [done|]. split.
      * unfold coverShouldBeCropped, applyCrop. cbn. rewrite Hh.
        by rewrite andb_false_r.
      * unfold coverCanBeCropped at 1. unfold applyCrop. cbn.
        unfold coverCanBeCropped. rewrite Hw, Hh, Hw0, Hh0, Ha.
        cbn. by rewrite orb_true_r.
    + assert (Hsame : crop' b = b).
      { unfold cropCover, coverShouldBeCropped in *.
        destruct (JS.truthy_bool (coverIsCropped b)); [done|].
        destruct (coverHeight b) as [h|], (coverWidth b) as [w|]; try done.
        destruct (Z.eqb_spec h 0), (Z.eqb_spec w 0); cbn in *; try done.
        destruct (calculateCropAmount w h) as [a|] eqn:Ha; [|done].
        rewrite bool_decide_eq_true_2 in Hshould by done. done. }
      rewrite Hsame. by split_and!.
  - intros r (b & -> & Hb)%list_elem_of_fmap. cbn [toggleCropCover].
    unfold uncropCover, coverShouldBeCropped, coverCanBeCropped. cbn.
    split; [done|].
    destruct (match originalWidth b with Some w => Some w | None => coverWidth b end),
      (coverHeight b); try done. by rewrite andb_true_r.
Qed.
End CropBounds.

(** ** Picking twice *)

Section PickAgain.
Import Picker.
Variable providers : list Provider.
Variable selectedBookPage : Z.

#[local] Abbreviation cmp := (compare providers selectedBookPage).
#[local] Abbreviation keep := (booksToKeep providers selectedBookPage).
#[local] Abbreviation pick :=
  (automaticallyPickCovers providers selectedBookPage).

Lemma pick_NoDup (books : list BookObj) :
  NoDup (addr <$> books) → NoDup (addr <$> pick books).
Proof.
  intros Hnd. eapply sublist_NoDup; [exact Hnd|].
  apply fmap_sublist, sublist_filter.
Qed.

(** The pick holds one book of each volume name: the leader of the
    group. *)
Lemma group_of_pick (books : list BookObj) (w : BookObj) :
  NoDup (addr <$> books) → w ∈ books →
  leader cmp (group_of (volumeName (obj w)) books) = Some w →
  group_of (volumeName (obj w)) (pick books) = [w].
Proof.
  intros Hnd Hw Hlead. unfold group_of, automaticallyPickCovers.
  rewrite list_filter_filter, <- (filter_addr books w Hnd Hw).
  apply filter_ext_elem. intros b Hb. split.
  - intros [Hvb Hkeep].
    apply (kept_iff_leader providers selectedBookPage) in Hkeep;
      [|done|done].
    rewrite Hvb, Hlead in Hkeep. by injection Hkeep as ->.
  - intros Heq. assert (b = w) as -> by (eapply addr_inj; eauto).
    split; [done|]. by apply kept_iff_leader.
Qed.

Lemma filter_all {A} (P : A → Prop) `{!∀ x, Decision (P x)} (l : list A) :
  (∀ x, x ∈ l → P x) → filter P l = l.
Proof.
  induction l as [|x l IH]; intros Hall; [done|].
  rewrite filter_cons, decide_True by (apply Hall; left).
  f_equal. apply IH. intros y Hy. apply Hall. by right.
Qed.

(** X9.  Picking again changes
    nothing: on an array of distinct book objects,
    [automaticallyPickCovers] applied to its own result returns that
    result, every book of it being alone under its volume name. *)
Theorem automaticallyPickCovers_idempotent (books : list BookObj) :
  NoDup (addr <$> books) →
  pick (pick books) = pick books
  ∧ ∀ b, b ∈ pick books →
         group_of (volumeName (obj b)) (pick books) = [b].
Proof.
  intros Hnd.
  assert (Halone : ∀ b, b ∈ pick books →
            group_of (volumeName (obj b)) (pick books) = [b]).
  { intros b [Hkeep Hb]%list_elem_of_filter.
    apply group_of_pick; [done|done|]. by apply kept_iff_leader. }
  split; [|exact Halone].
  unfold automaticallyPickCovers at 1. apply filter_all. intros b Hb.
  apply kept_iff_leader; [by apply pick_NoDup|done|].
  by rewrite (Halone b Hb).
Qed.

End PickAgain.

(** ** The volume number is a numeral *)

Section NumeralShape.
Import Regex Title Numeral.

Lemma getVolumeNumber_first_number title :
  getVolumeNumber title
  = strip_zeros <$> (selected (normalize title) ≫= first_number).
Proof.
  unfold getVolumeNumber. cbv zeta.
  rewrite exec_without_leading_zeros. f_equal. apply selected_text.
Qed.

Lemma dotted_digits_span s rest :
  dotted_digits true ((span is_digit s).1 +:+ rest) = dotted_digits true rest
  ∨ (span is_digit s).1 = "".
Proof.
  induction s as [|c s IH]; [by right|]. cbn [span].
  destruct (is_digit c) eqn:Hc; [|by right]. left. cbn [fst].
  change (String c ?a +:+ rest) with (String c (a +:+ rest)).
  cbn [dotted_digits]. rewrite Hc.
  destruct IH as [IH|Hempty]; [done|]. by rewrite Hempty.
Qed.

Lemma dotted_digits_run s rest :
  dotted_digits true ((span is_digit s).1 +:+ rest) = dotted_digits true rest.
Proof.
  destruct (dotted_digits_span s rest) as [H|H]; [done|]. by rewrite H.
Qed.

Lemma dotted_digits_dotted fuel s :
  dotted_digits true (dotted fuel s).1 = true.
Proof.
  revert s. induction fuel as [|fuel IH]; intros s; [done|].
  destruct s as [|c rest]; [done|]. cbn [dotted].
  destruct (Ascii.eqb_spec "." c) as [<-|]; [|done].
  pose proof (span_head is_digit rest) as Hhead.
  pose proof (dotted_digits_run rest) as Hrun.
  destruct (span is_digit rest) as [[|d digits] r]; [done|].
  cbn [fst snd] in *.
  change (String "." (String d digits) +:+ ?a)
    with (String "." (String d digits +:+ a)).
  cbn [dotted_digits]. cbn [is_digit]. 
  change (dotted_digits false (String d digits +:+ (dotted fuel r).1) = true).
  change (String d digits +:+ ?a) with (String d (digits +:+ a)).
  cbn [dotted_digits]. rewrite (Hhead d digits eq_refl).
  change (String d (digits +:+ ?a)) with (String d digits +:+ a) in Hrun.
  specialize (Hrun (dotted fuel r).1).
  change (String d digits +:+ ?a) with (String d (digits +:+ a)) in Hrun.
  cbn [dotted_digits] in Hrun. rewrite (Hhead d digits eq_refl) in Hrun.
  rewrite Hrun. apply IH.
Qed.

(** What the scanner reads is a numeral. *)
Lemma scan_number_numeral s n r :
  scan_number s = Some (n, r) → is_numeral n = true.
Proof.
  unfold scan_number, is_numeral.
  pose proof (span_head is_digit s) as Hhead.
  pose proof (dotted_digits_run s) as Hrun.
  destruct (span is_digit s) as [[|d digits] r0]; [done|].
  cbn [fst snd] in *. intros [= <- _].
  specialize (Hrun (dotted (String.length r0) r0).1).
  change (String d digits +:+ ?a) with (String d (digits +:+ a)) in *.
  cbn [dotted_digits] in *. rewrite (Hhead d digits eq_refl) in *.
  rewrite Hrun. apply dotted_digits_dotted.
Qed.

Lemma strip_zeros_numeral n :
  is_numeral n = true →
  is_numeral (strip_zeros n) = true ∧ no_leading_zero (strip_zeros n) = true.
Proof.
  unfold is_numeral. induction n as [|c rest IH]; [done|].
  intros Hn. cbn [strip_zeros].
  destruct (Ascii.eqb "0" c) eqn:Hzero.
  - destruct rest as [|d rest']; [done|].
    destruct (is_digit d) eqn:Hd.
    + apply IH. cbn [dotted_digits] in Hn |- *.
      rewrite (zero_is_digit c Hzero), Hd in Hn. by rewrite Hd.
    + split; [done|]. cbn [no_leading_zero]. by rewrite Hd, andb_false_r.
  - split; [done|]. destruct rest as [|d rest']; [done|].
    cbn [no_leading_zero]. by rewrite Hzero.
Qed.

Lemma first_number_scan s n :
  first_number s = Some n → ∃ s' r, scan_number s' = Some (n, r).
Proof.
  induction s as [|c rest IH]; cbn [first_number].
  - destruct (scan_number "") as [[n0 r]|] eqn:Hscan; [|done].
    intros [= <-]. eauto.
  - destruct (scan_number (String c rest)) as [[n0 r]|] eqn:Hscan;
      [|exact IH].
    intros [= <-]. eauto.
Qed.

(** The first number of a text, without its leading zeros, is a
    numeral. *)
Lemma first_number_numeral (s n : string) :
  first_number s = Some n →
  is_numeral (strip_zeros n) = true
  ∧ no_leading_zero (strip_zeros n) = true ∧ strip_zeros n ≠ "".
Proof.
  intros Hfirst. pose proof (first_number_nonempty _ _ Hfirst) as Hne.
  apply first_number_scan in Hfirst as (s' & r & Hscan).
  apply scan_number_numeral in Hscan.
  destruct (strip_zeros_numeral n Hscan) as [Hnum Hzero].
  split; [done|]. split; [done|]. by apply strip_zeros_nonempty.
Qed.

(** X10.  Whenever [getVolumeNumber] returns a
    string, it is a decimal numeral: ASCII digits, in groups separated
    by single dots, beginning and ending with a digit, and without a
    zero in front of another digit of its integer part. *)
Theorem getVolumeNumber_numeral (title n : string) :
  getVolumeNumber title = Some n →
  is_numeral n = true ∧ no_leading_zero n = true ∧ n ≠ "".
Proof.
  rewrite getVolumeNumber_first_number.
  destruct (selected (normalize title) ≫= first_number) as [n0|] eqn:Hsel;
    [|done].
  intros [= <-]. apply bind_Some in Hsel as (text & _ & Hfirst).
  by eapply first_number_numeral.
Qed.
End NumeralShape.

(** ** Which titles have a volume number *)

Section Digits.
Import Regex Title Numeral.

Lemma has_digit_append p q :
  has_digit (p +:+ q) = has_digit p || has_digit q.
Proof.
  induction p as [|c p IH]; [done|].
  change (String c p +:+ q) with (String c (p +:+ q)).
  cbn [has_digit]. by rewrite IH, orb_assoc.
Qed.

Lemma plus_loop_digit {R} r :
  (∀ s cap (k : string → option string → option R) x,
     rmatch r s cap k = Some x →
     ∃ p s' cap',
       s = p +:+ s' ∧ k s' cap' = Some x
       ∧ (needs_digit r → has_digit p = true)) →
  ∀ fuel s cap (k : string → option string → option R) x,
    plus_loop (rmatch r) k fuel s cap = Some x →
    ∃ p s' cap',
      s = p +:+ s' ∧ k s' cap' = Some x
      ∧ (needs_digit r → has_digit p = true).
Proof.
  intros Hr. induction fuel as [|fuel IH]; intros s cap k x Hx.
  - apply Hr in Hx as (p & s' & cap' & -> & Hk & Hp). eauto 6.
  - cbn [plus_loop] in Hx.
    apply Hr in Hx as (p & s1 & cap1 & -> & Hk & Hp).
    destruct (String.length s1 <? String.length (p +:+ s1))%nat; [|eauto 6].
    destruct (plus_loop (rmatch r) k fuel s1 cap1) as [y|] eqn:Hy;
      [|eauto 6].
    injection Hk as ->.
    apply IH in Hy as (p2 & s2 & cap2 & -> & Hk2 & Hp2).
    exists (p +:+ p2), s2, cap2. rewrite append_assoc_string.
    split_and!; [done|done|]. intros Hd.
    by rewrite has_digit_append, (Hp Hd).
Qed.

Lemma rmatch_digit {R} r s cap (k : string → option string → option R) x :
  rmatch r s cap k = Some x →
  ∃ p s' cap',
    s = p +:+ s' ∧ k s' cap' = Some x
    ∧ (needs_digit r → has_digit p = true).
Proof.
  revert s cap k x.
  induction r as [|t|r1 IH1 r2 IH2|r1 IH1 r2 IH2|r1 IH1|r1 IH1|r1 IH1];
    intros s cap k x Hx; cbn [rmatch needs_digit] in *.
  - exists "", s, cap. split_and!; done.
  - destruct s as [|c rest]; [done|]. destruct (t c) eqn:Hc; [|done].
    exists (String c ""), rest, cap. split_and!; [done|done|].
    intros Ht. cbn. by rewrite (Ht c Hc).
  - apply IH1 in Hx as (p1 & s1 & cap1 & -> & Hx & Hp1).
    apply IH2 in Hx as (p2 & s2 & cap2 & -> & Hx & Hp2).
    exists (p1 +:+ p2), s2, cap2. rewrite append_assoc_string.
    split_and!; [done|done|]. rewrite has_digit_append.
    intros [Hd|Hd]; [by rewrite (Hp1 Hd)|by rewrite (Hp2 Hd), orb_true_r].
  - destruct (rmatch r1 s cap k) as [y|] eqn:Hy.
    + injection Hx as ->. apply IH1 in Hy as (p & s' & cap' & -> & Hk & Hp).
      exists p, s', cap'. split_and!; [done|done|]. intros [Hd _]. auto.
    + apply IH2 in Hx as (p & s' & cap' & -> & Hk & Hp).
      exists p, s', cap'. split_and!; [done|done|]. intros [_ Hd]. auto.
  - by apply (plus_loop_digit r1 IH1) in Hx.
  - destruct (rmatch r1 s cap k) as [y|] eqn:Hy.
    + injection Hx as ->. apply IH1 in Hy as (p & s' & cap' & -> & Hk & _).
      exists p, s', cap'. split_and!; done.
    + exists "", s, cap. split_and!; done.
  - apply IH1 in Hx as (p & s' & cap' & -> & Hk & Hp). eauto 6.
Qed.

Lemma match_here_digit r s i m :
  needs_digit r → match_here r s i = Some m →
  has_digit s = true ∧ has_digit (found_text m) = true.
Proof.
  intros Hr Hhere. unfold match_here in Hhere.
  apply rmatch_digit in Hhere as (p & s' & cap' & -> & [= <-] & Hp).
  cbn [found_text].
  by rewrite substring_prefix, has_digit_append, (Hp Hr).
Qed.

Lemma search_digit r s i m :
  needs_digit r → search r s i = Some m →
  has_digit s = true ∧ has_digit (found_text m) = true.
Proof.
  intros Hr. revert i. induction s as [|c rest IH]; intros i; cbn [search].
  - destruct (match_here r "" i) as [m'|] eqn:Hhere; [|done]. intros [= ->].
    by eapply match_here_digit.
  - destruct (match_here r (String c rest) i) as [m'|] eqn:Hhere.
    + intros [= ->]. by eapply match_here_digit.
    + intros Hrest. destruct (IH _ Hrest) as [Hd Htext].
      split; [|done]. cbn [has_digit]. by rewrite Hd, orb_true_r.
Qed.

Lemma matches_from_digit r fuel s text :
  needs_digit r → text ∈ matches_from fuel r s → has_digit text = true.
Proof.
  intros Hr. revert s. induction fuel as [|fuel IH]; intros s;
    cbn [matches_from]; [by intros ?%elem_of_nil|].
  destruct (search r s 0) as [m|] eqn:Hsearch; [|by intros ?%elem_of_nil].
  intros [->|Hin]%elem_of_cons; [by eapply search_digit|].
  destruct (String.length (found_text m) =? 0)%nat; [|by eapply IH].
  destruct (found_rest m); [by apply elem_of_nil in Hin|by eapply IH].
Qed.

Lemma last_matches_digit r s text :
  needs_digit r → last (matches r s) = Some text →
  has_digit s = true ∧ has_digit text = true.
Proof.
  intros Hr Hlast. split.
  - destruct (search r s 0) as [m|] eqn:Hsearch;
      [by eapply search_digit|].
    unfold matches in Hlast. cbn [matches_from] in Hlast.
    by rewrite Hsearch in Hlast.
  - eapply matches_from_digit; [done|].
    eapply list_elem_of_lookup_2. rewrite <- last_lookup. apply Hlast.
Qed.

Lemma first_number_digit s : has_digit s = true → is_Some (first_number s).
Proof.
  induction s as [|c rest IH]; [done|]. cbn [has_digit first_number].
  destruct (is_digit c) eqn:Hc.
  - intros _. rewrite scan_number_cons by done.
    by destruct (scan_number rest) as [[n r]|].
  - rewrite scan_number_None by done. exact IH.
Qed.

Lemma scan_number_digit s n r :
  scan_number s = Some (n, r) → has_digit n = true.
Proof.
  intros Hscan. pose proof (scan_number_nonempty _ _ _ Hscan) as Hne.
  destruct n as [|c n]; [done|].
  apply scan_number_head in Hscan. cbn. by rewrite Hscan.
Qed.

Lemma search_explicit_marker_digit s i m :
  search explicit_marker s i = Some m →
  ∃ n, found_group m = Some n ∧ has_digit n = true.
Proof.
  intros (s0 & j & Hhere)%search_inv.
  unfold match_here, explicit_marker in Hhere. rewrite rmatch_Seq in Hhere.
  apply rmatch_consumes in Hhere as (p & s' & cap' & -> & Hgroup & _).
  rewrite rmatch_group_number in Hgroup by eauto.
  destruct (scan_number s') as [[n r]|] eqn:Hscan; [|done].
  injection Hgroup as <-. exists n. split; [done|].
  by eapply scan_number_digit.
Qed.

Lemma needs_digit_number : needs_digit number.
Proof. left. by intros c. Qed.

Lemma selected_digit s text :
  selected s = Some text → has_digit s = true ∧ has_digit text = true.
Proof.
  unfold selected.
  destruct (search explicit_marker s 0) as [m|] eqn:Hmarker.
  { intros Hgroup. split.
    - eapply (search_digit explicit_marker); [|exact Hmarker].
      right. apply needs_digit_number.
    - destruct (search_explicit_marker_digit _ _ _ Hmarker)
        as (n & Hn & Hd). congruence. }
  destruct (last (matches parenthesized s)) as [t1|] eqn:H1.
  { intros [= <-]. eapply last_matches_digit; [|exact H1].
    right. left. apply needs_digit_number. }
  destruct (last (matches space_delimited s)) as [t2|] eqn:H2.
  { intros [= <-]. eapply last_matches_digit; [|exact H2].
    right. left. apply needs_digit_number. }
  intros Hlast. eapply last_matches_digit; [|exact Hlast].
  apply needs_digit_number.
Qed.

Lemma selected_Some s : has_digit s = true → is_Some (selected s).
Proof.
  intros Hd. unfold selected.
  destruct (search explicit_marker s 0) as [m|] eqn:Hmarker.
  { destruct (search_explicit_marker_digit _ _ _ Hmarker) as (n & -> & _).
    done. }
  destruct (last (matches parenthesized s)); [done|].
  destruct (last (matches space_delimited s)); [done|].
  destruct (last (matches any_number s)) as [text|] eqn:Hlast; [done|].
  apply last_None, matches_nil_search, search_any_number_None in Hlast.
  destruct (first_number_digit s Hd) as [n Hn]. congruence.
Qed.

(** X11.  [getVolumeNumber] returns a number
    exactly when the title, once its punctuation and its full-width
    digits are normalized, holds a digit; it returns [undefined] for
    every other title. *)
Theorem getVolumeNumber_digit (title : string) :
  is_Some (getVolumeNumber title) ↔ has_digit (normalize title) = true.
Proof.
  rewrite getVolumeNumber_first_number. split.
  - intros [n Hn]. apply fmap_Some in Hn as (n0 & Hsel & _).
    apply bind_Some in Hsel as (text & Hsel & _).
    by apply selected_digit in Hsel as [Hd _].
  - intros Hd. destruct (selected_Some _ Hd) as [text Hsel].
    destruct (selected_digit _ _ Hsel) as [_ Htext].
    destruct (first_number_digit _ Htext) as [n Hn].
    rewrite Hsel. cbn [mbind option_bind]. by rewrite Hn.
Qed.
End Digits.

(** ** The downloader across its operations *)


Section Frames.
Import Orchestrator.

Variable getSeries :
  list Request → list (string * list string) → option (BBCResult BBCSeries).
Variable getBooks :
  list Request → list (string * list string) → list (string * list string)
  → BBCSort → Z → BBCResult BBCBook.
Variable getBookPages :
  list Request → string → list string → option (BBCResult BBCBookPage).
Variable getInfo : list Request → string → option ImageInfo.
Variable getUrl : string → WsrvOptions → string.
Variable replaceTextVariables : string → list (string * string) → string.
Variable getLocaleName : string → string.
Variable bookDisplayTextSetting : string.
Variable automaticCropSetting : bool.
Variable cropFormatSetting : string.
Variable cropQualitySetting : Z.
Variable allProviders : list Provider.
Variable getAllSvelteSearchParams : string → list string.

#[local] Abbreviation fetch_provider2 :=
  (fetch_provider getBookPages getUrl replaceTextVariables getLocaleName
     bookDisplayTextSetting).
#[local] Abbreviation fetchBooks2 :=
  (fetchBooks getBooks getBookPages getInfo getUrl replaceTextVariables
     getLocaleName bookDisplayTextSetting automaticCropSetting
     cropFormatSetting cropQualitySetting).
#[local] Abbreviation fetch_page2 :=
  (fetch_page getBooks getBookPages getInfo getUrl replaceTextVariables
     getLocaleName bookDisplayTextSetting automaticCropSetting
     cropFormatSetting cropQualitySetting).
#[local] Abbreviation merge_response2 :=
  (merge_response getBookPages getInfo getUrl replaceTextVariables
     getLocaleName bookDisplayTextSetting automaticCropSetting
     cropFormatSetting cropQualitySetting).
#[local] Abbreviation perform2 :=
  (perform getSeries getBooks getBookPages getInfo getUrl
     replaceTextVariables getLocaleName bookDisplayTextSetting
     automaticCropSetting cropFormatSetting cropQualitySetting
     allProviders getAllSvelteSearchParams).
#[local] Abbreviation initialize2 :=
  (initialize getSeries getBooks getBookPages getInfo getUrl
     replaceTextVariables getLocaleName bookDisplayTextSetting
     automaticCropSetting cropFormatSetting cropQualitySetting
     allProviders getAllSvelteSearchParams).
#[local] Abbreviation resetAll2 :=
  (resetAll getBooks getBookPages getInfo getUrl replaceTextVariables
     getLocaleName bookDisplayTextSetting automaticCropSetting
     cropFormatSetting cropQualitySetting).
#[local] Abbreviation changePage2 :=
  (changePage getBooks getBookPages getInfo getUrl replaceTextVariables
     getLocaleName bookDisplayTextSetting automaticCropSetting
     cropFormatSetting cropQualitySetting).
#[local] Abbreviation incrementPage2 :=
  (incrementPage getBooks getBookPages getInfo getUrl replaceTextVariables
     getLocaleName bookDisplayTextSetting automaticCropSetting
     cropFormatSetting cropQualitySetting).
#[local] Abbreviation toggleSortOrder2 :=
  (toggleSortOrder getBooks getBookPages getInfo getUrl replaceTextVariables
     getLocaleName bookDisplayTextSetting automaticCropSetting
     cropFormatSetting cropQualitySetting).
#[local] Abbreviation fetchSeries2 := (fetchSeries getSeries).
#[local] Abbreviation register_provider2 :=
  (register_provider getAllSvelteSearchParams).

Import Frame.

Section View.
Context {X : Type} (view : State → X).

Lemma addAppErrors_quiet messages st :
  quiet view → view (addAppErrors messages st) = view st.
Proof.
  intros Hq. revert st. induction messages as [|m ms IH]; intros st; [done|].
  unfold addAppErrors in *. cbn [foldl]. rewrite IH. unfold addAppError.
  apply Hq.
Qed.

Lemma addAppError_quiet message st :
  quiet view → view (addAppError message st) = view st.
Proof. intros Hq. apply Hq. Qed.

Lemma send_quiet request st : quiet view → view (send request st) = view st.
Proof. intros Hq. apply Hq. Qed.

Ltac quieten Hq :=
  repeat first
    [ rewrite (addAppErrors_quiet _ _ Hq) | rewrite (addAppError_quiet _ _ Hq)
    | rewrite (send_quiet _ _ Hq)
    | rewrite (proj2 (proj2 (Hq _))) ].

Lemma fetch_provider_quiet response acc prov :
  quiet view → view (fetch_provider2 response acc prov).1 = view acc.1.
Proof.
  intros Hq. destruct acc as [st newBooks]. unfold fetch_provider.
  repeat case_match; cbn [fst]; quieten Hq; reflexivity.
Qed.

Lemma fetch_info_quiet acc book :
  quiet view → view (fetch_info getInfo acc book).1 = view acc.1.
Proof.
  intros Hq. destruct acc as [st done]. unfold fetch_info.
  repeat case_match; cbn [fst]; quieten Hq; reflexivity.
Qed.

Lemma foldl_view {A B} (f : State * B → A → State * B) (l : list A) acc :
  (∀ acc x, view (f acc x).1 = view acc.1) →
  view (foldl f acc l).1 = view acc.1.
Proof.
  intros Hf. revert acc. induction l as [|x l IH]; intros acc; [done|].
  cbn [foldl]. by rewrite IH, Hf.
Qed.

Lemma foldl_view_state {A} (f : State → A → State) (l : list A) st :
  (∀ st x, view (f st x) = view st) → view (foldl f st l) = view st.
Proof.
  intros Hf. revert st. induction l as [|x l IH]; intros st; [done|].
  cbn [foldl]. by rewrite IH, Hf.
Qed.

(** The two traffic loops of [merge_response], and what they leave. *)
Lemma merge_response_unfold response st :
  ∃ st1 books1 st2 books2,
    foldl (fetch_provider2 response) (st, []) (selectedProviders st)
    = (st1, books1)
    ∧ foldl (fetch_info getInfo) (st1, [])
        (if canChangeBookPage st1
         then select_page getUrl st1 <$> books1 else books1)
      = (st2, books2)
    ∧ merge_response2 response st
      = set_allBooks
          (allBooks st2
           ++ (if automaticCropSetting
               then Crop.toggleCropCovers getUrl cropFormatSetting
                      cropQualitySetting (List.filter has_valid_size books2)
                      true
               else List.filter has_valid_size books2))
          st2
    ∧ (quiet view → view st1 = view st ∧ view st2 = view st).
Proof.
  unfold merge_response.
  pose proof (foldl_view (fetch_provider2 response) (selectedProviders st)
                (st, [])) as H1.
  destruct (foldl _ (st, []) (selectedProviders st)) as [st1 books1].
  match goal with
  | |- context [foldl (fetch_info getInfo) (st1, []) ?l] =>
      pose proof (foldl_view (fetch_info getInfo) l (st1, [])) as H2;
      destruct (foldl (fetch_info getInfo) (st1, []) l) as [st2 books2] eqn:E2
  end.
  exists st1, books1, st2, books2. split; [done|]. split; [done|].
  split; [done|]. intros Hq. cbn [fst] in *.
  rewrite H2, H1; [done| |].
  - intros acc x. by apply fetch_provider_quiet.
  - intros acc x. by apply fetch_info_quiet.
Qed.

Lemma merge_response_quiet response st :
  quiet view → (∀ st v, view (set_allBooks v st) = view st) →
  view (merge_response2 response st) = view st.
Proof.
  intros Hq Hs.
  destruct (merge_response_unfold response st)
    as (st1 & books1 & st2 & books2 & _ & _ & -> & Hview).
  destruct (Hview Hq) as [_ <-]. apply Hs.
Qed.

Lemma merge_response_settled response st :
  settled view → view (merge_response2 response st) = view st.
Proof.
  intros [Hq Hs]. apply merge_response_quiet; [done|]. intros. apply Hs.
Qed.

Lemma fetch_page_settled st currentPage :
  settled view → view (fetch_page2 st currentPage) = view st.
Proof.
  intros Hs. pose proof Hs as [Hq Hs']. unfold fetch_page.
  case_match; rewrite ?(merge_response_settled _ _ Hs); quieten Hq;
    rewrite (proj1 (proj2 (proj2 (Hs' _)))); quieten Hq; apply Hs'.
Qed.

Lemma fetchBooks_settled st :
  settled view → view (fetchBooks2 st) = view st.
Proof.
  intros Hs. pose proof Hs as [Hq Hs']. unfold fetchBooks.
  destruct (isFetching st); [done|].
  destruct (_ && _).
  { by rewrite !(proj2 (proj2 (proj2 (Hs' _)))). }
  rewrite (proj2 (proj2 (proj2 (Hs' _)))).
  destruct (pagesToFetch _) as [pages|].
  - rewrite foldl_view_state by (intros; by apply fetch_page_settled).
    apply Hs'.
  - quieten Hq. apply Hs'.
Qed.

Lemma fetchSeries_view st :
  quiet view →
  (∀ st v, view (set_allSeries v st) = view st) →
  (∀ st v, view (set_isFetching v st) = view st) →
  view (fetchSeries2 st) = view st.
Proof.
  intros Hq Hseries Hlock. unfold fetchSeries.
  destruct (isFetching st); [done|]. rewrite Hlock.
  destruct (getSeries _ _) as [response|].
  - rewrite foldl_view_state.
    + quieten Hq. apply Hlock.
    + intros s entry. destruct (find _ _); [apply Hseries|done].
  - quieten Hq. apply Hlock.
Qed.

Lemma register_provider_view st prov :
  (∀ st v, view (set_providers v st) = view st) →
  (∀ st v, view (set_selectedProviders v st) = view st) →
  (∀ st v, view (set_allSeriesIds v st) = view st) →
  (∀ st v, view (set_allBookIds v st) = view st) →
  view (register_provider2 st prov) = view st.
Proof.
  intros H1 H2 H3 H4. unfold register_provider.
  repeat case_match; rewrite ?H4, ?H3, ?H2, ?H1; reflexivity.
Qed.

Lemma resetAll_view st :
  settled view →
  (∀ st v, view (set_loading v st) = view st) →
  (∀ st v, view (set_selectedBooks v st) = view st) →
  view (resetAll2 st) = view st.
Proof.
  intros Hs Hloading Hselected. pose proof Hs as [Hq Hs'].
  unfold resetAll. rewrite Hloading, fetchBooks_settled by done.
  rewrite (proj2 (proj2 (Hq _))), Hselected.
  rewrite (proj1 (Hs' _)), (proj1 (proj2 (Hs' _))). apply Hloading.
Qed.
End View.

Lemma quiet_refl {X} (view : State → X) :
  (∀ st v, view (set_requests v st) = view st) →
  (∀ st v, view (set_appErrors v st) = view st) →
  (∀ st v, view (set_allBookPages v st) = view st) →
  quiet view.
Proof. intros H1 H2 H3 st. auto. Qed.

(** The views used below. *)
Lemma quiet_isFetching : quiet isFetching.
Proof. by apply quiet_refl. Qed.
Lemma quiet_maxPage : quiet maxPage.
Proof. by apply quiet_refl. Qed.
Lemma quiet_allBooks : quiet allBooks.
Proof. by apply quiet_refl. Qed.
Lemma settled_selectedBooks : settled selectedBooks.
Proof. split; [by apply quiet_refl|]. by intros st. Qed.
Lemma settled_sortOrder : settled sortOrder.
Proof. split; [by apply quiet_refl|]. by intros st. Qed.
Lemma settled_page : settled page.
Proof. split; [by apply quiet_refl|]. by intros st. Qed.
Lemma settled_incrementPages : settled incrementPages.
Proof. split; [by apply quiet_refl|]. by intros st. Qed.
Lemma settled_providers : settled providers.
Proof. split; [by apply quiet_refl|]. by intros st. Qed.
Lemma settled_selectedProviders : settled selectedProviders.
Proof. split; [by apply quiet_refl|]. by intros st. Qed.
Lemma settled_ids : settled (λ st, (allSeriesIds st, allBookIds st)).
Proof. split; [by apply quiet_refl|]. by intros st. Qed.
Lemma settled_allSeries : settled allSeries.
Proof. split; [by apply quiet_refl|]. by intros st. Qed.
Lemma settled_loading : settled loading.
Proof. split; [by apply quiet_refl|]. by intros st. Qed.

(** *** The lock *)

Lemma fetchBooks_isFetching st : isFetching (fetchBooks2 st) = isFetching st.
Proof.
  unfold fetchBooks. destruct (isFetching st) eqn:Hlock; [done|].
  by destruct (_ && _).
Qed.

Lemma fetchSeries_isFetching st :
  isFetching (fetchSeries2 st) = isFetching st.
Proof. unfold fetchSeries. by destruct (isFetching st) eqn:Hlock. Qed.

Lemma resetAll_isFetching st : isFetching (resetAll2 st) = isFetching st.
Proof. unfold resetAll. cbn [isFetching set_loading].
  change (isFetching (set_loading false ?s)) with (isFetching s).
  by rewrite fetchBooks_isFetching. Qed.

Lemma registered_view {X} (view : State → X) st :
  (∀ st v, view (set_providers v st) = view st) →
  (∀ st v, view (set_selectedProviders v st) = view st) →
  (∀ st v, view (set_allSeriesIds v st) = view st) →
  (∀ st v, view (set_allBookIds v st) = view st) →
  view (foldl register_provider2
          (set_allBookIds []
             (set_allSeriesIds []
                (set_selectedProviders [] (set_providers [] st))))
          allProviders)
  = view st.
Proof.
  intros H1 H2 H3 H4. rewrite foldl_view_state.
  - by rewrite H4, H3, H2, H1.
  - intros s prov. by apply register_provider_view.
Qed.

(** X14.  Every public operation leaves [isFetching]
    as it found it: an operation that takes the lock gives it back on
    every path, also when a request fails, and an operation that finds
    the lock taken does not release it. *)
Theorem perform_isFetching (op : Operation) (st : State) :
  isFetching (perform2 op st) = isFetching st.
Proof.
  destruct op; cbn [perform].
  - unfold initialize.
    pose proof (registered_view isFetching st) as Hreg.
    set (stR := foldl _ _ allProviders) in *.
    rewrite <- Hreg by done.
    destruct (MAX_SELECTED_SERIES <? _); [done|].
    destruct (0 <? length (providers stR))%nat; [|done].
    by rewrite fetchBooks_isFetching, fetchSeries_isFetching.
  - apply fetchBooks_isFetching.
  - unfold changePage. destruct (p =? page st); [done|].
    by rewrite resetAll_isFetching.
  - unfold incrementPage. destruct (negb (isNextPage st)); [done|].
    by rewrite fetchBooks_isFetching.
  - unfold toggleSortOrder. by rewrite resetAll_isFetching.
  - apply resetAll_isFetching.
Qed.

(** *** The page count *)

Lemma fetch_page_maxPage st currentPage :
  maxPage st ≤ maxPage (fetch_page2 st currentPage).
Proof.
  unfold fetch_page.
  case_match; rewrite ?(merge_response_quiet maxPage) by
    (first [ exact quiet_maxPage | done ]);
    rewrite (addAppErrors_quiet maxPage _ _ quiet_maxPage); cbn; lia.
Qed.

Lemma foldl_maxPage pages st :
  maxPage st ≤ maxPage (foldl fetch_page2 st pages).
Proof.
  revert st. induction pages as [|p pages IH]; intros st; [done|].
  cbn [foldl]. etrans; [apply (fetch_page_maxPage st p)|apply IH].
Qed.

Lemma fetchBooks_maxPage st : maxPage st ≤ maxPage (fetchBooks2 st).
Proof.
  unfold fetchBooks. destruct (isFetching st); [done|].
  destruct (_ && _); [done|].
  change (maxPage (set_isFetching false ?s)) with (maxPage s).
  destruct (pagesToFetch _) as [pages|]; [|done].
  apply (foldl_maxPage pages (set_isFetching true st)).
Qed.

Lemma resetAll_maxPage st : maxPage st ≤ maxPage (resetAll2 st).
Proof.
  unfold resetAll. change (maxPage (set_loading false ?s)) with (maxPage s).
  etrans; [|apply fetchBooks_maxPage]. done.
Qed.

(** *** The aggregate and the selection *)

Lemma merge_response_allBooks response st :
  allBooks st `prefix_of` allBooks (merge_response2 response st).
Proof.
  destruct (merge_response_unfold allBooks response st)
    as (st1 & books1 & st2 & books2 & _ & _ & -> & Hview).
  destruct (Hview quiet_allBooks) as [_ <-]. by apply prefix_app_r.
Qed.

Lemma fetch_page_allBooks st currentPage :
  allBooks st `prefix_of` allBooks (fetch_page2 st currentPage).
Proof.
  unfold fetch_page. case_match.
  - etrans; [|apply merge_response_allBooks].
    by rewrite (addAppErrors_quiet allBooks _ _ quiet_allBooks).
  - by rewrite (addAppErrors_quiet allBooks _ _ quiet_allBooks).
Qed.

Lemma fetchBooks_allBooks st : allBooks st `prefix_of` allBooks (fetchBooks2 st).
Proof.
  unfold fetchBooks. destruct (isFetching st); [done|].
  destruct (_ && _); [done|].
  change (allBooks (set_isFetching false ?s)) with (allBooks s).
  destruct (pagesToFetch _) as [pages|]; [|done].
  change (allBooks st) with (allBooks (set_isFetching true st)).
  generalize (set_isFetching true st). clear st.
  induction pages as [|p pages IH]; intros st; [done|].
  cbn [foldl]. etrans; [apply (fetch_page_allBooks st p)|apply IH].
Qed.

(** X16.  The operations that do not reset
    ([initialize], [fetchBooks], [incrementPage]) only append to
    [allBooks] (the books listed before stay, in their order) and do
    not touch the selection; an operation that resets ([changePage] to
    another page, [toggleSortOrder], [resetAll]) empties the selection,
    and [changePage] to the current page does nothing at all. *)
Theorem perform_allBooks (op : Operation) (st : State) :
  (resets op = false →
   allBooks st `prefix_of` allBooks (perform2 op st)
   ∧ selectedBooks (perform2 op st) = selectedBooks st)
  ∧ (op = ChangePage (page st) → perform2 op st = st)
  ∧ (resets op = true → op ≠ ChangePage (page st) →
     selectedBooks (perform2 op st) = []).
Proof.
  assert (Hreset : ∀ s, selectedBooks (resetAll2 s) = []).
  { intros s. unfold resetAll.
    change (selectedBooks (set_loading false ?x)) with (selectedBooks x).
    by rewrite (fetchBooks_settled selectedBooks _ settled_selectedBooks). }
  split_and!.
  - destruct op; cbn [perform resets]; try done; intros _.
    + unfold initialize.
      pose proof (registered_view allBooks st) as Hbooks.
      pose proof (registered_view selectedBooks st) as Hsel.
      set (stR := foldl _ _ allProviders) in *.
      rewrite <- Hbooks, <- Hsel by done.
      destruct (MAX_SELECTED_SERIES <? _); [done|].
      destruct (0 <? length (providers stR))%nat; [|done]. split.
      * etrans; [|apply fetchBooks_allBooks].
        by rewrite (fetchSeries_view allBooks)
          by (first [exact quiet_allBooks|done]).
      * rewrite (fetchBooks_settled selectedBooks _ settled_selectedBooks).
        by apply (fetchSeries_view selectedBooks).
    + split; [apply fetchBooks_allBooks|].
      apply (fetchBooks_settled selectedBooks _ settled_selectedBooks).
    + unfold incrementPage.
      destruct (negb (isNextPage st)); [done|]. split.
      * etrans; [|apply fetchBooks_allBooks]. done.
      * by rewrite (fetchBooks_settled selectedBooks _
                      settled_selectedBooks).
  - intros ->. cbn [perform]. unfold changePage. by rewrite Z.eqb_refl.
  - intros Hresets Hother. destruct op; cbn [resets] in Hresets;
      [done|done| |done|apply Hreset|apply Hreset].
    cbn [perform]. unfold changePage.
    destruct (Z.eqb_spec p (page st)) as [->|Hne]; [done|]. apply Hreset.
Qed.

(** *** Page and sort order *)

(** X17.  [changePage(p)] always ends on page [p], in
    single-page mode unless [p] was the current page already;
    [incrementPage] moves one page forward in increment mode when the
    current page is below [maxPage] and does nothing otherwise;
    [toggleSortOrder] flips the sort order, so two calls restore it;
    and no other operation changes the page or the sort order. *)
Theorem perform_navigation (st : State) :
  (∀ p, page (changePage2 p st) = p
        ∧ (p ≠ page st → incrementPages (changePage2 p st) = false))
  ∧ (page st < maxPage st →
     page (incrementPage2 st) = page st + 1
     ∧ incrementPages (incrementPage2 st) = true)
  ∧ (maxPage st ≤ page st → incrementPage2 st = st)
  ∧ sortOrder (toggleSortOrder2 st) ≠ sortOrder st
  ∧ sortOrder (toggleSortOrder2 (toggleSortOrder2 st)) = sortOrder st
  ∧ (∀ op,
       match op with
       | Initialize | FetchBooks | ResetAll =>
           page (perform2 op st) = page st
           ∧ sortOrder (perform2 op st) = sortOrder st
       | ChangePage _ | IncrementPage =>
           sortOrder (perform2 op st) = sortOrder st
       | ToggleSortOrder => page (perform2 op st) = page st
       end).
Proof.
  assert (Hpage : ∀ s, page (resetAll2 s) = page s)
    by (intros s; apply resetAll_view; [apply settled_page|done|done]).
  assert (Hinc : ∀ s, incrementPages (resetAll2 s) = incrementPages s)
    by (intros s; apply resetAll_view;
        [apply settled_incrementPages|done|done]).
  assert (Hsort : ∀ s, sortOrder (resetAll2 s) = sortOrder s)
    by (intros s; apply resetAll_view; [apply settled_sortOrder|done|done]).
  split_and!.
  - intros p. unfold changePage.
    destruct (Z.eqb_spec p (page st)) as [->|Hne]; [done|].
    by rewrite Hpage, Hinc.
  - intros Hnext. unfold incrementPage, isNextPage.
    destruct (Z.ltb_spec (page st) (maxPage st)); [|lia]. cbn [negb].
    by rewrite (fetchBooks_settled page _ settled_page),
      (fetchBooks_settled incrementPages _ settled_incrementPages).
  - intros Hlast. unfold incrementPage, isNextPage.
    by destruct (Z.ltb_spec (page st) (maxPage st)); [lia|].
  - unfold toggleSortOrder. rewrite Hsort. cbn. by destruct (sortOrder st).
  - unfold toggleSortOrder. rewrite !Hsort. cbn. by destruct (sortOrder st).
  - intros op. destruct op; cbn [perform].
    + unfold initialize.
      pose proof (registered_view page st) as Hp.
      pose proof (registered_view sortOrder st) as Hs.
      set (stR := foldl _ _ allProviders) in *.
      rewrite <- Hp, <- Hs by done.
      destruct (MAX_SELECTED_SERIES <? _); [done|].
      destruct (0 <? length (providers stR))%nat; [|done].
      rewrite (fetchBooks_settled page _ settled_page),
        (fetchBooks_settled sortOrder _ settled_sortOrder).
      split; by apply fetchSeries_view.
    + by rewrite (fetchBooks_settled page _ settled_page),
        (fetchBooks_settled sortOrder _ settled_sortOrder).
    + unfold changePage. destruct (p =? page st); [done|]. by rewrite Hsort.
    + unfold incrementPage. destruct (negb (isNextPage st)); [done|].
      by rewrite (fetchBooks_settled sortOrder _ settled_sortOrder).
    + unfold toggleSortOrder. by rewrite Hpage.
    + by rewrite Hpage, Hsort.
Qed.

(** *** The books a fetch adds *)

Lemma decorate_decorated selected series prov book :
  prov ∈ selected →
  decorated selected
    (decorate getUrl replaceTextVariables getLocaleName
       bookDisplayTextSetting series prov book).
Proof.
  intros Hprov. unfold decorate.
  assert (Hnumber :
    let number := Title.getVolumeNumber (bbc_title book) in
    let text := if JS.truthy_str number then JS.nullish number "" else "0" in
    Numeral.is_numeral text = true ∧ Numeral.no_leading_zero text = true).
  { cbv zeta. rewrite getVolumeNumber_first_number.
    destruct (Title.selected _ ≫= Title.first_number) as [n|] eqn:Hsel;
      [|done].
    apply bind_Some in Hsel as (text & _ & Hfirst).
    destruct (first_number_numeral _ _ Hfirst) as (Hnum & Hzero & Hne).
    cbn. by destruct (Title.strip_zeros n). }
  destruct Hnumber as [Hnum Hzero].
  constructor; cbn [provider volumeNumber]; [done|done|done|by left].
Qed.

Lemma foldl_invariant {A B} (I : B → Prop) (f : B → A → B) (l : list A) b :
  (∀ b x, x ∈ l → I b → I (f b x)) → I b → I (foldl f b l).
Proof.
  revert b. induction l as [|x l IH]; intros b Hf Hb; [done|].
  cbn [foldl]. apply IH.
  - intros b' y Hy. apply Hf. apply elem_of_cons. by right.
  - apply Hf; [apply elem_of_cons; by left|done].
Qed.

Lemma fetch_provider_decorated selected response acc prov :
  prov ∈ selected → Forall (decorated selected) acc.2 →
  Forall (decorated selected) (fetch_provider2 response acc prov).2.
Proof.
  intros Hprov Hacc. destruct acc as [st newBooks]. cbn [snd] in Hacc.
  unfold fetch_provider.
  assert (Hnew : Forall (decorated selected)
                   match assoc (provider_id prov) (result_data response) with
                   | Some books =>
                       newBooks
                       ++ (decorate getUrl replaceTextVariables getLocaleName
                             bookDisplayTextSetting (allSeries st) prov
                           <$> books)
                   | None => newBooks
                   end).
  { destruct (assoc _ _) as [books|]; [|done].
    apply Forall_app. split; [done|]. apply Forall_fmap, Forall_forall.
    intros book _. by apply decorate_decorated. }
  repeat case_match; cbn [snd]; done.
Qed.

Lemma select_page_decorated selected st b :
  decorated selected b → decorated selected (select_page getUrl st b).
Proof.
  intros [Hp Hn Hz Hs]. unfold select_page. case_match; [|done].
  by constructor.
Qed.

Lemma fetch_info_decorated selected acc book :
  decorated selected book → Forall (decorated selected) acc.2 →
  Forall (decorated selected) (fetch_info getInfo acc book).2.
Proof.
  intros [Hp Hn Hz Hs] Hacc. destruct acc as [st done]. cbn [snd] in Hacc.
  unfold fetch_info. destruct (getInfo _ _) as [response|]; cbn [snd].
  - apply Forall_app. split; [done|]. apply Forall_singleton.
    constructor; cbn [provider volumeNumber];
      first [ done
            | right; cbn [coverQualityScore]; f_equal;
              by apply getCoverQualityScore_ext ].
  - apply Forall_app. split; [done|]. by apply Forall_singleton.
Qed.

Lemma foldl_fetch_info_decorated selected books acc :
  Forall (decorated selected) books → Forall (decorated selected) acc.2 →
  Forall (decorated selected) (foldl (fetch_info getInfo) acc books).2.
Proof.
  revert acc. induction books as [|b books IH]; intros acc Hbooks Hacc;
    [done|].
  apply Forall_cons in Hbooks as [Hb Hbooks]. cbn [foldl].
  apply IH; [done|]. by apply fetch_info_decorated.
Qed.

Lemma cropCover_fetched selected b :
  decorated selected b → has_valid_size b = true →
  fetched selected true
    (Crop.cropCover getUrl cropFormatSetting cropQualitySetting b).
Proof.
  intros [Hp Hn Hz Hs] Hsize.
  destruct (cropCover_decision getUrl cropFormatSetting cropQualitySetting b)
    as [Hkeep Hcrop].
  destruct (Crop.coverShouldBeCropped b) eqn:Hshould.
  - destruct (Hcrop eq_refl) as (w & h & a & Hw & Hh & Ha & ->).
    destruct (calculateCropAmount_sixth w h a Ha) as [Hhpos Hsixth].
    unfold Crop.applyCrop.
    constructor; cbn [provider volumeNumber]; [done|done|done| | |].
    + unfold has_valid_size in *. cbn [provider coverHeight coverWidth].
      rewrite Hw, Hh in Hsize.
      destruct (ignoreErrors (provider b)); [|done]. cbn [negb orb] in *.
      apply andb_prop in Hsize as [Hh1 Hw1]. rewrite Hh, Hh1. cbn [andb].
      apply Z.ltb_lt. lia.
    + right. reflexivity.
    + intros _. unfold Crop.coverShouldBeCropped.
      cbn [coverWidth coverHeight coverIsCropped JS.truthy_bool negb].
      rewrite Hh. by rewrite andb_false_r.
  - rewrite (Hkeep eq_refl). by constructor.
Qed.

Lemma merge_response_fetched response st :
  ∃ new,
    allBooks (merge_response2 response st) = allBooks st ++ new
    ∧ Forall (fetched (selectedProviders st) automaticCropSetting) new.
Proof.
  destruct (merge_response_unfold allBooks response st)
    as (st1 & books1 & st2 & books2 & H1 & H2 & -> & Hview).
  destruct (Hview quiet_allBooks) as [_ <-].
  eexists. split; [reflexivity|].
  set (selected := selectedProviders st).
  assert (Hbooks1 : Forall (decorated selected) books1).
  { change books1 with (st1, books1).2. rewrite <- H1.
    apply (foldl_invariant (λ acc, Forall (decorated selected) acc.2));
      [|done].
    intros acc prov Hprov Hacc. by apply fetch_provider_decorated. }
  assert (Hbooks2 : Forall (decorated selected) books2).
  { change books2 with (st2, books2).2. rewrite <- H2.
    apply foldl_fetch_info_decorated; [|done].
    destruct (canChangeBookPage st1); [|done].
    apply Forall_fmap. eapply Forall_impl; [exact Hbooks1|].
    intros b. apply select_page_decorated. }
  assert (Hvalid : Forall (λ b, decorated selected b
                                ∧ has_valid_size b = true)
                     (List.filter has_valid_size books2)).
  { apply Forall_forall. intros b Hb%list_elem_of_In%List.filter_In.
    destruct Hb as [Hb%list_elem_of_In Hvalid]. split; [|done].
    by eapply Forall_forall in Hbooks2. }
  destruct automaticCropSetting.
  - unfold Crop.toggleCropCovers. apply Forall_fmap.
    eapply Forall_impl; [exact Hvalid|].
    intros b [Hb Hv]. by apply cropCover_fetched.
  - eapply Forall_impl; [exact Hvalid|].
    intros b [[Hp Hn Hz Hs] Hv]. by constructor.
Qed.

Lemma fetch_page_fetched st currentPage :
  ∃ new,
    allBooks (fetch_page2 st currentPage) = allBooks st ++ new
    ∧ Forall (fetched (selectedProviders st) automaticCropSetting) new.
Proof.
  unfold fetch_page. case_match.
  - match goal with
    | |- context [merge_response2 ?r ?s] =>
        destruct (merge_response_fetched r s) as (new & -> & Hnew);
        assert (Hsel : selectedProviders s = selectedProviders st)
          by (by rewrite (addAppErrors_quiet selectedProviders _ _
                            (proj1 settled_selectedProviders)))
    end.
    rewrite Hsel in Hnew. exists new. split; [|exact Hnew].
    by rewrite (addAppErrors_quiet allBooks _ _ quiet_allBooks).
  - exists []. split; [|done].
    by rewrite (addAppErrors_quiet allBooks _ _ quiet_allBooks), app_nil_r.
Qed.

(** X18.  [fetchBooks] only appends to [allBooks],
    and every book it appends belongs to a selected provider, has a
    volume number that is a numeral without superfluous leading zero
    (["0"] when the title has none), carries either no quality score or
    the score of the book as it is, has a measured cover of more than
    one pixel each way when its provider sets [ignoreErrors], and, with
    automatic cropping on, is left with no crop to apply. *)
Theorem fetchBooks_fetched (st : State) :
  ∃ new,
    allBooks (fetchBooks2 st) = allBooks st ++ new
    ∧ Forall (fetched (selectedProviders st) automaticCropSetting) new.
Proof.
  unfold fetchBooks. destruct (isFetching st).
  { exists []. by rewrite app_nil_r. }
  destruct (_ && _).
  { exists []. by rewrite app_nil_r. }
  change (allBooks (set_isFetching false ?s)) with (allBooks s).
  destruct (pagesToFetch _) as [pages|].
  2:{ exists []. by rewrite app_nil_r. }
  change (allBooks st) with (allBooks (set_isFetching true st)).
  change (selectedProviders st)
    with (selectedProviders (set_isFetching true st)).
  generalize (set_isFetching true st). clear st.
  induction pages as [|p pages IH]; intros st.
  { exists []. by rewrite app_nil_r. }
  cbn [foldl]. destruct (fetch_page_fetched st p) as (new1 & Hbooks1 & Hnew1).
  destruct (IH (fetch_page2 st p)) as (new2 & -> & Hnew2).
  rewrite (fetch_page_settled selectedProviders _ _ settled_selectedProviders)
    in Hnew2.
  exists (new1 ++ new2). rewrite Hbooks1, <- app_assoc. split; [done|].
  by apply Forall_app.
Qed.

(** *** The requests of a fetch *)

Lemma addAppErrors_requests messages st :
  requests (addAppErrors messages st) = requests st.
Proof.
  revert st. induction messages as [|m ms IH]; intros st; [done|].
  unfold addAppErrors in *. cbn [foldl]. by rewrite IH.
Qed.

Lemma side_traffic_refl st st' : requests st' = requests st → side_traffic st st'.
Proof. intros Hsame. exists []. by rewrite app_nil_r. Qed.

Lemma side_traffic_trans st1 st2 st3 :
  side_traffic st1 st2 → side_traffic st2 st3 → side_traffic st1 st3.
Proof.
  intros (e1 & H1 & Hn1) (e2 & H2 & Hn2). exists (e1 ++ e2).
  rewrite H2, H1, <- app_assoc. split; [done|].
  unfold getBooks_calls in *. by rewrite omap_app, Hn1, Hn2.
Qed.

Lemma fetch_provider_traffic response acc prov :
  side_traffic acc.1 (fetch_provider2 response acc prov).1.
Proof.
  destruct acc as [st newBooks]. unfold fetch_provider.
  repeat case_match; cbn [fst];
    first
      [ by apply side_traffic_refl
      | eexists [_]; split;
        [ unfold set_allBookPages, addAppError, set_appErrors;
          cbn [requests]; rewrite ?addAppErrors_requests; reflexivity
        | reflexivity ] ].
Qed.

Lemma fetch_info_traffic acc book :
  side_traffic acc.1 (fetch_info getInfo acc book).1.
Proof.
  destruct acc as [st done]. unfold fetch_info.
  exists [GetInfo (cover book)]. split; [|done].
  repeat case_match; reflexivity.
Qed.

Lemma foldl_traffic {A B} (f : State * B → A → State * B) (l : list A) acc :
  (∀ acc x, side_traffic acc.1 (f acc x).1) →
  side_traffic acc.1 (foldl f acc l).1.
Proof.
  intros Hf. revert acc. induction l as [|x l IH]; intros acc.
  - by apply side_traffic_refl.
  - cbn [foldl]. eapply side_traffic_trans; [apply Hf|apply IH].
Qed.

Lemma merge_response_traffic response st :
  side_traffic st (merge_response2 response st).
Proof.
  destruct (merge_response_unfold requests response st)
    as (st1 & books1 & st2 & books2 & H1 & H2 & -> & _).
  pose proof (foldl_traffic (fetch_provider2 response) (selectedProviders st)
                (st, []) (fetch_provider_traffic response)) as T1.
  rewrite H1 in T1.
  match type of H2 with
  | foldl _ _ ?l = _ =>
      pose proof (foldl_traffic (fetch_info getInfo) l (st1, [])
                    fetch_info_traffic) as T2
  end.
  rewrite H2 in T2. cbn [fst] in *.
  eapply side_traffic_trans; [exact T1|].
  eapply side_traffic_trans; [exact T2|]. by apply side_traffic_refl.
Qed.

Lemma fetch_page_calls st currentPage :
  ∃ extra,
    requests (fetch_page2 st currentPage) = requests st ++ extra
    ∧ getBooks_calls extra
      = [(allSeriesIds st, allBookIds st, sortOrder st, currentPage)].
Proof.
  unfold fetch_page.
  set (st1 := set_fetchedPages _ st).
  set (call := GetBooks (allSeriesIds st1) (allBookIds st1) (sortOrder st1)
                 currentPage).
  set (st2 := addAppErrors _ _).
  assert (Hsent : requests st2 = requests st ++ [call])
    by (unfold st2; by rewrite addAppErrors_requests).
  destruct (0 <? _).
  - destruct (merge_response_traffic
                (getBooks (requests st1) (allSeriesIds st1) (allBookIds st1)
                   (sortOrder st1) currentPage) st2)
      as (extra & -> & Hextra).
    exists ([call] ++ extra). rewrite Hsent, <- app_assoc. split; [done|].
    unfold getBooks_calls in *. by rewrite omap_app, Hextra.
  - exists [call]. by rewrite Hsent.
Qed.

(** X19.  [fetchBooks] sends one [getBooks] request for
    every page it adds to the tracker, in that order, each with the
    series ids, the book ids and the sort order of the downloader; it
    sends none when a cycle is in flight or when there is no id. *)
Theorem fetchBooks_calls (st : State) :
  ∃ extra,
    requests (fetchBooks2 st) = requests st ++ extra
    ∧ getBooks_calls extra
      = (λ p, (allSeriesIds st, allBookIds st, sortOrder st, p))
          <$> added st.
Proof.
  unfold fetchBooks, added. destruct (isFetching st).
  { exists []. by rewrite app_nil_r. }
  cbn [allSeriesIds allBookIds set_isFetching].
  destruct (_ && _).
  { exists []. by rewrite app_nil_r. }
  change (requests (set_isFetching false ?s)) with (requests s).
  change (pagesToFetch (set_isFetching true st)) with (pagesToFetch st).
  destruct (pagesToFetch st) as [pages|]; cbn [default].
  2:{ exists []. by rewrite app_nil_r. }
  change (requests st) with (requests (set_isFetching true st)).
  change (allSeriesIds st) with (allSeriesIds (set_isFetching true st)).
  change (allBookIds st) with (allBookIds (set_isFetching true st)).
  change (sortOrder st) with (sortOrder (set_isFetching true st)).
  generalize (set_isFetching true st). clear st.
  induction pages as [|p pages IH]; intros st.
  { exists []. by rewrite app_nil_r. }
  cbn [foldl]. destruct (fetch_page_calls st p) as (e1 & H1 & Hc1).
  destruct (IH (fetch_page2 st p)) as (e2 & -> & Hc2).
  pose proof (fetch_page_settled (λ s, (allSeriesIds s, allBookIds s))
                st p settled_ids) as [= Hs Hb].
  rewrite Hs, Hb,
    (fetch_page_settled sortOrder st p settled_sortOrder) in Hc2.
  exists (e1 ++ e2). rewrite H1, <- app_assoc. split; [done|].
  unfold getBooks_calls in *. rewrite omap_app, Hc1, Hc2. done.
Qed.

(** *** The page count and the answers *)

#[local] Abbreviation answered_pages2 := (answered_pages getBooks).
#[local] Abbreviation raised2 := (raised getBooks).

Lemma answered_pages_prefix sent sent' i :
  sent `prefix_of` sent' → (i < length sent)%nat →
  answered_pages2 sent' i = answered_pages2 sent i.
Proof.
  intros [extra ->] Hi. unfold answered_pages.
  by rewrite lookup_app_l, take_app_le by lia.
Qed.

Lemma getBooks_calls_none extra j seriesIds bookIds sort page :
  getBooks_calls extra = [] →
  extra !! j = Some (GetBooks seriesIds bookIds sort page) → False.
Proof.
  intros Hnone Hj. rewrite <- (take_drop_middle _ _ _ Hj) in Hnone.
  unfold getBooks_calls in Hnone. rewrite omap_app in Hnone.
  by apply app_eq_nil in Hnone as [_ Hnone].
Qed.

Lemma raised_side st st' :
  side_traffic st st' → maxPage st' = maxPage st → raised2 st st'.
Proof.
  intros (extra & Hsent & Hnone) Hmax. unfold raised.
  rewrite Hsent, Hmax. split_and!.
  - by apply prefix_app_r.
  - done.
  - intros i pages Hi. unfold answered_pages.
    rewrite lookup_app_r by done.
    destruct (extra !! _) as [[]|] eqn:Hj; try done.
    by destruct (getBooks_calls_none _ _ _ _ _ _ Hnone Hj).
  - by left.
Qed.

Lemma raised_trans st1 st2 st3 :
  raised2 st1 st2 → raised2 st2 st3 → raised2 st1 st3.
Proof.
  intros (Hp12 & Hle12 & Hall12 & Hsome12) (Hp23 & Hle23 & Hall23 & Hsome23).
  pose proof (prefix_length _ _ Hp12) as Hlen12.
  split_and!.
  - by etrans.
  - lia.
  - intros i pages Hi Hpages.
    destruct (decide (length (requests st2) ≤ i)%nat) as [Hlate|Hearly].
    + by apply (Hall23 i).
    + rewrite (answered_pages_prefix _ _ i Hp23) in Hpages by lia.
      pose proof (Hall12 i pages Hi Hpages). lia.
  - destruct Hsome23 as [Hsame|(i & Hi & Hpages)].
    + rewrite Hsame. destruct Hsome12 as [Hsame'|(i & Hi & Hpages)];
        [by left|].
      right. exists i. split; [done|].
      rewrite (answered_pages_prefix _ _ i Hp23); [done|].
      unfold answered_pages in Hpages.
      destruct (requests st2 !! i) eqn:Hlookup; [|done].
      by eapply lookup_lt_Some.
    + right. exists i. split; [lia|done].
Qed.

Lemma raised_views st st' s s' :
  requests s = requests st → maxPage s = maxPage st →
  requests s' = requests st' → maxPage s' = maxPage st' →
  raised2 st st' → raised2 s s'.
Proof. unfold raised. by intros -> -> -> ->. Qed.

Lemma fetch_page_raised st currentPage :
  raised2 st (fetch_page2 st currentPage).
Proof.
  unfold fetch_page.
  set (st1 := set_fetchedPages _ st).
  set (response := getBooks (requests st1) (allSeriesIds st1)
                     (allBookIds st1) (sortOrder st1) currentPage).
  set (call := GetBooks (allSeriesIds st1) (allBookIds st1) (sortOrder st1)
                 currentPage).
  set (st2 := addAppErrors _ _).
  assert (Hsent : requests st2 = requests st ++ [call])
    by (unfold st2; by rewrite addAppErrors_requests).
  assert (Hmax : maxPage st2 = Z.max (maxPage st) (result_pages response))
    by (unfold st2; by rewrite (addAppErrors_quiet maxPage _ _ quiet_maxPage)).
  assert (Hanswer : answered_pages2 (requests st2) (length (requests st))
                    = Some (result_pages response)).
  { rewrite Hsent. unfold answered_pages.
    rewrite lookup_app_r, Nat.sub_diag by done. cbn [lookup list_lookup call].
    by rewrite take_app_length. }
  assert (Hcall : raised2 st st2).
  { split_and!.
    - rewrite Hsent. by apply prefix_app_r.
    - lia.
    - intros i pages Hi Hpages.
      destruct (decide (i = length (requests st))) as [->|Hne].
      + rewrite Hanswer in Hpages. injection Hpages as <-. lia.
      + unfold answered_pages in Hpages. rewrite Hsent in Hpages.
        rewrite lookup_app_r in Hpages by done.
        destruct (i - length (requests st))%nat as [|j] eqn:Hj; [lia|].
        done.
    - destruct (Z.max_spec (maxPage st) (result_pages response))
        as [[_ Hm]|[_ Hm]].
      + right. exists (length (requests st)). split; [done|].
        by rewrite Hanswer, Hmax, Hm.
      + left. by rewrite Hmax, Hm. }
  destruct (0 <? _); [|done].
  eapply raised_trans; [exact Hcall|]. apply raised_side.
  - apply merge_response_traffic.
  - by apply (merge_response_quiet maxPage); [exact quiet_maxPage|].
Qed.

Lemma raised_same st st' :
  requests st' = requests st → maxPage st' = maxPage st → raised2 st st'.
Proof. intros Hsent Hmax. apply raised_side; [by apply side_traffic_refl|done]. Qed.

Lemma fetchBooks_raised st : raised2 st (fetchBooks2 st).
Proof.
  unfold fetchBooks. destruct (isFetching st); [by apply raised_same|].
  destruct (_ && _); [by apply raised_same|].
  destruct (pagesToFetch _) as [pages|]; [|by apply raised_same].
  apply (raised_views (set_isFetching true st)
           (foldl fetch_page2 (set_isFetching true st) pages)); try done.
  generalize (set_isFetching true st). clear st.
  induction pages as [|p pages IH]; intros st; [by apply raised_same|].
  cbn [foldl]. eapply raised_trans; [apply fetch_page_raised|apply IH].
Qed.

Lemma resetAll_raised st : raised2 st (resetAll2 st).
Proof.
  unfold resetAll.
  match goal with
  | |- raised2 _ (set_loading false (fetchBooks2 ?s)) =>
      apply (raised_views s (fetchBooks2 s)); try done
  end.
  apply fetchBooks_raised.
Qed.

Lemma fetchSeries_traffic st : side_traffic st (fetchSeries2 st).
Proof.
  unfold fetchSeries. destruct (isFetching st); [by apply side_traffic_refl|].
  exists [GetSeries (spread (allBookIds st) (allSeriesIds st))].
  split; [|done].
  change (requests (set_isFetching false ?s)) with (requests s).
  destruct (getSeries _ _) as [response|]; [|done].
  rewrite (foldl_view_state requests).
  - by rewrite addAppErrors_requests.
  - intros s entry. by destruct (find _ _).
Qed.

(** X15.  No public operation ever lowers [maxPage], and none takes a
    request back: afterwards [maxPage] is at least the page count the
    server answered to every [getBooks] call the operation made, and it
    is either what it was or the page count of one of these answers.
    So a fetch raises it to the page count of the answer when that is
    larger, and a reset, a page change or a change of the sort order
    keep the count reached before. *)
Theorem perform_maxPage (op : Operation) (st : State) :
  let st' := perform2 op st in
  requests st `prefix_of` requests st'
  ∧ maxPage st ≤ maxPage st'
  ∧ (∀ i pages,
       (length (requests st) ≤ i)%nat →
       answered_pages2 (requests st') i = Some pages →
       pages ≤ maxPage st')
  ∧ (maxPage st' = maxPage st
     ∨ ∃ i, (length (requests st) ≤ i)%nat
            ∧ answered_pages2 (requests st') i = Some (maxPage st')).
Proof.
  cbv zeta. change (raised2 st (perform2 op st)).
  destruct op; cbn [perform].
  - unfold initialize.
    pose proof (registered_view maxPage st) as Hmax.
    pose proof (registered_view requests st) as Hsent.
    set (stR := foldl _ _ allProviders) in *.
    eapply (raised_views stR);
      [symmetry; by apply Hsent|symmetry; by apply Hmax
      |reflexivity|reflexivity|].
    destruct (MAX_SELECTED_SERIES <? _); [by apply raised_same|].
    destruct (0 <? length (providers stR))%nat; [|by apply raised_same].
    eapply raised_trans; [|apply fetchBooks_raised].
    apply raised_side; [apply fetchSeries_traffic|].
    by apply (fetchSeries_view maxPage); [exact quiet_maxPage| |].
  - apply fetchBooks_raised.
  - unfold changePage. destruct (p =? page st); [by apply raised_same|].
    by apply (raised_views (set_incrementPages false (set_page p st))
                (resetAll2 (set_incrementPages false (set_page p st))));
      [..|apply resetAll_raised].
  - unfold incrementPage.
    destruct (negb (isNextPage st)); [by apply raised_same|].
    by apply (raised_views
                (set_incrementPages true (set_page (page st + 1) st))
                (fetchBooks2
                   (set_incrementPages true (set_page (page st + 1) st))));
      [..|apply fetchBooks_raised].
  - unfold toggleSortOrder.
    match goal with
    | |- raised2 _ (resetAll2 ?s) =>
        by apply (raised_views s (resetAll2 s)); [..|apply resetAll_raised]
    end.
  - apply resetAll_raised.
Qed.

(** *** What [initialize] registers *)

#[local] Abbreviation has_params2 := (has_params getAllSvelteSearchParams).
#[local] Abbreviation series_params2 :=
  (series_params getAllSvelteSearchParams).
#[local] Abbreviation book_params2 := (book_params getAllSvelteSearchParams).
#[local] Abbreviation count_params2 :=
  (count_params getAllSvelteSearchParams).

Lemma registered_providers st provs :
  providers (foldl register_provider2 st provs)
  = providers st ++ List.filter has_params2 provs
  ∧ selectedProviders (foldl register_provider2 st provs)
    = selectedProviders st ++ List.filter has_params2 provs.
Proof.
  revert st. induction provs as [|prov provs IH]; intros st.
  { cbn. by rewrite !app_nil_r. }
  cbn [foldl List.filter]. destruct (IH (register_provider2 st prov)) as [-> ->].
  unfold register_provider, has_params, series_params, book_params.
  destruct (_ && _); cbn [negb]; [done|].
  repeat case_match; cbn; by rewrite <- !app_assoc.
Qed.

Lemma assoc_set_fresh {T} key (value : T) data :
  key ∉ data.*1 → assoc_set key value data = data ++ [(key, value)].
Proof.
  induction data as [|[k v] data IH]; [done|]. cbn. intros Hfresh.
  apply not_elem_of_cons in Hfresh as [Hne Hfresh].
  destruct (String.eqb_spec k key) as [->|_]; [done|]. by rewrite IH.
Qed.

Lemma register_provider_ids st prov :
  provider_id prov ∉ (allSeriesIds st).*1 →
  provider_id prov ∉ (allBookIds st).*1 →
  allSeriesIds (register_provider2 st prov)
  = allSeriesIds st ++ option_list (entry_of series_params2 prov)
  ∧ allBookIds (register_provider2 st prov)
    = allBookIds st ++ option_list (entry_of book_params2 prov).
Proof.
  intros Hs Hb. unfold register_provider, series_params, book_params.
  unfold entry_of.
  destruct (getAllSvelteSearchParams ("series(" +:+ (_ +:+ ")")))
    as [|s series];
    destruct (getAllSvelteSearchParams ("book(" +:+ (_ +:+ ")")))
      as [|b books]; cbn;
    rewrite ?assoc_set_fresh, ?app_nil_r by done; done.
Qed.

Lemma registered_ids st provs :
  NoDup (provider_id <$> provs) →
  (∀ prov, prov ∈ provs →
     (provider_id prov ∉ (allSeriesIds st).*1)
     ∧ (provider_id prov ∉ (allBookIds st).*1)) →
  allSeriesIds (foldl register_provider2 st provs)
  = allSeriesIds st ++ omap (entry_of series_params2) provs
  ∧ allBookIds (foldl register_provider2 st provs)
    = allBookIds st ++ omap (entry_of book_params2) provs.
Proof.
  revert st. induction provs as [|prov provs IH]; intros st Hnd Hfresh.
  { cbn. by rewrite !app_nil_r. }
  rewrite fmap_cons in Hnd. apply NoDup_cons in Hnd as [Hnew Hnd].
  destruct (Hfresh prov) as [Hs Hb]; [left|].
  destruct (register_provider_ids st prov Hs Hb) as [Hseries Hbooks].
  cbn [foldl]. destruct (IH (register_provider2 st prov) Hnd) as [-> ->].
  - intros other Hother. rewrite Hseries, Hbooks, !fmap_app, !not_elem_of_app.
    destruct (Hfresh other) as [Hs' Hb']; [by right|].
    assert (Hne : provider_id other ≠ provider_id prov).
    { intros Heq. apply Hnew. rewrite <- Heq.
      by apply list_elem_of_fmap_2. }
    split; (split; [done|]); unfold entry_of; case_match; cbn.
    all: first
      [ apply not_elem_of_nil
      | apply not_elem_of_cons; split; [exact Hne|apply not_elem_of_nil] ].
  - rewrite Hseries, Hbooks, <- !app_assoc. cbn [omap list_omap].
    by destruct (entry_of series_params2 prov),
      (entry_of book_params2 prov).
Qed.

Lemma countIds_app a b : countIds (a ++ b) = countIds a + countIds b.
Proof.
  unfold countIds. rewrite foldl_app. generalize (foldl
    (λ (sum : Z) (entry : string * list string),
       sum + Z.of_nat (length entry.2)) 0 a).
  induction b as [|entry b IH] using rev_ind; intros z; cbn; [lia|].
  rewrite !foldl_app. cbn. rewrite IH, (IH 0). lia.
Qed.

Lemma countIds_cons entry tail :
  countIds (entry :: tail) = Z.of_nat (length entry.2) + countIds tail.
Proof.
  change (entry :: tail) with ([entry] ++ tail). rewrite countIds_app.
  unfold countIds at 1. cbn [foldl]. lia.
Qed.

Lemma countIds_registered provs :
  countIds (omap (entry_of series_params2) provs)
  + countIds (omap (entry_of book_params2) provs)
  = count_params2 provs.
Proof.
  induction provs as [|prov provs IH]; [done|].
  cbn [omap list_omap foldr count_params]. fold (count_params2 provs).
  rewrite <- IH. unfold entry_of.
  destruct (series_params2 prov) as [|s series],
    (book_params2 prov) as [|b books];
    cbn -[countIds Z.of_nat Z.add]; rewrite ?countIds_cons;
    cbn -[countIds Z.of_nat Z.add]; lia.
Qed.

(** The state [initialize] starts its loop from. *)
#[local] Abbreviation cleared st :=
  (set_allBookIds []
     (set_allSeriesIds [] (set_selectedProviders [] (set_providers [] st)))).

Lemma initialize_settled {X} (view : State → X) st :
  settled view →
  (∀ st v, view (set_allSeries v st) = view st) →
  view (initialize2 st)
  = view (foldl register_provider2 (cleared st) allProviders).
Proof.
  intros Hs Hseries. pose proof Hs as [Hq Hs']. unfold initialize.
  set (stR := foldl _ _ allProviders).
  destruct (MAX_SELECTED_SERIES <? _); [by apply addAppError_quiet|].
  destruct (0 <? length (providers stR))%nat; [|done].
  rewrite fetchBooks_settled by done.
  apply fetchSeries_view; [done|done|]. intros s v. apply Hs'.
Qed.

Lemma register_provider_skip st prov :
  has_params2 prov = false → register_provider2 st prov = st.
Proof.
  unfold has_params, series_params, book_params, register_provider.
  by destruct (_ && _).
Qed.

Lemma registered_none st provs :
  List.filter has_params2 provs = [] →
  foldl register_provider2 st provs = st.
Proof.
  revert st. induction provs as [|prov provs IH]; intros st; [done|].
  cbn [List.filter foldl]. destruct (has_params2 prov) eqn:Hp; [done|].
  intros Hnone. by rewrite register_provider_skip, IH.
Qed.

(** X20.  After [initialize], [providers] and
    [selectedProviders] are the providers of [allProviders] for which
    the URL holds a series id or a book id, in the order of
    [allProviders], whatever they were before; when there is none, the
    call sends no request, reports no error and leaves the books as
    they are. *)
Theorem initialize_providers (st : State) :
  let chosen := List.filter has_params2 allProviders in
  providers (initialize2 st) = chosen
  ∧ selectedProviders (initialize2 st) = chosen
  ∧ (chosen = [] →
     requests (initialize2 st) = requests st
     ∧ appErrors (initialize2 st) = appErrors st
     ∧ allBooks (initialize2 st) = allBooks st
     ∧ allSeriesIds (initialize2 st) = []
     ∧ allBookIds (initialize2 st) = []).
Proof.
  intros chosen.
  destruct (registered_providers (cleared st) allProviders) as [Hp Hsel].
  split_and!.
  - by rewrite (initialize_settled providers st settled_providers).
  - by rewrite (initialize_settled selectedProviders st
                  settled_selectedProviders).
  - intros Hnone. unfold initialize.
    rewrite (registered_none _ _ Hnone). by cbn.
Qed.

Lemma assoc_fresh {T} key (data : list (string * T)) :
  key ∉ data.*1 → assoc key data = None.
Proof.
  induction data as [|[k v] data IH]; [done|]. cbn. intros Hfresh.
  apply not_elem_of_cons in Hfresh as [Hne Hfresh].
  destruct (String.eqb_spec k key) as [->|_]; [done|]. by apply IH.
Qed.

Lemma entry_of_keys params provs :
  (omap (entry_of params) provs).*1 ⊆ provider_id <$> provs.
Proof.
  induction provs as [|prov provs IH]; [done|].
  cbn [omap list_omap]. unfold entry_of at 1. rewrite fmap_cons.
  destruct (0 <? length (params prov))%nat.
  - rewrite fmap_cons. intros key [->|Hin]%elem_of_cons; [left|].
    right. by apply IH.
  - intros key Hin. right. by apply IH.
Qed.

Lemma entry_of_Some params prov entry :
  entry_of params prov = Some entry →
  entry = (provider_id prov, params prov).
Proof. unfold entry_of. by destruct (0 <? _)%nat; intros [= <-]. Qed.

Lemma assoc_registered params provs key :
  NoDup (provider_id <$> provs) →
  assoc key (omap (entry_of params) provs) = ids_of params provs key.
Proof.
  unfold ids_of. induction provs as [|prov provs IH]; [done|].
  rewrite fmap_cons. intros [Hnew Hnd]%NoDup_cons.
  cbn [omap list_omap find]. destruct (String.eqb_spec (provider_id prov) key)
    as [<-|Hne].
  - cbn [mbind option_bind].
    destruct (entry_of params prov) as [entry|] eqn:Hentry.
    + apply entry_of_Some in Hentry as ->.
      cbn [fmap option_fmap option_map snd assoc].
      by rewrite String.eqb_refl.
    + cbn [fmap option_fmap option_map]. apply assoc_fresh.
      intros Hin. apply Hnew. by apply (entry_of_keys params provs).
  - rewrite <- IH by done.
    destruct (entry_of params prov) as [entry|] eqn:Hentry; [|done].
    apply entry_of_Some in Hentry as ->. cbn [assoc].
    by destruct (String.eqb_spec (provider_id prov) key).
Qed.

(** X21.  With providers of distinct ids, the two id
    records hold after [initialize], under the id of a provider, the
    series ids and the book ids that the URL holds for it, and nothing
    under an id whose list is empty or that no provider has; and when
    the URL holds more than ten ids in all, [initialize] sends no
    request, loads no series and no book, and reports the one error
    that names the limit. *)
Theorem initialize_limit (st : State) :
  NoDup (provider_id <$> allProviders) →
  (∀ key,
     assoc key (allSeriesIds (initialize2 st))
     = ids_of series_params2 allProviders key)
  ∧ (∀ key,
       assoc key (allBookIds (initialize2 st))
       = ids_of book_params2 allProviders key)
  ∧ (10 < count_params2 allProviders →
     requests (initialize2 st) = requests st
     ∧ allSeries (initialize2 st) = allSeries st
     ∧ allBooks (initialize2 st) = allBooks st
     ∧ appErrors (initialize2 st)
       = appErrors st
         ++ ["Too many series selected. Please select up to 10 series at a time."]).
Proof.
  intros Hnd.
  destruct (registered_ids (cleared st) allProviders Hnd) as [Hseries Hbooks].
  { intros prov _. split; apply not_elem_of_nil. }
  change (allSeriesIds (cleared st) ++ ?l) with l in Hseries.
  change (allBookIds (cleared st) ++ ?l) with l in Hbooks.
  pose proof (initialize_settled (λ s, (allSeriesIds s, allBookIds s)) st
                settled_ids (λ _ _, eq_refl)) as [= Hs Hb].
  split_and!.
  - intros key. rewrite Hs, Hseries. by apply assoc_registered.
  - intros key. rewrite Hb, Hbooks. by apply assoc_registered.
  - intros Hmany. unfold initialize.
    set (stR := foldl _ _ allProviders) in *.
    rewrite Hseries, Hbooks, countIds_registered.
    destruct (Z.ltb_spec MAX_SELECTED_SERIES (count_params2 allProviders))
      as [_|Hle]; [|unfold MAX_SELECTED_SERIES in Hle; lia].
    cbn [addAppError requests allSeries allBooks appErrors set_appErrors].
    subst stR. rewrite (registered_view requests st),
      (registered_view allSeries st), (registered_view allBooks st),
      (registered_view appErrors st) by done.
    done.
Qed.

End Frames.

(** ** The images of a download, slot by slot *)

Section CoverSlots.
Import BBC_API Covers.

Variable parseInt : string → option Z.
Variable respond :
  nat → list string → option (list (string * Packaging.buffer)).

#[local] Abbreviation number2 := (number parseInt).
#[local] Abbreviation numbered2 := (numbered parseInt).
#[local] Abbreviation unpack2 := (unpack parseInt).
#[local] Abbreviation finish2 := (finish parseInt respond).
#[local] Abbreviation getCovers2 := (getCovers parseInt respond).
#[local] Abbreviation well_numbered2 := (well_numbered parseInt).

(** *** The chunks of six *)

Lemma chopArray_six {T} (array : list T) :
  ∃ chunks,
    chopArray array zipMaxCount = Some chunks
    ∧ concat chunks = array
    ∧ Forall (λ c, (length c ≤ 6)%nat) chunks
    ∧ (∀ k c, chunks !! k = Some c → (S k < length chunks)%nat →
              length c = 6%nat).
Proof.
  destruct (chop_loop_spec array zipMaxCount
              ltac:(unfold zipMaxCount; lia) (length array) 0%nat [])
    as (chunks & Hchop & Hcat & Hall & _ & Hfull); [lia|].
  exists chunks. rewrite drop_0 in Hcat. split_and!; [done|done| |done].
  eapply Forall_impl; [exact Hall|]. by intros c [_ Hle].
Qed.

Lemma length_concat_le {T} (chunks : list (list T)) :
  Forall (λ c, (length c ≤ 6)%nat) chunks →
  (length (concat chunks) ≤ 6 * length chunks)%nat.
Proof.
  induction 1 as [|c rest Hc _ IH]; [done|].
  cbn [concat length]. rewrite length_app. lia.
Qed.

Lemma length_concat_take {T} (chunks : list (list T)) k :
  (∀ k c, chunks !! k = Some c → (S k < length chunks)%nat →
          length c = 6%nat) →
  (k < length chunks)%nat →
  length (concat (take k chunks)) = (6 * k)%nat.
Proof.
  revert k. induction chunks as [|c rest IH]; intros k Hfull Hk;
    [cbn in Hk; lia|].
  destruct k as [|k]; [done|]. cbn [take concat length] in *.
  rewrite length_app, IH.
  - rewrite (Hfull 0%nat c); [lia|done|cbn; lia].
  - intros j c' Hj Hlast. apply (Hfull (S j)); [done|cbn; lia].
  - lia.
Qed.

Lemma chunk_within {T} (chunks : list (list T)) k c :
  (∀ k c, chunks !! k = Some c → (S k < length chunks)%nat →
          length c = 6%nat) →
  chunks !! k = Some c →
  (6 * k + length c ≤ length (concat chunks))%nat.
Proof.
  intros Hfull Hk. pose proof (lookup_lt_Some _ _ _ Hk) as Hlt.
  pose proof (length_concat_take chunks k Hfull Hlt) as Htake.
  rewrite <- (take_drop_middle chunks k c Hk), concat_app, length_app.
  cbn [concat]. rewrite length_app. lia.
Qed.

Lemma chunk_of_slot {T} (chunks : list (list T)) i :
  Forall (λ c, (length c ≤ 6)%nat) chunks →
  (i < length (concat chunks))%nat → (i / 6 < length chunks)%nat.
Proof.
  intros Hsmall Hi. pose proof (length_concat_le chunks Hsmall).
  apply Nat.Div0.div_lt_upper_bound. lia.
Qed.

Lemma sum_list_with_agree {A} (f g : A → nat) l :
  (∀ x, x ∈ l → f x = g x) → sum_list_with f l = sum_list_with g l.
Proof.
  induction l as [|x l IH]; intros Hfg; [done|]. cbn [sum_list_with].
  rewrite (Hfg x), IH; [done| |left]. intros y Hy. apply Hfg. by right.
Qed.

Lemma sum_chunk_lengths {T} (chunks : list (list T)) :
  sum_list_with (λ k, length (default [] (chunks !! k)))
    (seq 0 (length chunks))
  = length (concat chunks).
Proof.
  induction chunks as [|c rest IH] using rev_ind; [done|].
  rewrite length_app, concat_app, length_app. cbn [length concat].
  rewrite Nat.add_1_r, seq_S, sum_list_with_app, app_nil_r, <- IH.
  cbn [sum_list_with plus]. rewrite lookup_app_r, Nat.sub_diag by done.
  cbn [lookup list_lookup default]. rewrite Nat.add_0_r. f_equal.
  apply sum_list_with_agree. intros k [_ Hk]%elem_of_seq.
  by rewrite lookup_app_l by (cbn in Hk; lia).
Qed.

(** *** One archive *)

Lemma store_inside allImages (p : nat) image :
  (p < length allImages)%nat → Z.of_nat (length allImages) ≤ 4294967295 →
  store allImages (Some (Z.of_nat p)) image = <[p := Some image]> allImages.
Proof.
  intros Hp Hlen. unfold store.
  destruct (Z.leb_spec 0 (Z.of_nat p)); [|lia].
  destruct (Z.ltb_spec (Z.of_nat p) 4294967295); [|lia].
  destruct (Z.ltb_spec (Z.of_nat p) (Z.of_nat (length allImages))); [|lia].
  by rewrite Nat2Z.id.
Qed.

Lemma numbered_snoc files file n :
  numbered2 (files ++ [file]) n
  = if bool_decide (number2 file = Some n) then Some file.2
    else numbered2 files n.
Proof.
  unfold numbered. rewrite List.filter_app. cbn [List.filter].
  destruct (bool_decide _); [by rewrite last_snoc|by rewrite app_nil_r].
Qed.

Lemma well_numbered_snoc chunk files file :
  well_numbered2 chunk (files ++ [file]) = true →
  well_numbered2 chunk files = true
  ∧ ∃ n : nat, number2 file = Some (Z.of_nat n + 1)
               ∧ (n < length chunk)%nat.
Proof.
  unfold well_numbered. rewrite forallb_app. cbn [forallb].
  intros [Hfiles Hfile]%andb_prop. split; [done|].
  destruct (number2 file) as [n|]; [|done].
  rewrite andb_true_r in Hfile. apply andb_prop in Hfile as [Hlo Hhi].
  apply Z.leb_le in Hlo, Hhi. exists (Z.to_nat (n - 1)). split; [|lia].
  f_equal. lia.
Qed.

(** What an archive puts into slot [i], if anything. *)
#[local] Abbreviation slot k files i :=
  (if decide ((i / 6)%nat = k)
   then numbered2 files (Z.of_nat (i mod 6) + 1) else None).

Lemma unpack_slots k chunk files allImages :
  well_numbered2 chunk files = true →
  (length chunk ≤ 6)%nat →
  (6 * k + length chunk ≤ length allImages)%nat →
  Z.of_nat (length allImages) ≤ 4294967295 →
  length (unpack2 k files allImages) = length allImages
  ∧ ∀ i, unpack2 k files allImages !! i
         = match slot k files i with
           | Some image => (λ _, Some image) <$> allImages !! i
           | None => allImages !! i
           end.
Proof.
  intros Hfiles Hsmall Hin Hlen. unfold unpack.
  induction files as [|file files IH] using rev_ind.
  { split; [done|]. intros i. cbn. by destruct (decide _). }
  apply well_numbered_snoc in Hfiles as (Hfiles & n & Hn & Hbound).
  destruct (IH Hfiles) as [IHlen IHslots]. clear IH.
  rewrite foldl_app. cbn [foldl]. set (arr := foldl _ allImages files) in *.
  unfold originalIndex. fold (number2 file).
  rewrite Hn. cbn [fmap option_fmap option_map].
  replace (Z.of_nat (k * zipMaxCount) + (Z.of_nat n + 1 - 1))
    with (Z.of_nat (6 * k + n)) by (unfold zipMaxCount; lia).
  rewrite store_inside by lia. split; [by rewrite length_insert|].
  intros i. rewrite numbered_snoc.
  destruct (decide (i = 6 * k + n)%nat) as [->|Hne].
  - rewrite list_lookup_insert_eq by lia.
    replace ((6 * k + n) / 6)%nat with k
      by (apply (Nat.div_unique _ 6 k n); lia).
    replace ((6 * k + n) mod 6)%nat with n
      by (apply (Nat.mod_unique _ 6 k n); lia).
    rewrite decide_True by done. rewrite bool_decide_true by done.
    destruct (lookup_lt_is_Some_2 allImages (6 * k + n)%nat) as [x ->];
      [lia|]. done.
  - rewrite list_lookup_insert_ne by done. rewrite IHslots.
    destruct (decide ((i / 6)%nat = k)) as [Hk|]; [|done].
    rewrite bool_decide_false; [done|]. rewrite Hn. intros Heq.
    assert (Z.of_nat n + 1 = Z.of_nat (i mod 6) + 1) by congruence.
    apply Hne. pose proof (Nat.div_mod_eq i 6). lia.
Qed.

(** *** All the archives *)

Lemma finish_unpacked urls chunks finished state k :
  concat chunks = urls →
  Forall (λ c, (length c ≤ 6)%nat) chunks →
  (∀ k c, chunks !! k = Some c → (S k < length chunks)%nat →
          length c = 6%nat) →
  Z.of_nat (length urls) ≤ 4294967295 →
  (∀ k chunk files,
     chunks !! k = Some chunk → respond k chunk = Some files →
     well_numbered2 chunk files = true) →
  k ∉ finished → (k < length chunks)%nat →
  unpacked parseInt respond chunks (length urls) finished state →
  unpacked parseInt respond chunks (length urls) (finished ++ [k])
    (finish2 chunks state k).
Proof.
  intros Hcat Hsmall Hfull Hlen Hnumbered Hnew Hk Hstate.
  destruct state as [[[allImages progress] reported]|]; unfold finish;
    cbn [mbind option_bind].
  2:{ destruct Hstate as (k' & Hin & Hlt & Hnone). exists k'.
      split; [|done]. apply elem_of_app. by left. }
  destruct Hstate as (Hsize & Hanswers & Hcells).
  destruct (lookup_lt_is_Some_2 chunks k Hk) as [chunk Hchunk].
  rewrite Hchunk. cbn [mbind option_bind].
  destruct (respond k chunk) as [files|] eqn:Hfiles;
    cbn [mbind option_bind unpacked].
  2:{ exists k. split_and!; [apply elem_of_app; right; by left|done|].
      unfold answer. rewrite Hchunk. exact Hfiles. }
  assert (Hanswer : answer respond chunks k = Some files).
  { unfold answer. rewrite Hchunk. exact Hfiles. }
  destruct (unpack_slots k chunk files allImages) as [Hsame Hslots].
  { by eapply Hnumbered. }
  { by eapply (Forall_lookup_1 _ _ _ _ Hsmall). }
  { rewrite Hsize, <- Hcat. by apply chunk_within. }
  { by rewrite Hsize. }
  split_and!.
  - by rewrite Hsame.
  - intros k' [Hin| ->%list_elem_of_singleton]%elem_of_app;
      [by apply Hanswers|by rewrite Hanswer].
  - intros i Hi. rewrite Hslots, (Hcells i Hi). unfold cell.
    destruct (decide ((i / 6)%nat = k)) as [->|Hother].
    + rewrite (decide_True (P := (_ ∈ finished ++ [_])))
        by (apply elem_of_app; right; by left).
      rewrite decide_False by done. rewrite Hanswer. cbn [mbind option_bind].
      by destruct (numbered2 files _).
    + destruct (decide ((i / 6)%nat ∈ finished)) as [Hin|Hout].
      * by rewrite decide_True by (apply elem_of_app; by left).
      * rewrite decide_False; [done|].
        intros [?| ?%list_elem_of_singleton]%elem_of_app; done.
Qed.

Lemma foldl_unpacked urls chunks order :
  concat chunks = urls →
  Forall (λ c, (length c ≤ 6)%nat) chunks →
  (∀ k c, chunks !! k = Some c → (S k < length chunks)%nat →
          length c = 6%nat) →
  Z.of_nat (length urls) ≤ 4294967295 →
  (∀ k chunk files,
     chunks !! k = Some chunk → respond k chunk = Some files →
     well_numbered2 chunk files = true) →
  NoDup order → (∀ k, k ∈ order → (k < length chunks)%nat) →
  unpacked parseInt respond chunks (length urls) order
    (foldl (finish2 chunks) (Some (replicate (length urls) None, 0, []))
       order).
Proof.
  intros Hcat Hsmall Hfull Hlen Hnumbered.
  induction order as [|k order IH] using rev_ind; intros Hnd Hin.
  { cbn. split_and!.
    - by rewrite length_replicate.
    - intros k Hk. by apply elem_of_nil in Hk.
    - intros i Hi. unfold cell. rewrite decide_False by apply not_elem_of_nil.
      by apply lookup_replicate_2. }
  rewrite foldl_app. cbn [foldl].
  apply NoDup_app in Hnd as (Hnd & Hnew & _).
  apply (finish_unpacked urls); try done.
  - intros Hk. by apply (Hnew k Hk); left.
  - apply Hin, elem_of_app. right. by left.
  - apply IH; [done|]. intros k' Hk'. apply Hin, elem_of_app. by left.
Qed.

(** X22.  When every archive numbers its files within
    the chunk it answers, [getCovers] gives one slot per URL whatever
    the order in which the downloads end: slot [i] holds the last file
    numbered [i mod 6 + 1] of the archive answered for chunk [i div 6],
    and nothing when that archive has no such file.  The call fails
    only when the download of a chunk fails. *)
Theorem getCovers_slots (order : list nat) (urls : list string)
    (chunks : list (list string)) :
  chopArray urls zipMaxCount = Some chunks →
  order ≡ₚ seq 0 (length chunks) →
  Z.of_nat (length urls) ≤ 4294967295 →
  (∀ k chunk files,
     chunks !! k = Some chunk → respond k chunk = Some files →
     well_numbered2 chunk files = true) →
  match getCovers2 order urls with
  | Some (images, reported) =>
      length images = length urls
      ∧ (∀ i, (i < length urls)%nat →
           ∃ chunk files,
             chunks !! (i / 6)%nat = Some chunk
             ∧ respond (i / 6)%nat chunk = Some files
             ∧ images !! i
               = Some (numbered2 files (Z.of_nat (i mod 6) + 1)))
  | None => ∃ k chunk, chunks !! k = Some chunk ∧ respond k chunk = None
  end.
Proof.
  intros Hchop Horder Hlen Hnumbered.
  destruct (chopArray_six urls) as (chunks' & Hchop' & Hcat & Hsmall & Hfull).
  rewrite Hchop in Hchop'. injection Hchop' as <-.
  assert (Hnd : NoDup order) by (rewrite Horder; apply NoDup_seq).
  assert (Hin : ∀ k, k ∈ order → (k < length chunks)%nat).
  { intros k. rewrite Horder, elem_of_seq. lia. }
  pose proof (foldl_unpacked urls chunks order Hcat Hsmall Hfull Hlen
                Hnumbered Hnd Hin) as Hstate.
  unfold getCovers. rewrite Hchop. cbn [mbind option_bind].
  destruct (foldl _ _ order) as [[[images progress] reported]|];
    cbn [option_bind].
  2:{ destruct Hstate as (k & _ & Hk & Hnone).
      destruct (lookup_lt_is_Some_2 chunks k Hk) as [chunk Hchunk].
      exists k, chunk. split; [done|]. unfold answer in Hnone.
      by rewrite Hchunk in Hnone. }
  destruct Hstate as (Hsize & Hanswers & Hcells).
  split; [done|]. intros i Hi.
  assert (Hk : (i / 6 < length chunks)%nat)
    by (apply chunk_of_slot; [done|by rewrite Hcat]).
  destruct (Hanswers (i / 6)%nat) as [files Hfiles].
  { rewrite Horder, elem_of_seq. lia. }
  unfold answer in Hfiles.
  destruct (chunks !! (i / 6)%nat) as [chunk|] eqn:Hchunk; [|done].
  cbn [mbind option_bind] in Hfiles.
  exists chunk, files. split_and!; [done|done|].
  rewrite (Hcells i Hi). unfold cell, answer.
  rewrite decide_True by (rewrite Horder, elem_of_seq; lia).
  rewrite Hchunk. cbn [mbind option_bind]. by rewrite Hfiles.
Qed.

(** *** The progress reported *)

Lemma finish_counted chunks finished state k :
  Forall (λ c, c ≠ []) chunks →
  counted chunks finished state →
  counted chunks (finished ++ [k]) (finish2 chunks state k).
Proof.
  intros Hfilled Hstate.
  destruct state as [[[allImages progress] reported]|]; unfold finish;
    cbn [mbind option_bind]; [|done].
  destruct Hstate as (Hprogress & Hcount & Hlast & Hrising).
  destruct (chunks !! k) as [chunk|] eqn:Hchunk; cbn [mbind option_bind];
    [|done].
  destruct (respond k chunk) as [files|]; cbn [mbind option_bind counted];
    [|done].
  assert (Hsize : (0 < length chunk)%nat).
  { pose proof (Forall_lookup_1 _ _ _ _ Hfilled Hchunk).
    destruct chunk; [done|cbn; lia]. }
  split_and!.
  - rewrite sum_list_with_app, Hprogress. cbn [sum_list_with].
    rewrite Hchunk. cbn [default from_option]. unfold Datatypes.id. lia.
  - by rewrite !length_app, Hcount.
  - by rewrite app_comm_cons, last_snoc.
  - intros i j p q Hij Hi Hj. rewrite app_comm_cons in Hi, Hj.
    assert (Hbelow : ∀ i p, (0 :: reported) !! i = Some p → p ≤ progress).
    { intros i' p' Hi'. rewrite last_lookup in Hlast.
      destruct (decide (i' = pred (length (0 :: reported)))) as [->|Hne].
      - rewrite Hlast in Hi'. injection Hi' as <-. lia.
      - pose proof (lookup_lt_Some _ _ _ Hi') as Hlt.
        assert (Hearlier : (i' < pred (length (0%Z :: reported)))%nat)
          by (cbn [length] in *; lia).
        pose proof (Hrising i' _ p' progress Hearlier Hi' Hlast). lia. }
    apply lookup_app_Some in Hi as [Hi|[Hlen Hi]];
      apply lookup_app_Some in Hj as [Hj|[Hlen' Hj]].
    + by apply (Hrising i j).
    + apply list_lookup_singleton_Some in Hj as [_ <-].
      pose proof (Hbelow i p Hi). lia.
    + pose proof (lookup_lt_Some _ _ _ Hj). lia.
    + apply list_lookup_singleton_Some in Hi as [? _].
      apply list_lookup_singleton_Some in Hj as [? _]. lia.
Qed.

Lemma foldl_counted chunks order :
  Forall (λ c, c ≠ []) chunks →
  ∀ size,
    counted chunks order
      (foldl (finish2 chunks) (Some (replicate size None, 0, [])) order).
Proof.
  intros Hfilled size. induction order as [|k order IH] using rev_ind.
  { cbn. split_and!; try done. intros [|i] [|j] p q; try done; lia. }
  rewrite foldl_app. cbn [foldl]. by apply finish_counted.
Qed.

(** X23.  When [getCovers] returns, it has called
    [callback] once per chunk, whatever the order in which the
    downloads ended, with values that start above zero, grow strictly
    from call to call and end on the number of URLs. *)
Theorem getCovers_progress (order : list nat) (urls : list string)
    (chunks : list (list string)) :
  chopArray urls zipMaxCount = Some chunks →
  order ≡ₚ seq 0 (length chunks) →
  ∀ images reported,
    getCovers2 order urls = Some (images, reported) →
    length reported = length chunks
    ∧ last (0 :: reported) = Some (Z.of_nat (length urls))
    ∧ ∀ i j p q, (i < j)%nat → (0 :: reported) !! i = Some p →
                 (0 :: reported) !! j = Some q → p < q.
Proof.
  intros Hchop Horder images reported. unfold getCovers. rewrite Hchop.
  cbn [mbind option_bind].
  destruct (chop_loop_spec urls zipMaxCount
              ltac:(unfold zipMaxCount; lia) (length urls) 0%nat [])
    as (chunks' & Hchop' & Hcat & Hall & _); [lia|].
  unfold chopArray in Hchop. rewrite Hchop in Hchop'.
  injection Hchop' as <-. rewrite drop_0 in Hcat.
  assert (Hfilled : Forall (λ c : list string, c ≠ []) chunks).
  { eapply Forall_impl; [exact Hall|]. by intros c [Hc _]. }
  pose proof (foldl_counted chunks order Hfilled (length urls)) as Hstate.
  destruct (foldl _ _ order) as [[[images' progress] reported']|];
    cbn [option_bind]; [|done].
  intros [= <- <-]. destruct Hstate as (Hprogress & Hcount & Hlast & Hrising).
  split_and!.
  - by rewrite Hcount, Horder, length_seq.
  - by rewrite Hlast, Hprogress, Horder, sum_chunk_lengths, Hcat.
  - exact Hrising.
Qed.

End CoverSlots.

(** ** Worked instances of the further properties *)

Lemma toggleBook_selection_witness :
  let st := Selection.mkState [Samples.named "a"] None in
  let st' := Selection.toggleBook (Samples.named "b") None st in
  NoDup (Selection.key <$> Selection.selectedBooks st')
  ∧ Selection.isBookSelected (Samples.named "b") st'
    = negb (Selection.isBookSelected (Samples.named "b") st)
  ∧ (∀ other, Selection.key other ≠ Selection.key (Samples.named "b") →
              Selection.isBookSelected other st'
              = Selection.isBookSelected other st)
  ∧ Selection.lastToggledBook st' = Some (Samples.named "b").
Proof.
  apply (toggleBook_selection (Samples.named "b") None
           (Selection.mkState [Samples.named "a"] None)).
  apply NoDup_singleton.
Defined.

Lemma shiftSelect_range_witness :
  let shown := [Samples.named "a"; Samples.named "b"; Samples.named "c"] in
  let st := Selection.mkState [Samples.named "a"] (Some (Samples.named "a")) in
  ∃ st',
    Selection.shiftSelect shown true (Samples.named "c") st = Some st'
    ∧ NoDup (Selection.key <$> Selection.selectedBooks st')
    ∧ (0 = 2 → st' = st)
    ∧ (0 ≠ 2 →
       ∀ other,
         Selection.isBookSelected other st'
         = if decide (Selection.key other
                      ∈ Selection.key <$> JS.slice shown 0 3)
           then negb (Selection.isBookSelected (Samples.named "c") st)
           else Selection.isBookSelected other st).
Proof.
  apply (shiftSelect_range
           [Samples.named "a"; Samples.named "b"; Samples.named "c"]
           (Samples.named "c") (Samples.named "a")
           (Selection.mkState [Samples.named "a"] (Some (Samples.named "a"))));
    [apply NoDup_singleton|reflexivity|vm_compute; discriminate
    |vm_compute; discriminate].
Defined.

Lemma getCoverQualityScore_monotone_witness :
  Cover.getCoverQualityScore Samples.png_1000
  ≤ Cover.getCoverQualityScore
      (Samples.with_cover Samples.png_1000 "png" 2000 1500 None).
Proof.
  apply (getCoverQualityScore_monotone Samples.png_1000
           (Samples.with_cover Samples.png_1000 "png" 2000 1500 None)
           1000 1000 2000 1500);
    try reflexivity; lia.
Defined.

Lemma getCoverQualityScore_formats_witness :
  4 ≤ Cover.getCoverQualityScore Samples.jpeg_1000_no_chroma
  ∧ Cover.getCoverQualityScore Samples.jpeg_1000_no_chroma
    ≤ Cover.getCoverQualityScore Samples.png_1000.
Proof.
  destruct (getCoverQualityScore_formats Samples.jpeg_1000_no_chroma
              Samples.png_1000)
    as (Hlow & Hpng & _); [reflexivity|reflexivity|vm_compute; discriminate|].
  split; [exact Hlow|]. apply Hpng. reflexivity.
Defined.

Lemma cropCover_narrows_witness :
  Crop.coverShouldBeCropped Samples.png_900_1200 = true
  ∧ ∃ width,
      coverWidth (Crop.cropCover Samples.getUrl "jpg" 98 Samples.png_900_1200)
      = Some width
      ∧ 0 < width < 900.
Proof.
  split; [reflexivity|].
  destruct (cropCover_narrows Samples.getUrl "jpg" 98 Samples.png_900_1200
              eq_refl)
    as (w & h & a & o & t & ta & Hw & Hh & Ha & Hsixth & Hcw & _).
  exists (w - Z.abs a). split; [exact Hcw|].
  injection Hw as <-. lia.
Defined.

Lemma getVolumeNumber_numeral_witness :
  Title.getVolumeNumber "Vol. 007" = Some "7"
  ∧ Numeral.is_numeral "7" = true.
Proof.
  assert (H : Title.getVolumeNumber "Vol. 007" = Some "7")
    by (vm_compute; reflexivity).
  split; [exact H|].
  exact (proj1 (getVolumeNumber_numeral "Vol. 007" "7" H)).
Defined.

Lemma downloadSelectedCovers_distinct_names_witness :
  let st := Packaging.mkState [Samples.named "a"; Samples.named "b"] ∅ None in
  let kept :=
    omap (Archive.stored Samples.filterFilename Samples.fileTypeFromBuffer
            Samples.render "path" "name")
         (Packaging.entries (Packaging.selectedBooks st)
            [Some [255]; Some [137]]) in
  size (list_to_map kept : gmap string Packaging.buffer) = length kept.
Proof.
  intros st kept.
  refine (proj1 (proj2
    (downloadSelectedCovers_distinct_names Samples.filterFilename
       Samples.fileTypeFromBuffer Samples.render "path" "name" "zip"
       Samples.assignUnder st [Some [255]; Some [137]] eq_refl eq_refl _ _))).
  - change (NoDup ["a.jpg"; "b.png"]).
    apply NoDup_cons_2; [|apply NoDup_singleton].
    by intros [=]%list_elem_of_singleton.
  - change ("__proto__" ∉ ["a.jpg"; "b.png"]).
    apply not_elem_of_cons. split; [done|].
    by intros [=]%list_elem_of_singleton.
Defined.

Lemma downloadSelectedCovers_only_eligible_witness :
  let st := Packaging.mkState [Samples.named "a"; Samples.named "b"] ∅ None in
  (length
     (Packaging.downloadSelectedCovers Samples.filterFilename
        Samples.fileTypeFromBuffer Samples.render "path" "name" "zip"
        Samples.assignUnder st (Some [Some [255%Z]; None])).1.2 ≤ 1)%nat.
Proof.
  intros st.
  pose proof (downloadSelectedCovers_only_eligible Samples.filterFilename
                Samples.fileTypeFromBuffer Samples.render "path" "name"
                "zip" Samples.assignUnder st [Some [255]; None] eq_refl) as H.
  cbv zeta in H.
  destruct (Packaging.downloadSelectedCovers _ _ _ _ _ _ _ st _)
    as [[st' saved] reported]. exact (proj1 H).
Defined.

Lemma initialize_limit_witness :
  let params key :=
    if String.eqb key "series(a)" then replicate 11 "s" else [] in
  let st :=
    Orchestrator.initialize Samples.getSeries Samples.getBooks
      Samples.getBookPages Samples.getInfo Samples.getUrl
      Samples.replaceTextVariables Samples.getLocaleName "{VOLUME_NAME}"
      true "jpg" 98 [Samples.provider_a; Samples.provider_b] params
      Samples.fresh in
  Orchestrator.assoc "a" (Orchestrator.allSeriesIds st)
  = Some (replicate 11 "s")
  ∧ Orchestrator.requests st = []
  ∧ Orchestrator.appErrors st
    = ["Too many series selected. Please select up to 10 series at a time."].
Proof.
  intros params st.
  assert (Hnd : NoDup (provider_id <$> [Samples.provider_a;
                                         Samples.provider_b])).
  { apply (bool_decide_unpack _). reflexivity. }
  destruct (initialize_limit Samples.getSeries Samples.getBooks
              Samples.getBookPages Samples.getInfo Samples.getUrl
              Samples.replaceTextVariables Samples.getLocaleName
              "{VOLUME_NAME}" true "jpg" 98
              [Samples.provider_a; Samples.provider_b] params
              Samples.fresh Hnd) as (Hseries & _ & Hmany).
  destruct Hmany as (Hsent & _ & _ & Herrors); [reflexivity|].
  split_and!; [exact (Hseries "a")|exact Hsent|exact Herrors].
Defined.

Lemma getCovers_slots_witness :
  let parseInt name :=
    if String.eqb name "1" then Some 1
    else if String.eqb name "3" then Some 3 else None in
  let respond (k : nat) (chunk : list string) :=
    match k with
    | O => Some [("1.jpg", [1]); ("3.jpg", [3])]
    | _ => Some [("1.png", [7])]
    end in
  match
    Covers.getCovers parseInt respond [1; 0]%nat
      ["a"; "b"; "c"; "d"; "e"; "f"; "g"]
  with
  | Some (images, reported) =>
      length images = 7%nat ∧ images !! 6%nat = Some (Some [7])
  | None => False
  end.
Proof.
  intros parseInt respond.
  pose proof (getCovers_slots parseInt respond [1; 0]%nat
                ["a"; "b"; "c"; "d"; "e"; "f"; "g"]
                [["a"; "b"; "c"; "d"; "e"; "f"]; ["g"]] eq_refl
                (perm_swap _ _ _)) as Hslots.
  destruct (Covers.getCovers _ _ _ _) as [[images reported]|].
  - destruct Hslots as (Hsize & Hcells).
    + cbn. lia.
    + intros [|[|k]] chunk files; cbn; intros [= <-] [= <-]; reflexivity.
    + split; [exact Hsize|].
      destruct (Hcells 6%nat) as (chunk & files & Hchunk & Hfiles & Hcell);
        [cbn; lia|].
      refine (eq_trans Hcell _).
      injection Hchunk as <-. injection Hfiles as <-. reflexivity.
  - destruct Hslots as (k & chunk & Hchunk & Hfiles).
    + cbn. lia.
    + intros [|[|k]] chunk files; cbn; intros [= <-] [= <-]; reflexivity.
    + by destruct k as [|[|k]].
Defined.

Lemma getCovers_progress_witness :
  let parseInt name :=
    if String.eqb name "1" then Some 1
    else if String.eqb name "3" then Some 3 else None in
  let respond (k : nat) (chunk : list string) :=
    match k with
    | O => Some [("1.jpg", [1]); ("3.jpg", [3])]
    | _ => Some [("1.png", [7])]
    end in
  Covers.getCovers parseInt respond [1; 0]%nat
    ["a"; "b"; "c"; "d"; "e"; "f"; "g"]
  = Some ([Some [1]; None; Some [3]; None; None; None; Some [7]], [1; 7])
  ∧ last (0 :: [1; 7]) = Some 7.
Proof.
  intros parseInt respond. split; [reflexivity|].
  exact (proj1 (proj2
           (getCovers_progress parseInt respond [1; 0]%nat
              ["a"; "b"; "c"; "d"; "e"; "f"; "g"]
              [["a"; "b"; "c"; "d"; "e"; "f"]; ["g"]] eq_refl
              (perm_swap _ _ _) _ _ eq_refl))).
Defined.

Lemma automaticallyPickCovers_idempotent_witness :
  let pick :=
    Picker.automaticallyPickCovers
      [Samples.provider_a; Samples.provider_b] 0 in
  NoDup (addr <$> Samples.shelf)
  ∧ pick (pick Samples.shelf) = pick Samples.shelf.
Proof.
  intros pick.
  assert (Hnd : NoDup (addr <$> Samples.shelf)).
  { change (NoDup [0; 1; 2]%nat).
    repeat (apply NoDup_cons_2;
            [rewrite ?elem_of_cons, elem_of_nil; lia|]).
    apply NoDup_nil_2. }
  split; [exact Hnd|].
  exact (proj1 (automaticallyPickCovers_idempotent
                  [Samples.provider_a; Samples.provider_b] 0
                  Samples.shelf Hnd)).
Defined.
